(** * Scene-graph renderer: a shallow embedding of the update pipeline

    The development follows the TypeScript sources:
    - [RendererUtils.createIndexBuffer]
        (src/core/renderers/webgl/internal/RendererUtils.ts),
    - [WebGlCoreRenderOp.addTexture]
        (src/core/renderers/webgl/WebGlCoreRenderOp.ts),
    - the [CoreNode] class: dirty flags, transforms, bounds, render state,
      render-to-texture and the parent/children tree.

    Objects live in a store indexed by their identity; methods are state
    transformers that may throw.  Recursive methods take a fuel argument;
    running out of fuel is a result of its own, distinct from a throw. *)

From Stdlib Require Import ZArith String.
From stdpp Require Import gmap list.

Local Open Scope Z_scope.

(* ===================================================================== *)
(** * Results of possibly throwing computations                            *)
(* ===================================================================== *)

Inductive result (A : Type) : Type :=
| Ok (a : A)
| Throw (msg : string)
| OutOfFuel.
Arguments Ok {A} a.
Arguments Throw {A} msg.
Arguments OutOfFuel {A}.

Definition rbind {A B} (m : result A) (k : A -> result B) : result B :=
  match m with
  | Ok a => k a
  | Throw msg => Throw msg
  | OutOfFuel => OutOfFuel
  end.

Notation "'let!' x ':=' m 'in' k" := (rbind m (fun x => k))
  (at level 10, x name, m at level 100, k at level 200).
Notation "'let!' ' pat ':=' m 'in' k" :=
  (rbind m (fun x => match x with pat => k end))
  (at level 10, pat pattern, m at level 100, k at level 200).

(** [assertTruthy(cond, msg)]: throws when the condition is falsy. *)
Definition assertTruthy (cond : bool) (msg : string) : result unit :=
  if cond then Ok tt else Throw msg.

(* ===================================================================== *)
(** * RendererUtils.createIndexBuffer                                      *)
(* ===================================================================== *)

Module RendererUtils.

(** The device parameters read through [gl.getParameter]. *)
Record WebGLContext := {
  MAX_VERTEX_TEXTURE_IMAGE_UNITS : Z
}.

(** [ToInt32]: the conversion performed by the bitwise operators. *)
Definition toInt32 (z : Z) : Z := (z + 2 ^ 31) mod 2 ^ 32 - 2 ^ 31.

(** [~~(size / 80)] for an integral [size]: the quotient truncated
    towards zero, then wrapped to 32 bits. *)
Definition maxQuadsOf (size : Z) : Z := toInt32 (Z.quot size 80).

(** [indices[k] = v] on a [Uint16Array]: the value is stored modulo
    2^16 and a store outside the array is ignored. *)
Definition u16_store (k v : Z) (indices : list Z) : list Z :=
  if k <? 0 then indices else <[Z.to_nat k := v mod 65536]> indices.

(** One iteration of the body of the [for] loop. *)
Definition fill_quad (i j : Z) (indices : list Z) : list Z :=
  u16_store (i + 5) (j + 3)
    (u16_store (i + 4) (j + 1)
      (u16_store (i + 3) (j + 2)
        (u16_store (i + 2) (j + 2)
          (u16_store (i + 1) (j + 1)
            (u16_store i j indices))))).

(** [for (let i = 0, j = 0; i < maxQuads; i += 6, j += 4) { ... }] *)
Fixpoint fill_loop (fuel : nat) (maxQuads i j : Z) (indices : list Z)
  : result (list Z) :=
  if i <? maxQuads then
    match fuel with
    | O => OutOfFuel
    | S fuel' =>
        fill_loop fuel' maxQuads (i + 6) (j + 4) (fill_quad i j indices)
    end
  else Ok indices.

(** [createIndexBuffer(gl, size)].  The function returns nothing; the
    result of the model is the array handed to [gl.bufferData]. *)
Definition createIndexBuffer (gl : option WebGLContext) (size : Z)
  : result (list Z) :=
  match gl with
  | None => Throw "No WebGL context"
  | Some _ =>
      let maxQuads := maxQuadsOf size in
      if maxQuads <? 0 then Throw "RangeError: Invalid typed array length"
      else
        let indices := replicate (Z.to_nat (maxQuads * 6)) 0 in
        fill_loop (Z.to_nat maxQuads) maxQuads 0 0 indices
  end.

(** The six entries of quad [q] of an index array. *)
Definition quad_indices (indices : list Z) (q : nat) : list Z :=
  take 6 (drop (6 * q) indices).

(** The two triangles [(4q, 4q+1, 4q+2)] and [(4q+2, 4q+1, 4q+3)]. *)
Definition quad_triangles (q : nat) : list Z :=
  let b := 4 * Z.of_nat q in [b; b + 1; b + 2; b + 2; b + 1; b + 3].

End RendererUtils.

(* ===================================================================== *)
(** * WebGlCoreRenderOp.addTexture                                         *)
(* ===================================================================== *)

Module WebGlCoreRenderOp.
Import RendererUtils.

(** A [WebGlCoreCtxTexture] is compared by reference ([t === texture]):
    it is represented by its identity. *)
Definition WebGlCoreCtxTexture := nat.

Record t := {
  length : Z;
  numQuads : Z;
  textures : list WebGlCoreCtxTexture;
  maxTextures : Z
}.

(** The constructor: an empty texture list and the texture limit of the
    shader. *)
Definition new (gl : WebGLContext) (supportsIndexedTextures : bool) : t :=
  {| length := 0;
     numQuads := 0;
     textures := [];
     maxTextures :=
       if supportsIndexedTextures
       then MAX_VERTEX_TEXTURE_IMAGE_UNITS gl
       else 1 |}.

(** [textures.findIndex((t) => t === texture)], [None] standing for -1. *)
Fixpoint findIndex (texture : WebGlCoreCtxTexture)
    (ts : list WebGlCoreCtxTexture) : option nat :=
  match ts with
  | [] => None
  | t0 :: ts' =>
      if Nat.eqb t0 texture then Some O
      else option_map S (findIndex texture ts')
  end.

Definition CANNOT_BATCH : Z := 0xffffffff.

Definition push_texture (op : t) (texture : WebGlCoreCtxTexture) : t :=
  {| length := length op;
     numQuads := numQuads op;
     textures := textures op ++ [texture];
     maxTextures := maxTextures op |}.

(** [addTexture(texture)]: the returned index and the op afterwards. *)
Definition addTexture (op : t) (texture : WebGlCoreCtxTexture) : Z * t :=
  match findIndex texture (textures op) with
  | Some existingIdx => (Z.of_nat existingIdx, op)
  | None =>
      let newIdx := Z.of_nat (List.length (textures op)) in
      if newIdx >=? maxTextures op then (CANNOT_BATCH, op)
      else (newIdx, push_texture op texture)
  end.

(** Successive calls of [addTexture], collecting the returned indices. *)
Fixpoint addTextures (op : t) (ts : list WebGlCoreCtxTexture)
  : list Z * t :=
  match ts with
  | [] => ([], op)
  | tx :: ts' =>
      let '(idx, op1) := addTexture op tx in
      let '(idxs, op2) := addTextures op1 ts' in
      (idx :: idxs, op2)
  end.

End WebGlCoreRenderOp.

(* ===================================================================== *)
(** * CoreNode: data                                                       *)
(* ===================================================================== *)

(** [enum CoreNodeRenderState] with its numeric values. *)
Inductive CoreNodeRenderState : Type :=
| Init
| OutOfBounds
| InBounds
| InViewport.

Definition renderState_value (r : CoreNodeRenderState) : Z :=
  match r with
  | Init => 0
  | OutOfBounds => 2
  | InBounds => 4
  | InViewport => 8
  end.

Definition renderState_eqb (a b : CoreNodeRenderState) : bool :=
  renderState_value a =? renderState_value b.

(** [CoreNodeRenderStateMap]: the event name of a render state. *)
Definition CoreNodeRenderStateMap (r : CoreNodeRenderState) : option string :=
  match r with
  | Init => Some "init"%string
  | OutOfBounds => Some "outOfBounds"%string
  | InBounds => Some "inBounds"%string
  | InViewport => Some "inViewport"%string
  end.

(** [enum UpdateType]: the bits of the pending-update mask. *)
Module UpdateType.
Definition Children : Z := 1.
Definition ScaleRotate : Z := 2.
Definition Local : Z := 4.
Definition Global : Z := 8.
Definition Clipping : Z := 16.
Definition CalculatedZIndex : Z := 32.
Definition ZIndexSortedChildren : Z := 64.
Definition PremultipliedColors : Z := 128.
Definition WorldAlpha : Z := 256.
Definition RenderState : Z := 512.
Definition IsRenderable : Z := 1024.
Definition RenderTexture : Z := 2048.
Definition ParentRenderTexture : Z := 4096.
Definition None : Z := 0.
Definition All : Z := 8191.
End UpdateType.

(** The [type] of a texture resize mode. *)
Inductive ResizeModeType : Type :=
| cover
| contain.

(** [Matrix3d]: the 2x3 affine matrix [[ta tb tx] [tc td ty]]. *)
Module Matrix3d.
Record t (num : Type) : Type := mk {
  ta : num;
  tb : num;
  tx : num;
  tc : num;
  td : num;
  ty : num
}.
Arguments mk {num}.
Arguments ta {num} _.
Arguments tb {num} _.
Arguments tx {num} _.
Arguments tc {num} _.
Arguments td {num} _.
Arguments ty {num} _.
End Matrix3d.

(** [RenderCoords]: the four transformed corners, clockwise from the top left. *)
Module RenderCoords.
Record t (num : Type) : Type := mk {
  x1 : num;
  y1 : num;
  x2 : num;
  y2 : num;
  x3 : num;
  y3 : num;
  x4 : num;
  y4 : num
}.
Arguments mk {num}.
Arguments x1 {num} _.
Arguments y1 {num} _.
Arguments x2 {num} _.
Arguments y2 {num} _.
Arguments x3 {num} _.
Arguments y3 {num} _.
Arguments x4 {num} _.
Arguments y4 {num} _.
End RenderCoords.

(** [Bound]: an axis-aligned bound given by two opposite corners. *)
Module Bound.
Record t (num : Type) : Type := mk {
  x1 : num;
  y1 : num;
  x2 : num;
  y2 : num
}.
Arguments mk {num}.
Arguments x1 {num} _.
Arguments y1 {num} _.
Arguments x2 {num} _.
Arguments y2 {num} _.
End Bound.

(** [RectWithValid]: a rectangle and its validity flag. *)
Module Rect.
Record t (num : Type) : Type := mk {
  x : num;
  y : num;
  width : num;
  height : num;
  valid : bool
}.
Arguments mk {num}.
Arguments x {num} _.
Arguments y {num} _.
Arguments width {num} _.
Arguments height {num} _.
Arguments valid {num} _.
Definition set_valid {num : Type} (v : bool) (r : t num) : t num :=
  mk (x r) (y r) (width r) (height r) v.
End Rect.

(** [Dimensions] of a texture. *)
Module Dimensions.
Record t (num : Type) : Type := mk {
  width : num;
  height : num
}.
Arguments mk {num}.
Arguments width {num} _.
Arguments height {num} _.
End Dimensions.

(** A [Texture] handle: its identity (textures are compared by reference)
    and the dimensions the node sees on it. *)
Module Texture.
Record t (num : Type) : Type := mk {
  id : nat;
  dimensions : option (Dimensions.t num)
}.
Arguments mk {num}.
Arguments id {num} _.
Arguments dimensions {num} _.
End Texture.

(** [TextureOptions]: the fields the node reads. *)
Module TextureOptions.
Record t  : Type := mk {
  preload : bool;
  resizeMode : option ResizeModeType
}.
Definition set_preload (v : bool) (r : t) : t :=
  mk v (resizeMode r).
End TextureOptions.

(** [CoreNodeProps]: the writable properties of a node.  Nodes and shader
    controllers are referred to by identity. *)
Module Props.
Record t (num : Type) : Type := mk {
  x : num;
  y : num;
  width : num;
  height : num;
  alpha : num;
  autosize : bool;
  clipping : bool;
  color : num;
  colorTop : num;
  colorBottom : num;
  colorLeft : num;
  colorRight : num;
  colorTl : num;
  colorTr : num;
  colorBr : num;
  colorBl : num;
  parent : option nat;
  zIndex : num;
  texture : option (Texture.t num);
  textureOptions : option TextureOptions.t;
  shader : nat;
  src : string;
  zIndexLocked : num;
  scaleX : num;
  scaleY : num;
  mount : num;
  mountX : num;
  mountY : num;
  pivot : num;
  pivotX : num;
  pivotY : num;
  rotation : num;
  rtt : bool
}.
Arguments mk {num}.
Arguments x {num} _.
Arguments y {num} _.
Arguments width {num} _.
Arguments height {num} _.
Arguments alpha {num} _.
Arguments autosize {num} _.
Arguments clipping {num} _.
Arguments color {num} _.
Arguments colorTop {num} _.
Arguments colorBottom {num} _.
Arguments colorLeft {num} _.
Arguments colorRight {num} _.
Arguments colorTl {num} _.
Arguments colorTr {num} _.
Arguments colorBr {num} _.
Arguments colorBl {num} _.
Arguments parent {num} _.
Arguments zIndex {num} _.
Arguments texture {num} _.
Arguments textureOptions {num} _.
Arguments shader {num} _.
Arguments src {num} _.
Arguments zIndexLocked {num} _.
Arguments scaleX {num} _.
Arguments scaleY {num} _.
Arguments mount {num} _.
Arguments mountX {num} _.
Arguments mountY {num} _.
Arguments pivot {num} _.
Arguments pivotX {num} _.
Arguments pivotY {num} _.
Arguments rotation {num} _.
Arguments rtt {num} _.
Definition set_parent {num : Type} (v : option nat) (r : t num) : t num :=
  mk (x r) (y r) (width r) (height r) (alpha r) (autosize r) (clipping r) (color r) (colorTop r) (colorBottom r) (colorLeft r) (colorRight r) (colorTl r) (colorTr r) (colorBr r) (colorBl r) v (zIndex r) (texture r) (textureOptions r) (shader r) (src r) (zIndexLocked r) (scaleX r) (scaleY r) (mount r) (mountX r) (mountY r) (pivot r) (pivotX r) (pivotY r) (rotation r) (rtt r).
Definition set_texture {num : Type} (v : option (Texture.t num)) (r : t num) : t num :=
  mk (x r) (y r) (width r) (height r) (alpha r) (autosize r) (clipping r) (color r) (colorTop r) (colorBottom r) (colorLeft r) (colorRight r) (colorTl r) (colorTr r) (colorBr r) (colorBl r) (parent r) (zIndex r) v (textureOptions r) (shader r) (src r) (zIndexLocked r) (scaleX r) (scaleY r) (mount r) (mountX r) (mountY r) (pivot r) (pivotX r) (pivotY r) (rotation r) (rtt r).
Definition set_textureOptions {num : Type} (v : option TextureOptions.t) (r : t num) : t num :=
  mk (x r) (y r) (width r) (height r) (alpha r) (autosize r) (clipping r) (color r) (colorTop r) (colorBottom r) (colorLeft r) (colorRight r) (colorTl r) (colorTr r) (colorBr r) (colorBl r) (parent r) (zIndex r) (texture r) v (shader r) (src r) (zIndexLocked r) (scaleX r) (scaleY r) (mount r) (mountX r) (mountY r) (pivot r) (pivotX r) (pivotY r) (rotation r) (rtt r).
Definition set_shader {num : Type} (v : nat) (r : t num) : t num :=
  mk (x r) (y r) (width r) (height r) (alpha r) (autosize r) (clipping r) (color r) (colorTop r) (colorBottom r) (colorLeft r) (colorRight r) (colorTl r) (colorTr r) (colorBr r) (colorBl r) (parent r) (zIndex r) (texture r) (textureOptions r) v (src r) (zIndexLocked r) (scaleX r) (scaleY r) (mount r) (mountX r) (mountY r) (pivot r) (pivotX r) (pivotY r) (rotation r) (rtt r).
Definition set_rtt {num : Type} (v : bool) (r : t num) : t num :=
  mk (x r) (y r) (width r) (height r) (alpha r) (autosize r) (clipping r) (color r) (colorTop r) (colorBottom r) (colorLeft r) (colorRight r) (colorTl r) (colorTr r) (colorBr r) (colorBl r) (parent r) (zIndex r) (texture r) (textureOptions r) (shader r) (src r) (zIndexLocked r) (scaleX r) (scaleY r) (mount r) (mountX r) (mountY r) (pivot r) (pivotX r) (pivotY r) (rotation r) v.
Definition set_x {num : Type} (v : num) (r : t num) : t num :=
  mk v (y r) (width r) (height r) (alpha r) (autosize r) (clipping r) (color r) (colorTop r) (colorBottom r) (colorLeft r) (colorRight r) (colorTl r) (colorTr r) (colorBr r) (colorBl r) (parent r) (zIndex r) (texture r) (textureOptions r) (shader r) (src r) (zIndexLocked r) (scaleX r) (scaleY r) (mount r) (mountX r) (mountY r) (pivot r) (pivotX r) (pivotY r) (rotation r) (rtt r).
Definition set_y {num : Type} (v : num) (r : t num) : t num :=
  mk (x r) v (width r) (height r) (alpha r) (autosize r) (clipping r) (color r) (colorTop r) (colorBottom r) (colorLeft r) (colorRight r) (colorTl r) (colorTr r) (colorBr r) (colorBl r) (parent r) (zIndex r) (texture r) (textureOptions r) (shader r) (src r) (zIndexLocked r) (scaleX r) (scaleY r) (mount r) (mountX r) (mountY r) (pivot r) (pivotX r) (pivotY r) (rotation r) (rtt r).
Definition set_width {num : Type} (v : num) (r : t num) : t num :=
  mk (x r) (y r) v (height r) (alpha r) (autosize r) (clipping r) (color r) (colorTop r) (colorBottom r) (colorLeft r) (colorRight r) (colorTl r) (colorTr r) (colorBr r) (colorBl r) (parent r) (zIndex r) (texture r) (textureOptions r) (shader r) (src r) (zIndexLocked r) (scaleX r) (scaleY r) (mount r) (mountX r) (mountY r) (pivot r) (pivotX r) (pivotY r) (rotation r) (rtt r).
Definition set_height {num : Type} (v : num) (r : t num) : t num :=
  mk (x r) (y r) (width r) v (alpha r) (autosize r) (clipping r) (color r) (colorTop r) (colorBottom r) (colorLeft r) (colorRight r) (colorTl r) (colorTr r) (colorBr r) (colorBl r) (parent r) (zIndex r) (texture r) (textureOptions r) (shader r) (src r) (zIndexLocked r) (scaleX r) (scaleY r) (mount r) (mountX r) (mountY r) (pivot r) (pivotX r) (pivotY r) (rotation r) (rtt r).
Definition set_alpha {num : Type} (v : num) (r : t num) : t num :=
  mk (x r) (y r) (width r) (height r) v (autosize r) (clipping r) (color r) (colorTop r) (colorBottom r) (colorLeft r) (colorRight r) (colorTl r) (colorTr r) (colorBr r) (colorBl r) (parent r) (zIndex r) (texture r) (textureOptions r) (shader r) (src r) (zIndexLocked r) (scaleX r) (scaleY r) (mount r) (mountX r) (mountY r) (pivot r) (pivotX r) (pivotY r) (rotation r) (rtt r).
Definition set_autosize {num : Type} (v : bool) (r : t num) : t num :=
  mk (x r) (y r) (width r) (height r) (alpha r) v (clipping r) (color r) (colorTop r) (colorBottom r) (colorLeft r) (colorRight r) (colorTl r) (colorTr r) (colorBr r) (colorBl r) (parent r) (zIndex r) (texture r) (textureOptions r) (shader r) (src r) (zIndexLocked r) (scaleX r) (scaleY r) (mount r) (mountX r) (mountY r) (pivot r) (pivotX r) (pivotY r) (rotation r) (rtt r).
Definition set_clipping {num : Type} (v : bool) (r : t num) : t num :=
  mk (x r) (y r) (width r) (height r) (alpha r) (autosize r) v (color r) (colorTop r) (colorBottom r) (colorLeft r) (colorRight r) (colorTl r) (colorTr r) (colorBr r) (colorBl r) (parent r) (zIndex r) (texture r) (textureOptions r) (shader r) (src r) (zIndexLocked r) (scaleX r) (scaleY r) (mount r) (mountX r) (mountY r) (pivot r) (pivotX r) (pivotY r) (rotation r) (rtt r).
Definition set_color {num : Type} (v : num) (r : t num) : t num :=
  mk (x r) (y r) (width r) (height r) (alpha r) (autosize r) (clipping r) v (colorTop r) (colorBottom r) (colorLeft r) (colorRight r) (colorTl r) (colorTr r) (colorBr r) (colorBl r) (parent r) (zIndex r) (texture r) (textureOptions r) (shader r) (src r) (zIndexLocked r) (scaleX r) (scaleY r) (mount r) (mountX r) (mountY r) (pivot r) (pivotX r) (pivotY r) (rotation r) (rtt r).
Definition set_colorTop {num : Type} (v : num) (r : t num) : t num :=
  mk (x r) (y r) (width r) (height r) (alpha r) (autosize r) (clipping r) (color r) v (colorBottom r) (colorLeft r) (colorRight r) (colorTl r) (colorTr r) (colorBr r) (colorBl r) (parent r) (zIndex r) (texture r) (textureOptions r) (shader r) (src r) (zIndexLocked r) (scaleX r) (scaleY r) (mount r) (mountX r) (mountY r) (pivot r) (pivotX r) (pivotY r) (rotation r) (rtt r).
Definition set_colorBottom {num : Type} (v : num) (r : t num) : t num :=
  mk (x r) (y r) (width r) (height r) (alpha r) (autosize r) (clipping r) (color r) (colorTop r) v (colorLeft r) (colorRight r) (colorTl r) (colorTr r) (colorBr r) (colorBl r) (parent r) (zIndex r) (texture r) (textureOptions r) (shader r) (src r) (zIndexLocked r) (scaleX r) (scaleY r) (mount r) (mountX r) (mountY r) (pivot r) (pivotX r) (pivotY r) (rotation r) (rtt r).
Definition set_colorLeft {num : Type} (v : num) (r : t num) : t num :=
  mk (x r) (y r) (width r) (height r) (alpha r) (autosize r) (clipping r) (color r) (colorTop r) (colorBottom r) v (colorRight r) (colorTl r) (colorTr r) (colorBr r) (colorBl r) (parent r) (zIndex r) (texture r) (textureOptions r) (shader r) (src r) (zIndexLocked r) (scaleX r) (scaleY r) (mount r) (mountX r) (mountY r) (pivot r) (pivotX r) (pivotY r) (rotation r) (rtt r).
Definition set_colorRight {num : Type} (v : num) (r : t num) : t num :=
  mk (x r) (y r) (width r) (height r) (alpha r) (autosize r) (clipping r) (color r) (colorTop r) (colorBottom r) (colorLeft r) v (colorTl r) (colorTr r) (colorBr r) (colorBl r) (parent r) (zIndex r) (texture r) (textureOptions r) (shader r) (src r) (zIndexLocked r) (scaleX r) (scaleY r) (mount r) (mountX r) (mountY r) (pivot r) (pivotX r) (pivotY r) (rotation r) (rtt r).
Definition set_colorTl {num : Type} (v : num) (r : t num) : t num :=
  mk (x r) (y r) (width r) (height r) (alpha r) (autosize r) (clipping r) (color r) (colorTop r) (colorBottom r) (colorLeft r) (colorRight r) v (colorTr r) (colorBr r) (colorBl r) (parent r) (zIndex r) (texture r) (textureOptions r) (shader r) (src r) (zIndexLocked r) (scaleX r) (scaleY r) (mount r) (mountX r) (mountY r) (pivot r) (pivotX r) (pivotY r) (rotation r) (rtt r).
Definition set_colorTr {num : Type} (v : num) (r : t num) : t num :=
  mk (x r) (y r) (width r) (height r) (alpha r) (autosize r) (clipping r) (color r) (colorTop r) (colorBottom r) (colorLeft r) (colorRight r) (colorTl r) v (colorBr r) (colorBl r) (parent r) (zIndex r) (texture r) (textureOptions r) (shader r) (src r) (zIndexLocked r) (scaleX r) (scaleY r) (mount r) (mountX r) (mountY r) (pivot r) (pivotX r) (pivotY r) (rotation r) (rtt r).
Definition set_colorBr {num : Type} (v : num) (r : t num) : t num :=
  mk (x r) (y r) (width r) (height r) (alpha r) (autosize r) (clipping r) (color r) (colorTop r) (colorBottom r) (colorLeft r) (colorRight r) (colorTl r) (colorTr r) v (colorBl r) (parent r) (zIndex r) (texture r) (textureOptions r) (shader r) (src r) (zIndexLocked r) (scaleX r) (scaleY r) (mount r) (mountX r) (mountY r) (pivot r) (pivotX r) (pivotY r) (rotation r) (rtt r).
Definition set_colorBl {num : Type} (v : num) (r : t num) : t num :=
  mk (x r) (y r) (width r) (height r) (alpha r) (autosize r) (clipping r) (color r) (colorTop r) (colorBottom r) (colorLeft r) (colorRight r) (colorTl r) (colorTr r) (colorBr r) v (parent r) (zIndex r) (texture r) (textureOptions r) (shader r) (src r) (zIndexLocked r) (scaleX r) (scaleY r) (mount r) (mountX r) (mountY r) (pivot r) (pivotX r) (pivotY r) (rotation r) (rtt r).
Definition set_zIndex {num : Type} (v : num) (r : t num) : t num :=
  mk (x r) (y r) (width r) (height r) (alpha r) (autosize r) (clipping r) (color r) (colorTop r) (colorBottom r) (colorLeft r) (colorRight r) (colorTl r) (colorTr r) (colorBr r) (colorBl r) (parent r) v (texture r) (textureOptions r) (shader r) (src r) (zIndexLocked r) (scaleX r) (scaleY r) (mount r) (mountX r) (mountY r) (pivot r) (pivotX r) (pivotY r) (rotation r) (rtt r).
Definition set_src {num : Type} (v : string) (r : t num) : t num :=
  mk (x r) (y r) (width r) (height r) (alpha r) (autosize r) (clipping r) (color r) (colorTop r) (colorBottom r) (colorLeft r) (colorRight r) (colorTl r) (colorTr r) (colorBr r) (colorBl r) (parent r) (zIndex r) (texture r) (textureOptions r) (shader r) v (zIndexLocked r) (scaleX r) (scaleY r) (mount r) (mountX r) (mountY r) (pivot r) (pivotX r) (pivotY r) (rotation r) (rtt r).
Definition set_zIndexLocked {num : Type} (v : num) (r : t num) : t num :=
  mk (x r) (y r) (width r) (height r) (alpha r) (autosize r) (clipping r) (color r) (colorTop r) (colorBottom r) (colorLeft r) (colorRight r) (colorTl r) (colorTr r) (colorBr r) (colorBl r) (parent r) (zIndex r) (texture r) (textureOptions r) (shader r) (src r) v (scaleX r) (scaleY r) (mount r) (mountX r) (mountY r) (pivot r) (pivotX r) (pivotY r) (rotation r) (rtt r).
Definition set_scaleX {num : Type} (v : num) (r : t num) : t num :=
  mk (x r) (y r) (width r) (height r) (alpha r) (autosize r) (clipping r) (color r) (colorTop r) (colorBottom r) (colorLeft r) (colorRight r) (colorTl r) (colorTr r) (colorBr r) (colorBl r) (parent r) (zIndex r) (texture r) (textureOptions r) (shader r) (src r) (zIndexLocked r) v (scaleY r) (mount r) (mountX r) (mountY r) (pivot r) (pivotX r) (pivotY r) (rotation r) (rtt r).
Definition set_scaleY {num : Type} (v : num) (r : t num) : t num :=
  mk (x r) (y r) (width r) (height r) (alpha r) (autosize r) (clipping r) (color r) (colorTop r) (colorBottom r) (colorLeft r) (colorRight r) (colorTl r) (colorTr r) (colorBr r) (colorBl r) (parent r) (zIndex r) (texture r) (textureOptions r) (shader r) (src r) (zIndexLocked r) (scaleX r) v (mount r) (mountX r) (mountY r) (pivot r) (pivotX r) (pivotY r) (rotation r) (rtt r).
Definition set_mount {num : Type} (v : num) (r : t num) : t num :=
  mk (x r) (y r) (width r) (height r) (alpha r) (autosize r) (clipping r) (color r) (colorTop r) (colorBottom r) (colorLeft r) (colorRight r) (colorTl r) (colorTr r) (colorBr r) (colorBl r) (parent r) (zIndex r) (texture r) (textureOptions r) (shader r) (src r) (zIndexLocked r) (scaleX r) (scaleY r) v (mountX r) (mountY r) (pivot r) (pivotX r) (pivotY r) (rotation r) (rtt r).
Definition set_mountX {num : Type} (v : num) (r : t num) : t num :=
  mk (x r) (y r) (width r) (height r) (alpha r) (autosize r) (clipping r) (color r) (colorTop r) (colorBottom r) (colorLeft r) (colorRight r) (colorTl r) (colorTr r) (colorBr r) (colorBl r) (parent r) (zIndex r) (texture r) (textureOptions r) (shader r) (src r) (zIndexLocked r) (scaleX r) (scaleY r) (mount r) v (mountY r) (pivot r) (pivotX r) (pivotY r) (rotation r) (rtt r).
Definition set_mountY {num : Type} (v : num) (r : t num) : t num :=
  mk (x r) (y r) (width r) (height r) (alpha r) (autosize r) (clipping r) (color r) (colorTop r) (colorBottom r) (colorLeft r) (colorRight r) (colorTl r) (colorTr r) (colorBr r) (colorBl r) (parent r) (zIndex r) (texture r) (textureOptions r) (shader r) (src r) (zIndexLocked r) (scaleX r) (scaleY r) (mount r) (mountX r) v (pivot r) (pivotX r) (pivotY r) (rotation r) (rtt r).
Definition set_pivot {num : Type} (v : num) (r : t num) : t num :=
  mk (x r) (y r) (width r) (height r) (alpha r) (autosize r) (clipping r) (color r) (colorTop r) (colorBottom r) (colorLeft r) (colorRight r) (colorTl r) (colorTr r) (colorBr r) (colorBl r) (parent r) (zIndex r) (texture r) (textureOptions r) (shader r) (src r) (zIndexLocked r) (scaleX r) (scaleY r) (mount r) (mountX r) (mountY r) v (pivotX r) (pivotY r) (rotation r) (rtt r).
Definition set_pivotX {num : Type} (v : num) (r : t num) : t num :=
  mk (x r) (y r) (width r) (height r) (alpha r) (autosize r) (clipping r) (color r) (colorTop r) (colorBottom r) (colorLeft r) (colorRight r) (colorTl r) (colorTr r) (colorBr r) (colorBl r) (parent r) (zIndex r) (texture r) (textureOptions r) (shader r) (src r) (zIndexLocked r) (scaleX r) (scaleY r) (mount r) (mountX r) (mountY r) (pivot r) v (pivotY r) (rotation r) (rtt r).
Definition set_pivotY {num : Type} (v : num) (r : t num) : t num :=
  mk (x r) (y r) (width r) (height r) (alpha r) (autosize r) (clipping r) (color r) (colorTop r) (colorBottom r) (colorLeft r) (colorRight r) (colorTl r) (colorTr r) (colorBr r) (colorBl r) (parent r) (zIndex r) (texture r) (textureOptions r) (shader r) (src r) (zIndexLocked r) (scaleX r) (scaleY r) (mount r) (mountX r) (mountY r) (pivot r) (pivotX r) v (rotation r) (rtt r).
Definition set_rotation {num : Type} (v : num) (r : t num) : t num :=
  mk (x r) (y r) (width r) (height r) (alpha r) (autosize r) (clipping r) (color r) (colorTop r) (colorBottom r) (colorLeft r) (colorRight r) (colorTl r) (colorTr r) (colorBr r) (colorBl r) (parent r) (zIndex r) (texture r) (textureOptions r) (shader r) (src r) (zIndexLocked r) (scaleX r) (scaleY r) (mount r) (mountX r) (mountY r) (pivot r) (pivotX r) (pivotY r) v (rtt r).
End Props.

(** The [CoreNode] object: its children, its props and the cached state. *)
Module CoreNode.
Record t (num : Type) : Type := mk {
  children : list nat;
  props : Props.t num;
  updateType : Z;
  globalTransform : option (Matrix3d.t num);
  scaleRotateTransform : option (Matrix3d.t num);
  localTransform : option (Matrix3d.t num);
  renderCoords : option (RenderCoords.t num);
  renderBound : option (Bound.t num);
  strictBound : option (Bound.t num);
  preloadBound : option (Bound.t num);
  clippingRect : Rect.t num;
  isRenderable : bool;
  renderState : CoreNodeRenderState;
  worldAlpha : num;
  premultipliedColorTl : num;
  premultipliedColorTr : num;
  premultipliedColorBl : num;
  premultipliedColorBr : num;
  calcZIndex : num;
  hasRTTupdates : bool;
  parentHasRenderTexture : bool
}.
Arguments mk {num}.
Arguments children {num} _.
Arguments props {num} _.
Arguments updateType {num} _.
Arguments globalTransform {num} _.
Arguments scaleRotateTransform {num} _.
Arguments localTransform {num} _.
Arguments renderCoords {num} _.
Arguments renderBound {num} _.
Arguments strictBound {num} _.
Arguments preloadBound {num} _.
Arguments clippingRect {num} _.
Arguments isRenderable {num} _.
Arguments renderState {num} _.
Arguments worldAlpha {num} _.
Arguments premultipliedColorTl {num} _.
Arguments premultipliedColorTr {num} _.
Arguments premultipliedColorBl {num} _.
Arguments premultipliedColorBr {num} _.
Arguments calcZIndex {num} _.
Arguments hasRTTupdates {num} _.
Arguments parentHasRenderTexture {num} _.
Definition set_children {num : Type} (v : list nat) (r : t num) : t num :=
  mk v (props r) (updateType r) (globalTransform r) (scaleRotateTransform r) (localTransform r) (renderCoords r) (renderBound r) (strictBound r) (preloadBound r) (clippingRect r) (isRenderable r) (renderState r) (worldAlpha r) (premultipliedColorTl r) (premultipliedColorTr r) (premultipliedColorBl r) (premultipliedColorBr r) (calcZIndex r) (hasRTTupdates r) (parentHasRenderTexture r).
Definition set_props {num : Type} (v : Props.t num) (r : t num) : t num :=
  mk (children r) v (updateType r) (globalTransform r) (scaleRotateTransform r) (localTransform r) (renderCoords r) (renderBound r) (strictBound r) (preloadBound r) (clippingRect r) (isRenderable r) (renderState r) (worldAlpha r) (premultipliedColorTl r) (premultipliedColorTr r) (premultipliedColorBl r) (premultipliedColorBr r) (calcZIndex r) (hasRTTupdates r) (parentHasRenderTexture r).
Definition set_updateType {num : Type} (v : Z) (r : t num) : t num :=
  mk (children r) (props r) v (globalTransform r) (scaleRotateTransform r) (localTransform r) (renderCoords r) (renderBound r) (strictBound r) (preloadBound r) (clippingRect r) (isRenderable r) (renderState r) (worldAlpha r) (premultipliedColorTl r) (premultipliedColorTr r) (premultipliedColorBl r) (premultipliedColorBr r) (calcZIndex r) (hasRTTupdates r) (parentHasRenderTexture r).
Definition set_globalTransform {num : Type} (v : option (Matrix3d.t num)) (r : t num) : t num :=
  mk (children r) (props r) (updateType r) v (scaleRotateTransform r) (localTransform r) (renderCoords r) (renderBound r) (strictBound r) (preloadBound r) (clippingRect r) (isRenderable r) (renderState r) (worldAlpha r) (premultipliedColorTl r) (premultipliedColorTr r) (premultipliedColorBl r) (premultipliedColorBr r) (calcZIndex r) (hasRTTupdates r) (parentHasRenderTexture r).
Definition set_scaleRotateTransform {num : Type} (v : option (Matrix3d.t num)) (r : t num) : t num :=
  mk (children r) (props r) (updateType r) (globalTransform r) v (localTransform r) (renderCoords r) (renderBound r) (strictBound r) (preloadBound r) (clippingRect r) (isRenderable r) (renderState r) (worldAlpha r) (premultipliedColorTl r) (premultipliedColorTr r) (premultipliedColorBl r) (premultipliedColorBr r) (calcZIndex r) (hasRTTupdates r) (parentHasRenderTexture r).
Definition set_localTransform {num : Type} (v : option (Matrix3d.t num)) (r : t num) : t num :=
  mk (children r) (props r) (updateType r) (globalTransform r) (scaleRotateTransform r) v (renderCoords r) (renderBound r) (strictBound r) (preloadBound r) (clippingRect r) (isRenderable r) (renderState r) (worldAlpha r) (premultipliedColorTl r) (premultipliedColorTr r) (premultipliedColorBl r) (premultipliedColorBr r) (calcZIndex r) (hasRTTupdates r) (parentHasRenderTexture r).
Definition set_renderCoords {num : Type} (v : option (RenderCoords.t num)) (r : t num) : t num :=
  mk (children r) (props r) (updateType r) (globalTransform r) (scaleRotateTransform r) (localTransform r) v (renderBound r) (strictBound r) (preloadBound r) (clippingRect r) (isRenderable r) (renderState r) (worldAlpha r) (premultipliedColorTl r) (premultipliedColorTr r) (premultipliedColorBl r) (premultipliedColorBr r) (calcZIndex r) (hasRTTupdates r) (parentHasRenderTexture r).
Definition set_renderBound {num : Type} (v : option (Bound.t num)) (r : t num) : t num :=
  mk (children r) (props r) (updateType r) (globalTransform r) (scaleRotateTransform r) (localTransform r) (renderCoords r) v (strictBound r) (preloadBound r) (clippingRect r) (isRenderable r) (renderState r) (worldAlpha r) (premultipliedColorTl r) (premultipliedColorTr r) (premultipliedColorBl r) (premultipliedColorBr r) (calcZIndex r) (hasRTTupdates r) (parentHasRenderTexture r).
Definition set_strictBound {num : Type} (v : option (Bound.t num)) (r : t num) : t num :=
  mk (children r) (props r) (updateType r) (globalTransform r) (scaleRotateTransform r) (localTransform r) (renderCoords r) (renderBound r) v (preloadBound r) (clippingRect r) (isRenderable r) (renderState r) (worldAlpha r) (premultipliedColorTl r) (premultipliedColorTr r) (premultipliedColorBl r) (premultipliedColorBr r) (calcZIndex r) (hasRTTupdates r) (parentHasRenderTexture r).
Definition set_preloadBound {num : Type} (v : option (Bound.t num)) (r : t num) : t num :=
  mk (children r) (props r) (updateType r) (globalTransform r) (scaleRotateTransform r) (localTransform r) (renderCoords r) (renderBound r) (strictBound r) v (clippingRect r) (isRenderable r) (renderState r) (worldAlpha r) (premultipliedColorTl r) (premultipliedColorTr r) (premultipliedColorBl r) (premultipliedColorBr r) (calcZIndex r) (hasRTTupdates r) (parentHasRenderTexture r).
Definition set_clippingRect {num : Type} (v : Rect.t num) (r : t num) : t num :=
  mk (children r) (props r) (updateType r) (globalTransform r) (scaleRotateTransform r) (localTransform r) (renderCoords r) (renderBound r) (strictBound r) (preloadBound r) v (isRenderable r) (renderState r) (worldAlpha r) (premultipliedColorTl r) (premultipliedColorTr r) (premultipliedColorBl r) (premultipliedColorBr r) (calcZIndex r) (hasRTTupdates r) (parentHasRenderTexture r).
Definition set_isRenderable {num : Type} (v : bool) (r : t num) : t num :=
  mk (children r) (props r) (updateType r) (globalTransform r) (scaleRotateTransform r) (localTransform r) (renderCoords r) (renderBound r) (strictBound r) (preloadBound r) (clippingRect r) v (renderState r) (worldAlpha r) (premultipliedColorTl r) (premultipliedColorTr r) (premultipliedColorBl r) (premultipliedColorBr r) (calcZIndex r) (hasRTTupdates r) (parentHasRenderTexture r).
Definition set_renderState {num : Type} (v : CoreNodeRenderState) (r : t num) : t num :=
  mk (children r) (props r) (updateType r) (globalTransform r) (scaleRotateTransform r) (localTransform r) (renderCoords r) (renderBound r) (strictBound r) (preloadBound r) (clippingRect r) (isRenderable r) v (worldAlpha r) (premultipliedColorTl r) (premultipliedColorTr r) (premultipliedColorBl r) (premultipliedColorBr r) (calcZIndex r) (hasRTTupdates r) (parentHasRenderTexture r).
Definition set_worldAlpha {num : Type} (v : num) (r : t num) : t num :=
  mk (children r) (props r) (updateType r) (globalTransform r) (scaleRotateTransform r) (localTransform r) (renderCoords r) (renderBound r) (strictBound r) (preloadBound r) (clippingRect r) (isRenderable r) (renderState r) v (premultipliedColorTl r) (premultipliedColorTr r) (premultipliedColorBl r) (premultipliedColorBr r) (calcZIndex r) (hasRTTupdates r) (parentHasRenderTexture r).
Definition set_premultipliedColorTl {num : Type} (v : num) (r : t num) : t num :=
  mk (children r) (props r) (updateType r) (globalTransform r) (scaleRotateTransform r) (localTransform r) (renderCoords r) (renderBound r) (strictBound r) (preloadBound r) (clippingRect r) (isRenderable r) (renderState r) (worldAlpha r) v (premultipliedColorTr r) (premultipliedColorBl r) (premultipliedColorBr r) (calcZIndex r) (hasRTTupdates r) (parentHasRenderTexture r).
Definition set_premultipliedColorTr {num : Type} (v : num) (r : t num) : t num :=
  mk (children r) (props r) (updateType r) (globalTransform r) (scaleRotateTransform r) (localTransform r) (renderCoords r) (renderBound r) (strictBound r) (preloadBound r) (clippingRect r) (isRenderable r) (renderState r) (worldAlpha r) (premultipliedColorTl r) v (premultipliedColorBl r) (premultipliedColorBr r) (calcZIndex r) (hasRTTupdates r) (parentHasRenderTexture r).
Definition set_premultipliedColorBl {num : Type} (v : num) (r : t num) : t num :=
  mk (children r) (props r) (updateType r) (globalTransform r) (scaleRotateTransform r) (localTransform r) (renderCoords r) (renderBound r) (strictBound r) (preloadBound r) (clippingRect r) (isRenderable r) (renderState r) (worldAlpha r) (premultipliedColorTl r) (premultipliedColorTr r) v (premultipliedColorBr r) (calcZIndex r) (hasRTTupdates r) (parentHasRenderTexture r).
Definition set_premultipliedColorBr {num : Type} (v : num) (r : t num) : t num :=
  mk (children r) (props r) (updateType r) (globalTransform r) (scaleRotateTransform r) (localTransform r) (renderCoords r) (renderBound r) (strictBound r) (preloadBound r) (clippingRect r) (isRenderable r) (renderState r) (worldAlpha r) (premultipliedColorTl r) (premultipliedColorTr r) (premultipliedColorBl r) v (calcZIndex r) (hasRTTupdates r) (parentHasRenderTexture r).
Definition set_calcZIndex {num : Type} (v : num) (r : t num) : t num :=
  mk (children r) (props r) (updateType r) (globalTransform r) (scaleRotateTransform r) (localTransform r) (renderCoords r) (renderBound r) (strictBound r) (preloadBound r) (clippingRect r) (isRenderable r) (renderState r) (worldAlpha r) (premultipliedColorTl r) (premultipliedColorTr r) (premultipliedColorBl r) (premultipliedColorBr r) v (hasRTTupdates r) (parentHasRenderTexture r).
Definition set_hasRTTupdates {num : Type} (v : bool) (r : t num) : t num :=
  mk (children r) (props r) (updateType r) (globalTransform r) (scaleRotateTransform r) (localTransform r) (renderCoords r) (renderBound r) (strictBound r) (preloadBound r) (clippingRect r) (isRenderable r) (renderState r) (worldAlpha r) (premultipliedColorTl r) (premultipliedColorTr r) (premultipliedColorBl r) (premultipliedColorBr r) (calcZIndex r) v (parentHasRenderTexture r).
Definition set_parentHasRenderTexture {num : Type} (v : bool) (r : t num) : t num :=
  mk (children r) (props r) (updateType r) (globalTransform r) (scaleRotateTransform r) (localTransform r) (renderCoords r) (renderBound r) (strictBound r) (preloadBound r) (clippingRect r) (isRenderable r) (renderState r) (worldAlpha r) (premultipliedColorTl r) (premultipliedColorTr r) (premultipliedColorBl r) (premultipliedColorBr r) (calcZIndex r) (hasRTTupdates r) v.
End CoreNode.
(** The numbers of the program are IEEE doubles, and [Matrix3d],
    [lib/utils], [mergeColorAlphaPremultiplied] and the texture manager are
    not part of the sources.  The model is parametric in the number type
    and in these operations; no law is assumed about them. *)
Class Lib (num : Type) : Type := {
  (* numbers *)
  n0 : num;
  n1 : num;
  n2 : num;
  nadd : num -> num -> num;
  nsub : num -> num -> num;
  nmul : num -> num -> num;
  ndiv : num -> num -> num;
  nneg : num -> num;
  (* [a === b], [a < b], [a > b], truthiness *)
  strict_eq : num -> num -> bool;
  nlt : num -> num -> bool;
  ngt : num -> num -> bool;
  truthy : num -> bool;
  Math_min : num -> num -> num;
  Math_max : num -> num -> num;
  (* lib/Matrix3d: [Matrix3d.rotate(angle, out)], [m.scale(sx, sy)],
     [Matrix3d.translate(x, y, out)], [m.translate(x, y)],
     [m.multiply(other)]; a method stands for the value of the receiver
     after the call *)
  Matrix3d_rotate : num -> Matrix3d.t num;
  Matrix3d_scale : Matrix3d.t num -> num -> num -> Matrix3d.t num;
  Matrix3d_translate_static : num -> num -> Matrix3d.t num;
  Matrix3d_translate : Matrix3d.t num -> num -> num -> Matrix3d.t num;
  Matrix3d_multiply : Matrix3d.t num -> Matrix3d.t num -> Matrix3d.t num;
  (* lib/utils: [boundInsideBound(a, b)], [intersectRect(a, b, out)],
     [copyRect(a, out)]; the last two stand for [out] after the call *)
  boundInsideBound : Bound.t num -> Bound.t num -> bool;
  intersectRect : Rect.t num -> Rect.t num -> Rect.t num -> Rect.t num;
  copyRect : Rect.t num -> Rect.t num -> Rect.t num;
  (* utils: [mergeColorAlphaPremultiplied(color, alpha, flipEndianess)] *)
  mergeColorAlphaPremultiplied : num -> num -> bool -> num;
  (* [stage.txManager.loadTexture('RenderTexture', {width, height})] *)
  loadRenderTexture : num -> num -> Texture.t num
}.

Declare Scope js_scope.
Delimit Scope js_scope with js.
Infix "+" := nadd : js_scope.
Infix "-" := nsub : js_scope.
Infix "*" := nmul : js_scope.
Infix "/" := ndiv : js_scope.
Notation "- x" := (nneg x) : js_scope.
Infix "===" := strict_eq (at level 70, no associativity) : js_scope.

(** The [Stage]: default shader controller, root node, bounds margin
    [top, right, bottom, left], and whether a renderer is attached. *)
Module Stage.
Record t (num : Type) : Type := mk {
  defShaderCtr : nat;
  root : nat;
  boundsMargin : num * num * num * num;
  renderer : bool
}.
Arguments mk {num}.
Arguments defShaderCtr {num} _.
Arguments root {num} _.
Arguments boundsMargin {num} _.
Arguments renderer {num} _.
End Stage.

(** Calls that leave the node: events, texture bookkeeping, renderer. *)
Inductive Effect : Type :=
| Emit (node : nat) (event : string) (previous current : CoreNodeRenderState)
| TextureOff (texture node : nat) (event : string)
| SetRenderableOwner (texture node : nat) (isRenderable : bool)
| QueueLoadTexture (node texture : nat)
| RemoveRTTNode (node : nat)
| RenderToTexture (node : nat).

(** The object store and the log of outgoing calls. *)
Record State (num : Type) : Type := mkState {
  nodes : gmap nat (CoreNode.t num);
  trace : list Effect
}.
Arguments mkState {num}.
Arguments nodes {num} _.
Arguments trace {num} _.

(* ===================================================================== *)
(** * CoreNode: methods                                                    *)
(* ===================================================================== *)

Section CoreNodeMethods.
Context {num : Type} `{L : Lib num}.
Local Open Scope js_scope.

Abbreviation Node := (CoreNode.t num).
Abbreviation St := (State num).

(** ** Store access *)

(** Reading an object of the store; a dangling reference has no
    counterpart in the program and is reported as a throw. *)
Definition getNode (s : St) (i : nat) : result Node :=
  match nodes s !! i with
  | Some n => Ok n
  | None => Throw "TypeError: no such object"
  end.

Definition putNode (s : St) (i : nat) (n : Node) : St :=
  mkState (<[i := n]> (nodes s)) (trace s).

Definition modifyNode (s : St) (i : nat) (f : Node -> Node) : result St :=
  let! n := getNode s i in Ok (putNode s i (f n)).

Definition emitEffect (s : St) (e : Effect) : St :=
  mkState (nodes s) (trace s ++ [e]).

(** [this.updateType & flag] as a condition. *)
Definition hasFlag (ut flag : Z) : bool := negb (Z.land ut flag =? 0)%Z.

(** ** Dirty flags *)

(** [setRTTUpdates(type)]:
    [this.hasRTTupdates = true; this.parent?.setRTTUpdates(type)]. *)
Fixpoint setRTTUpdates (fuel : nat) (s : St) (this : nat) (type : Z)
  : result St :=
  match fuel with
  | O => OutOfFuel
  | S fuel' =>
      let! n := getNode s this in
      let s1 := putNode s this (CoreNode.set_hasRTTupdates true n) in
      match Props.parent (CoreNode.props n) with
      | Some p => setRTTUpdates fuel' s1 p type
      | None => Ok s1
      end
  end.

(** [setUpdateType(type)]: ORs the mask into the pending flags, hands
    [Children] to the parent unless the parent has it already, and
    forwards the mask to the render-target chain. *)
Fixpoint setUpdateType (fuel : nat) (s : St) (this : nat) (type : Z)
  : result St :=
  match fuel with
  | O => OutOfFuel
  | S fuel' =>
      let! n := getNode s this in
      let s1 :=
        putNode s this
          (CoreNode.set_updateType (Z.lor (CoreNode.updateType n) type) n) in
      let! s2 := match Props.parent (CoreNode.props n) with
            | Some p =>
                let! pn := getNode s1 p in
                if negb (hasFlag (CoreNode.updateType pn) UpdateType.Children)
                then setUpdateType fuel' s1 p UpdateType.Children
                else Ok s1
            | None => Ok s1
            end in
      let! n2 := getNode s2 this in
      if CoreNode.parentHasRenderTexture n2
      then setRTTUpdates fuel' s2 this type
      else Ok s2
  end.

(** ** Transforms *)

(** Modelled from the spec: [Matrix3d.identity()] (lib/Matrix3d is not
    part of the sources); the identity of the 2x3 affine matrices. *)
Definition Matrix3d_identity : Matrix3d.t num :=
  Matrix3d.mk n1 n0 n0 n0 n1 n0.

(** Modelled from the spec: [Matrix3d.copy(src, dst)] (lib/Matrix3d is not
    part of the sources); [dst] receives the entries of [src]. *)
Definition Matrix3d_copy (src : Matrix3d.t num) : Matrix3d.t num := src.

(** Modelled from the spec: [RenderCoords.translate(x1, ..., y4, out)]
    (lib/RenderCoords is not part of the sources); [out] receives the four
    corners in the order given. *)
Definition RenderCoords_translate (x1 y1 x2 y2 x3 y3 x4 y4 : num)
  : RenderCoords.t num :=
  RenderCoords.mk x1 y1 x2 y2 x3 y3 x4 y4.

(** Modelled from the spec: [createBound(x1, y1, x2, y2, out)] (lib/utils
    is not part of the sources); [out] receives the two corners. *)
Definition createBound (x1 y1 x2 y2 : num) : Bound.t num :=
  Bound.mk x1 y1 x2 y2.

Definition Math_min4 (a b c d : num) : num :=
  Math_min (Math_min (Math_min a b) c) d.

Definition Math_max4 (a b c d : num) : num :=
  Math_max (Math_max (Math_max a b) c) d.

(** [updateScaleRotateTransform()] *)
Definition updateScaleRotateTransform (n : Node) : Node :=
  let p := CoreNode.props n in
  CoreNode.set_scaleRotateTransform
    (Some (Matrix3d_scale (Matrix3d_rotate (Props.rotation p))
             (Props.scaleX p) (Props.scaleY p))) n.

(** [textureOptions?.resizeMode?.type === 'contain'] *)
Definition resizeMode_is_contain (o : option TextureOptions.t) : bool :=
  match o with
  | Some opts =>
      match TextureOptions.resizeMode opts with
      | Some contain => true
      | _ => false
      end
  | None => false
  end.

(** The part of [updateLocalTransform()] that computes [localTransform];
    the method ends with [this.setUpdateType(UpdateType.Global)], see
    [updateLocalTransform]. *)
Definition computeLocalTransform (n : Node) : result Node :=
  match CoreNode.scaleRotateTransform n with
  | None => Throw "Assertion failed"
  | Some srt =>
      let p := CoreNode.props n in
      let pivotTranslateX := Props.pivotX p * Props.width p in
      let pivotTranslateY := Props.pivotY p * Props.height p in
      let mountTranslateX := Props.mountX p * Props.width p in
      let mountTranslateY := Props.mountY p * Props.height p in
      let lt0 :=
        Matrix3d_translate
          (Matrix3d_multiply
             (Matrix3d_translate_static
                (pivotTranslateX - mountTranslateX + Props.x p)
                (pivotTranslateY - mountTranslateY + Props.y p))
             srt)
          (- pivotTranslateX) (- pivotTranslateY) in
      let width := Props.width p in
      let height := Props.height p in
      let contain_dims :=
        match Props.texture p with
        | Some texture =>
            match Texture.dimensions texture with
            | Some d =>
                if resizeMode_is_contain (Props.textureOptions p)
                then Some d else None
            | None => None
            end
        | None => None
        end in
      match contain_dims with
      | Some d =>
          let tw := Dimensions.width d in
          let th := Dimensions.height d in
          let txAspectRatio := tw / th in
          let nodeAspectRatio := width / height in
          let '(resizeModeScaleX, resizeModeScaleY, extraX, extraY) :=
            if ngt txAspectRatio nodeAspectRatio then
              let scaleX := width / tw in
              let scaledTxHeight := th * scaleX in
              (n1, scaledTxHeight / height,
               n0, (height - scaledTxHeight) / n2)
            else
              let scaleY := height / th in
              let scaledTxWidth := tw * scaleY in
              (scaledTxWidth / width, n1,
               (width - scaledTxWidth) / n2, n0) in
          Ok (CoreNode.set_localTransform
                (Some (Matrix3d_scale
                         (Matrix3d_translate lt0 extraX extraY)
                         resizeModeScaleX resizeModeScaleY)) n)
      | None => Ok (CoreNode.set_localTransform (Some lt0) n)
      end
  end.

(** [updateLocalTransform()] *)
Definition updateLocalTransform (fuel : nat) (s : St) (this : nat)
  : result St :=
  let! n := getNode s this in
  let! n' := computeLocalTransform n in
  setUpdateType fuel (putNode s this n') this UpdateType.Global.

(** [calculateRenderCoords()] *)
Definition calculateRenderCoords (n : Node) : result Node :=
  let width := Props.width (CoreNode.props n) in
  let height := Props.height (CoreNode.props n) in
  match CoreNode.globalTransform n with
  | None => Throw "Assertion failed"
  | Some transform =>
      let tx := Matrix3d.tx transform in
      let ty := Matrix3d.ty transform in
      let ta := Matrix3d.ta transform in
      let tb := Matrix3d.tb transform in
      let tc := Matrix3d.tc transform in
      let td := Matrix3d.td transform in
      if (tb === n0) && (tc === n0) then
        let minX := tx in
        let maxX := tx + width * ta in
        let minY := ty in
        let maxY := ty + height * td in
        Ok (CoreNode.set_renderCoords
              (Some (RenderCoords_translate
                       minX minY maxX minY maxX maxY minX maxY)) n)
      else
        Ok (CoreNode.set_renderCoords
              (Some (RenderCoords_translate
                       tx ty
                       (tx + width * ta) (ty + width * tc)
                       (tx + width * ta + height * tb)
                       (ty + width * tc + height * td)
                       (tx + height * tb) (ty + height * td))) n)
  end.

(** [updateBoundingRect()] *)
Definition updateBoundingRect (n : Node) : result Node :=
  match CoreNode.globalTransform n, CoreNode.renderCoords n with
  | None, _ => Throw "Assertion failed"
  | Some _, None => Throw "Assertion failed"
  | Some transform, Some rc =>
      let tb := Matrix3d.tb transform in
      let tc := Matrix3d.tc transform in
      let x1 := RenderCoords.x1 rc in
      let y1 := RenderCoords.y1 rc in
      let x3 := RenderCoords.x3 rc in
      let y3 := RenderCoords.y3 rc in
      if (tb === n0) || (tc === n0) then
        Ok (CoreNode.set_renderBound (Some (createBound x1 y1 x3 y3)) n)
      else
        let x2 := RenderCoords.x2 rc in
        let x4 := RenderCoords.x4 rc in
        let y2 := RenderCoords.y2 rc in
        let y4 := RenderCoords.y4 rc in
        Ok (CoreNode.set_renderBound
              (Some (createBound
                       (Math_min4 x1 x2 x3 x4) (Math_min4 y1 y2 y3 y4)
                       (Math_max4 x1 x2 x3 x4) (Math_max4 y1 y2 y3 y4))) n)
  end.

(** [calculateClippingRect(parentClippingRect)] *)
Definition calculateClippingRect (parentClippingRect : Rect.t num)
    (n : Node) : result Node :=
  match CoreNode.globalTransform n with
  | None => Throw "Assertion failed"
  | Some gt =>
      let clippingRect := CoreNode.clippingRect n in
      let clipping := Props.clipping (CoreNode.props n) in
      let isRotated :=
        negb (Matrix3d.tb gt === n0) || negb (Matrix3d.tc gt === n0) in
      let clippingRect1 :=
        if clipping && negb isRotated then
          Rect.mk (Matrix3d.tx gt) (Matrix3d.ty gt)
            (Props.width (CoreNode.props n) * Matrix3d.ta gt)
            (Props.height (CoreNode.props n) * Matrix3d.td gt)
            true
        else Rect.set_valid false clippingRect in
      let clippingRect2 :=
        if Rect.valid parentClippingRect && Rect.valid clippingRect1 then
          intersectRect parentClippingRect clippingRect1 clippingRect1
        else if Rect.valid parentClippingRect then
          Rect.set_valid true (copyRect parentClippingRect clippingRect1)
        else clippingRect1 in
      Ok (CoreNode.set_clippingRect clippingRect2 n)
  end.

(** ** Z-order *)

(** [calculateZIndex()]; [parent] is the parent object, if any. *)
Definition calculateZIndex (parent : option Node) (n : Node) : Node :=
  let props := CoreNode.props n in
  let z := if truthy (Props.zIndex props) then Props.zIndex props else n0 in
  let p :=
    match parent with
    | Some pn =>
        let pz := Props.zIndex (CoreNode.props pn) in
        if truthy pz then pz else n0
    | None => n0
    end in
  let parentLocked :=
    match parent with
    | Some pn =>
        (* the getter [zIndexLocked] returns [props.zIndexLocked || 0] *)
        let l := Props.zIndexLocked (CoreNode.props pn) in
        truthy (if truthy l then l else n0)
    | None => false
    end in
  let zIndex := if parentLocked then (if nlt z p then z else p) else z in
  CoreNode.set_calcZIndex zIndex n.

(** Insertion of a child into a list ordered by the comparator
    [(a, b) => a.calcZIndex - b.calcZIndex]: the child goes before the
    first entry it does not compare greater than. *)
Fixpoint insertByZ (c : nat * num) (l : list (nat * num)) : list (nat * num) :=
  match l with
  | [] => [c]
  | d :: l' =>
      if ngt (snd c - snd d) n0 then d :: insertByZ c l'
      else c :: d :: l'
  end.

(** [Array.prototype.sort] is stable; on a comparator that is a total
    preorder its result is the one of a stable insertion sort. *)
Definition sortByZ (l : list (nat * num)) : list (nat * num) :=
  foldr insertByZ [] l.

Fixpoint childKeys (s : St) (cs : list nat) : result (list (nat * num)) :=
  match cs with
  | [] => Ok []
  | c :: cs' =>
      let! cn := getNode s c in
      let! ks := childKeys s cs' in
      Ok ((c, CoreNode.calcZIndex cn) :: ks)
  end.

(** [sortChildren()] *)
Definition sortChildren (s : St) (this : nat) : result St :=
  let! n := getNode s this in
  let! ks := childKeys s (CoreNode.children n) in
  Ok (putNode s this (CoreNode.set_children (map fst (sortByZ ks)) n)).

(** ** Render state and renderability *)

Section WithStage.
Variable stage : Stage.t num.

(** [checkRenderProps()] *)
Definition checkRenderProps (n : Node) : bool :=
  let props := CoreNode.props n in
  match Props.texture props with
  | Some _ => true
  | None =>
      if negb (truthy (Props.width props)) || negb (truthy (Props.height props))
      then false
      else if Nat.eqb (Props.shader props) (Stage.defShaderCtr stage) then true
      else if Props.clipping props then true
      else if negb (Props.color props === n0) then true
      else if negb (Props.colorTop props === n0) then true
      else if negb (Props.colorBottom props === n0) then true
      else if negb (Props.colorLeft props === n0) then true
      else if negb (Props.colorRight props === n0) then true
      else if negb (Props.colorTl props === n0) then true
      else if negb (Props.colorTr props === n0) then true
      else if negb (Props.colorBl props === n0) then true
      else if negb (Props.colorBr props === n0) then true
      else false
  end.

(** [checkRenderBounds(parentClippingRect)]: the render state, and the
    node with its [strictBound] and [preloadBound] refreshed. *)
Definition checkRenderBounds (s : St) (parentClippingRect : Rect.t num)
    (n : Node) : result (CoreNodeRenderState * Node) :=
  match CoreNode.renderBound n with
  | None => Throw "Assertion failed"
  | Some renderBound =>
      (* [parentClippingRect.width || this.stage.root.width] *)
      let! rectW :=
        (if truthy (Rect.width parentClippingRect)
         then Ok (Rect.width parentClippingRect)
         else let! root := getNode s (Stage.root stage) in
              Ok (Props.width (CoreNode.props root))) in
      let! rectH :=
        (if truthy (Rect.height parentClippingRect)
         then Ok (Rect.height parentClippingRect)
         else let! root := getNode s (Stage.root stage) in
              Ok (Props.height (CoreNode.props root))) in
      let strictBound :=
        createBound (Rect.x parentClippingRect) (Rect.y parentClippingRect)
          (Rect.x parentClippingRect + rectW)
          (Rect.y parentClippingRect + rectH) in
      let n1' := CoreNode.set_strictBound (Some strictBound) n in
      if boundInsideBound renderBound strictBound then Ok (InViewport, n1')
      else
        let '(m0, m1, m2, m3) := Stage.boundsMargin stage in
        let preloadBound :=
          createBound (Bound.x1 strictBound - m3) (Bound.y1 strictBound - m0)
            (Bound.x2 strictBound + m1) (Bound.y2 strictBound + m2) in
        let n2' := CoreNode.set_preloadBound (Some preloadBound) n1' in
        if boundInsideBound renderBound preloadBound then Ok (InBounds, n2')
        else Ok (OutOfBounds, n2')
  end.

(** [updateRenderState(parentClippingRect)] *)
Definition updateRenderState (s : St) (this : nat)
    (parentClippingRect : Rect.t num) : result St :=
  let! n := getNode s this in
  let! '(renderState, n') := checkRenderBounds s parentClippingRect n in
  let s1 := putNode s this n' in
  if renderState_eqb renderState (CoreNode.renderState n') then Ok s1
  else
    let previous := CoreNode.renderState n' in
    let s2 := putNode s1 this (CoreNode.set_renderState renderState n') in
    match CoreNodeRenderStateMap renderState with
    | None => Throw "Assertion failed"
    | Some event => Ok (emitEffect s2 (Emit this event previous renderState))
    end.

(** [onChangeIsRenderable(isRenderable)]:
    [this.texture?.setRenderableOwner(this, isRenderable)]. *)
Definition onChangeIsRenderable (s : St) (this : nat) (n : Node)
    (isRenderable : bool) : St :=
  match Props.texture (CoreNode.props n) with
  | Some texture =>
      emitEffect s (SetRenderableOwner (Texture.id texture) this isRenderable)
  | None => s
  end.

(** [updateIsRenderable()] *)
Definition updateIsRenderable (s : St) (this : nat) : result St :=
  let! n := getNode s this in
  let newIsRenderable :=
    if (CoreNode.worldAlpha n === n0) || negb (checkRenderProps n) then false
    else (renderState_value (CoreNode.renderState n)
          >? renderState_value OutOfBounds)%Z in
  if negb (Bool.eqb (CoreNode.isRenderable n) newIsRenderable) then
    let n' := CoreNode.set_isRenderable newIsRenderable n in
    Ok (onChangeIsRenderable (putNode s this n') this n' newIsRenderable)
  else Ok s.

(** ** The update pass *)

(** The global transform computed by the [Global] step of [update]:
    a copy of the parent's global transform (of the local transform when
    there is none), replaced by the identity when the node is flagged as
    inside a render target and its parent is one, then multiplied by the
    local transform when there is a parent. *)
Definition composeGlobalTransform (parent : option Node) (n : Node)
    (localTransform : Matrix3d.t num) : Matrix3d.t num :=
  let base :=
    match parent with
    | Some pn =>
        match CoreNode.globalTransform pn with
        | Some pg => pg
        | None => localTransform
        end
    | None => localTransform
    end in
  let gt1 := Matrix3d_copy base in
  let parentRtt :=
    match parent with
    | Some pn => Props.rtt (CoreNode.props pn)
    | None => false
    end in
  let gt2 :=
    if CoreNode.parentHasRenderTexture n && parentRtt
    then Matrix3d_identity else gt1 in
  match parent with
  | Some _ => Matrix3d_multiply gt2 localTransform
  | None => gt2
  end.

(** The [Global] step of [update] on the node: the global transform,
    then the render coords and the render bound. *)
Definition updateGlobal (parent : option Node) (n : Node) : result Node :=
  match CoreNode.localTransform n with
  | None => Throw "Assertion failed"
  | Some localTransform =>
      let gt := composeGlobalTransform parent n localTransform in
      let! n1' := calculateRenderCoords (CoreNode.set_globalTransform (Some gt) n) in
      updateBoundingRect n1'
  end.

(** The [while (p)] loop of the [ParentRenderTexture] step: [found] tells
    whether a render-target ancestor has been met. *)
Fixpoint hasRttAncestor (fuel : nat) (s : St) (p : option nat) (found : bool)
  : result bool :=
  match p with
  | None => Ok found
  | Some pid =>
      match fuel with
      | O => OutOfFuel
      | S fuel' =>
          let! pn := getNode s pid in
          hasRttAncestor fuel' s (Props.parent (CoreNode.props pn))
            (found || Props.rtt (CoreNode.props pn))
      end
  end.

(** The [PremultipliedColors] step of [update]. *)
Definition updatePremultipliedColors (n : Node) : Node :=
  let props := CoreNode.props n in
  let tl := mergeColorAlphaPremultiplied (Props.colorTl props)
              (CoreNode.worldAlpha n) true in
  let na := CoreNode.set_premultipliedColorTl tl n in
  if (Props.colorTl props === Props.colorTr props)
     && (Props.colorBl props === Props.colorBr props)
     && (Props.colorTl props === Props.colorBl props)
  then
    CoreNode.set_premultipliedColorTr tl
      (CoreNode.set_premultipliedColorBl tl
        (CoreNode.set_premultipliedColorBr tl na))
  else
    CoreNode.set_premultipliedColorBr
      (mergeColorAlphaPremultiplied (Props.colorBr props)
         (CoreNode.worldAlpha n) true)
      (CoreNode.set_premultipliedColorBl
         (mergeColorAlphaPremultiplied (Props.colorBl props)
            (CoreNode.worldAlpha n) true)
         (CoreNode.set_premultipliedColorTr
            (mergeColorAlphaPremultiplied (Props.colorTr props)
               (CoreNode.worldAlpha n) true) na)).

(** [this.children.forEach((child) => child.setUpdateType(type))] *)
Fixpoint forEach_setUpdateType (fuel : nat) (s : St) (cs : list nat)
    (type : Z) : result St :=
  match cs with
  | [] => Ok s
  | c :: cs' =>
      let! s1 := setUpdateType fuel s c type in
      forEach_setUpdateType fuel s1 cs' type
  end.

(** A step guarded by a pending flag of [this]. *)
Definition whenFlag (s : St) (this : nat) (flag : Z)
    (step : St -> result St) : result St :=
  let! n := getNode s this in
  if hasFlag (CoreNode.updateType n) flag then step s else Ok s.

(** The first steps of [update]: [ScaleRotate] and [Local]. *)
Definition updateSelf_transforms (fuel : nat) (s : St) (this : nat)
  : result St :=
  let! s := whenFlag s this UpdateType.ScaleRotate (fun s =>
         let! s := modifyNode s this updateScaleRotateTransform in
         setUpdateType fuel s this UpdateType.Local) in
  whenFlag s this UpdateType.Local (fun s =>
         let! s := updateLocalTransform fuel s this in
         setUpdateType fuel s this UpdateType.Global).

(** The render-texture steps of [update]: the walk over the ancestors
    under [ParentRenderTexture], and the full update forced on the
    children under [RenderTexture]. *)
Definition updateSelf_rtt (fuel : nat) (s : St) (this : nat)
    (parent : option nat) : result St :=
  let! s := whenFlag s this UpdateType.ParentRenderTexture (fun s =>
         let! found := hasRttAncestor fuel s parent false in
         if found
         then modifyNode s this (CoreNode.set_parentHasRenderTexture true)
         else Ok s) in
  let! n := getNode s this in
  if negb (Z.lxor (CoreNode.updateType n) UpdateType.All =? 0)%Z
     && hasFlag (CoreNode.updateType n) UpdateType.RenderTexture
  then forEach_setUpdateType fuel s (CoreNode.children n) UpdateType.All
  else Ok s.

(** The [Global] step of [update]. *)
Definition updateSelf_global (fuel : nat) (s : St) (this : nat)
    (parent : option nat) (childUpdateType : Z) : result (St * Z) :=
  let! n := getNode s this in
  if hasFlag (CoreNode.updateType n) UpdateType.Global then
    let! pn := match parent with
          | Some p => let! pn := getNode s p in Ok (Some pn)
          | None => Ok None
          end in
    let! n' := updateGlobal pn n in
    let! s := setUpdateType fuel (putNode s this n') this
           (Z.lor (Z.lor UpdateType.Clipping UpdateType.RenderState)
              UpdateType.Children) in
    Ok (s, Z.lor childUpdateType UpdateType.Global)
  else Ok (s, childUpdateType).

(** The steps of [update] from [Clipping] to [CalculatedZIndex]. *)
Definition updateSelf_post (fuel : nat) (s : St) (this : nat)
    (parent : option nat) (parentClippingRect : Rect.t num)
    (childUpdateType : Z) : result (St * Z) :=
  let! n := getNode s this in
  let! '(s, childUpdateType) :=
    (if hasFlag (CoreNode.updateType n) UpdateType.Clipping then
       let! n' := calculateClippingRect parentClippingRect n in
       let! s := setUpdateType fuel (putNode s this n') this UpdateType.Children in
       Ok (s, Z.lor childUpdateType UpdateType.Clipping)
     else Ok (s, childUpdateType)) in
  let! n := getNode s this in
  let! '(s, childUpdateType) :=
    (if hasFlag (CoreNode.updateType n) UpdateType.WorldAlpha then
       let! worldAlpha :=
         match parent with
         | Some p =>
             let! pn := getNode s p in
             Ok (CoreNode.worldAlpha pn * Props.alpha (CoreNode.props n))
         | None => Ok (Props.alpha (CoreNode.props n))
         end in
       let! s := setUpdateType fuel
              (putNode s this (CoreNode.set_worldAlpha worldAlpha n)) this
              (Z.lor (Z.lor UpdateType.Children UpdateType.PremultipliedColors)
                 UpdateType.IsRenderable) in
       Ok (s, Z.lor childUpdateType UpdateType.WorldAlpha)
     else Ok (s, childUpdateType)) in
  let! s := whenFlag s this UpdateType.PremultipliedColors (fun s =>
         modifyNode s this updatePremultipliedColors) in
  let! s := whenFlag s this UpdateType.RenderState (fun s =>
         let! s := updateRenderState s this parentClippingRect in
         setUpdateType fuel s this UpdateType.IsRenderable) in
  let! s := whenFlag s this UpdateType.IsRenderable (fun s =>
         updateIsRenderable s this) in
  let! n := getNode s this in
  let! s := match parent with
       | Some p =>
           if hasFlag (CoreNode.updateType n) UpdateType.CalculatedZIndex then
             let! pn := getNode s p in
             let s := putNode s this (calculateZIndex (Some pn) n) in
             setUpdateType fuel s p UpdateType.ZIndexSortedChildren
           else Ok s
       | None => Ok s
       end in
  Ok (s, childUpdateType).

(** The steps of [update] that precede the visit of the children, in
    the order of the source; [parent] is read once, after the [Local]
    step.  The result carries [childUpdateType]. *)
Definition updateSelf (fuel : nat) (s : St) (this : nat)
    (parentClippingRect : Rect.t num) : result (St * Z) :=
  let! s := updateSelf_transforms fuel s this in
  let! n := getNode s this in
  let parent := Props.parent (CoreNode.props n) in
  let childUpdateType := UpdateType.None in
  let! s := updateSelf_rtt fuel s this parent in
  let! '(s, childUpdateType) :=
    updateSelf_global fuel s this parent childUpdateType in
  updateSelf_post fuel s this parent parentClippingRect childUpdateType.

(** The visit of the children in [update]:
    [this.children.forEach((child) => { ... })], with [upd] standing for
    [child.update(delta, ...)].  The children are visited by index, as
    [forEach] does: the length is taken once, the entry and
    [this.clippingRect] are read when the child is reached. *)
Fixpoint forEach_update (upd : St -> nat -> Rect.t num -> result St)
    (fuel : nat) (this : nat) (childUpdateType : Z) (count k : nat) (s : St)
    {struct count} : result St :=
  match count with
  | O => Ok s
  | S count' =>
      let! n := getNode s this in
      match CoreNode.children n !! k with
      | None => forEach_update upd fuel this childUpdateType count' (S k) s
      | Some child =>
          let! s := setUpdateType fuel s child childUpdateType in
          let! cn := getNode s child in
          if (CoreNode.updateType cn =? 0)%Z
          then forEach_update upd fuel this childUpdateType count' (S k) s
          else
            let! n := getNode s this in
            let! s := upd s child (CoreNode.clippingRect n) in
            forEach_update upd fuel this childUpdateType count' (S k) s
      end
  end.

(** [update(delta, parentClippingRect)] *)
Fixpoint update (fuel : nat) (s : St) (this : nat) (delta : num)
    (parentClippingRect : Rect.t num) : result St :=
  match fuel with
  | O => OutOfFuel
  | S fuel' =>
      let! '(s, childUpdateType) :=
        updateSelf fuel' s this parentClippingRect in
      let! n := getNode s this in
      let! s :=
        (if hasFlag (CoreNode.updateType n) UpdateType.Children
            && negb (Nat.eqb (List.length (CoreNode.children n)) 0)
            && negb (Props.rtt (CoreNode.props n))
         then
           forEach_update (fun s child r => update fuel' s child delta r)
             fuel' this childUpdateType
             (List.length (CoreNode.children n)) O s
         else Ok s) in
      let! n := getNode s this in
      let! s :=
        (if hasFlag (CoreNode.updateType n) UpdateType.ZIndexSortedChildren
         then sortChildren s this
         else Ok s) in
      modifyNode s this (CoreNode.set_updateType 0%Z)
  end.

(** [update] together with the nodes that the pass visits.  The visit of
    the children returns the nodes on which [update] was called below the
    node, in the order of the calls; [updlog] stands for the logged
    [child.update(delta, ...)]. *)
Fixpoint forEach_update_log
    (updlog : St -> nat -> Rect.t num -> result (St * list nat))
    (fuel : nat) (this : nat) (childUpdateType : Z) (count k : nat) (s : St)
    {struct count} : result (St * list nat) :=
  match count with
  | O => Ok (s, [])
  | S count' =>
      let! n := getNode s this in
      match CoreNode.children n !! k with
      | None =>
          forEach_update_log updlog fuel this childUpdateType count' (S k) s
      | Some child =>
          let! s := setUpdateType fuel s child childUpdateType in
          let! cn := getNode s child in
          if (CoreNode.updateType cn =? 0)%Z
          then
            forEach_update_log updlog fuel this childUpdateType count' (S k) s
          else
            let! n := getNode s this in
            let! '(s, visited) := updlog s child (CoreNode.clippingRect n) in
            let! '(s, visited') :=
              forEach_update_log updlog fuel this childUpdateType count'
                (S k) s in
            Ok (s, visited ++ visited')
      end
  end.

(** [update_log] runs [update] and lists the nodes on which [update] is
    called during the pass, the node itself first. *)
Fixpoint update_log (fuel : nat) (s : St) (this : nat) (delta : num)
    (parentClippingRect : Rect.t num) : result (St * list nat) :=
  match fuel with
  | O => OutOfFuel
  | S fuel' =>
      let! '(s, childUpdateType) :=
        updateSelf fuel' s this parentClippingRect in
      let! n := getNode s this in
      let! '(s, visited) :=
        (if hasFlag (CoreNode.updateType n) UpdateType.Children
            && negb (Nat.eqb (List.length (CoreNode.children n)) 0)
            && negb (Props.rtt (CoreNode.props n))
         then
           forEach_update_log
             (fun s child r => update_log fuel' s child delta r)
             fuel' this childUpdateType
             (List.length (CoreNode.children n)) O s
         else Ok (s, [])) in
      let! n := getNode s this in
      let! s :=
        (if hasFlag (CoreNode.updateType n) UpdateType.ZIndexSortedChildren
         then sortChildren s this
         else Ok s) in
      let! s := modifyNode s this (CoreNode.set_updateType 0%Z) in
      Ok (s, this :: visited)
  end.

(** [set x(value)] *)
Definition set_x (fuel : nat) (s : St) (this : nat) (value : num)
  : result St :=
  let! n := getNode s this in
  if negb (Props.x (CoreNode.props n) === value) then
    let p := CoreNode.props n in
    let p' :=
      Props.mk value (Props.y p) (Props.width p) (Props.height p)
        (Props.alpha p) (Props.autosize p) (Props.clipping p) (Props.color p)
        (Props.colorTop p) (Props.colorBottom p) (Props.colorLeft p)
        (Props.colorRight p) (Props.colorTl p) (Props.colorTr p)
        (Props.colorBr p) (Props.colorBl p) (Props.parent p) (Props.zIndex p)
        (Props.texture p) (Props.textureOptions p) (Props.shader p)
        (Props.src p) (Props.zIndexLocked p) (Props.scaleX p) (Props.scaleY p)
        (Props.mount p) (Props.mountX p) (Props.mountY p) (Props.pivot p)
        (Props.pivotX p) (Props.pivotY p) (Props.rotation p) (Props.rtt p) in
    setUpdateType fuel (putNode s this (CoreNode.set_props p' n)) this
      UpdateType.Local
  else Ok s.

(** ** Textures *)

(** [unloadTexture()] *)
Definition unloadTexture (s : St) (this : nat) : result St :=
  let! n := getNode s this in
  match Props.texture (CoreNode.props n) with
  | Some texture =>
      let t := Texture.id texture in
      Ok (emitEffect
            (emitEffect
               (emitEffect
                  (emitEffect s (TextureOff t this "loaded"))
                  (TextureOff t this "failed"))
               (TextureOff t this "freed"))
            (SetRenderableOwner t this false))
  | None => Ok s
  end.

(** [loadTexture()]: the work is deferred to a microtask. *)
Definition loadTexture (s : St) (this : nat) : result St :=
  let! n := getNode s this in
  match Props.texture (CoreNode.props n) with
  | Some texture => Ok (emitEffect s (QueueLoadTexture this (Texture.id texture)))
  | None => Throw "Assertion failed"
  end.

(** [a === b] on texture references. *)
Definition texture_same (a b : option (Texture.t num)) : bool :=
  match a, b with
  | None, None => true
  | Some ta, Some tb => Nat.eqb (Texture.id ta) (Texture.id tb)
  | _, _ => false
  end.

(** [set texture(value)] *)
Definition set_texture (fuel : nat) (s : St) (this : nat)
    (value : option (Texture.t num)) : result St :=
  let! n := getNode s this in
  if texture_same (Props.texture (CoreNode.props n)) value then Ok s
  else
    let! s :=
      match Props.texture (CoreNode.props n) with
      | Some oldTexture =>
          unloadTexture
            (emitEffect s (SetRenderableOwner (Texture.id oldTexture) this false))
            this
      | None => Ok s
      end in
    let! s :=
      modifyNode s this (fun n =>
        CoreNode.set_props (Props.set_texture value (CoreNode.props n)) n) in
    let! s :=
      match value with
      | Some v =>
          let! n := getNode s this in
          loadTexture
            (emitEffect s
               (SetRenderableOwner (Texture.id v) this (CoreNode.isRenderable n)))
            this
      | None => Ok s
      end in
    setUpdateType fuel s this UpdateType.IsRenderable.

(** ** Render to texture *)

(** [this.children.forEach((child) => { child.parentHasRenderTexture = false })] *)
Fixpoint forEach_clearParentHasRenderTexture (s : St) (cs : list nat)
  : result St :=
  match cs with
  | [] => Ok s
  | c :: cs' =>
      let! s1 := modifyNode s c (CoreNode.set_parentHasRenderTexture false) in
      forEach_clearParentHasRenderTexture s1 cs'
  end.

Definition set_props_rtt (v : bool) (n : Node) : Node :=
  CoreNode.set_props (Props.set_rtt v (CoreNode.props n)) n.

(** The part of [set rtt(value)] that turns the render target on. *)
Definition rtt_enable (fuel : nat) (s : St) (this : nat) : result St :=
  let! n := getNode s this in
  let! s :=
    set_texture fuel s this
      (Some (loadRenderTexture (Props.width (CoreNode.props n))
               (Props.height (CoreNode.props n)))) in
  let! n := getNode s this in
  match Props.textureOptions (CoreNode.props n) with
  | None => Throw "TypeError: cannot set properties of null"
  | Some opts =>
      let n1' :=
        CoreNode.set_props
          (Props.set_textureOptions
             (Some (TextureOptions.set_preload true opts)) (CoreNode.props n))
          n in
      let n2' := CoreNode.set_hasRTTupdates true (set_props_rtt true n1') in
      let! s := setUpdateType fuel (putNode s this n2') this UpdateType.All in
      let! n := getNode s this in
      let! s := forEach_setUpdateType fuel s (CoreNode.children n)
                  UpdateType.All in
      Ok (if Stage.renderer stage then emitEffect s (RenderToTexture this)
          else s)
  end.

(** [set rtt(value)] *)
Definition set_rtt (fuel : nat) (s : St) (this : nat) (value : bool)
  : result St :=
  let! n := getNode s this in
  if Props.rtt (CoreNode.props n) then
    let s1 := putNode s this (set_props_rtt value n) in
    if negb value && negb (texture_same (Props.texture (CoreNode.props n)) None)
    then
      let! s2 := unloadTexture s1 this in
      let! s3 := setUpdateType fuel s2 this UpdateType.All in
      let! n3 := getNode s3 this in
      let! s4 := forEach_clearParentHasRenderTexture s3 (CoreNode.children n3) in
      Ok (if Stage.renderer stage then emitEffect s4 (RemoveRTTNode this)
          else s4)
    else if negb value then Ok s1
    else rtt_enable fuel s1 this
  else if negb value then Ok s
  else rtt_enable fuel s this.

(** ** The tree *)

(** [children.indexOf(this)], [None] standing for -1. *)
Fixpoint indexOf (this : nat) (cs : list nat) : option nat :=
  match cs with
  | [] => None
  | c :: cs' =>
      if Nat.eqb c this then Some O else option_map S (indexOf this cs')
  end.

Definition same_ref (a b : option nat) : bool :=
  match a, b with
  | None, None => true
  | Some x, Some y => Nat.eqb x y
  | _, _ => false
  end.

(** The detach step of [set parent]: [if (oldParent) { ... }]. *)
Definition set_parent_detach (fuel : nat) (s : St) (this : nat)
    (oldParent : option nat) : result St :=
  match oldParent with
  | Some op =>
      let! on := getNode s op in
      match indexOf this (CoreNode.children on) with
      | None =>
          Throw "CoreNode.parent: Node not found in old parent's children!"
      | Some index =>
          let s :=
            putNode s op
              (CoreNode.set_children
                 (delete index (CoreNode.children on)) on) in
          setUpdateType fuel s op
            (Z.lor UpdateType.Children UpdateType.ZIndexSortedChildren)
      end
  | None => Ok s
  end.

(** The attach step of [set parent]: [if (newParent) { ... }]. *)
Definition set_parent_attach (fuel : nat) (s : St) (this : nat)
    (newParent : option nat) : result St :=
  match newParent with
  | Some np =>
      let! nn := getNode s np in
      let s :=
        putNode s np
          (CoreNode.set_children (CoreNode.children nn ++ [this]) nn) in
      let! s := setUpdateType fuel s this UpdateType.All in
      let! s := setUpdateType fuel s np
                  (Z.lor UpdateType.Children
                     UpdateType.ZIndexSortedChildren) in
      let! nn := getNode s np in
      if Props.rtt (CoreNode.props nn) || CoreNode.parentHasRenderTexture nn
      then setRTTUpdates fuel s this UpdateType.All
      else Ok s
  | None => Ok s
  end.

(** [set parent(newParent)] *)
Definition set_parent (fuel : nat) (s : St) (this : nat)
    (newParent : option nat) : result St :=
  let! n := getNode s this in
  let oldParent := Props.parent (CoreNode.props n) in
  if same_ref oldParent newParent then Ok s
  else
    let s :=
      putNode s this
        (CoreNode.set_props (Props.set_parent newParent (CoreNode.props n)) n) in
    let! s := set_parent_detach fuel s this oldParent in
    let! s := set_parent_attach fuel s this newParent in
    modifyNode s this updateScaleRotateTransform.

End WithStage.
End CoreNodeMethods.

(* ===================================================================== *)
(** * The CoreNode class of src/core/CoreNode.ts                           *)
(* ===================================================================== *)

(** The earlier, plain node class: props and a children list, no dirty
    flags.  Textures and shaders are opaque references. *)
Module PlainNode.
Record Props (num : Type) : Type := mkProps {
  id : num;
  x : num;
  y : num;
  w : num;
  h : num;
  alpha : num;
  color : num;
  zIndex : num;
  parent : option nat;
  texture : option nat;
  textureOptions : option nat;
  shader : option nat;
  shaderProps : option nat
}.
Arguments mkProps {num}.
Arguments id {num} _.
Arguments x {num} _.
Arguments y {num} _.
Arguments w {num} _.
Arguments h {num} _.
Arguments alpha {num} _.
Arguments color {num} _.
Arguments zIndex {num} _.
Arguments parent {num} _.
Arguments texture {num} _.
Arguments textureOptions {num} _.
Arguments shader {num} _.
Arguments shaderProps {num} _.

Record t (num : Type) : Type := mk {
  children : list nat;
  props : Props num
}.
Arguments mk {num}.
Arguments children {num} _.
Arguments props {num} _.

Definition set_props_parent {num : Type} (v : option nat) (r : t num) : t num :=
  mk (children r)
     (mkProps (id (props r)) (x (props r)) (y (props r)) (w (props r))
        (h (props r)) (alpha (props r)) (color (props r)) (zIndex (props r))
        v (texture (props r)) (textureOptions (props r)) (shader (props r))
        (shaderProps (props r))).

Definition set_children {num : Type} (v : list nat) (r : t num) : t num :=
  mk v (props r).

(** [children.indexOf(this)], [None] standing for -1. *)
Fixpoint indexOf (this : nat) (cs : list nat) : option nat :=
  match cs with
  | [] => None
  | c :: cs' =>
      if Nat.eqb c this then Some O else option_map S (indexOf this cs')
  end.

(** [set parent(newParent)]: no early return; detach, then append. *)
Definition set_parent {num : Type} (s : gmap nat (t num)) (this : nat)
    (newParent : option nat) : result (gmap nat (t num)) :=
  match s !! this with
  | None => Throw "TypeError: no such object"
  | Some n =>
      let oldParent := parent (props n) in
      let s := <[this := set_props_parent newParent n]> s in
      let! s :=
        match oldParent with
        | Some op =>
            match s !! op with
            | None => Throw "TypeError: no such object"
            | Some on =>
                match indexOf this (children on) with
                | None =>
                    Throw "CoreNode.parent: Node not found in old parent's children!"
                | Some index =>
                    Ok (<[op := set_children (delete index (children on)) on]> s)
                end
            end
        | None => Ok s
        end in
      match newParent with
      | Some np =>
          match s !! np with
          | None => Throw "TypeError: no such object"
          | Some nn => Ok (<[np := set_children (children nn ++ [this]) nn]> s)
          end
      | None => Ok s
      end
  end.

(** The parent references and the children lists of a store. *)
Definition parents {num : Type} (h : gmap nat (t num)) : gmap nat (option nat) :=
  (fun n => parent (props n)) <$> h.

Definition kids {num : Type} (h : gmap nat (t num)) : gmap nat (list nat) :=
  children <$> h.

End PlainNode.

(* ===================================================================== *)
(** * An exact interpretation over the integers                            *)
(* ===================================================================== *)

(** The theorems below hold for every interpretation of [Lib].  Concrete
    scenes are evaluated in this one: numbers are integers (doubles
    compute exactly on them), angles are counted in quarter turns so that
    sine and cosine are integers, and the library operations are the usual
    ones of 2x3 affine matrices and of rectangles. *)
Module ZInterp.

Definition cosq (k : Z) : Z :=
  match k mod 4 with 0 => 1 | 2 => -1 | _ => 0 end.

Definition sinq (k : Z) : Z :=
  match k mod 4 with 1 => 1 | 3 => -1 | _ => 0 end.

Definition rotate (k : Z) : Matrix3d.t Z :=
  Matrix3d.mk (cosq k) (- sinq k) 0 (sinq k) (cosq k) 0.

Definition scale (m : Matrix3d.t Z) (sx sy : Z) : Matrix3d.t Z :=
  Matrix3d.mk (Matrix3d.ta m * sx) (Matrix3d.tb m * sy) (Matrix3d.tx m)
    (Matrix3d.tc m * sx) (Matrix3d.td m * sy) (Matrix3d.ty m).

Definition translate_static (x y : Z) : Matrix3d.t Z :=
  Matrix3d.mk 1 0 x 0 1 y.

Definition translate (m : Matrix3d.t Z) (x y : Z) : Matrix3d.t Z :=
  Matrix3d.mk (Matrix3d.ta m) (Matrix3d.tb m)
    (Matrix3d.ta m * x + Matrix3d.tb m * y + Matrix3d.tx m)
    (Matrix3d.tc m) (Matrix3d.td m)
    (Matrix3d.tc m * x + Matrix3d.td m * y + Matrix3d.ty m).

Definition multiply (a b : Matrix3d.t Z) : Matrix3d.t Z :=
  Matrix3d.mk
    (Matrix3d.ta a * Matrix3d.ta b + Matrix3d.tb a * Matrix3d.tc b)
    (Matrix3d.ta a * Matrix3d.tb b + Matrix3d.tb a * Matrix3d.td b)
    (Matrix3d.ta a * Matrix3d.tx b + Matrix3d.tb a * Matrix3d.ty b
     + Matrix3d.tx a)
    (Matrix3d.tc a * Matrix3d.ta b + Matrix3d.td a * Matrix3d.tc b)
    (Matrix3d.tc a * Matrix3d.tb b + Matrix3d.td a * Matrix3d.td b)
    (Matrix3d.tc a * Matrix3d.tx b + Matrix3d.td a * Matrix3d.ty b
     + Matrix3d.ty a).

Definition inside (a b : Bound.t Z) : bool :=
  (Bound.x1 b <=? Bound.x1 a) && (Bound.x2 a <=? Bound.x2 b)
  && (Bound.y1 b <=? Bound.y1 a) && (Bound.y2 a <=? Bound.y2 b).

Definition intersect (a b out : Rect.t Z) : Rect.t Z :=
  let x := Z.max (Rect.x a) (Rect.x b) in
  let y := Z.max (Rect.y a) (Rect.y b) in
  let width := Z.min (Rect.x a + Rect.width a) (Rect.x b + Rect.width b) - x in
  let height :=
    Z.min (Rect.y a + Rect.height a) (Rect.y b + Rect.height b) - y in
  if (0 <? width) && (0 <? height)
  then Rect.mk x y width height (Rect.valid out)
  else Rect.mk 0 0 0 0 (Rect.valid out).

Definition copy (a out : Rect.t Z) : Rect.t Z :=
  Rect.mk (Rect.x a) (Rect.y a) (Rect.width a) (Rect.height a)
    (Rect.valid out).

(** Colours are packed RGBA; [alpha] is 0 or 1 in this interpretation. *)
Definition mergeColor (rgba alpha : Z) (flipEndianess : bool) : Z :=
  let a := Z.land rgba 255 * alpha in
  let r := Z.shiftr rgba 24 * a / 255 in
  let g := Z.land (Z.shiftr rgba 16) 255 * a / 255 in
  let b := Z.land (Z.shiftr rgba 8) 255 * a / 255 in
  if flipEndianess
  then Z.lor (Z.lor (Z.lor (Z.shiftl a 24) (Z.shiftl b 16)) (Z.shiftl g 8)) r
  else Z.lor (Z.lor (Z.lor (Z.shiftl r 24) (Z.shiftl g 16)) (Z.shiftl b 8)) a.

#[export] Instance ZLib : Lib Z := {|
  n0 := 0;
  n1 := 1;
  n2 := 2;
  nadd := Z.add;
  nsub := Z.sub;
  nmul := Z.mul;
  ndiv := Z.div;
  nneg := Z.opp;
  strict_eq := Z.eqb;
  nlt := Z.ltb;
  ngt := Z.gtb;
  truthy := fun z => negb (z =? 0);
  Math_min := Z.min;
  Math_max := Z.max;
  Matrix3d_rotate := rotate;
  Matrix3d_scale := scale;
  Matrix3d_translate_static := translate_static;
  Matrix3d_translate := translate;
  Matrix3d_multiply := multiply;
  boundInsideBound := inside;
  intersectRect := intersect;
  copyRect := copy;
  mergeColorAlphaPremultiplied := mergeColor;
  loadRenderTexture := fun w h => Texture.mk 1000%nat (Some (Dimensions.mk w h))
|}.

(** A node with the default props of the node factory at the given
    position and size, freshly constructed ([updateType = All]). *)
Definition mkProps (x y width height : Z) (parent : option nat) : Props.t Z :=
  Props.mk x y width height 1 false false 0 0 0 0 0 0 0 0 0 parent 0 None
    (Some (TextureOptions.mk false None)) 0%nat EmptyString 0
    1 1 0 0 0 0 0 0 0 false.

Definition mkNode (x y width height : Z) (parent : option nat)
    (children : list nat) : CoreNode.t Z :=
  CoreNode.mk children (mkProps x y width height parent) UpdateType.All
    None (Some (scale (rotate 0) 1 1)) None None None None None
    (Rect.mk 0 0 0 0 false) false Init 1 0 0 0 0 0 false false.

Definition stage0 : Stage.t Z := Stage.mk 0%nat 1%nat (100, 100, 100, 100) true.

End ZInterp.

(* ===================================================================== *)
(** * Statements of the specification                                      *)
(* ===================================================================== *)

Section Specification.
Context {num : Type} `{L : Lib num}.
Local Open Scope js_scope.

(** Some of the nine colour channels (fill, four edges, four corners) is
    nonzero. *)
Definition any_color_nonzero (p : Props.t num) : bool :=
  negb (Props.color p === n0)
  || negb (Props.colorTop p === n0) || negb (Props.colorBottom p === n0)
  || negb (Props.colorLeft p === n0) || negb (Props.colorRight p === n0)
  || negb (Props.colorTl p === n0) || negb (Props.colorTr p === n0)
  || negb (Props.colorBl p === n0) || negb (Props.colorBr p === n0).

(** Render eligibility in the words of the specification: an attached
    texture, or nonzero width and height together with a non-default
    shader, clipping, or a nonzero colour channel. *)
Definition spec_render_eligible (stage : Stage.t num) (n : CoreNode.t num)
  : bool :=
  let p := CoreNode.props n in
  match Props.texture p with Some _ => true | None => false end
  || (truthy (Props.width p) && truthy (Props.height p)
      && (negb (Nat.eqb (Props.shader p) (Stage.defShaderCtr stage))
          || Props.clipping p || any_color_nonzero p)).

(** The render bound in the words of the specification: the two opposite
    corners for a non-rotated transform, the extremes of the four corners
    for a rotated one ([tb] or [tc] nonzero). *)
Definition spec_render_bound (transform : Matrix3d.t num)
    (rc : RenderCoords.t num) : Bound.t num :=
  if negb (Matrix3d.tb transform === n0) || negb (Matrix3d.tc transform === n0)
  then
    createBound
      (Math_min4 (RenderCoords.x1 rc) (RenderCoords.x2 rc)
         (RenderCoords.x3 rc) (RenderCoords.x4 rc))
      (Math_min4 (RenderCoords.y1 rc) (RenderCoords.y2 rc)
         (RenderCoords.y3 rc) (RenderCoords.y4 rc))
      (Math_max4 (RenderCoords.x1 rc) (RenderCoords.x2 rc)
         (RenderCoords.x3 rc) (RenderCoords.x4 rc))
      (Math_max4 (RenderCoords.y1 rc) (RenderCoords.y2 rc)
         (RenderCoords.y3 rc) (RenderCoords.y4 rc))
  else
    createBound (RenderCoords.x1 rc) (RenderCoords.y1 rc)
      (RenderCoords.x3 rc) (RenderCoords.y3 rc).

(** ** The tree *)

(** The fields of a node that [setUpdateType] and [setRTTUpdates] may
    write are [updateType] and [hasRTTupdates]; [strip] forgets them. *)
Definition strip (n : CoreNode.t num) : CoreNode.t num :=
  CoreNode.set_updateType 0%Z (CoreNode.set_hasRTTupdates false n).

Definition strip_rtt (n : CoreNode.t num) : CoreNode.t num :=
  CoreNode.set_hasRTTupdates false n.

(** [ancestors h n l]: [l] is the chain of the ancestors of [n], from its
    parent up to the root of its tree. *)
Inductive ancestors (h : gmap nat (CoreNode.t num)) : nat -> list nat -> Prop :=
| ancestors_root (n : nat) (nd : CoreNode.t num) :
    h !! n = Some nd ->
    Props.parent (CoreNode.props nd) = None ->
    ancestors h n []
| ancestors_step (n p : nat) (nd : CoreNode.t num) (l : list nat) :
    h !! n = Some nd ->
    Props.parent (CoreNode.props nd) = Some p ->
    ancestors h p l ->
    ancestors h n (p :: l).

(** The pending mask of a node of the store. *)
Definition updateTypeOf (s : State num) (a : nat) : option Z :=
  CoreNode.updateType <$> nodes s !! a.

(** The [Children] flag of node [a] is pending. *)
Definition childrenPending (s : State num) (a : nat) : Prop :=
  exists u, updateTypeOf s a = Some u
            /\ hasFlag u UpdateType.Children = true.

(** The children lists and the parent references agree: a node is in the
    list of [p] exactly when its parent is [p], and no list holds a node
    twice. *)
Definition tree_consistent (h : gmap nat (CoreNode.t num)) : Prop :=
  (forall (p c : nat) (pn : CoreNode.t num),
      h !! p = Some pn -> c ∈ CoreNode.children pn ->
      exists cn, h !! c = Some cn
                 /\ Props.parent (CoreNode.props cn) = Some p)
  /\ (forall (p c : nat) (cn : CoreNode.t num),
      h !! c = Some cn -> Props.parent (CoreNode.props cn) = Some p ->
      exists pn, h !! p = Some pn /\ c ∈ CoreNode.children pn)
  /\ (forall (p : nat) (pn : CoreNode.t num),
      h !! p = Some pn -> NoDup (CoreNode.children pn)).

(** The parent references and the children lists of a store. *)
Definition parents (h : gmap nat (CoreNode.t num)) : gmap nat (option nat) :=
  (fun n => Props.parent (CoreNode.props n)) <$> h.

Definition kids (h : gmap nat (CoreNode.t num)) : gmap nat (list nat) :=
  CoreNode.children <$> h.

(** [tree_consistent] on the two projections. *)
Definition links_consistent (P : gmap nat (option nat))
    (K : gmap nat (list nat)) : Prop :=
  (forall (p c : nat) (cs : list nat),
      K !! p = Some cs -> c ∈ cs -> P !! c = Some (Some p))
  /\ (forall (p c : nat),
      P !! c = Some (Some p) -> exists cs, K !! p = Some cs /\ c ∈ cs)
  /\ (forall (p : nat) (cs : list nat), K !! p = Some cs -> NoDup cs).

(** The effect of the parent setter on the children list [cs] of node
    [p]: the first occurrence of the node leaves the list of the old
    parent, and the node is appended to the list of the new parent. *)
Definition detach_from (this : nat) (oldParent : option nat) (p : nat)
    (cs : list nat) : list nat :=
  if decide (oldParent = Some p) then
    match indexOf this cs with
    | Some index => delete index cs
    | None => cs
    end
  else cs.

Definition attach_to (this : nat) (newParent : option nat) (p : nat)
    (cs : list nat) : list nat :=
  if decide (newParent = Some p) then cs ++ [this] else cs.

Definition reparent_lists (K : gmap nat (list nat)) (this : nat)
    (oldParent newParent : option nat) : gmap nat (list nat) :=
  map_imap
    (fun p cs =>
       Some (attach_to this newParent p (detach_from this oldParent p cs)))
    K.

(** A decision procedure for [tree_consistent]. *)
Definition tree_consistentb (h : gmap nat (CoreNode.t num)) : bool :=
  forallb
    (fun '(p, pn) =>
       bool_decide (NoDup (CoreNode.children pn))
       && forallb
            (fun c => bool_decide (parents h !! c = Some (Some p)))
            (CoreNode.children pn)
       && match Props.parent (CoreNode.props pn) with
          | Some q =>
              match kids h !! q with
              | Some cs => bool_decide (p ∈ cs)
              | None => false
              end
          | None => true
          end)
    (map_to_list h).

(** ** Footprints of the update pass *)

(** Pending masks only grow until they are reset: [u'] is [u] with more
    flags. *)
Definition mask_le (u u' : Z) : Prop := exists Y, u' = Z.lor u Y.

(** [nd'] is [nd] with more flags pending (and any [hasRTTupdates]). *)
Definition flag_le (nd nd' : CoreNode.t num) : Prop :=
  strip nd' = strip nd
  /\ mask_le (CoreNode.updateType nd) (CoreNode.updateType nd').

(** Between two states, every node has at most more flags pending. *)
Definition flags_grow (s s' : State num) : Prop :=
  forall m nd, nodes s !! m = Some nd ->
    exists nd', nodes s' !! m = Some nd' /\ flag_le nd nd'.

(** [c] is a child of [p]. *)
Definition kid (h : gmap nat (CoreNode.t num)) (p c : nat) : Prop :=
  exists pn, h !! p = Some pn /\ c ∈ CoreNode.children pn.

(** Every child names its owner as its parent. *)
Definition children_point_back (h : gmap nat (CoreNode.t num)) : Prop :=
  forall p c, kid h p c ->
    exists cn, h !! c = Some cn /\ Props.parent (CoreNode.props cn) = Some p.

(** [m] is in the subtree of [c]: [c] is [m] or one of its ancestors. *)
Definition below (h : gmap nat (CoreNode.t num)) (c m : nat) : Prop :=
  exists l, ancestors h m l /\ c ∈ m :: l.

(** The props and the children list of a node. *)
Definition shape (n : CoreNode.t num) : Props.t num * list nat :=
  (CoreNode.props n, CoreNode.children n).

(** The footprint of the steps that [update] performs on the node itself:
    the tree is untouched, the node keeps [keep] and its mask grows, the
    other nodes change in their flags at most, and the nodes out of the
    footprint [fp] do not change. *)
Definition self_frame {A : Type} (keep : CoreNode.t num -> A) (this : nat)
    (fp : list nat) (s s' : State num) : Prop :=
  parents (nodes s') = parents (nodes s)
  /\ kids (nodes s') = kids (nodes s)
  /\ (forall m, m <> this ->
        strip <$> nodes s' !! m = strip <$> nodes s !! m)
  /\ (forall m, m <> this -> m ∉ fp -> nodes s' !! m = nodes s !! m)
  /\ (forall nd, nodes s !! this = Some nd ->
        exists nd', nodes s' !! this = Some nd'
                    /\ shape nd' = shape nd /\ keep nd' = keep nd
                    /\ mask_le (CoreNode.updateType nd)
                          (CoreNode.updateType nd')).

(** The children lists of [h'] are those of [h] up to their order. *)
Definition kids_perm (h h' : gmap nat (CoreNode.t num)) : Prop :=
  forall p, option_Forall2 Permutation (kids h' !! p) (kids h !! p).

(** No children list holds a node twice. *)
Definition kids_NoDup (h : gmap nat (CoreNode.t num)) : Prop :=
  forall p pn, h !! p = Some pn -> NoDup (CoreNode.children pn).

(** The footprint of a whole [update] of [this], whose ancestors are
    [lc]: parent references are kept and children lists are permuted, nodes out of the
    subtree change in their flags at most, and nodes that are neither in
    the subtree nor ancestors do not change. *)
Definition pass_frame (this : nat) (lc : list nat) (s s' : State num) : Prop :=
  parents (nodes s') = parents (nodes s)
  /\ kids_perm (nodes s) (nodes s')
  /\ (forall m, ~ below (nodes s) this m ->
        strip <$> nodes s' !! m = strip <$> nodes s !! m)
  /\ (forall m, ~ below (nodes s) this m -> m ∉ lc ->
        nodes s' !! m = nodes s !! m).

(** The transforms of a node. *)
Definition transforms (n : CoreNode.t num)
  : option (Matrix3d.t num) * option (Matrix3d.t num) :=
  (CoreNode.localTransform n, CoreNode.globalTransform n).

(** What the steps of [update] after the [Global] step keep of the node:
    the transforms and the render-target flag. *)
Definition keepPost (n : CoreNode.t num)
  : option (Matrix3d.t num) * option (Matrix3d.t num) * bool :=
  (CoreNode.localTransform n, CoreNode.globalTransform n,
   CoreNode.parentHasRenderTexture n).

(** [n'] is [n] up to cached state other than the transforms. *)
Definition same_core (n n' : CoreNode.t num) : Prop :=
  shape n' = shape n /\ keepPost n' = keepPost n
  /\ CoreNode.updateType n' = CoreNode.updateType n.

(** The parent object of a node, if it has one. *)
Definition parentNode (s : State num) (n : CoreNode.t num)
  : option (CoreNode.t num) :=
  match Props.parent (CoreNode.props n) with
  | Some p => nodes s !! p
  | None => None
  end.

(** The render-target flag of a node is up to date or about to be
    refreshed: when the parent is a render target, the node is flagged as
    inside a render target or has [ParentRenderTexture] pending.  The
    constructor and the setters of [parent] and [rtt] leave the nodes
    they touch with all flags pending. *)
Definition rtt_flag_current (s : State num) (n : CoreNode.t num) : Prop :=
  forall pn, parentNode s n = Some pn ->
    Props.rtt (CoreNode.props pn) = true ->
    CoreNode.parentHasRenderTexture n = true
    \/ hasFlag (CoreNode.updateType n) UpdateType.ParentRenderTexture = true.

(** The flags under which [update] reaches its [Global] step. *)
Definition GlobalTriggers : Z :=
  Z.lor (Z.lor UpdateType.ScaleRotate UpdateType.Local) UpdateType.Global.

(** The global transform in the words of the specification: the local
    transform for a node without parent; otherwise the global transform
    of the parent composed with the local transform, the base being the
    identity when the parent is a render target. *)
Definition spec_global_transform (parent : option (CoreNode.t num))
    (localTransform : Matrix3d.t num) : option (Matrix3d.t num) :=
  match parent with
  | None => Some localTransform
  | Some pn =>
      if Props.rtt (CoreNode.props pn)
      then Some (Matrix3d_multiply Matrix3d_identity localTransform)
      else
        match CoreNode.globalTransform pn with
        | Some pg => Some (Matrix3d_multiply pg localTransform)
        | None => None
        end
  end.

End Specification.

(* ===================================================================== *)
(** * Concrete scenes                                                      *)
(* ===================================================================== *)

Module Scenes.
Import ZInterp.

(** A 100x100 node with the default shader: no texture, no clipping, all
    colours zero. *)
Definition blank_default_node : CoreNode.t Z := mkNode 0 0 100 100 None [].

(** The same node with a shader of its own (controller 7). *)
Definition blank_custom_shader_node : CoreNode.t Z :=
  CoreNode.set_props
    (Props.set_shader 7%nat (CoreNode.props blank_default_node))
    blank_default_node.

(** A 10x10 node turned by a quarter turn clockwise and flattened
    ([scaleX = 1], [scaleY = 0]): its global transform has [tb = 0] and
    [tc = -1]. *)
Definition flattened_transform : Matrix3d.t Z := scale (rotate (-1)) 1 0.

Definition flattened_node : CoreNode.t Z :=
  CoreNode.set_globalTransform (Some flattened_transform)
    (mkNode 0 0 10 10 None []).

Definition flattened_coords : RenderCoords.t Z :=
  RenderCoords.mk 0 0 0 (-10) 0 (-10) 0 0.

(** A chain 1 <- 2 <- 3 <- 4 of clean nodes in which node 2 alone has
    [Children] pending. *)
Definition chain_scene : State Z :=
  mkState
    (list_to_map
       [(1%nat, CoreNode.set_updateType 0 (mkNode 0 0 1920 1080 None [2%nat]));
        (2%nat, CoreNode.set_updateType UpdateType.Children
                  (mkNode 0 0 100 100 (Some 1%nat) [3%nat]));
        (3%nat, CoreNode.set_updateType 0
                  (mkNode 0 0 100 100 (Some 2%nat) [4%nat]));
        (4%nat, CoreNode.set_updateType 0
                  (mkNode 0 0 100 100 (Some 3%nat) []))])
    [].

(** A clean tree: root 1 with children 2 and 3, node 4 below node 2. *)
Definition tree_scene : State Z :=
  mkState
    (list_to_map
       [(1%nat, CoreNode.set_updateType 0
                  (mkNode 0 0 1920 1080 None [2%nat; 3%nat]));
        (2%nat, CoreNode.set_updateType 0
                  (mkNode 100 100 300 300 (Some 1%nat) [4%nat]));
        (3%nat, CoreNode.set_updateType 0
                  (mkNode 500 100 300 300 (Some 1%nat) []));
        (4%nat, CoreNode.set_updateType 0
                  (mkNode 50 50 100 100 (Some 2%nat) []))])
    [].

(** The state a computation ends in, for scenes on which it returns. *)
Definition final_state (r : result (State Z)) (otherwise : State Z)
  : State Z :=
  match r with
  | Ok s' => s'
  | _ => otherwise
  end.

(** [tree_scene] after [node4.parent = node3]. *)
Definition tree_scene_reparented : State Z :=
  final_state (set_parent 10 tree_scene 4%nat (Some 3%nat)) tree_scene.


(** A render target with a subtree: node 2 has [rtt = true] and owns
    texture 77; node 3 is its child and node 4 its grandchild, both marked
    as being inside a render target. *)
Definition rtt_owner : CoreNode.t Z :=
  let n := CoreNode.set_updateType 0 (mkNode 0 0 256 256 (Some 1%nat) [3%nat]) in
  CoreNode.set_props
    (Props.set_rtt true
       (Props.set_texture
          (Some (Texture.mk 77%nat (Some (Dimensions.mk 256 256))))
          (CoreNode.props n)))
    n.

Definition inside_rtt (n : CoreNode.t Z) : CoreNode.t Z :=
  CoreNode.set_parentHasRenderTexture true (CoreNode.set_updateType 0 n).

Definition rtt_scene : State Z :=
  mkState
    (list_to_map
       [(1%nat, CoreNode.set_updateType 0 (mkNode 0 0 1920 1080 None [2%nat]));
        (2%nat, rtt_owner);
        (3%nat, inside_rtt (mkNode 0 0 100 100 (Some 2%nat) [4%nat]));
        (4%nat, inside_rtt (mkNode 0 0 50 50 (Some 3%nat) []))])
    [].

(** [rtt_scene] after [node2.rtt = false]. *)
Definition rtt_scene_off : State Z :=
  final_state (set_rtt stage0 10 rtt_scene 2%nat false) rtt_scene.

(** The [parentHasRenderTexture] flag of a node of the store. *)
Definition parentHasRenderTextureOf (s : State Z) (a : nat) : option bool :=
  CoreNode.parentHasRenderTexture <$> nodes s !! a.

(** The clipping rect handed to the root: none. *)
Definition no_clip : Rect.t Z := Rect.mk 0 0 0 0 false.

(** A freshly built scene, all flags pending: root 1 (1920x1080), child 2
    at (100, 100), grandchild 3 at (50, 50). *)
Definition fresh_scene : State Z :=
  mkState
    (list_to_map
       [(1%nat, mkNode 0 0 1920 1080 None [2%nat]);
        (2%nat, mkNode 100 100 300 300 (Some 1%nat) [3%nat]);
        (3%nat, mkNode 50 50 500 500 (Some 2%nat) [])])
    [].

(** [fresh_scene] after a pass from the root. *)
Definition updated_scene : State Z :=
  final_state (update stage0 10 fresh_scene 1%nat 0 no_clip) fresh_scene.

(** [updated_scene] after [node2.x = 150]. *)
Definition moved_scene : State Z :=
  final_state (set_x 10 updated_scene 2%nat 150) updated_scene.

(** [moved_scene] after a pass on node 2. *)
Definition moved_scene_updated : State Z :=
  final_state (update stage0 10 moved_scene 2%nat 0 no_clip) moved_scene.

(** A fresh scene whose node 2 is a render target: node 3, at (50, 50)
    below node 2 at (100, 100), is inside it. *)
Definition fresh_rtt_scene : State Z :=
  mkState
    (list_to_map
       [(1%nat, mkNode 0 0 1920 1080 None [2%nat]);
        (2%nat, set_props_rtt true (mkNode 100 100 300 300 (Some 1%nat) [3%nat]));
        (3%nat, mkNode 50 50 500 500 (Some 2%nat) [])])
    [].

(** The transforms of a node of the store. *)
Definition globalTransformOf (s : State Z) (a : nat)
  : option (option (Matrix3d.t Z)) :=
  CoreNode.globalTransform <$> nodes s !! a.

End Scenes.

(* ===================================================================== *)
(** * CoreNode: the property accessors                                     *)
(* ===================================================================== *)

From stdpp Require Import sorting.

Local Open Scope Z_scope.

Section CoreNodeAccessors.
Context {num : Type} `{L : Lib num}.
Local Open Scope js_scope.

(** ** Plain and guarded setters *)

(** The setters of the shape
    [set p(value) { this.props.p = value; this.setUpdateType(flag); }]. *)
Definition set_stored {A : Type} (set : A -> Props.t num -> Props.t num)
    (flag : Z) (fuel : nat) (s : State num) (this : nat) (value : A)
  : result (State num) :=
  let! n := getNode s this in
  setUpdateType fuel
    (putNode s this (CoreNode.set_props (set value (CoreNode.props n)) n))
    this flag.

(** The setters of the shape
    [set p(value) { if (this.props.p !== value) { this.props.p = value;
    this.setUpdateType(flag); } }]. *)
Definition set_guarded (get : Props.t num -> num)
    (set : num -> Props.t num -> Props.t num) (flag : Z) (fuel : nat)
    (s : State num) (this : nat) (value : num) : result (State num) :=
  let! n := getNode s this in
  if negb (get (CoreNode.props n) === value)
  then set_stored set flag fuel s this value
  else Ok s.

(** [set y(value)] *)
Definition set_y := set_guarded Props.y Props.set_y UpdateType.Local.

(** [set scaleX(value)], [set scaleY(value)] *)
Definition set_scaleX :=
  set_guarded Props.scaleX Props.set_scaleX UpdateType.ScaleRotate.
Definition set_scaleY :=
  set_guarded Props.scaleY Props.set_scaleY UpdateType.ScaleRotate.

(** [set mountX(value)], [set mountY(value)] *)
Definition set_mountX :=
  set_guarded Props.mountX Props.set_mountX UpdateType.Local.
Definition set_mountY :=
  set_guarded Props.mountY Props.set_mountY UpdateType.Local.

(** [set pivotX(value)], [set pivotY(value)] *)
Definition set_pivotX :=
  set_guarded Props.pivotX Props.set_pivotX UpdateType.Local.
Definition set_pivotY :=
  set_guarded Props.pivotY Props.set_pivotY UpdateType.Local.

(** [set rotation(value)] *)
Definition set_rotation :=
  set_guarded Props.rotation Props.set_rotation UpdateType.ScaleRotate.

(** [get scale()] returns [this.scaleX]; [set scale(value)] assigns
    [scaleX], then [scaleY]. *)
Definition get_scale (n : CoreNode.t num) : num :=
  Props.scaleX (CoreNode.props n).

Definition set_scale (fuel : nat) (s : State num) (this : nat) (value : num)
  : result (State num) :=
  let! s := set_scaleX fuel s this value in
  set_scaleY fuel s this value.

(** [set mount(value)] *)
Definition set_mount (fuel : nat) (s : State num) (this : nat) (value : num)
  : result (State num) :=
  let! n := getNode s this in
  let p := CoreNode.props n in
  if negb (Props.mountX p === value) || negb (Props.mountY p === value)
  then
    set_stored
      (fun v p => Props.set_mount v (Props.set_mountY v (Props.set_mountX v p)))
      UpdateType.Local fuel s this value
  else Ok s.

(** [set pivot(value)] *)
Definition set_pivot (fuel : nat) (s : State num) (this : nat) (value : num)
  : result (State num) :=
  let! n := getNode s this in
  let p := CoreNode.props n in
  if negb (Props.pivotX p === value) || negb (Props.pivotY p === value)
  then
    set_stored
      (fun v p => Props.set_pivot v (Props.set_pivotY v (Props.set_pivotX v p)))
      UpdateType.Local fuel s this value
  else Ok s.

(** [set alpha(value)] *)
Definition set_alpha :=
  set_stored (A := num) Props.set_alpha
    (Z.lor UpdateType.PremultipliedColors UpdateType.WorldAlpha).

(** [set autosize(value)] *)
Definition set_autosize (s : State num) (this : nat) (value : bool)
  : result (State num) :=
  modifyNode s this
    (fun n => CoreNode.set_props (Props.set_autosize value (CoreNode.props n)) n).

(** [set clipping(value)] *)
Definition set_clipping :=
  set_stored (A := bool) Props.set_clipping UpdateType.Clipping.

(** [set shader(value)]: controllers are compared by reference. *)
Definition set_shader (stage : Stage.t num) (fuel : nat) (s : State num)
    (this : nat) (value : nat) : result (State num) :=
  let! n := getNode s this in
  if Nat.eqb (Props.shader (CoreNode.props n)) value then Ok s
  else
    let s :=
      putNode s this
        (CoreNode.set_props (Props.set_shader value (CoreNode.props n)) n) in
    if Nat.eqb value (Stage.defShaderCtr stage)
    then setUpdateType fuel s this UpdateType.IsRenderable
    else Ok s.

(** [set textureOptions(value)] *)
Definition set_textureOptions (s : State num) (this : nat)
    (value : option TextureOptions.t) : result (State num) :=
  modifyNode s this
    (fun n =>
       CoreNode.set_props
         (Props.set_textureOptions value (CoreNode.props n)) n).

(** ** Colours *)

(** [set colorTl(value)], [set colorTr(value)], [set colorBl(value)],
    [set colorBr(value)] *)
Definition set_colorTl :=
  set_stored (A := num) Props.set_colorTl UpdateType.PremultipliedColors.
Definition set_colorTr :=
  set_stored (A := num) Props.set_colorTr UpdateType.PremultipliedColors.
Definition set_colorBl :=
  set_stored (A := num) Props.set_colorBl UpdateType.PremultipliedColors.
Definition set_colorBr :=
  set_stored (A := num) Props.set_colorBr UpdateType.PremultipliedColors.

(** [set colorTop(value)] *)
Definition set_colorTop (fuel : nat) (s : State num) (this : nat)
    (value : num) : result (State num) :=
  let! n := getNode s this in
  let p := CoreNode.props n in
  let! s :=
    (if negb (Props.colorTl p === value) || negb (Props.colorTr p === value)
     then
       let! s := set_colorTl fuel s this value in
       set_colorTr fuel s this value
     else Ok s) in
  set_stored Props.set_colorTop UpdateType.PremultipliedColors fuel s this
    value.

(** [set colorBottom(value)] *)
Definition set_colorBottom (fuel : nat) (s : State num) (this : nat)
    (value : num) : result (State num) :=
  let! n := getNode s this in
  let p := CoreNode.props n in
  let! s :=
    (if negb (Props.colorBl p === value) || negb (Props.colorBr p === value)
     then
       let! s := set_colorBl fuel s this value in
       set_colorBr fuel s this value
     else Ok s) in
  set_stored Props.set_colorBottom UpdateType.PremultipliedColors fuel s this
    value.

(** [set colorLeft(value)] *)
Definition set_colorLeft (fuel : nat) (s : State num) (this : nat)
    (value : num) : result (State num) :=
  let! n := getNode s this in
  let p := CoreNode.props n in
  let! s :=
    (if negb (Props.colorTl p === value) || negb (Props.colorBl p === value)
     then
       let! s := set_colorTl fuel s this value in
       set_colorBl fuel s this value
     else Ok s) in
  set_stored Props.set_colorLeft UpdateType.PremultipliedColors fuel s this
    value.

(** [set colorRight(value)] *)
Definition set_colorRight (fuel : nat) (s : State num) (this : nat)
    (value : num) : result (State num) :=
  let! n := getNode s this in
  let p := CoreNode.props n in
  let! s :=
    (if negb (Props.colorTr p === value) || negb (Props.colorBr p === value)
     then
       let! s := set_colorTr fuel s this value in
       set_colorBr fuel s this value
     else Ok s) in
  set_stored Props.set_colorRight UpdateType.PremultipliedColors fuel s this
    value.

(** [set color(value)] *)
Definition set_color (fuel : nat) (s : State num) (this : nat) (value : num)
  : result (State num) :=
  let! s := set_colorTop fuel s this value in
  let! s := set_colorBottom fuel s this value in
  let! s := set_colorLeft fuel s this value in
  let! s := set_colorRight fuel s this value in
  set_stored Props.set_color UpdateType.PremultipliedColors fuel s this value.

(** ** Z-order *)

(** [get zIndexLocked()] returns [this.props.zIndexLocked || 0]. *)
Definition get_zIndexLocked (n : CoreNode.t num) : num :=
  let l := Props.zIndexLocked (CoreNode.props n) in
  if truthy l then l else n0.

(** [set zIndex(value)] and [set zIndexLocked(value)]: the prop, the
    flags of the node, then [CalculatedZIndex] on every child. *)
Definition set_zOrder (set : num -> Props.t num -> Props.t num) (fuel : nat)
    (s : State num) (this : nat) (value : num) : result (State num) :=
  let! s :=
    set_stored set (Z.lor UpdateType.CalculatedZIndex UpdateType.Children)
      fuel s this value in
  let! n := getNode s this in
  forEach_setUpdateType fuel s (CoreNode.children n)
    UpdateType.CalculatedZIndex.

Definition set_zIndex := set_zOrder Props.set_zIndex.
Definition set_zIndexLocked := set_zOrder Props.set_zIndexLocked.

(** ** Size *)

(** The tail of [set width(value)] and [set height(value)] on a render
    target:
    [this.texture = this.stage.txManager.loadTexture('RenderTexture', ...);
     this.textureOptions.preload = true;
     this.setUpdateType(UpdateType.RenderTexture)]. *)
Definition reloadRenderTexture (fuel : nat) (s : State num) (this : nat)
  : result (State num) :=
  let! n := getNode s this in
  if Props.rtt (CoreNode.props n) then
    let! s :=
      set_texture fuel s this
        (Some (loadRenderTexture (Props.width (CoreNode.props n))
                 (Props.height (CoreNode.props n)))) in
    let! n := getNode s this in
    match Props.textureOptions (CoreNode.props n) with
    | None => Throw "TypeError: cannot set properties of null"
    | Some opts =>
        let n' :=
          CoreNode.set_props
            (Props.set_textureOptions
               (Some (TextureOptions.set_preload true opts))
               (CoreNode.props n)) n in
        setUpdateType fuel (putNode s this n') this UpdateType.RenderTexture
    end
  else Ok s.

(** [set width(value)], [set height(value)] *)
Definition set_size (get : Props.t num -> num)
    (set : num -> Props.t num -> Props.t num) (fuel : nat) (s : State num)
    (this : nat) (value : num) : result (State num) :=
  let! n := getNode s this in
  if negb (get (CoreNode.props n) === value) then
    let! s := set_stored set UpdateType.Local fuel s this value in
    reloadRenderTexture fuel s this
  else Ok s.

Definition set_width := set_size Props.width Props.set_width.
Definition set_height := set_size Props.height Props.set_height.

(** [autosizeNode(dimensions)] *)
Definition autosizeNode (fuel : nat) (s : State num) (this : nat)
    (dimensions : Dimensions.t num) : result (State num) :=
  let! n := getNode s this in
  if Props.autosize (CoreNode.props n) then
    let! s := set_width fuel s this (Dimensions.width dimensions) in
    set_height fuel s this (Dimensions.height dimensions)
  else Ok s.

(** ** Render targets *)

(** [get parentRenderTexture()]: the walk over the ancestors, from
    [parent] on. *)
Fixpoint parentRenderTexture_from (fuel : nat) (s : State num)
    (parent : option nat) : result (option nat) :=
  match parent with
  | None => Ok None
  | Some p =>
      match fuel with
      | O => OutOfFuel
      | S fuel' =>
          let! pn := getNode s p in
          if Props.rtt (CoreNode.props pn) then Ok (Some p)
          else
            parentRenderTexture_from fuel' s (Props.parent (CoreNode.props pn))
      end
  end.

Definition parentRenderTexture (fuel : nat) (s : State num) (this : nat)
  : result (option nat) :=
  let! n := getNode s this in
  parentRenderTexture_from fuel s (Props.parent (CoreNode.props n)).

(** [get framebufferDimensions()] *)
Fixpoint framebufferDimensions (fuel : nat) (s : State num) (this : nat)
  : result (Dimensions.t num) :=
  match fuel with
  | O => OutOfFuel
  | S fuel' =>
      let! n := getNode s this in
      match Props.parent (CoreNode.props n) with
      | Some p =>
          if CoreNode.parentHasRenderTexture n
             && negb (Props.rtt (CoreNode.props n))
          then framebufferDimensions fuel' s p
          else
            Ok (Dimensions.mk (Props.width (CoreNode.props n))
                  (Props.height (CoreNode.props n)))
      | None =>
          Ok (Dimensions.mk (Props.width (CoreNode.props n))
                (Props.height (CoreNode.props n)))
      end
  end.

(** ** Absolute position *)

(** [get absY()]: [this.props.y + (this.props.parent?.absY ?? 0)]. *)
Fixpoint absY (fuel : nat) (s : State num) (this : nat) : result num :=
  match fuel with
  | O => OutOfFuel
  | S fuel' =>
      let! n := getNode s this in
      match Props.parent (CoreNode.props n) with
      | Some p =>
          let! py := absY fuel' s p in
          Ok (Props.y (CoreNode.props n) + py)
      | None => Ok (Props.y (CoreNode.props n) + n0)
      end
  end.

End CoreNodeAccessors.

(* ===================================================================== *)
(** * Statements about the accessors                                       *)
(* ===================================================================== *)

Section AccessorSpecification.
Context {num : Type} `{L : Lib num}.
Local Open Scope js_scope.

(** [s'] is [s] after the props of [this] became [p'] and the flags [X]
    were set pending on it: nothing is emitted, the node keeps its
    children and its cached state, and the other nodes change in their
    pending flags and [hasRTTupdates] at most. *)
Definition assigned (this : nat) (p' : Props.t num) (X : Z)
    (s s' : State num) : Prop :=
  trace s' = trace s
  /\ (forall m, m <> this ->
        strip <$> nodes s' !! m = strip <$> nodes s !! m)
  /\ exists nd nd',
       nodes s !! this = Some nd /\ nodes s' !! this = Some nd'
       /\ strip nd' = strip (CoreNode.set_props p' nd)
       /\ CoreNode.updateType nd' = Z.lor (CoreNode.updateType nd) X.

(** The outcome [r] of a guarded setter called with [value] on the node
    [nd]: the call returns; it leaves the state alone when the prop is
    strictly equal to the value, and stores the value and sets the flag
    otherwise. *)
Definition guarded_outcome (r : result (State num))
    (get : Props.t num -> num) (set : num -> Props.t num -> Props.t num)
    (flag : Z) (this : nat) (value : num) (nd : CoreNode.t num)
    (s : State num) : Prop :=
  exists s',
    r = Ok s'
    /\ if get (CoreNode.props nd) === value then s' = s
       else assigned this (set value (CoreNode.props nd)) flag s s'.

(** The outcome [r] of a setter without a guard, called with [value] on
    the node [nd]: the call returns, the value is stored and the flags
    are set, whether the prop held the value already or not. *)
Definition stored_outcome {A : Type} (r : result (State num))
    (set : A -> Props.t num -> Props.t num) (flag : Z) (this : nat)
    (value : A) (nd : CoreNode.t num) (s : State num) : Prop :=
  exists s', r = Ok s' /\ assigned this (set value (CoreNode.props nd)) flag s s'.

(** After an assignment of [value] under a [!==] guard, the prop is the
    value, or it is as before and strictly equal to the value. *)
Definition settled (value old new : num) : Prop :=
  new = value \/ (new = old /\ (old === value) = true).

(** The props [p] with the fill colour and the four edge colours set to
    [value], and the four corners as given. *)
Definition recolor (value tl tr bl br : num) (p : Props.t num)
  : Props.t num :=
  Props.set_color value
    (Props.set_colorRight value
       (Props.set_colorLeft value
          (Props.set_colorBottom value
             (Props.set_colorTop value
                (Props.set_colorBr br
                   (Props.set_colorBl bl
                      (Props.set_colorTr tr (Props.set_colorTl tl p)))))))).

(** In the course of a setter called on [this] in state [s0], where the
    node was [nd0] with ancestors [l]: the state [s] is [s0] with the
    props [p] assigned and the flags [X0] set, the parent being as
    before. *)
Definition reached (this : nat) (l : list nat) (fuel : nat)
    (s0 : State num) (nd0 : CoreNode.t num) (p : Props.t num) (X0 : Z)
    (s : State num) : Prop :=
  nodes s0 !! this = Some nd0
  /\ ancestors (nodes s0) this l
  /\ (List.length l + 2 <= fuel)%nat
  /\ Props.parent p = Props.parent (CoreNode.props nd0)
  /\ assigned this p X0 s0 s.

(** The outcome [r] of [set zIndex(value)] or [set zIndexLocked(value)]
    on the node [nd]: the call returns, nothing is emitted, the prop is
    stored, [CalculatedZIndex] and [Children] are pending on the node,
    [CalculatedZIndex] is pending on every child, and nothing else
    changes but pending flags and [hasRTTupdates]. *)
Definition zOrder_outcome (r : result (State num))
    (set : num -> Props.t num -> Props.t num) (this : nat) (value : num)
    (nd : CoreNode.t num) (s : State num) : Prop :=
  exists s',
    r = Ok s'
    /\ trace s' = trace s
    /\ (forall m, m <> this ->
          strip <$> nodes s' !! m = strip <$> nodes s !! m)
    /\ (exists nd',
          nodes s' !! this = Some nd'
          /\ strip nd'
             = strip (CoreNode.set_props (set value (CoreNode.props nd)) nd)
          /\ mask_le
               (Z.lor (CoreNode.updateType nd)
                  (Z.lor UpdateType.CalculatedZIndex UpdateType.Children))
               (CoreNode.updateType nd'))
    /\ forall c, c ∈ CoreNode.children nd ->
         exists cn', nodes s' !! c = Some cn'
           /\ hasFlag (CoreNode.updateType cn') UpdateType.CalculatedZIndex
              = true.

(** The calls by which a node gives up its texture: [set texture] tells
    the texture that the node does not own it, then [unloadTexture]
    unsubscribes the three handlers and tells it again. *)
Definition released (this : nat) (old : option (Texture.t num))
  : list Effect :=
  match old with
  | Some o =>
      let t := Texture.id o in
      [SetRenderableOwner t this false;
       TextureOff t this "loaded"; TextureOff t this "failed";
       TextureOff t this "freed";
       SetRenderableOwner t this false]
  | None => []
  end.

(** The calls by which a node takes a texture: the ownership with the
    current renderability, then the deferred load. *)
Definition acquired (this : nat) (isRenderable : bool)
    (value : option (Texture.t num)) : list Effect :=
  match value with
  | Some v =>
      [SetRenderableOwner (Texture.id v) this isRenderable;
       QueueLoadTexture this (Texture.id v)]
  | None => []
  end.

(** The state [s] with the calls [es] logged. *)
Definition logged (s : State num) (es : list Effect) : State num :=
  mkState (nodes s) (trace s ++ es).



(** The chain of the ancestors of a node, computed. *)
Fixpoint chain_of (fuel : nat) (h : gmap nat (CoreNode.t num)) (n : nat)
  : option (list nat) :=
  match fuel with
  | O => None
  | S fuel' =>
      match h !! n with
      | None => None
      | Some nd =>
          match Props.parent (CoreNode.props nd) with
          | None => Some []
          | Some p => (fun l => p :: l) <$> chain_of fuel' h p
          end
      end
  end.


End AccessorSpecification.

(* ===================================================================== *)
(** * Statements about the pass                                            *)
(* ===================================================================== *)

Section PassSpecification.
Context {num : Type} `{L : Lib num}.
Variable stage : Stage.t num.
Local Open Scope js_scope.

(** The flags under which [update] evaluates [isRenderable] again: the
    [WorldAlpha] and the [RenderState] steps set [IsRenderable] on
    their way. *)
Definition RenderableTriggers : Z :=
  Z.lor (Z.lor UpdateType.WorldAlpha UpdateType.RenderState)
    UpdateType.IsRenderable.

(** The renderability of a node, as [updateIsRenderable] computes it from
    the world alpha, the props and the render state:
    [this.worldAlpha === 0 || !this.checkRenderProps() ? false :
     this.renderState > CoreNodeRenderState.OutOfBounds]. *)
Definition renderable_now (n : CoreNode.t num) : bool :=
  if (CoreNode.worldAlpha n === n0) || negb (checkRenderProps stage n)
  then false
  else (renderState_value (CoreNode.renderState n)
        >? renderState_value OutOfBounds)%Z.

(** The world alpha of a node, as the [WorldAlpha] step of [update]
    computes it in the store [s]: [parent.worldAlpha * alpha], and
    [alpha] for a node without a parent. *)
Definition worldAlpha_now (s : State num) (n : CoreNode.t num)
  : option num :=
  match Props.parent (CoreNode.props n) with
  | Some p =>
      (fun pn => CoreNode.worldAlpha pn * Props.alpha (CoreNode.props n))
        <$> nodes s !! p
  | None => Some (Props.alpha (CoreNode.props n))
  end.

(** The cached values of a node that decide whether it is drawn. *)
Definition keepVisible (n : CoreNode.t num) : num * bool * bool :=
  (CoreNode.worldAlpha n, CoreNode.isRenderable n, renderable_now n).

(** What the steps of [update] before the visit of the children do to
    the store, step by step: they store the node itself, log a call, or
    call [setUpdateType] on some node. *)
Inductive self_steps (this : nat) : State num -> State num -> Prop :=
| self_steps_refl s : self_steps this s s
| self_steps_trans s1 s2 s3 :
    self_steps this s1 s2 -> self_steps this s2 s3 -> self_steps this s1 s3
| self_steps_put s n : self_steps this s (putNode s this n)
| self_steps_emit s e : self_steps this s (emitEffect s e)
| self_steps_flag fuel s a X s' :
    setUpdateType fuel s a X = Ok s' -> self_steps this s s'.

(** Between [s] and [s'], the pending mask of every node that satisfies
    [P] has grown. *)
Definition masks_grow (P : nat -> Prop) (s s' : State num) : Prop :=
  forall m md, P m -> nodes s !! m = Some md ->
    exists md', nodes s' !! m = Some md'
                /\ mask_le (CoreNode.updateType md) (CoreNode.updateType md').

End PassSpecification.

(* ===================================================================== *)
(** * Properties                                                           *)
(* ===================================================================== *)

(** ** The index buffer *)

Section IndexBuffer.
Import RendererUtils.

Lemma fill_loop_returns (fuel : nat) (maxQuads i j : Z) (indices : list Z) :
  (maxQuads - i <= Z.of_nat fuel)%Z ->
  exists indices', fill_loop fuel maxQuads i j indices = Ok indices'.
Proof.
  revert i j indices.
  induction fuel as [|fuel IH]; intros i j indices Hfuel; simpl.
  - destruct (Z.ltb_spec i maxQuads); [lia | eauto].
  - destruct (Z.ltb_spec i maxQuads); [apply IH; lia | eauto].
Qed.

(** The loop always runs to its end: the model never runs out of fuel. *)
Lemma createIndexBuffer_returns (gl : WebGLContext) (size : Z) :
  (maxQuadsOf size < 0)%Z
  \/ exists indices, createIndexBuffer (Some gl) size = Ok indices.
Proof.
  unfold createIndexBuffer.
  destruct (Z.ltb_spec (maxQuadsOf size) 0) as [Hneg|Hpos]; [by left|right].
  apply fill_loop_returns. lia.
Qed.

Lemma u16_store_length (k v : Z) (l : list Z) :
  List.length (u16_store k v l) = List.length l.
Proof.
  unfold u16_store. destruct (k <? 0)%Z; [done|]. by rewrite length_insert.
Qed.

Lemma u16_store_other (k v : Z) (l : list Z) (p : nat) :
  (k < Z.of_nat p)%Z -> u16_store k v l !! p = l !! p.
Proof.
  intros Hlt. unfold u16_store.
  destruct (Z.ltb_spec k 0); [done|].
  apply list_lookup_insert_ne. lia.
Qed.

Lemma fill_quad_other (i j : Z) (l : list Z) (p : nat) :
  (i + 5 < Z.of_nat p)%Z -> fill_quad i j l !! p = l !! p.
Proof.
  intros Hlt. unfold fill_quad.
  rewrite !u16_store_other by lia. done.
Qed.

(** The loop writes below [maxQuads + 5] only: [i] stops at [maxQuads],
    not at the length [6 * maxQuads] of the array. *)
Lemma fill_loop_untouched (fuel : nat) (maxQuads i j : Z)
    (indices indices' : list Z) (p : nat) :
  fill_loop fuel maxQuads i j indices = Ok indices' ->
  (0 <= i)%Z ->
  (maxQuads + 5 <= Z.of_nat p)%Z ->
  indices' !! p = indices !! p.
Proof.
  revert i j indices.
  induction fuel as [|fuel IH]; intros i j indices Hrun Hi Hp; simpl in Hrun.
  - destruct (Z.ltb_spec i maxQuads); [discriminate | congruence].
  - destruct (Z.ltb_spec i maxQuads); [| congruence].
    rewrite (IH _ _ _ Hrun) by lia.
    apply fill_quad_other. lia.
Qed.

(** Every entry from position [maxQuads + 5] on keeps its initial zero. *)
Lemma createIndexBuffer_tail_zero (gl : WebGLContext) (size : Z)
    (indices : list Z) (p : nat) :
  createIndexBuffer (Some gl) size = Ok indices ->
  (maxQuadsOf size + 5 <= Z.of_nat p)%Z ->
  (Z.of_nat p < 6 * maxQuadsOf size)%Z ->
  indices !! p = Some 0%Z.
Proof.
  unfold createIndexBuffer.
  destruct (Z.ltb_spec (maxQuadsOf size) 0) as [Hneg|Hpos]; [discriminate|].
  intros Hrun Hlo Hhi.
  rewrite (fill_loop_untouched _ _ _ _ _ _ _ Hrun) by lia.
  apply lookup_replicate_2. lia.
Qed.

(** C6 (evaluation at the failing input): for a buffer of 160 bytes, two
    quads are expected; the loop stops after the first one, and the six
    indices of quad 1 are all zero instead of (4, 5, 6, 6, 5, 7). *)
Theorem createIndexBuffer_stops_early :
  createIndexBuffer (Some {| MAX_VERTEX_TEXTURE_IMAGE_UNITS := 8 |}) 160
    = Ok [0; 1; 2; 2; 1; 3; 0; 0; 0; 0; 0; 0]%Z
  /\ maxQuadsOf 160 = 2%Z
  /\ quad_indices [0; 1; 2; 2; 1; 3; 0; 0; 0; 0; 0; 0]%Z 1 = [0; 0; 0; 0; 0; 0]%Z
  /\ quad_triangles 1 = [4; 5; 6; 6; 5; 7]%Z.
Proof. repeat split; reflexivity. Qed.

End IndexBuffer.

(** ** Texture slots of a render op *)

Section RenderOp.
Import RendererUtils WebGlCoreRenderOp.

Lemma findIndex_None (t0 : WebGlCoreCtxTexture) (ts : list WebGlCoreCtxTexture) :
  t0 ∉ ts -> findIndex t0 ts = None.
Proof.
  induction ts as [|a ts IH]; simpl; [done|].
  intros Hnin. apply not_elem_of_cons in Hnin as [Hne Hnin].
  destruct (Nat.eqb_spec a t0); [congruence|].
  by rewrite IH.
Qed.

Lemma findIndex_Some (t0 : WebGlCoreCtxTexture) (ts : list WebGlCoreCtxTexture)
    (i : nat) :
  NoDup ts -> ts !! i = Some t0 -> findIndex t0 ts = Some i.
Proof.
  revert i. induction ts as [|a ts IH]; intros i Hnd Hi; [done|].
  apply NoDup_cons in Hnd as [Ha Hnd]. simpl.
  destruct i as [|i]; simpl in Hi.
  - injection Hi as ->. by rewrite Nat.eqb_refl.
  - destruct (Nat.eqb_spec a t0) as [->|Hne].
    + exfalso. apply Ha. by eapply list_elem_of_lookup_2.
    + by rewrite (IH i).
Qed.

(** Adding new distinct textures below the limit appends them and
    returns the consecutive slots. *)
Lemma addTextures_fresh (ts : list WebGlCoreCtxTexture) (op : t) :
  NoDup (textures op ++ ts) ->
  (Z.of_nat (List.length (textures op ++ ts)) <= maxTextures op)%Z ->
  addTextures op ts
  = (map Z.of_nat (seq (List.length (textures op)) (List.length ts)),
     {| length := length op; numQuads := numQuads op;
        textures := textures op ++ ts; maxTextures := maxTextures op |}).
Proof.
  revert op. induction ts as [|a ts IH]; intros op Hnd Hmax.
  - simpl. rewrite app_nil_r. by destruct op.
  - simpl. unfold addTexture.
    assert (Ha : a ∉ textures op).
    { apply NoDup_app in Hnd as (_ & Hdisj & _).
      intros Hin. apply (Hdisj a Hin). by left. }
    rewrite (findIndex_None _ _ Ha).
    rewrite length_app in Hmax. simpl in Hmax.
    destruct (Z.geb_spec (Z.of_nat (List.length (textures op))) (maxTextures op));
      [lia|].
    rewrite IH; simpl.
    + rewrite length_app. simpl. rewrite Nat.add_1_r.
      by rewrite <- app_assoc.
    + by rewrite <- app_assoc.
    + rewrite <- app_assoc. rewrite length_app. simpl. lia.
Qed.

(** The same, started from an op without textures. *)
Lemma addTextures_prefix (op0 : t) (ts : list WebGlCoreCtxTexture) (k : nat) :
  textures op0 = [] ->
  NoDup ts ->
  maxTextures op0 = Z.of_nat (List.length ts) ->
  addTextures op0 (take k ts)
  = (map Z.of_nat (seq 0 (List.length (take k ts))),
     {| length := length op0; numQuads := numQuads op0;
        textures := take k ts; maxTextures := maxTextures op0 |}).
Proof.
  intros Hnil Hnd Hmax.
  rewrite addTextures_fresh; rewrite Hnil; simpl.
  - done.
  - rewrite <- (take_drop k ts) in Hnd.
    by apply NoDup_app in Hnd as (? & _ & _).
  - rewrite Hmax, length_take. lia.
Qed.

(** C7: on a fresh op whose limit is the number of the distinct textures
    [ts], the additions return the slots 0, 1, ..., maxTextures-1 and
    store the textures in that order; one more distinct texture [t0]
    is answered by the sentinel 0xffffffff and leaves the op as it is;
    a texture that is already present is answered by its original slot
    and is not appended again, at every stage of the filling. *)
Theorem addTexture_batching_capacity (gl : WebGLContext)
    (supportsIndexedTextures : bool)
    (ts : list WebGlCoreCtxTexture) (t0 : WebGlCoreCtxTexture) :
  NoDup (ts ++ [t0]) ->
  maxTextures (new gl supportsIndexedTextures) = Z.of_nat (List.length ts) ->
  let op0 := new gl supportsIndexedTextures in
  let op := snd (addTextures op0 ts) in
  fst (addTextures op0 ts) = map Z.of_nat (seq 0 (List.length ts))
  /\ textures op = ts
  /\ addTexture op t0 = (CANNOT_BATCH, op)
  /\ CANNOT_BATCH = 4294967295%Z
  /\ forall (k i : nat) (t1 : WebGlCoreCtxTexture),
       take k ts !! i = Some t1 ->
       addTexture (snd (addTextures op0 (take k ts))) t1
       = (Z.of_nat i, snd (addTextures op0 (take k ts))).
Proof.
  intros Hnd Hmax op0 op. fold op0 in Hmax.
  assert (Hnd' : NoDup ts) by (by apply NoDup_app in Hnd as (? & _ & _)).
  assert (Hnil : textures op0 = []) by reflexivity.
  pose proof (fun k => addTextures_prefix op0 ts k Hnil Hnd' Hmax) as Hrun.
  assert (Hfull : addTextures op0 ts
             = (map Z.of_nat (seq 0 (List.length ts)),
                {| length := length op0; numQuads := numQuads op0;
                   textures := ts; maxTextures := maxTextures op0 |})).
  { specialize (Hrun (List.length ts)). by rewrite firstn_all in Hrun. }
  subst op. rewrite Hfull.
  cbn [fst snd textures].
  split; [done|]. split; [done|]. split; [|split; [done|]].
  - unfold addTexture. cbn [textures maxTextures].
    rewrite findIndex_None.
    + rewrite Hmax.
      by destruct (Z.geb_spec (Z.of_nat (List.length ts)) (Z.of_nat (List.length ts)));
        [|lia].
    + apply NoDup_app in Hnd as (_ & Hdisj & _).
      intros Hin. apply (Hdisj t0 Hin). by left.
  - intros k i t1 Hi. rewrite Hrun. cbn [fst snd].
    unfold addTexture. cbn [textures].
    rewrite (findIndex_Some t1 (take k ts) i); [done| |done].
    rewrite <- (take_drop k ts) in Hnd'.
    by apply NoDup_app in Hnd' as (? & _ & _).
Qed.

Lemma addTexture_batching_capacity_witness :
  let gl := {| MAX_VERTEX_TEXTURE_IMAGE_UNITS := 3 |} in
  fst (addTextures (new gl true) [10; 20; 30]%nat) = [0; 1; 2]%Z
  /\ addTexture (snd (addTextures (new gl true) [10; 20; 30]%nat)) 40%nat
     = (4294967295%Z, snd (addTextures (new gl true) [10; 20; 30]%nat))
  /\ addTexture (snd (addTextures (new gl true) [10; 20]%nat)) 20%nat
     = (1%Z, snd (addTextures (new gl true) [10; 20]%nat)).
Proof.
  pose proof (addTexture_batching_capacity
                {| MAX_VERTEX_TEXTURE_IMAGE_UNITS := 3 |} true
                [10; 20; 30]%nat 40%nat) as H.
  assert (Hnd : NoDup ([10; 20; 30] ++ [40])%nat).
  { apply (bool_decide_unpack (NoDup [10; 20; 30; 40]%nat)). exact I. }
  specialize (H Hnd eq_refl).
  destruct H as (H1 & _ & H3 & _ & H5).
  split; [exact H1|]. split; [exact H3|].
  exact (H5 2%nat 1%nat 20%nat eq_refl).
Defined.

End RenderOp.

(** ** Render eligibility *)

Section RenderProps.
Context {num : Type} `{L : Lib num}.
Local Open Scope js_scope.

(** What [checkRenderProps] computes: the shader test is passed by the
    default shader. *)
Lemma checkRenderProps_computes (stage : Stage.t num) (n : CoreNode.t num) :
  checkRenderProps stage n
  = (match Props.texture (CoreNode.props n) with
     | Some _ => true
     | None => false
     end
     || (truthy (Props.width (CoreNode.props n))
         && truthy (Props.height (CoreNode.props n))
         && (Nat.eqb (Props.shader (CoreNode.props n)) (Stage.defShaderCtr stage)
             || Props.clipping (CoreNode.props n)
             || any_color_nonzero (CoreNode.props n)))).
Proof.
  unfold checkRenderProps, any_color_nonzero.
  destruct (Props.texture (CoreNode.props n)); [done|].
  destruct (truthy (Props.width (CoreNode.props n))),
           (truthy (Props.height (CoreNode.props n))); simpl; try done.
  destruct (Nat.eqb _ _); [done|].
  destruct (Props.clipping _); [done|]. simpl.
  repeat (match goal with
          | |- context [negb (?a === ?b)] => destruct (a === b); simpl; try done
          end).
Qed.

(** A node without texture whose width or height is zero is not
    eligible, whatever its other props. *)
Lemma checkRenderProps_zero_size (stage : Stage.t num) (n : CoreNode.t num) :
  Props.texture (CoreNode.props n) = None ->
  truthy (Props.width (CoreNode.props n)) = false
  \/ truthy (Props.height (CoreNode.props n)) = false ->
  checkRenderProps stage n = false.
Proof.
  intros Htex Hsize. rewrite checkRenderProps_computes, Htex.
  destruct Hsize as [-> | ->]; simpl; [done|].
  by rewrite andb_false_r.
Qed.

End RenderProps.

Section RenderPropsEvaluation.
Import ZInterp Scenes.

(** C1 (evaluation at the failing inputs): the shader test accepts the
    default shader instead of a non-default one.  A sized node with the
    default shader and nothing to draw is reported eligible, and a sized
    node whose only reason to be drawn is its own shader is not. *)
Theorem checkRenderProps_shader_test_inverted :
  checkRenderProps stage0 blank_default_node = true
  /\ spec_render_eligible stage0 blank_default_node = false
  /\ checkRenderProps stage0 blank_custom_shader_node = false
  /\ spec_render_eligible stage0 blank_custom_shader_node = true.
Proof. repeat split; reflexivity. Qed.

End RenderPropsEvaluation.

(** ** Render coordinates and render bound *)

Section RenderBound.
Context {num : Type} `{L : Lib num}.
Local Open Scope js_scope.

(** The fast path of [updateBoundingRect] is taken as soon as one of
    [tb], [tc] is zero. *)
Lemma updateBoundingRect_fast_path (n : CoreNode.t num)
    (transform : Matrix3d.t num) (rc : RenderCoords.t num) :
  CoreNode.globalTransform n = Some transform ->
  CoreNode.renderCoords n = Some rc ->
  (Matrix3d.tb transform === n0) || (Matrix3d.tc transform === n0) = true ->
  updateBoundingRect n
  = Ok (CoreNode.set_renderBound
          (Some (createBound (RenderCoords.x1 rc) (RenderCoords.y1 rc)
                   (RenderCoords.x3 rc) (RenderCoords.y3 rc))) n).
Proof.
  intros Hgt Hrc Hfast. unfold updateBoundingRect.
  by rewrite Hgt, Hrc, Hfast.
Qed.

(** The extremes of the four corners are taken when both [tb] and [tc]
    are nonzero. *)
Lemma updateBoundingRect_rotated_path (n : CoreNode.t num)
    (transform : Matrix3d.t num) (rc : RenderCoords.t num) :
  CoreNode.globalTransform n = Some transform ->
  CoreNode.renderCoords n = Some rc ->
  (Matrix3d.tb transform === n0) = false ->
  (Matrix3d.tc transform === n0) = false ->
  updateBoundingRect n
  = Ok (CoreNode.set_renderBound (Some (spec_render_bound transform rc)) n).
Proof.
  intros Hgt Hrc Hb Hc. unfold updateBoundingRect, spec_render_bound.
  by rewrite Hgt, Hrc, Hb, Hc.
Qed.

(** For a non-rotated transform the bound is the one of the two corners. *)
Lemma updateBoundingRect_unrotated (n : CoreNode.t num)
    (transform : Matrix3d.t num) (rc : RenderCoords.t num) :
  CoreNode.globalTransform n = Some transform ->
  CoreNode.renderCoords n = Some rc ->
  (Matrix3d.tb transform === n0) = true ->
  (Matrix3d.tc transform === n0) = true ->
  updateBoundingRect n
  = Ok (CoreNode.set_renderBound (Some (spec_render_bound transform rc)) n).
Proof.
  intros Hgt Hrc Hb Hc. unfold updateBoundingRect, spec_render_bound.
  by rewrite Hgt, Hrc, Hb, Hc.
Qed.

End RenderBound.

Section RenderBoundEvaluation.
Import ZInterp Scenes.

(** C5 (evaluation at the failing input): [calculateRenderCoords] treats
    the transform as rotated ([tc] is nonzero) and computes the four
    corners, but [updateBoundingRect] tests [tb === 0 || tc === 0] and
    takes the fast path: the bound is built from corners 1 and 3 and
    comes out upside down, (0, 0, 0, -10), where the extremes of the four
    corners are (0, -10, 0, 0). *)
Theorem updateBoundingRect_fast_path_on_rotated :
  flattened_transform = Matrix3d.mk 0 0 0 (-1) 0 0
  /\ (let! n := calculateRenderCoords flattened_node in Ok (CoreNode.renderCoords n))
     = Ok (Some flattened_coords)
  /\ (let! n := calculateRenderCoords flattened_node in
      let! n := updateBoundingRect n in Ok (CoreNode.renderBound n))
     = Ok (Some (Bound.mk 0 0 0 (-10)))
  /\ spec_render_bound flattened_transform flattened_coords
     = Bound.mk 0 (-10) 0 0.
Proof. repeat split; reflexivity. Qed.

End RenderBoundEvaluation.

(** ** Dirty-flag propagation *)

Section DirtyFlags.
Context {num : Type} `{L : Lib num}.

Implicit Types (s : State num) (h : gmap nat (CoreNode.t num)).
Implicit Types (n nd : CoreNode.t num).

Lemma rbind_Ok {A B} (m : result A) (k : A -> result B) (b : B) :
  rbind m k = Ok b -> exists a, m = Ok a /\ k a = Ok b.
Proof. destruct m; simpl; intros; eauto; discriminate. Qed.

Lemma getNode_Ok s (i : nat) nd :
  getNode s i = Ok nd <-> nodes s !! i = Some nd.
Proof.
  unfold getNode. destruct (nodes s !! i); split; intros E;
    try discriminate; congruence.
Qed.

Lemma getNode_lookup s (i : nat) nd :
  nodes s !! i = Some nd -> getNode s i = Ok nd.
Proof. apply getNode_Ok. Qed.

Lemma hasFlag_lor_same (u flag : Z) :
  flag <> 0%Z -> hasFlag (Z.lor u flag) flag = true.
Proof.
  intros Hne. unfold hasFlag.
  rewrite Z.land_lor_distr_l, Z.land_diag.
  destruct (Z.eqb_spec (Z.lor (Z.land u flag) flag) 0) as [E|]; [|done].
  apply Z.lor_eq_0_iff in E. tauto.
Qed.

(** *** Frames *)

Lemma strip_set_updateType (u : Z) nd :
  strip (CoreNode.set_updateType u nd) = strip nd.
Proof. reflexivity. Qed.

Lemma strip_set_hasRTTupdates (b : bool) nd :
  strip (CoreNode.set_hasRTTupdates b nd) = strip nd.
Proof. reflexivity. Qed.

Lemma strip_rtt_set_hasRTTupdates (b : bool) nd :
  strip_rtt (CoreNode.set_hasRTTupdates b nd) = strip_rtt nd.
Proof. reflexivity. Qed.

Lemma fmap_putNode_same (f : CoreNode.t num -> CoreNode.t num) s (i : nat)
    nd nd' :
  nodes s !! i = Some nd -> f nd' = f nd ->
  f <$> nodes (putNode s i nd') = f <$> nodes s.
Proof.
  intros Hi Hf. unfold putNode. simpl.
  rewrite fmap_insert, Hf.
  apply insert_id. by rewrite lookup_fmap, Hi.
Qed.

Lemma fmap_lookup_eq (f : CoreNode.t num -> CoreNode.t num) h h' (i : nat) :
  f <$> h = f <$> h' -> f <$> (h !! i) = f <$> (h' !! i).
Proof. intros E. by rewrite <- !lookup_fmap, E. Qed.

Lemma strip_lookup_Some h h' (i : nat) nd :
  strip <$> h = strip <$> h' -> h !! i = Some nd ->
  exists nd', h' !! i = Some nd' /\ strip nd' = strip nd.
Proof.
  intros E Hi. apply (fmap_lookup_eq _ _ _ i) in E. rewrite Hi in E.
  destruct (h' !! i) as [nd'|]; [|discriminate].
  exists nd'. split; [done|]. simpl in E. congruence.
Qed.

Lemma strip_parent nd nd' :
  strip nd' = strip nd ->
  Props.parent (CoreNode.props nd') = Props.parent (CoreNode.props nd).
Proof.
  intros E. change (Props.parent (CoreNode.props (strip nd'))
                    = Props.parent (CoreNode.props (strip nd))).
  by rewrite E.
Qed.

Lemma strip_rtt_updateType nd nd' :
  strip_rtt nd' = strip_rtt nd ->
  CoreNode.updateType nd' = CoreNode.updateType nd.
Proof.
  intros E. change (CoreNode.updateType (strip_rtt nd')
                    = CoreNode.updateType (strip_rtt nd)).
  by rewrite E.
Qed.

Lemma strip_rtt_strip h h' :
  strip_rtt <$> h = strip_rtt <$> h' -> strip <$> h = strip <$> h'.
Proof.
  intros E.
  assert (Hc : forall m : gmap nat (CoreNode.t num),
             strip <$> m = CoreNode.set_updateType 0%Z <$> (strip_rtt <$> m)).
  { intros m. by rewrite <- map_fmap_compose. }
  by rewrite !Hc, E.
Qed.

(** The chain of ancestors only depends on the stripped store. *)
Lemma ancestors_strip h h' (n0' : nat) (l : list nat) :
  strip <$> h = strip <$> h' -> ancestors h n0' l -> ancestors h' n0' l.
Proof.
  intros E Hanc. induction Hanc as [n nd Hn Hp | n p nd l Hn Hp _ IH].
  - destruct (strip_lookup_Some _ _ _ _ E Hn) as (nd' & Hn' & Es).
    eapply ancestors_root; [exact Hn'|].
    by rewrite (strip_parent _ _ Es).
  - destruct (strip_lookup_Some _ _ _ _ E Hn) as (nd' & Hn' & Es).
    eapply ancestors_step; [exact Hn'| |exact IH].
    by rewrite (strip_parent _ _ Es).
Qed.

Lemma ancestors_functional h (n0' : nat) (l1 l2 : list nat) :
  ancestors h n0' l1 -> ancestors h n0' l2 -> l1 = l2.
Proof.
  intros H1. revert l2.
  induction H1 as [n nd Hn Hp | n p nd l Hn Hp _ IH]; intros l2 H2;
    inversion H2; subst; simplify_eq; try congruence.
  f_equal. apply IH. congruence.
Qed.

Lemma ancestors_suffix h (n0' a : nat) (l : list nat) :
  ancestors h n0' l -> a ∈ l ->
  exists l', ancestors h a l' /\ (List.length l' < List.length l)%nat.
Proof.
  intros Hanc. induction Hanc as [n nd Hn Hp | n p nd l Hn Hp Hl IH];
    intros Hin.
  - by apply elem_of_nil in Hin.
  - apply elem_of_cons in Hin as [-> | Hin].
    + exists l. split; [done | simpl; lia].
    + destruct (IH Hin) as (l' & Hl' & Hlen).
      exists l'. split; [done | simpl; lia].
Qed.

(** A node is not among its own ancestors. *)
Lemma ancestors_not_self h (n0' : nat) (l : list nat) :
  ancestors h n0' l -> n0' ∉ l.
Proof.
  intros Hanc Hin.
  destruct (ancestors_suffix _ _ _ _ Hanc Hin) as (l' & Hl' & Hlen).
  rewrite (ancestors_functional _ _ _ _ Hanc Hl') in Hlen. lia.
Qed.

(** *** [setRTTUpdates] *)

Lemma setRTTUpdates_returns (fuel : nat) s (this : nat) (type : Z)
    (l : list nat) :
  ancestors (nodes s) this l ->
  (List.length l < fuel)%nat ->
  exists s', setRTTUpdates fuel s this type = Ok s'
             /\ strip_rtt <$> nodes s' = strip_rtt <$> nodes s
             /\ trace s' = trace s.
Proof.
  revert s this l.
  induction fuel as [|fuel IH]; intros s this l Hanc Hfuel; [lia|].
  simpl.
  inversion Hanc as [n nd Hn Hp | n p nd l' Hn Hp Hl']; subst.
  - rewrite (getNode_lookup _ _ _ Hn). simpl. rewrite Hp.
    eexists. split; [done|]. split; [|done].
    by eapply fmap_putNode_same.
  - rewrite (getNode_lookup _ _ _ Hn). simpl. rewrite Hp.
    assert (Hs1 : strip_rtt <$> nodes
                    (putNode s this (CoreNode.set_hasRTTupdates true nd))
                  = strip_rtt <$> nodes s)
      by (by eapply fmap_putNode_same).
    destruct (IH (putNode s this (CoreNode.set_hasRTTupdates true nd)) p l')
      as (s' & Hrun & Hfr & Htr).
    + eapply ancestors_strip; [|exact Hl']. symmetry. by apply strip_rtt_strip.
    + simpl in Hfuel. lia.
    + exists s'. split; [done|]. split; [|done]. by rewrite Hfr.
Qed.

Lemma updateTypeOf_putNode_eq s (i : nat) nd :
  updateTypeOf (putNode s i nd) i = Some (CoreNode.updateType nd).
Proof. unfold updateTypeOf, putNode. simpl. by rewrite lookup_insert_eq. Qed.

Lemma updateTypeOf_putNode_ne s (i j : nat) nd :
  i <> j -> updateTypeOf (putNode s i nd) j = updateTypeOf s j.
Proof.
  intros Hne. unfold updateTypeOf, putNode. simpl.
  by rewrite lookup_insert_ne.
Qed.

Lemma updateTypeOf_strip_rtt s s' (a : nat) :
  strip_rtt <$> nodes s' = strip_rtt <$> nodes s ->
  updateTypeOf s' a = updateTypeOf s a.
Proof.
  intros E. unfold updateTypeOf.
  apply (fmap_lookup_eq _ _ _ a) in E.
  destruct (nodes s' !! a) as [x|], (nodes s !! a) as [y|];
    simpl in *; try done.
  f_equal. apply strip_rtt_updateType. congruence.
Qed.

Lemma childrenPending_ext s s' (a : nat) :
  updateTypeOf s' a = updateTypeOf s a ->
  childrenPending s a -> childrenPending s' a.
Proof. intros E (u & Hu & Hf). exists u. by rewrite E. Qed.

(** The last statement of [setUpdateType]: the mask is forwarded to the
    render-target chain when the node is inside a render target. *)
Lemma setUpdateType_rtt_tail (fuel : nat) s (this : nat) (type : Z)
    (l : list nat) :
  ancestors (nodes s) this l ->
  (List.length l < fuel)%nat ->
  exists s',
    (let! n2 := getNode s this in
     if CoreNode.parentHasRenderTexture n2
     then setRTTUpdates fuel s this type
     else Ok s) = Ok s'
    /\ strip_rtt <$> nodes s' = strip_rtt <$> nodes s
    /\ trace s' = trace s.
Proof.
  intros Hanc Hfuel.
  assert (exists nd, nodes s !! this = Some nd) as [nd Hn]
    by (inversion Hanc; eauto).
  rewrite (getNode_lookup _ _ _ Hn). simpl.
  destruct (CoreNode.parentHasRenderTexture nd).
  - by eapply setRTTUpdates_returns.
  - by exists s.
Qed.

(** [setUpdateType] on a node with a finite chain of ancestors: the call
    returns, only masks and [hasRTTupdates] change, the mask of the node
    is ORed with [type], and [Children] climbs the chain up to the first
    ancestor that has it already. *)
Lemma setUpdateType_chain (l : list nat) :
  forall (fuel : nat) s (this : nat) (type : Z),
  ancestors (nodes s) this l ->
  (List.length l + 2 <= fuel)%nat ->
  exists s',
    setUpdateType fuel s this type = Ok s'
    /\ strip <$> nodes s' = strip <$> nodes s
    /\ trace s' = trace s
    /\ updateTypeOf s' this
       = (fun u => Z.lor u type) <$> updateTypeOf s this
    /\ (forall a, a <> this -> a ∉ l -> updateTypeOf s' a = updateTypeOf s a)
    /\ forall (i a : nat), l !! i = Some a ->
         ((forall j b, (j < i)%nat -> l !! j = Some b -> ~ childrenPending s b)
          -> childrenPending s' a)
         /\ ((exists j b, (j <= i)%nat /\ l !! j = Some b
                           /\ childrenPending s b)
             -> updateTypeOf s' a = updateTypeOf s a).
Proof.
  induction l as [|p l' IH]; intros fuel s this type Hanc Hfuel.
  - destruct fuel as [|fuel]; [simpl in Hfuel; lia|].
    inversion Hanc as [n nd Hn Hp | ]; subst.
    simpl. rewrite (getNode_lookup _ _ _ Hn). simpl. rewrite Hp. simpl.
    set (s1 := putNode s this
                 (CoreNode.set_updateType
                    (Z.lor (CoreNode.updateType nd) type) nd)).
    assert (Hs1 : strip <$> nodes s1 = strip <$> nodes s)
      by (by eapply fmap_putNode_same).
    destruct (setUpdateType_rtt_tail fuel s1 this type [])
      as (s' & Hrun & Hfr & Htr).
    { eapply ancestors_strip; [|exact Hanc]. by symmetry. }
    { simpl in *. lia. }
    exists s'. split; [exact Hrun|].
    split; [by rewrite (strip_rtt_strip _ _ Hfr)|].
    split; [by rewrite Htr|].
    split.
    { rewrite (updateTypeOf_strip_rtt _ _ _ Hfr). unfold s1.
      rewrite updateTypeOf_putNode_eq. unfold updateTypeOf. by rewrite Hn. }
    split.
    { intros a Ha _. rewrite (updateTypeOf_strip_rtt _ _ _ Hfr).
      unfold s1. by rewrite updateTypeOf_putNode_ne. }
    intros i a Hi. by rewrite lookup_nil in Hi.
  - destruct fuel as [|fuel]; [simpl in Hfuel; lia|].
    pose proof (ancestors_not_self _ _ _ Hanc) as Hself.
    inversion Hanc as [ | n p0 nd l0 Hn Hp Hl']; subst.
    apply not_elem_of_cons in Hself as [Hne Hself].
    simpl. rewrite (getNode_lookup _ _ _ Hn). simpl. rewrite Hp.
    set (s1 := putNode s this
                 (CoreNode.set_updateType
                    (Z.lor (CoreNode.updateType nd) type) nd)).
    assert (Hs1 : strip <$> nodes s1 = strip <$> nodes s)
      by (by eapply fmap_putNode_same).
    assert (Hut1 : forall a, a <> this -> updateTypeOf s1 a = updateTypeOf s a).
    { intros a Ha. unfold s1. by rewrite updateTypeOf_putNode_ne. }
    assert (Hpend1 : forall a, a <> this ->
                       childrenPending s1 a <-> childrenPending s a).
    { intros a Ha. split; apply childrenPending_ext; by rewrite Hut1. }
    assert (Hanc1 : ancestors (nodes s1) p l').
    { eapply ancestors_strip; [|exact Hl']. by symmetry. }
    assert (exists pn, nodes s1 !! p = Some pn) as [pn Hpn]
      by (inversion Hanc1; eauto).
    rewrite (getNode_lookup _ _ _ Hpn). simpl.
    assert (Hin_l' : forall i a, l' !! i = Some a -> a <> this).
    { intros i a Hi ->. apply Hself. by eapply list_elem_of_lookup_2. }
    destruct (hasFlag (CoreNode.updateType pn) UpdateType.Children) eqn:Hflag;
      simpl.
    + (* the parent has [Children] already: no call on the parent *)
      assert (Hpp : childrenPending s p).
      { apply Hpend1; [congruence|]. exists (CoreNode.updateType pn).
        split; [|done]. unfold updateTypeOf. by rewrite Hpn. }
      destruct (setUpdateType_rtt_tail fuel s1 this type (p :: l'))
        as (s' & Hrun & Hfr & Htr).
      { eapply ancestors_strip; [|exact Hanc]. by symmetry. }
      { simpl in *. lia. }
      exists s'. split; [exact Hrun|].
      split; [by rewrite (strip_rtt_strip _ _ Hfr)|].
      split; [by rewrite Htr|].
      split.
      { rewrite (updateTypeOf_strip_rtt _ _ _ Hfr). unfold s1.
        rewrite updateTypeOf_putNode_eq. unfold updateTypeOf. by rewrite Hn. }
      split.
      { intros a Ha _. rewrite (updateTypeOf_strip_rtt _ _ _ Hfr).
        by apply Hut1. }
      intros i a Hi.
      assert (Ha : a <> this).
      { destruct i as [|i]; simpl in Hi; [congruence | by eapply Hin_l']. }
      assert (Hsame : updateTypeOf s' a = updateTypeOf s a).
      { rewrite (updateTypeOf_strip_rtt _ _ _ Hfr). by apply Hut1. }
      split; [|by intros _].
      intros Hbelow. destruct i as [|i]; simpl in Hi.
      * injection Hi as <-. by eapply childrenPending_ext.
      * exfalso. apply (Hbelow 0%nat p); [lia|done|done].
    + (* the parent lacks [Children]: the call climbs *)
      assert (Hpp : ~ childrenPending s p).
      { intros Hc. apply Hpend1 in Hc; [|congruence].
        destruct Hc as (u & Hu & Hf). unfold updateTypeOf in Hu.
        rewrite Hpn in Hu. simpl in Hu. congruence. }
      destruct (IH fuel s1 p UpdateType.Children Hanc1)
        as (s2 & Hrun2 & Hfr2 & Htr2 & Hp2 & Hout2 & Hchain2).
      { simpl in Hfuel. lia. }
      rewrite Hrun2. simpl.
      destruct (setUpdateType_rtt_tail fuel s2 this type (p :: l'))
        as (s' & Hrun & Hfr & Htr).
      { eapply ancestors_strip; [|exact Hanc]. by rewrite Hfr2, Hs1. }
      { simpl in *. lia. }
      exists s'. split; [exact Hrun|].
      split; [by rewrite (strip_rtt_strip _ _ Hfr), Hfr2|].
      split; [by rewrite Htr, Htr2|].
      split.
      { rewrite (updateTypeOf_strip_rtt _ _ _ Hfr).
        rewrite Hout2; [|congruence|done]. unfold s1.
        rewrite updateTypeOf_putNode_eq. unfold updateTypeOf. by rewrite Hn. }
      split.
      { intros a Ha Hnin. apply not_elem_of_cons in Hnin as [Hap Hnin].
        rewrite (updateTypeOf_strip_rtt _ _ _ Hfr).
        rewrite Hout2; [|done|done]. by apply Hut1. }
      intros i a Hi. destruct i as [|i]; simpl in Hi.
      * injection Hi as <-. split.
        -- intros _. eapply childrenPending_ext.
           { apply (updateTypeOf_strip_rtt _ _ _ Hfr). }
           unfold childrenPending. rewrite Hp2.
           unfold updateTypeOf. rewrite Hpn. simpl.
           eexists. split; [done|]. by apply hasFlag_lor_same.
        -- intros (j & b & Hj & Hb & Hc).
           assert (j = 0)%nat as -> by lia. simpl in Hb.
           injection Hb as <-. contradiction.
      * destruct (Hchain2 i a Hi) as [Hup Hstop].
        assert (Ha : a <> this) by (by eapply Hin_l').
        split.
        -- intros Hbelow. eapply childrenPending_ext.
           { apply (updateTypeOf_strip_rtt _ _ _ Hfr). }
           apply Hup. intros j b Hj Hb Hc.
           apply (Hbelow (S j) b); [lia|done|].
           apply Hpend1; [by eapply Hin_l'|done].
        -- intros (j & b & Hj & Hb & Hc).
           rewrite (updateTypeOf_strip_rtt _ _ _ Hfr).
           destruct j as [|j]; simpl in Hb.
           { injection Hb as <-. contradiction. }
           rewrite Hstop; [by apply Hut1|].
           exists j, b. split; [lia|]. split; [done|].
           apply Hpend1; [by eapply Hin_l'|done].
Qed.

(** C2: after [setUpdateType(X)] on a node, for every mask [X] (nonzero
    or not), every ancestor below which no ancestor had [Children]
    pending has [Children] pending; from the first ancestor that already
    had [Children] on, the masks are left as they were: the propagation
    stops there.  The call returns as soon as the fuel exceeds the length
    of the chain of ancestors by two. *)
Theorem setUpdateType_dirty_propagation (fuel : nat) s (this : nat)
    (X : Z) (l : list nat) :
  ancestors (nodes s) this l ->
  (List.length l + 2 <= fuel)%nat ->
  exists s',
    setUpdateType fuel s this X = Ok s'
    /\ forall (i a : nat), l !! i = Some a ->
         ((forall j b, (j < i)%nat -> l !! j = Some b -> ~ childrenPending s b)
          -> childrenPending s' a)
         /\ ((exists j b, (j <= i)%nat /\ l !! j = Some b
                           /\ childrenPending s b)
             -> updateTypeOf s' a = updateTypeOf s a).
Proof.
  intros Hanc Hfuel.
  destruct (setUpdateType_chain l fuel s this X Hanc Hfuel)
    as (s' & Hrun & _ & _ & _ & _ & Hchain).
  exists s'. split; [exact Hrun | exact Hchain].
Qed.

End DirtyFlags.

Section DirtyFlagsEvaluation.
Import ZInterp Scenes.

Lemma chain_scene_ancestors :
  ancestors (nodes chain_scene) 4%nat [3; 2; 1]%nat.
Proof.
  eapply ancestors_step; [reflexivity | reflexivity |].
  eapply ancestors_step; [reflexivity | reflexivity |].
  eapply ancestors_step; [reflexivity | reflexivity |].
  eapply ancestors_root; reflexivity.
Defined.

Lemma setUpdateType_dirty_propagation_witness :
  exists s',
    setUpdateType 5 chain_scene 4%nat UpdateType.Local = Ok s'
    /\ forall (i a : nat), [3; 2; 1]%nat !! i = Some a ->
         ((forall j b, (j < i)%nat -> [3; 2; 1]%nat !! j = Some b ->
                       ~ childrenPending chain_scene b)
          -> childrenPending s' a)
         /\ ((exists j b, (j <= i)%nat /\ [3; 2; 1]%nat !! j = Some b
                           /\ childrenPending chain_scene b)
             -> updateTypeOf s' a = updateTypeOf chain_scene a).
Proof.
  apply (setUpdateType_dirty_propagation 5 chain_scene 4%nat
           UpdateType.Local [3; 2; 1]%nat chain_scene_ancestors).
  simpl. lia.
Defined.

(** The same call, evaluated: node 3 receives [Children], node 2 keeps
    its mask and node 1 is not reached. *)
Example setUpdateType_chain_scene :
  (let! s' := setUpdateType 5 chain_scene 4%nat UpdateType.Local in
   Ok (updateTypeOf s' <$> [4; 3; 2; 1]%nat))
  = Ok [Some 4; Some 1; Some 1; Some 0]%Z.
Proof. vm_compute. reflexivity. Qed.

End DirtyFlagsEvaluation.

(** ** The parent/children tree *)

Section Links.

Implicit Types (P : gmap nat (option nat)) (K : gmap nat (list nat)).

Lemma indexOf_None (this : nat) (cs : list nat) :
  indexOf this cs = None <-> this ∉ cs.
Proof.
  induction cs as [|c cs IH]; simpl.
  - split; [intros _; apply not_elem_of_nil | done].
  - destruct (Nat.eqb_spec c this) as [->|Hne].
    + split; [discriminate|]. intros Hnin. exfalso. apply Hnin. by left.
    + rewrite not_elem_of_cons. destruct (indexOf this cs); simpl.
      * split; [discriminate|]. intros [_ Hnin]. by apply IH in Hnin.
      * split; [|done]. intros _. split; [congruence | by apply IH].
Qed.

Lemma indexOf_Some (this : nat) (cs : list nat) (i : nat) :
  indexOf this cs = Some i -> cs !! i = Some this.
Proof.
  revert i. induction cs as [|c cs IH]; intros i; simpl; [discriminate|].
  destruct (Nat.eqb_spec c this) as [->|Hne].
  - intros [= <-]. done.
  - destruct (indexOf this cs) as [j|]; simpl; [|discriminate].
    intros [= <-]. simpl. by apply IH.
Qed.

Lemma indexOf_elem (this : nat) (cs : list nat) :
  this ∈ cs -> exists i, indexOf this cs = Some i.
Proof.
  intros Hin. destruct (indexOf this cs) as [i|] eqn:E; [eauto|].
  apply indexOf_None in E. contradiction.
Qed.






Lemma reparent_lists_lookup K (this : nat) (oldParent newParent : option nat)
    (p : nat) :
  reparent_lists K this oldParent newParent !! p
  = (fun cs => attach_to this newParent p (detach_from this oldParent p cs))
      <$> K !! p.
Proof.
  unfold reparent_lists. rewrite map_lookup_imap.
  by destruct (K !! p).
Qed.


End Links.

Section ParentSetter.
Context {num : Type} `{L : Lib num}.

Implicit Types (s : State num) (h : gmap nat (CoreNode.t num)).
Implicit Types (n nd : CoreNode.t num).

Lemma tree_consistent_links h :
  tree_consistent h <-> links_consistent (parents h) (kids h).
Proof.
  unfold tree_consistent, links_consistent, parents, kids.
  split; intros (H1 & H2 & H3); (split; [|split]).
  - intros p c cs. rewrite !lookup_fmap.
    destruct (h !! p) as [pn|] eqn:Hp; simpl; [|discriminate].
    intros [= <-] Hc. destruct (H1 p c pn Hp Hc) as (cn & -> & Hpar).
    simpl. by rewrite Hpar.
  - intros p c. rewrite !lookup_fmap.
    destruct (h !! c) as [cn|] eqn:Hc; simpl; [|discriminate].
    intros [= Hpar]. destruct (H2 p c cn Hc Hpar) as (pn & -> & Hin).
    simpl. eauto.
  - intros p cs. rewrite lookup_fmap.
    destruct (h !! p) as [pn|] eqn:Hp; simpl; [|discriminate].
    intros [= <-]. by eapply H3.
  - intros p c pn Hp Hc.
    specialize (H1 p c (CoreNode.children pn)).
    rewrite !lookup_fmap, Hp in H1. specialize (H1 eq_refl Hc).
    destruct (h !! c) as [cn|]; simpl in H1; [|discriminate].
    exists cn. split; [done | congruence].
  - intros p c cn Hc Hpar.
    specialize (H2 p c). rewrite !lookup_fmap, Hc in H2. simpl in H2.
    rewrite Hpar in H2. destruct (H2 eq_refl) as (cs & Hcs & Hin).
    destruct (h !! p) as [pn|]; simpl in Hcs; [|discriminate].
    exists pn. split; [done | congruence].
  - intros p pn Hp. apply (H3 p). by rewrite lookup_fmap, Hp.
Qed.

Lemma strip_parents h h' :
  strip <$> h' = strip <$> h -> parents h' = parents h.
Proof.
  intros E. unfold parents.
  change (fun n => Props.parent (CoreNode.props n))
    with ((fun n => Props.parent (CoreNode.props n)) ∘ @strip num).
  by rewrite !(map_fmap_compose strip), E.
Qed.

Lemma strip_kids h h' :
  strip <$> h' = strip <$> h -> kids h' = kids h.
Proof.
  intros E. unfold kids.
  change (@CoreNode.children num) with (@CoreNode.children num ∘ @strip num).
  by rewrite !(map_fmap_compose strip), E.
Qed.

(** Whenever they return, the flag setters only write masks and
    [hasRTTupdates]. *)
Lemma setRTTUpdates_frame (fuel : nat) s (this : nat) (type : Z) s' :
  setRTTUpdates fuel s this type = Ok s' ->
  strip_rtt <$> nodes s' = strip_rtt <$> nodes s /\ trace s' = trace s.
Proof.
  revert s this. induction fuel as [|fuel IH]; intros s this Hrun;
    [discriminate|].
  simpl in Hrun. apply rbind_Ok in Hrun as (nd & Hn & Hrun).
  apply getNode_Ok in Hn.
  assert (Hs1 : strip_rtt <$> nodes
                  (putNode s this (CoreNode.set_hasRTTupdates true nd))
                = strip_rtt <$> nodes s)
    by (by eapply fmap_putNode_same).
  destruct (Props.parent (CoreNode.props nd)) as [p|].
  - apply IH in Hrun as [Hfr Htr]. split; [by rewrite Hfr | done].
  - injection Hrun as <-. done.
Qed.

Lemma setUpdateType_frame (fuel : nat) s (this : nat) (type : Z) s' :
  setUpdateType fuel s this type = Ok s' ->
  strip <$> nodes s' = strip <$> nodes s /\ trace s' = trace s.
Proof.
  revert s this type s'.
  induction fuel as [|fuel IH]; intros s this type s' Hrun; [discriminate|].
  simpl in Hrun. apply rbind_Ok in Hrun as (nd & Hn & Hrun).
  apply getNode_Ok in Hn.
  set (s1 := putNode s this
               (CoreNode.set_updateType
                  (Z.lor (CoreNode.updateType nd) type) nd)) in *.
  assert (Hs1 : strip <$> nodes s1 = strip <$> nodes s)
    by (by eapply fmap_putNode_same).
  apply rbind_Ok in Hrun as (s2 & Hs2 & Hrun).
  assert (H2 : strip <$> nodes s2 = strip <$> nodes s /\ trace s2 = trace s).
  { destruct (Props.parent (CoreNode.props nd)) as [p|].
    - apply rbind_Ok in Hs2 as (pn & Hpn & Hs2).
      destruct (negb _).
      + apply IH in Hs2 as [Hfr Htr]. split; [by rewrite Hfr | done].
      + by injection Hs2 as <-.
    - by injection Hs2 as <-. }
  destruct H2 as [Hfr2 Htr2].
  apply rbind_Ok in Hrun as (n2 & Hn2 & Hrun).
  destruct (CoreNode.parentHasRenderTexture n2).
  - apply setRTTUpdates_frame in Hrun as [Hfr Htr].
    split; [by rewrite (strip_rtt_strip _ _ Hfr) | congruence].
  - by injection Hrun as <-.
Qed.

Lemma same_ref_true (a b : option nat) : same_ref a b = true <-> a = b.
Proof.
  destruct a as [x|], b as [y|]; simpl.
  - destruct (Nat.eqb_spec x y); split; try done; congruence.
  - split; discriminate.
  - split; discriminate.
  - done.
Qed.

Lemma same_ref_false (a b : option nat) : same_ref a b = false <-> a <> b.
Proof.
  rewrite <- same_ref_true. by destruct (same_ref a b).
Qed.

Lemma parents_putNode s (i : nat) nd :
  parents (nodes (putNode s i nd))
  = <[i := Props.parent (CoreNode.props nd)]> (parents (nodes s)).
Proof. unfold parents, putNode. simpl. by rewrite fmap_insert. Qed.

Lemma kids_putNode s (i : nat) nd :
  kids (nodes (putNode s i nd))
  = <[i := CoreNode.children nd]> (kids (nodes s)).
Proof. unfold kids, putNode. simpl. by rewrite fmap_insert. Qed.

Lemma parents_lookup h (i : nat) nd :
  h !! i = Some nd -> parents h !! i = Some (Props.parent (CoreNode.props nd)).
Proof. intros E. unfold parents. by rewrite lookup_fmap, E. Qed.

Lemma kids_lookup h (i : nat) nd :
  h !! i = Some nd -> kids h !! i = Some (CoreNode.children nd).
Proof. intros E. unfold kids. by rewrite lookup_fmap, E. Qed.

(** The detach step on the children lists. *)
Lemma set_parent_detach_links (fuel : nat) s (this : nat)
    (oldParent : option nat) s' :
  set_parent_detach fuel s this oldParent = Ok s' ->
  parents (nodes s') = parents (nodes s)
  /\ trace s' = trace s
  /\ (forall op, oldParent = Some op ->
        exists cs, kids (nodes s) !! op = Some cs /\ this ∈ cs)
  /\ forall p, kids (nodes s') !! p
               = detach_from this oldParent p <$> kids (nodes s) !! p.
Proof.
  unfold set_parent_detach. destruct oldParent as [op|].
  - intros Hrun. apply rbind_Ok in Hrun as (on & Hon & Hrun).
    apply getNode_Ok in Hon.
    destruct (indexOf this (CoreNode.children on)) as [i|] eqn:Ei;
      [|discriminate].
    apply setUpdateType_frame in Hrun as [Hfr Htr].
    rewrite (strip_parents _ _ Hfr), (strip_kids _ _ Hfr).
    rewrite parents_putNode, kids_putNode. simpl.
    split; [|split; [done|split]].
    + apply insert_id. by apply parents_lookup.
    + intros ? [= <-]. exists (CoreNode.children on).
      split; [by apply kids_lookup|].
      eapply list_elem_of_lookup_2. by apply indexOf_Some.
    + intros p. unfold detach_from.
      destruct (decide (Some op = Some p)) as [[= <-]|Hne].
      * rewrite lookup_insert_eq, (kids_lookup _ _ _ Hon). simpl.
        by rewrite Ei.
      * rewrite lookup_insert_ne by congruence.
        by destruct (kids (nodes s) !! p).
  - intros [= <-]. split; [done|]. split; [done|]. split; [done|].
    intros p. unfold detach_from.
    destruct (decide (None = Some p)); [done|].
    by destruct (kids (nodes s) !! p).
Qed.

(** The attach step on the children lists. *)
Lemma set_parent_attach_links (fuel : nat) s (this : nat)
    (newParent : option nat) s' :
  set_parent_attach fuel s this newParent = Ok s' ->
  parents (nodes s') = parents (nodes s)
  /\ trace s' = trace s
  /\ (forall np, newParent = Some np -> is_Some (nodes s !! np))
  /\ forall p, kids (nodes s') !! p
               = attach_to this newParent p <$> kids (nodes s) !! p.
Proof.
  unfold set_parent_attach. destruct newParent as [np|].
  - intros Hrun. apply rbind_Ok in Hrun as (nn & Hnn & Hrun).
    apply getNode_Ok in Hnn.
    apply rbind_Ok in Hrun as (s1 & H1 & Hrun).
    apply rbind_Ok in Hrun as (s2 & H2 & Hrun).
    apply rbind_Ok in Hrun as (nn2 & _ & Hrun).
    apply setUpdateType_frame in H1 as [Hfr1 Htr1].
    apply setUpdateType_frame in H2 as [Hfr2 Htr2].
    assert (Hfr3 : strip <$> nodes s' = strip <$> nodes s2
                   /\ trace s' = trace s2).
    { destruct (_ || _).
      - apply setRTTUpdates_frame in Hrun as [Hfr Htr].
        split; [by apply strip_rtt_strip | done].
      - by injection Hrun as <-. }
    destruct Hfr3 as [Hfr3 Htr3].
    assert (Hfr : strip <$> nodes s'
                  = strip <$> nodes
                      (putNode s np
                         (CoreNode.set_children
                            (CoreNode.children nn ++ [this]) nn)))
      by congruence.
    rewrite (strip_parents _ _ Hfr), (strip_kids _ _ Hfr).
    rewrite parents_putNode, kids_putNode. simpl.
    split; [|split; [|split]].
    + apply insert_id. by apply parents_lookup.
    + rewrite Htr3, Htr2, Htr1. done.
    + intros ? [= <-]. eauto.
    + intros p. unfold attach_to.
      destruct (decide (Some np = Some p)) as [[= <-]|Hne].
      * by rewrite lookup_insert_eq, (kids_lookup _ _ _ Hnn).
      * rewrite lookup_insert_ne by congruence.
        by destruct (kids (nodes s) !! p).
  - intros [= <-]. split; [done|]. split; [done|]. split; [done|].
    intros p. unfold attach_to.
    destruct (decide (None = Some p)); [done|].
    by destruct (kids (nodes s) !! p).
Qed.

(** The parent setter, when the parent changes, on the parent references
    and the children lists. *)
Lemma set_parent_links (fuel : nat) s (this : nat)
    (newParent : option nat) s' nd :
  nodes s !! this = Some nd ->
  Props.parent (CoreNode.props nd) <> newParent ->
  set_parent fuel s this newParent = Ok s' ->
  parents (nodes s') = <[this := newParent]> (parents (nodes s))
  /\ kids (nodes s')
     = reparent_lists (kids (nodes s)) this
         (Props.parent (CoreNode.props nd)) newParent
  /\ (forall op, Props.parent (CoreNode.props nd) = Some op ->
        exists cs, kids (nodes s) !! op = Some cs /\ this ∈ cs)
  /\ (forall np, newParent = Some np -> is_Some (nodes s !! np))
  /\ trace s' = trace s.
Proof.
  intros Hn Hne Hrun. unfold set_parent in Hrun.
  rewrite (getNode_lookup _ _ _ Hn) in Hrun. simpl in Hrun.
  rewrite (proj2 (same_ref_false _ _) Hne) in Hrun.
  set (sA := putNode s this
               (CoreNode.set_props
                  (Props.set_parent newParent (CoreNode.props nd)) nd)) in *.
  apply rbind_Ok in Hrun as (sB & HB & Hrun).
  apply rbind_Ok in Hrun as (sC & HC & Hrun).
  unfold modifyNode in Hrun.
  apply rbind_Ok in Hrun as (nf & Hnf & Hrun). injection Hrun as <-.
  apply getNode_Ok in Hnf.
  apply set_parent_detach_links in HB as (HPB & HTB & HinB & HKB).
  apply set_parent_attach_links in HC as (HPC & HTC & HexC & HKC).
  assert (HPA : parents (nodes sA) = <[this := newParent]> (parents (nodes s))).
  { unfold sA. by rewrite parents_putNode. }
  assert (HKA : kids (nodes sA) = kids (nodes s)).
  { unfold sA. rewrite kids_putNode. simpl.
    apply insert_id. by apply kids_lookup. }
  assert (HdomA : forall i, is_Some (nodes sA !! i) <-> is_Some (nodes s !! i)).
  { intros i. unfold sA, putNode. simpl.
    destruct (decide (this = i)) as [<-|Hi].
    - rewrite lookup_insert_eq, Hn. split; eauto.
    - by rewrite lookup_insert_ne. }
  assert (HdomK : forall (h1 h2 : gmap nat (CoreNode.t num)) i,
             parents h1 = parents h2 ->
             is_Some (h1 !! i) <-> is_Some (h2 !! i)).
  { intros h1 h2 i E.
    assert (E' : parents h1 !! i = parents h2 !! i) by (by rewrite E).
    unfold parents in E'. rewrite !lookup_fmap in E'.
    destruct (h1 !! i), (h2 !! i); simpl in E'; split; intros [? ?];
      eauto; discriminate. }
  split; [|split; [|split; [|split]]].
  - rewrite parents_putNode. simpl.
    rewrite insert_id; [congruence|]. by apply parents_lookup.
  - apply map_eq. intros p.
    rewrite kids_putNode. simpl.
    rewrite insert_id by (by apply kids_lookup).
    rewrite HKC, HKB, HKA, reparent_lists_lookup.
    by destruct (kids (nodes s) !! p).
  - intros op Hop. rewrite <- HKA. by apply HinB.
  - intros np Hnp. apply HdomA. eapply HdomK; [symmetry; exact HPB|].
    by apply HexC.
  - simpl. by rewrite HTC, HTB.
Qed.



Lemma parents_lookup_inv h (i : nat) (q : option nat) :
  parents h !! i = Some q ->
  exists nd, h !! i = Some nd /\ Props.parent (CoreNode.props nd) = q.
Proof.
  unfold parents. rewrite lookup_fmap.
  destruct (h !! i) as [nd|]; simpl; [|discriminate].
  intros [= <-]. eauto.
Qed.

(** The chain of ancestors only depends on the parent references. *)
Lemma ancestors_parents h h' (a : nat) (l : list nat) :
  parents h = parents h' -> ancestors h a l -> ancestors h' a l.
Proof.
  intros E Hanc. induction Hanc as [n nd Hn Hp | n p nd l Hn Hp _ IH].
  - apply parents_lookup in Hn. rewrite E, Hp in Hn.
    apply parents_lookup_inv in Hn as (nd' & Hn' & Hp').
    by eapply ancestors_root.
  - apply parents_lookup in Hn. rewrite E, Hp in Hn.
    apply parents_lookup_inv in Hn as (nd' & Hn' & Hp').
    by eapply ancestors_step.
Qed.

(** Changing the parent of a node keeps the chains that avoid it. *)
Lemma ancestors_reparent_other h h' (this a : nat) (q : option nat)
    (l : list nat) :
  parents h' = <[this := q]> (parents h) ->
  ancestors h a l -> this ∉ a :: l -> ancestors h' a l.
Proof.
  intros E Hanc. induction Hanc as [n nd Hn Hp | n p nd l Hn Hp _ IH];
    intros Hnin; apply not_elem_of_cons in Hnin as [Hne Hnin].
  - apply parents_lookup in Hn. rewrite <- (lookup_insert_ne _ this n q) in Hn
      by done.
    rewrite <- E, Hp in Hn.
    apply parents_lookup_inv in Hn as (nd' & Hn' & Hp').
    by eapply ancestors_root.
  - apply parents_lookup in Hn. rewrite <- (lookup_insert_ne _ this n q) in Hn
      by done.
    rewrite <- E, Hp in Hn.
    apply parents_lookup_inv in Hn as (nd' & Hn' & Hp').
    eapply ancestors_step; [done | done | by apply IH].
Qed.

(** The parent setter returns: on a consistent tree, if the new parent
    is neither the node nor one of its descendants, fuel beyond the two
    chains of ancestors is enough. *)
Lemma set_parent_returns (fuel : nat) s (this : nat)
    (newParent : option nat) (l0 l1 : list nat) :
  tree_consistent (nodes s) ->
  ancestors (nodes s) this l0 ->
  (forall np, newParent = Some np ->
     ancestors (nodes s) np l1 /\ this ∉ np :: l1) ->
  (List.length l0 + List.length l1 + 3 <= fuel)%nat ->
  exists s', set_parent fuel s this newParent = Ok s'.
Proof.
  intros Hcons Hanc Hnew Hfuel.
  assert (exists nd, nodes s !! this = Some nd) as [nd Hn]
    by (inversion Hanc; eauto).
  unfold set_parent. rewrite (getNode_lookup _ _ _ Hn). simpl.
  destruct (same_ref (Props.parent (CoreNode.props nd)) newParent) eqn:Hsame;
    [eauto|].
  apply same_ref_false in Hsame.
  set (sA := putNode s this
               (CoreNode.set_props
                  (Props.set_parent newParent (CoreNode.props nd)) nd)).
  assert (HPA : parents (nodes sA) = <[this := newParent]> (parents (nodes s))).
  { unfold sA. by rewrite parents_putNode. }
  (* the detach step *)
  assert (exists sB, set_parent_detach fuel sA this
                       (Props.parent (CoreNode.props nd)) = Ok sB
                     /\ parents (nodes sB) = parents (nodes sA))
    as (sB & HB & HPB).
  { unfold set_parent_detach.
    pose proof (ancestors_not_self _ _ _ Hanc) as Hself.
    inversion Hanc as [n0' nd0 Hn0 Hp0 | n0' op nd0 l0' Hn0 Hp0 Hl0']; subst;
      assert (nd0 = nd) as -> by congruence; rewrite Hp0.
    - eauto.
    - destruct Hcons as (_ & Hpk & _).
      destruct (Hpk op this nd Hn Hp0) as (on & Hon & Hin).
      apply not_elem_of_cons in Hself as [Hne Hself].
      assert (HonA : nodes sA !! op = Some on).
      { unfold sA, putNode. simpl. by rewrite lookup_insert_ne. }
      rewrite (getNode_lookup _ _ _ HonA). simpl.
      destruct (indexOf_elem _ _ Hin) as [i ->].
      set (sB0 := putNode sA op _).
      assert (HPB0 : parents (nodes sB0) = parents (nodes sA)).
      { unfold sB0. rewrite parents_putNode. simpl.
        apply insert_id. by apply parents_lookup. }
      destruct (setUpdateType_chain l0' fuel sB0 op
                  (Z.lor UpdateType.Children UpdateType.ZIndexSortedChildren))
        as (sB & HB & Hfr & _).
      + eapply ancestors_reparent_other; [|exact Hl0'|].
        * by rewrite HPB0, HPA.
        * apply not_elem_of_cons. split; [congruence | done].
      + simpl in Hfuel. lia.
      + exists sB. split; [done|]. by rewrite (strip_parents _ _ Hfr). }
  rewrite HB. simpl.
  assert (HPB' : parents (nodes sB) = <[this := newParent]> (parents (nodes s)))
    by congruence.
  assert (HthisB : exists x, nodes sB !! this = Some x
                     /\ Props.parent (CoreNode.props x) = newParent).
  { apply parents_lookup_inv. by rewrite HPB', lookup_insert_eq. }
  (* the attach step *)
  assert (exists sC, set_parent_attach fuel sB this newParent = Ok sC
                     /\ parents (nodes sC) = parents (nodes sB))
    as (sC & HC & HPC).
  { unfold set_parent_attach. destruct newParent as [np|]; [|eauto].
    destruct (Hnew np eq_refl) as [Hl1 Hnin].
    assert (Hl1B : ancestors (nodes sB) np l1)
      by (by eapply ancestors_reparent_other).
    assert (exists nn, nodes sB !! np = Some nn) as [nn Hnn]
      by (inversion Hl1B; eauto).
    rewrite (getNode_lookup _ _ _ Hnn). simpl.
    set (sC0 := putNode sB np _).
    assert (HPC0 : parents (nodes sC0) = parents (nodes sB)).
    { unfold sC0. rewrite parents_putNode. simpl.
      apply insert_id. by apply parents_lookup. }
    assert (Hl1C : ancestors (nodes sC0) np l1)
      by (by eapply ancestors_parents; [symmetry|]).
    assert (HthisC : ancestors (nodes sC0) this (np :: l1)).
    { destruct HthisB as (x & Hx & Hpx).
      apply parents_lookup in Hx. rewrite <- HPC0, Hpx in Hx.
      apply parents_lookup_inv in Hx as (x' & Hx' & Hpx').
      by eapply ancestors_step. }
    destruct (setUpdateType_chain (np :: l1) fuel sC0 this UpdateType.All)
      as (sC1 & H1 & Hfr1 & _); [done | simpl in *; lia |].
    rewrite H1. simpl.
    destruct (setUpdateType_chain l1 fuel sC1 np
                (Z.lor UpdateType.Children UpdateType.ZIndexSortedChildren))
      as (sC2 & H2 & Hfr2 & _).
    { eapply ancestors_strip; [|exact Hl1C]. by symmetry. }
    { simpl in *. lia. }
    rewrite H2. simpl.
    assert (Hfr : strip <$> nodes sC2 = strip <$> nodes sC0) by congruence.
    assert (Hl1C2 : ancestors (nodes sC2) this (np :: l1)).
    { eapply ancestors_strip; [|exact HthisC]. by symmetry. }
    assert (exists nn2, nodes sC2 !! np = Some nn2) as [nn2 Hnn2].
    { inversion Hl1C2 as [|? ? ? ? _ _ Hq]; subst. inversion Hq; eauto. }
    rewrite (getNode_lookup _ _ _ Hnn2). simpl.
    destruct (_ || _).
    - destruct (setRTTUpdates_returns fuel sC2 this UpdateType.All (np :: l1))
        as (sC & HC & HfrC & _); [done | simpl in *; lia |].
      exists sC. split; [done|].
      rewrite (strip_parents _ _ (strip_rtt_strip _ _ HfrC)).
      by rewrite (strip_parents _ _ Hfr).
    - exists sC2. split; [done|]. by rewrite (strip_parents _ _ Hfr). }
  rewrite HC. simpl.
  destruct HthisB as (x & Hx & Hpx).
  apply parents_lookup in Hx. rewrite <- HPC in Hx.
  apply parents_lookup_inv in Hx as (x' & Hx' & _).
  unfold modifyNode. rewrite (getNode_lookup _ _ _ Hx'). simpl. eauto.
Qed.

(** The decision procedure is sound. *)
Lemma tree_consistentb_sound h :
  tree_consistentb h = true -> tree_consistent h.
Proof.
  unfold tree_consistentb. rewrite forallb_forall. intros Hall.
  assert (Hnode : forall p pn, h !! p = Some pn ->
            NoDup (CoreNode.children pn)
            /\ (forall c, c ∈ CoreNode.children pn ->
                  parents h !! c = Some (Some p))
            /\ match Props.parent (CoreNode.props pn) with
               | Some q => exists cs, kids h !! q = Some cs /\ p ∈ cs
               | None => True
               end).
  { intros p pn Hp.
    specialize (Hall (p, pn)). simpl in Hall.
    rewrite <- list_elem_of_In, elem_of_map_to_list in Hall.
    specialize (Hall Hp).
    apply andb_prop in Hall as [Hall H3]. apply andb_prop in Hall as [H1 H2].
    split; [by apply bool_decide_eq_true in H1|]. split.
    - intros c Hc. rewrite forallb_forall in H2.
      apply list_elem_of_In in Hc. apply H2 in Hc.
      by apply bool_decide_eq_true in Hc.
    - destruct (Props.parent (CoreNode.props pn)) as [q|]; [|done].
      destruct (kids h !! q) as [cs|]; [|discriminate].
      exists cs. split; [done|]. by apply bool_decide_eq_true in H3. }
  apply tree_consistent_links. split; [|split].
  - intros p c cs Hcs Hc. unfold kids in Hcs. rewrite lookup_fmap in Hcs.
    destruct (h !! p) as [pn|] eqn:Hp; [|discriminate].
    simpl in Hcs. injection Hcs as <-.
    destruct (Hnode p pn Hp) as (_ & H2 & _). by apply H2.
  - intros p c Hc. unfold parents in Hc. rewrite lookup_fmap in Hc.
    destruct (h !! c) as [cn|] eqn:Hcn; [|discriminate].
    simpl in Hc. injection Hc as Hpar.
    destruct (Hnode c cn Hcn) as (_ & _ & H3). by rewrite Hpar in H3.
  - intros p cs Hcs. unfold kids in Hcs. rewrite lookup_fmap in Hcs.
    destruct (h !! p) as [pn|] eqn:Hp; [|discriminate].
    simpl in Hcs. injection Hcs as <-.
    by destruct (Hnode p pn Hp) as (H1 & _).
Qed.


(** C10: assigning to [parent] the parent the node already has returns
    at once and leaves the whole state as it is (lists, masks, cached
    state, outgoing calls); so a repeated assignment is a no-op: the
    setter is idempotent. *)
Theorem set_parent_same_parent_noop :
  (forall (fuel : nat) s (this : nat) nd,
      nodes s !! this = Some nd ->
      set_parent fuel s this (Props.parent (CoreNode.props nd)) = Ok s)
  /\ (forall (fuel fuel' : nat) s (this : nat) (p : option nat) s',
      set_parent fuel s this p = Ok s' ->
      set_parent fuel' s' this p = Ok s').
Proof.
  assert (Hnoop : forall (fuel : nat) s (this : nat) nd,
             nodes s !! this = Some nd ->
             set_parent fuel s this (Props.parent (CoreNode.props nd)) = Ok s).
  { intros fuel s this nd Hn. unfold set_parent.
    rewrite (getNode_lookup _ _ _ Hn). simpl.
    by rewrite (proj2 (same_ref_true _ _) eq_refl). }
  split; [exact Hnoop|].
  intros fuel fuel' s this p s' Hrun.
  assert (exists nd, nodes s !! this = Some nd) as [nd Hn].
  { unfold set_parent in Hrun. apply rbind_Ok in Hrun as (nd & Hn & _).
    apply getNode_Ok in Hn. eauto. }
  assert (HP : parents (nodes s') !! this = Some p).
  { destruct (decide (Props.parent (CoreNode.props nd) = p)) as [Heq|Hne].
    - rewrite <- Heq in Hrun. rewrite (Hnoop _ _ _ _ Hn) in Hrun.
      injection Hrun as <-. rewrite (parents_lookup _ _ _ Hn). by rewrite Heq.
    - destruct (set_parent_links _ _ _ _ _ _ Hn Hne Hrun) as (HP & _).
      by rewrite HP, lookup_insert_eq. }
  unfold parents in HP. rewrite lookup_fmap in HP.
  destruct (nodes s' !! this) as [nd'|] eqn:Hn'; [|discriminate].
  simpl in HP. injection HP as <-. by apply Hnoop.
Qed.

End ParentSetter.


Section ParentSetterEvaluation.
Import ZInterp Scenes.

Lemma tree_scene_consistent : tree_consistent (nodes tree_scene).
Proof. apply tree_consistentb_sound. vm_compute. reflexivity. Defined.

Lemma tree_scene_reparents :
  set_parent 10 tree_scene 4%nat (Some 3%nat) = Ok tree_scene_reparented.
Proof. vm_compute. reflexivity. Defined.


(** The children lists and the pending masks after the reparenting. *)
Example tree_scene_reparented_lists :
  kids (nodes tree_scene_reparented)
  = list_to_map [(1, [2; 3]); (2, []); (3, [4]); (4, [])]%nat
  /\ (updateTypeOf tree_scene_reparented <$> [1; 2; 3; 4]%nat)
     = [Some 1; Some 65; Some 65; Some 8191]%Z.
Proof. split; vm_compute; reflexivity. Qed.

Lemma set_parent_same_parent_noop_witness :
  set_parent 0 tree_scene 4%nat (Some 2%nat) = Ok tree_scene
  /\ set_parent 0 tree_scene_reparented 4%nat (Some 3%nat)
     = Ok tree_scene_reparented.
Proof.
  destruct (@set_parent_same_parent_noop Z ZLib) as (Hnoop & Hidem).
  split.
  - apply (Hnoop 0%nat tree_scene 4%nat
             (CoreNode.set_updateType 0 (mkNode 50 50 100 100 (Some 2%nat) []))).
    reflexivity.
  - apply (Hidem 10%nat 0%nat tree_scene 4%nat (Some 3%nat)
             tree_scene_reparented tree_scene_reparents).
Defined.

End ParentSetterEvaluation.
(** ** Render to texture *)

Section RenderToTexture.
Context {num : Type} `{L : Lib num}.

Implicit Types (s : State num) (h : gmap nat (CoreNode.t num)).
Implicit Types (n nd : CoreNode.t num).

Lemma strip_parentHasRenderTexture nd nd' :
  strip nd' = strip nd ->
  CoreNode.parentHasRenderTexture nd' = CoreNode.parentHasRenderTexture nd.
Proof.
  intros E. change (CoreNode.parentHasRenderTexture (strip nd')
                    = CoreNode.parentHasRenderTexture (strip nd)).
  by rewrite E.
Qed.

Lemma forEach_clear_other (cs : list nat) s s' (m : nat) :
  forEach_clearParentHasRenderTexture s cs = Ok s' ->
  m ∉ cs -> nodes s' !! m = nodes s !! m.
Proof.
  revert s. induction cs as [|c cs IH]; intros s Hrun Hnin; simpl in Hrun.
  - by injection Hrun as <-.
  - apply not_elem_of_cons in Hnin as [Hne Hnin].
    apply rbind_Ok in Hrun as (s1 & H1 & Hrun).
    unfold modifyNode in H1. apply rbind_Ok in H1 as (cn & _ & H1).
    injection H1 as <-.
    rewrite (IH _ Hrun Hnin). unfold putNode. simpl.
    by rewrite lookup_insert_ne.
Qed.

Lemma forEach_clear_child (cs : list nat) s s' (c : nat) :
  forEach_clearParentHasRenderTexture s cs = Ok s' ->
  c ∈ cs ->
  exists cn, nodes s' !! c = Some cn
             /\ CoreNode.parentHasRenderTexture cn = false.
Proof.
  revert s. induction cs as [|c0 cs IH]; intros s Hrun Hin; simpl in Hrun.
  - by apply elem_of_nil in Hin.
  - apply rbind_Ok in Hrun as (s1 & H1 & Hrun).
    unfold modifyNode in H1. apply rbind_Ok in H1 as (cn & Hcn & H1).
    injection H1 as <-.
    destruct (decide (c ∈ cs)) as [Hc|Hc]; [by eapply IH|].
    apply elem_of_cons in Hin as [-> | Hin]; [|contradiction].
    rewrite (forEach_clear_other _ _ _ _ Hrun Hc).
    unfold putNode. simpl. rewrite lookup_insert_eq. eauto.
Qed.

(** Turning a render target off, on the [parentHasRenderTexture] flags:
    the direct children are cleared, and every other node, however deep
    below the render target, keeps the flag it had. *)
Lemma set_rtt_off_flags (stage : Stage.t num) (fuel : nat) s (this : nat)
    nd s' :
  nodes s !! this = Some nd ->
  Props.rtt (CoreNode.props nd) = true ->
  Props.texture (CoreNode.props nd) <> None ->
  set_rtt stage fuel s this false = Ok s' ->
  (forall c, c ∈ CoreNode.children nd ->
     exists cn, nodes s' !! c = Some cn
                /\ CoreNode.parentHasRenderTexture cn = false)
  /\ (forall m md, m ∉ CoreNode.children nd -> nodes s !! m = Some md ->
        exists md', nodes s' !! m = Some md'
                    /\ CoreNode.parentHasRenderTexture md'
                       = CoreNode.parentHasRenderTexture md).
Proof.
  intros Hn Hrtt Htex Hrun. unfold set_rtt in Hrun.
  rewrite (getNode_lookup _ _ _ Hn) in Hrun. simpl in Hrun.
  rewrite Hrtt in Hrun.
  destruct (Props.texture (CoreNode.props nd)) as [tex|] eqn:Etex; [|done].
  simpl in Hrun.
  set (s1 := putNode s this (set_props_rtt false nd)) in *.
  apply rbind_Ok in Hrun as (s2 & H2 & Hrun).
  apply rbind_Ok in Hrun as (s3 & H3 & Hrun).
  apply rbind_Ok in Hrun as (n3 & Hn3 & Hrun).
  apply rbind_Ok in Hrun as (s4 & H4 & Hrun).
  apply getNode_Ok in Hn3.
  assert (Hs2 : nodes s2 = nodes s1).
  { unfold unloadTexture in H2. apply rbind_Ok in H2 as (x & _ & H2).
    destruct (Props.texture (CoreNode.props x)); by injection H2 as <-. }
  apply setUpdateType_frame in H3 as [Hfr3 _]. rewrite Hs2 in Hfr3.
  assert (Hs' : nodes s' = nodes s4).
  { destruct (Stage.renderer stage); by injection Hrun as <-. }
  assert (Hn1 : nodes s1 !! this = Some (set_props_rtt false nd)).
  { unfold s1, putNode. simpl. by rewrite lookup_insert_eq. }
  assert (Hch : CoreNode.children n3 = CoreNode.children nd).
  { destruct (strip_lookup_Some _ _ this _ (eq_sym Hfr3) Hn1) as (x & Hx & Ex).
    assert (x = n3) as -> by congruence.
    change (CoreNode.children (strip n3)
            = CoreNode.children (strip (set_props_rtt false nd))).
    by rewrite Ex. }
  rewrite Hch in H4. rewrite Hs'. split.
  - intros c Hc. by eapply forEach_clear_child.
  - intros m md Hm Hmd.
    rewrite (forEach_clear_other _ _ _ _ H4 Hm).
    assert (exists md1, nodes s1 !! m = Some md1
              /\ CoreNode.parentHasRenderTexture md1
                 = CoreNode.parentHasRenderTexture md) as (md1 & Hmd1 & E1).
    { destruct (decide (this = m)) as [<-|Hne].
      - exists (set_props_rtt false nd). split; [done|].
        by assert (md = nd) as -> by congruence.
      - exists md. split; [|done]. unfold s1, putNode. simpl.
        by rewrite lookup_insert_ne. }
    destruct (strip_lookup_Some _ _ m md1 (eq_sym Hfr3) Hmd1) as (md' & Hmd' & E).
    exists md'. split; [done|].
    rewrite <- E1. by apply strip_parentHasRenderTexture.
Qed.

End RenderToTexture.

Section RenderToTextureEvaluation.
Import ZInterp Scenes.

(** C8 (evaluation at the failing input): turning off the render target
    of node 2 unloads its texture, marks it with [UpdateType.All] and
    deregisters it, and clears [parentHasRenderTexture] on the child 3;
    the grandchild 4 keeps the flag, although no ancestor of it is a
    render target any more. *)
Theorem set_rtt_off_leaves_grandchild_flag :
  set_rtt stage0 10 rtt_scene 2%nat false = Ok rtt_scene_off
  /\ trace rtt_scene_off
     = [TextureOff 77 2 "loaded"; TextureOff 77 2 "failed";
        TextureOff 77 2 "freed"; SetRenderableOwner 77 2 false;
        RemoveRTTNode 2]
  /\ updateTypeOf rtt_scene_off 2%nat = Some UpdateType.All
  /\ (Props.rtt ∘ CoreNode.props <$> nodes rtt_scene_off !! 2%nat) = Some false
  /\ parentHasRenderTextureOf rtt_scene_off 3%nat = Some false
  /\ parentHasRenderTextureOf rtt_scene_off 4%nat = Some true
  /\ hasRttAncestor 10 rtt_scene_off (Some 3%nat) false = Ok false.
Proof. repeat split; vm_compute; reflexivity. Qed.

End RenderToTextureEvaluation.

(** ** The update pass *)

Section UpdatePass.
Context {num : Type} `{L : Lib num}.
Variable stage : Stage.t num.

Implicit Types (s : State num) (h : gmap nat (CoreNode.t num)).
Implicit Types (n nd : CoreNode.t num).

Lemma hasFlag_0 (flag : Z) : hasFlag 0 flag = false.
Proof. reflexivity. Qed.

Lemma set_updateType_same nd :
  CoreNode.set_updateType (CoreNode.updateType nd) nd = nd.
Proof. by destruct nd. Qed.

Lemma putNode_same s (i : nat) nd :
  nodes s !! i = Some nd -> putNode s i nd = s.
Proof.
  intros Hi. unfold putNode. rewrite (insert_id _ _ _ Hi). by destruct s.
Qed.

(** With no flag pending, [update] does nothing at all. *)
Lemma update_clean_noop (fuel : nat) s (this : nat) (delta : num)
    (parentClippingRect : Rect.t num) nd :
  nodes s !! this = Some nd ->
  CoreNode.updateType nd = 0%Z ->
  update stage (S fuel) s this delta parentClippingRect = Ok s.
Proof.
  intros Hn Hut. pose proof (getNode_lookup _ _ _ Hn) as Hg.
  assert (Hself : updateSelf stage fuel s this parentClippingRect
                  = Ok (s, UpdateType.None)).
  { unfold updateSelf, updateSelf_transforms, updateSelf_rtt,
      updateSelf_global, updateSelf_post, whenFlag.
    repeat (rewrite Hg; simpl; rewrite ?Hut, ?hasFlag_0; simpl).
    by destruct (Props.parent (CoreNode.props nd)). }
  simpl. rewrite Hself. simpl.
  rewrite Hg. simpl. rewrite Hut, hasFlag_0. simpl.
  rewrite Hg. simpl. rewrite Hut, hasFlag_0. simpl.
  unfold modifyNode. rewrite Hg. simpl.
  rewrite <- Hut, set_updateType_same. by rewrite putNode_same.
Qed.

(** A completed [update] leaves the mask of the node at [None]. *)
Lemma update_resets (fuel : nat) s (this : nat) (delta : num)
    (parentClippingRect : Rect.t num) s' :
  update stage fuel s this delta parentClippingRect = Ok s' ->
  exists nd', nodes s' !! this = Some nd'
              /\ CoreNode.updateType nd' = UpdateType.None.
Proof.
  destruct fuel as [|fuel]; [discriminate|]. simpl. intros Hrun.
  apply rbind_Ok in Hrun as ([s1 cut] & _ & Hrun).
  apply rbind_Ok in Hrun as (n1' & _ & Hrun).
  apply rbind_Ok in Hrun as (s2 & _ & Hrun).
  apply rbind_Ok in Hrun as (n2' & _ & Hrun).
  apply rbind_Ok in Hrun as (s3 & _ & Hrun).
  unfold modifyNode in Hrun. apply rbind_Ok in Hrun as (n3' & _ & Hrun).
  injection Hrun as <-. eexists. unfold putNode. simpl.
  by rewrite lookup_insert_eq.
Qed.

(** *** Masks *)

Lemma mask_le_refl (u : Z) : mask_le u u.
Proof. exists 0%Z. by rewrite Z.lor_0_r. Qed.

Lemma mask_le_trans (u v w : Z) : mask_le u v -> mask_le v w -> mask_le u w.
Proof.
  intros [Y ->] [Y' ->]. exists (Z.lor Y Y'). by rewrite Z.lor_assoc.
Qed.

Lemma mask_le_lor (u X : Z) : mask_le u (Z.lor u X).
Proof. by exists X. Qed.

Lemma hasFlag_mask_le (u u' flag : Z) :
  mask_le u u' -> hasFlag u flag = true -> hasFlag u' flag = true.
Proof.
  intros [Y ->]. unfold hasFlag. rewrite Z.land_lor_distr_l.
  destruct (Z.eqb_spec (Z.land u flag) 0) as [|Hne]; [done|]. intros _.
  destruct (Z.eqb_spec (Z.lor (Z.land u flag) (Z.land Y flag)) 0) as [E|];
    [|done].
  apply Z.lor_eq_0_iff in E. tauto.
Qed.

Lemma hasFlag_lor_flag (u A B : Z) :
  hasFlag u (Z.lor A B) = hasFlag u A || hasFlag u B.
Proof.
  unfold hasFlag. rewrite Z.land_lor_distr_r.
  destruct (Z.eqb_spec (Z.land u A) 0) as [Ea|Ea],
           (Z.eqb_spec (Z.land u B) 0) as [Eb|Eb]; simpl;
    destruct (Z.eqb_spec (Z.lor (Z.land u A) (Z.land u B)) 0) as [E|E];
    try done.
  - exfalso. apply E. by rewrite Ea, Eb.
  - apply Z.lor_eq_0_iff in E. tauto.
  - apply Z.lor_eq_0_iff in E. tauto.
  - apply Z.lor_eq_0_iff in E. tauto.
Qed.

(** *** The flag setters: masks grow, and only on the chain *)

Lemma flag_le_refl nd : flag_le nd nd.
Proof. split; [done | apply mask_le_refl]. Qed.

Lemma flags_grow_refl s : flags_grow s s.
Proof. intros m nd Hm. exists nd. split; [done | apply flag_le_refl]. Qed.

Lemma flags_grow_trans s1 s2 s3 :
  flags_grow s1 s2 -> flags_grow s2 s3 -> flags_grow s1 s3.
Proof.
  intros H12 H23 m nd Hm.
  destruct (H12 m nd Hm) as (nd2 & Hm2 & E2 & M2).
  destruct (H23 m nd2 Hm2) as (nd3 & Hm3 & E3 & M3).
  exists nd3. split; [done|]. split; [congruence|].
  by eapply mask_le_trans.
Qed.

Lemma flags_grow_putNode_mask s (i : nat) nd (X : Z) :
  nodes s !! i = Some nd ->
  flags_grow s
    (putNode s i
       (CoreNode.set_updateType (Z.lor (CoreNode.updateType nd) X) nd)).
Proof.
  intros Hi m md Hm. unfold putNode. simpl.
  destruct (decide (i = m)) as [<-|Hne].
  - rewrite lookup_insert_eq. eexists. split; [done|].
    assert (md = nd) as -> by congruence.
    split; [done | apply mask_le_lor].
  - rewrite lookup_insert_ne by done. exists md.
    split; [done | apply flag_le_refl].
Qed.

Lemma setRTTUpdates_grows (fuel : nat) s (this : nat) (type : Z) s' :
  setRTTUpdates fuel s this type = Ok s' -> flags_grow s s'.
Proof.
  intros Hrun. apply setRTTUpdates_frame in Hrun as [Hfr _].
  intros m nd Hm.
  apply (fmap_lookup_eq _ _ _ m) in Hfr. rewrite Hm in Hfr.
  destruct (nodes s' !! m) as [nd'|]; [|discriminate].
  simpl in Hfr. apply (inj Some) in Hfr.
  exists nd'. split; [done|]. split.
  - change (CoreNode.set_updateType 0%Z (strip_rtt nd')
            = CoreNode.set_updateType 0%Z (strip_rtt nd)). by rewrite Hfr.
  - rewrite (strip_rtt_updateType _ _ Hfr). apply mask_le_refl.
Qed.

Lemma setUpdateType_grows (fuel : nat) s (this : nat) (type : Z) s' :
  setUpdateType fuel s this type = Ok s' ->
  flags_grow s s'
  /\ forall nd, nodes s !! this = Some nd ->
       exists nd', nodes s' !! this = Some nd'
                   /\ mask_le (Z.lor (CoreNode.updateType nd) type)
                         (CoreNode.updateType nd').
Proof.
  revert s this type s'.
  induction fuel as [|fuel IH]; intros s this type s' Hrun; [discriminate|].
  simpl in Hrun. apply rbind_Ok in Hrun as (nd & Hn & Hrun).
  apply getNode_Ok in Hn.
  set (s1 := putNode s this
               (CoreNode.set_updateType
                  (Z.lor (CoreNode.updateType nd) type) nd)) in *.
  assert (H01 : flags_grow s s1) by (by apply flags_grow_putNode_mask).
  apply rbind_Ok in Hrun as (s2 & Hs2 & Hrun).
  assert (H12 : flags_grow s1 s2).
  { destruct (Props.parent (CoreNode.props nd)) as [p|].
    - apply rbind_Ok in Hs2 as (pn & Hpn & Hs2).
      destruct (negb _).
      + by apply IH in Hs2 as [? _].
      + injection Hs2 as <-. apply flags_grow_refl.
    - injection Hs2 as <-. apply flags_grow_refl. }
  apply rbind_Ok in Hrun as (n2 & Hn2 & Hrun).
  assert (H23 : flags_grow s2 s').
  { destruct (CoreNode.parentHasRenderTexture n2).
    - by eapply setRTTUpdates_grows.
    - injection Hrun as <-. apply flags_grow_refl. }
  assert (H13 : flags_grow s1 s') by (by eapply flags_grow_trans).
  split; [by eapply flags_grow_trans|].
  intros nd0 Hn0. assert (nd0 = nd) as -> by congruence.
  destruct (H13 this (CoreNode.set_updateType
                        (Z.lor (CoreNode.updateType nd) type) nd))
    as (nd' & Hn' & _ & Hle).
  { unfold s1, putNode. simpl. by rewrite lookup_insert_eq. }
  eauto.
Qed.

Lemma flags_grow_strip s s' :
  flags_grow s s' ->
  (forall m, nodes s !! m = None -> nodes s' !! m = None) ->
  strip <$> nodes s' = strip <$> nodes s.
Proof.
  intros Hg Hnone. apply map_eq. intros m. rewrite !lookup_fmap.
  destruct (nodes s !! m) as [nd|] eqn:Hm.
  - destruct (Hg m nd Hm) as (nd' & -> & E & _). simpl. by rewrite E.
  - by rewrite (Hnone m Hm).
Qed.

(** The setters write on the chain of ancestors only. *)
Lemma setRTTUpdates_footprint (fuel : nat) s (this : nat) (type : Z) s'
    (l : list nat) :
  setRTTUpdates fuel s this type = Ok s' ->
  ancestors (nodes s) this l ->
  forall m, m ∉ this :: l -> nodes s' !! m = nodes s !! m.
Proof.
  revert s this l. induction fuel as [|fuel IH]; intros s this l Hrun Hanc;
    [discriminate|].
  simpl in Hrun. apply rbind_Ok in Hrun as (nd & Hn & Hrun).
  apply getNode_Ok in Hn. intros m Hm.
  apply not_elem_of_cons in Hm as [Hne Hm].
  set (s1 := putNode s this (CoreNode.set_hasRTTupdates true nd)) in *.
  assert (H1 : nodes s1 !! m = nodes s !! m).
  { unfold s1, putNode. simpl. by rewrite lookup_insert_ne. }
  inversion Hanc as [n0' nd0 Hn0 Hp0 | n0' p nd0 l' Hn0 Hp0 Hl']; subst;
    assert (nd0 = nd) as -> by congruence; rewrite Hp0 in Hrun.
  - by injection Hrun as <-.
  - rewrite <- H1. eapply (IH s1 p l'); [done| |done].
    eapply ancestors_strip; [|exact Hl']. symmetry.
    by eapply fmap_putNode_same.
Qed.

Lemma setUpdateType_footprint (fuel : nat) s (this : nat) (type : Z) s'
    (l : list nat) :
  setUpdateType fuel s this type = Ok s' ->
  ancestors (nodes s) this l ->
  forall m, m ∉ this :: l -> nodes s' !! m = nodes s !! m.
Proof.
  revert s this type s' l.
  induction fuel as [|fuel IH]; intros s this type s' l Hrun Hanc;
    [discriminate|].
  simpl in Hrun. apply rbind_Ok in Hrun as (nd & Hn & Hrun).
  apply getNode_Ok in Hn. intros m Hm.
  pose proof Hm as Hm0.
  apply not_elem_of_cons in Hm as [Hne Hm].
  set (s1 := putNode s this
               (CoreNode.set_updateType
                  (Z.lor (CoreNode.updateType nd) type) nd)) in *.
  assert (Hs1 : strip <$> nodes s1 = strip <$> nodes s)
    by (by eapply fmap_putNode_same).
  assert (H1 : nodes s1 !! m = nodes s !! m).
  { unfold s1, putNode. simpl. by rewrite lookup_insert_ne. }
  apply rbind_Ok in Hrun as (s2 & Hs2 & Hrun).
  assert (H2 : nodes s2 !! m = nodes s1 !! m
               /\ strip <$> nodes s2 = strip <$> nodes s1).
  { inversion Hanc as [n0' nd0 Hn0 Hp0 | n0' p nd0 l' Hn0 Hp0 Hl']; subst;
      assert (nd0 = nd) as -> by congruence; rewrite Hp0 in Hs2.
    - by injection Hs2 as <-.
    - apply rbind_Ok in Hs2 as (pn & Hpn & Hs2).
      destruct (negb _); [|by injection Hs2 as <-].
      split; [|by apply setUpdateType_frame in Hs2 as [? _]].
      eapply (IH s1 p _ s2 l'); [done| |done].
      eapply ancestors_strip; [|exact Hl']. by symmetry. }
  destruct H2 as [H2 Hfr2].
  apply rbind_Ok in Hrun as (n2 & Hn2 & Hrun).
  destruct (CoreNode.parentHasRenderTexture n2).
  - rewrite <- H1, <- H2.
    eapply (setRTTUpdates_footprint _ _ _ _ _ l Hrun); [|done].
    eapply ancestors_strip; [|exact Hanc]. by rewrite Hfr2, Hs1.
  - injection Hrun as <-. congruence.
Qed.

(** *** Footprint of the steps on the node itself *)

Section SelfFrame.
Context {A : Type} (keep : CoreNode.t num -> A).
Hypothesis keep_strip : forall x y, strip x = strip y -> keep x = keep y.

Lemma shape_strip (x y : CoreNode.t num) : strip x = strip y -> shape x = shape y.
Proof.
  intros E. change (shape (strip x) = shape (strip y)). by rewrite E.
Qed.

Lemma self_frame_refl (this : nat) (fp : list nat) s :
  self_frame keep this fp s s.
Proof.
  repeat split; try done.
  intros nd Hn. exists nd. repeat split; try done. apply mask_le_refl.
Qed.

Lemma self_frame_trans (this : nat) (fp : list nat) s1 s2 s3 :
  self_frame keep this fp s1 s2 -> self_frame keep this fp s2 s3 ->
  self_frame keep this fp s1 s3.
Proof.
  intros (P1 & K1 & S1 & U1 & T1) (P2 & K2 & S2 & U2 & T2).
  split; [congruence|]. split; [congruence|].
  split; [intros m Hm; by rewrite S2, S1|].
  split; [intros m Hm Hfp; by rewrite U2, U1|].
  intros nd Hn. destruct (T1 nd Hn) as (nd2 & Hn2 & Sh2 & Kp2 & M2).
  destruct (T2 nd2 Hn2) as (nd3 & Hn3 & Sh3 & Kp3 & M3).
  exists nd3. split; [done|]. split; [congruence|]. split; [congruence|].
  by eapply mask_le_trans.
Qed.

Lemma self_frame_putNode (this : nat) (fp : list nat) s nd nd' :
  nodes s !! this = Some nd ->
  shape nd' = shape nd -> keep nd' = keep nd ->
  mask_le (CoreNode.updateType nd) (CoreNode.updateType nd') ->
  self_frame keep this fp s (putNode s this nd').
Proof.
  intros Hn Hsh Hk Hm. unfold shape in Hsh. injection Hsh as Hp Hc.
  split; [|split; [|split; [|split]]].
  - rewrite parents_putNode, Hp. apply insert_id. by apply parents_lookup.
  - rewrite kids_putNode, Hc. apply insert_id. by apply kids_lookup.
  - intros m Hne. unfold putNode. simpl. by rewrite lookup_insert_ne.
  - intros m Hne _. unfold putNode. simpl. by rewrite lookup_insert_ne.
  - intros nd0 Hn0. assert (nd0 = nd) as -> by congruence.
    exists nd'. unfold putNode. simpl. rewrite lookup_insert_eq.
    repeat split; try done. unfold shape. congruence.
Qed.

Lemma self_frame_modifyNode (this : nat) (fp : list nat) s s'
    (f : CoreNode.t num -> CoreNode.t num) :
  (forall nd, shape (f nd) = shape nd /\ keep (f nd) = keep nd
              /\ CoreNode.updateType (f nd) = CoreNode.updateType nd) ->
  modifyNode s this f = Ok s' ->
  self_frame keep this fp s s'.
Proof.
  intros Hf Hrun. unfold modifyNode in Hrun.
  apply rbind_Ok in Hrun as (nd & Hn & Hrun). injection Hrun as <-.
  apply getNode_Ok in Hn. destruct (Hf nd) as (? & ? & Hu).
  apply (self_frame_putNode _ _ _ nd); try done.
  rewrite Hu. apply mask_le_refl.
Qed.

Lemma self_frame_emit (this : nat) (fp : list nat) s (e : Effect) :
  self_frame keep this fp s (emitEffect s e).
Proof. exact (self_frame_refl this fp s). Qed.

Lemma self_frame_flags (this : nat) (fp : list nat) s s' :
  strip <$> nodes s' = strip <$> nodes s ->
  flags_grow s s' ->
  (forall m, m <> this -> m ∉ fp -> nodes s' !! m = nodes s !! m) ->
  self_frame keep this fp s s'.
Proof.
  intros Hfr Hg Hfp.
  split; [by apply strip_parents|]. split; [by apply strip_kids|].
  split; [intros m _; by rewrite <- !lookup_fmap, Hfr|].
  split; [done|].
  intros nd Hn. destruct (Hg this nd Hn) as (nd' & Hn' & E & M).
  exists nd'. split; [done|]. split; [by apply shape_strip|].
  split; [by apply keep_strip | done].
Qed.

(** [setUpdateType] on a node whose chain lies in the footprint. *)
Lemma self_frame_setUpdateType (this : nat) (fp : list nat) (fuel : nat)
    s (a : nat) (X : Z) s' (la : list nat) :
  setUpdateType fuel s a X = Ok s' ->
  ancestors (nodes s) a la ->
  (forall m, m ∈ a :: la -> m = this \/ m ∈ fp) ->
  self_frame keep this fp s s'.
Proof.
  intros Hrun Hanc Hsub. apply self_frame_flags.
  - by apply setUpdateType_frame in Hrun as [? _].
  - by apply setUpdateType_grows in Hrun as [? _].
  - intros m Hne Hfp. eapply setUpdateType_footprint; [done..|].
    intros Hin. destruct (Hsub m Hin); contradiction.
Qed.

Lemma self_frame_ancestors (this : nat) (fp : list nat) s s' (a : nat)
    (l : list nat) :
  self_frame keep this fp s s' ->
  ancestors (nodes s) a l -> ancestors (nodes s') a l.
Proof.
  intros (P & _) Hanc. eapply ancestors_parents; [|exact Hanc]. by symmetry.
Qed.

Lemma self_frame_this (this : nat) (fp : list nat) s s' nd :
  self_frame keep this fp s s' ->
  nodes s !! this = Some nd ->
  exists nd', nodes s' !! this = Some nd'
              /\ CoreNode.props nd' = CoreNode.props nd
              /\ CoreNode.children nd' = CoreNode.children nd
              /\ keep nd' = keep nd
              /\ mask_le (CoreNode.updateType nd) (CoreNode.updateType nd').
Proof.
  intros (_ & _ & _ & _ & T) Hn.
  destruct (T nd Hn) as (nd' & Hn' & Sh & Kp & M).
  unfold shape in Sh. injection Sh as Hp Hc. exists nd'. eauto 10.
Qed.

Lemma self_frame_other (this : nat) (fp : list nat) s s' (m : nat) md :
  self_frame keep this fp s s' ->
  m <> this -> nodes s !! m = Some md ->
  exists md', nodes s' !! m = Some md' /\ strip md' = strip md.
Proof.
  intros (_ & _ & S & _) Hne Hm. specialize (S m Hne). rewrite Hm in S.
  destruct (nodes s' !! m) as [md'|]; [|discriminate].
  simpl in S. apply (inj Some) in S. eauto.
Qed.

End SelfFrame.

Lemma self_frame_weaken {A B : Type} (keep : CoreNode.t num -> A)
    (keep' : CoreNode.t num -> B) (this : nat) (fp fp' : list nat) s s' :
  (forall x y, keep x = keep y -> keep' x = keep' y) ->
  fp ⊆ fp' ->
  self_frame keep this fp s s' -> self_frame keep' this fp' s s'.
Proof.
  intros Hk Hsub (P & K & S & U & T).
  split; [done|]. split; [done|]. split; [done|].
  split; [intros m Hne Hfp; apply U; [done|]; intros Hin; by apply Hfp, Hsub|].
  intros nd Hn. destruct (T nd Hn) as (nd' & Hn' & Sh & Kp & M).
  exists nd'. repeat split; try done. by apply Hk.
Qed.

(** *** The steps on the node *)

Lemma whenFlag_inv s (this : nat) (flag : Z)
    (step : State num -> result (State num)) s' :
  whenFlag s this flag step = Ok s' ->
  exists nd, nodes s !! this = Some nd
    /\ ((hasFlag (CoreNode.updateType nd) flag = true /\ step s = Ok s')
        \/ (hasFlag (CoreNode.updateType nd) flag = false /\ s' = s)).
Proof.
  unfold whenFlag. intros Hrun. apply rbind_Ok in Hrun as (nd & Hn & Hrun).
  apply getNode_Ok in Hn. exists nd. split; [done|].
  destruct (hasFlag _ _); [left | right]; [done|]. by injection Hrun as <-.
Qed.

Lemma same_core_refl nd : same_core nd nd.
Proof. done. Qed.

Lemma same_core_trans n1 n2 n3 :
  same_core n1 n2 -> same_core n2 n3 -> same_core n1 n3.
Proof. intros (?&?&?) (?&?&?). repeat split; congruence. Qed.

Lemma computeLocalTransform_inv nd nd' :
  computeLocalTransform nd = Ok nd' ->
  exists lt, nd' = CoreNode.set_localTransform (Some lt) nd.
Proof.
  unfold computeLocalTransform.
  destruct (CoreNode.scaleRotateTransform nd) as [srt|]; [|discriminate].
  repeat match goal with
         | |- context [match ?x with _ => _ end] => destruct x
         end; intros [= <-]; eauto.
Qed.

Lemma calculateRenderCoords_inv nd nd' :
  calculateRenderCoords nd = Ok nd' ->
  exists rc, nd' = CoreNode.set_renderCoords (Some rc) nd.
Proof.
  unfold calculateRenderCoords.
  destruct (CoreNode.globalTransform nd) as [gt|]; [|discriminate].
  destruct (_ && _); intros [= <-]; eauto.
Qed.

Lemma updateBoundingRect_inv nd nd' :
  updateBoundingRect nd = Ok nd' ->
  exists b, nd' = CoreNode.set_renderBound (Some b) nd.
Proof.
  unfold updateBoundingRect.
  destruct (CoreNode.globalTransform nd) as [gt|]; [|discriminate].
  destruct (CoreNode.renderCoords nd) as [rc|]; [|discriminate].
  destruct (_ || _); intros [= <-]; eauto.
Qed.

(** The [Global] step on the node: it needs a local transform and stores
    the composed global transform. *)
Lemma updateGlobal_inv (parent : option (CoreNode.t num)) nd nd' :
  updateGlobal parent nd = Ok nd' ->
  exists lt,
    CoreNode.localTransform nd = Some lt
    /\ CoreNode.localTransform nd' = Some lt
    /\ CoreNode.globalTransform nd'
       = Some (composeGlobalTransform parent nd lt)
    /\ shape nd' = shape nd
    /\ CoreNode.updateType nd' = CoreNode.updateType nd
    /\ CoreNode.parentHasRenderTexture nd'
       = CoreNode.parentHasRenderTexture nd.
Proof.
  unfold updateGlobal.
  destruct (CoreNode.localTransform nd) as [lt|] eqn:Hlt; [|discriminate].
  intros Hrun. apply rbind_Ok in Hrun as (n1' & H1 & H2).
  apply calculateRenderCoords_inv in H1 as [rc ->].
  apply updateBoundingRect_inv in H2 as [b ->].
  exists lt. by repeat split.
Qed.

Lemma calculateClippingRect_inv (r : Rect.t num) nd nd' :
  calculateClippingRect r nd = Ok nd' -> same_core nd nd'.
Proof.
  unfold calculateClippingRect.
  destruct (CoreNode.globalTransform nd) as [gt|]; [|discriminate].
  by intros [= <-].
Qed.

Lemma checkRenderBounds_inv s (r : Rect.t num) nd
    (rs : CoreNodeRenderState) nd' :
  checkRenderBounds stage s r nd = Ok (rs, nd') -> same_core nd nd'.
Proof.
  unfold checkRenderBounds.
  destruct (CoreNode.renderBound nd) as [rb|]; [|discriminate].
  intros Hrun. apply rbind_Ok in Hrun as (w & _ & Hrun).
  apply rbind_Ok in Hrun as (h0 & _ & Hrun).
  destruct (boundInsideBound _ _); [by injection Hrun as _ <-|].
  destruct (Stage.boundsMargin stage) as [[[m0 m1] m2] m3].
  destruct (boundInsideBound _ _); by injection Hrun as _ <-.
Qed.

Lemma updatePremultipliedColors_core nd :
  same_core nd (updatePremultipliedColors nd).
Proof.
  unfold updatePremultipliedColors. by destruct (_ && _).
Qed.

Lemma calculateZIndex_core (parent : option (CoreNode.t num)) nd :
  same_core nd (calculateZIndex parent nd).
Proof. done. Qed.

Lemma keepPost_strip (x y : CoreNode.t num) :
  strip x = strip y -> keepPost x = keepPost y.
Proof.
  intros E. change (keepPost (strip x) = keepPost (strip y)). by rewrite E.
Qed.

Lemma hasFlag_after_setUpdateType (fuel : nat) s (this : nat) (X : Z) s' nd :
  X <> 0%Z ->
  setUpdateType fuel s this X = Ok s' ->
  nodes s !! this = Some nd ->
  exists nd', nodes s' !! this = Some nd'
              /\ hasFlag (CoreNode.updateType nd') X = true.
Proof.
  intros HX Hrun Hn. apply setUpdateType_grows in Hrun as [_ Hset].
  destruct (Hset nd Hn) as (nd' & Hn' & Hle). exists nd'. split; [done|].
  eapply hasFlag_mask_le; [exact Hle|]. by apply hasFlag_lor_same.
Qed.

(** A store of the node followed by [this.setUpdateType(X)]. *)
Lemma self_frame_put_setUpdateType {A : Type} (keep : CoreNode.t num -> A)
    (this : nat) (fp : list nat) (fuel : nat) s nd nd' (X : Z) s'
    (lc : list nat) :
  (forall x y, strip x = strip y -> keep x = keep y) ->
  nodes s !! this = Some nd ->
  shape nd' = shape nd -> keep nd' = keep nd ->
  CoreNode.updateType nd' = CoreNode.updateType nd ->
  ancestors (nodes s) this lc -> lc ⊆ fp ->
  setUpdateType fuel (putNode s this nd') this X = Ok s' ->
  self_frame keep this fp s s'.
Proof.
  intros Hks Hn Hsh Hk Hu Hanc Hsub Hrun.
  assert (H1 : self_frame keep this fp s (putNode s this nd')).
  { apply (self_frame_putNode _ _ _ _ nd); try done.
    rewrite Hu. apply mask_le_refl. }
  eapply (self_frame_trans _ _ _ _ _ _ H1).
  eapply (self_frame_setUpdateType keep Hks _ _ _ _ _ _ _ lc Hrun).
  - by eapply self_frame_ancestors.
  - intros m Hm. apply elem_of_cons in Hm as [-> | Hm]; [by left|].
    right. by apply Hsub.
Qed.

(** The [ScaleRotate] and [Local] steps: the tree and the render-target
    flag are kept, and [Global] is pending afterwards whenever one of
    [ScaleRotate], [Local], [Global] was. *)
Lemma updateSelf_transforms_spec (fuel : nat) s (this : nat) s1 nd
    (lc : list nat) :
  nodes s !! this = Some nd ->
  ancestors (nodes s) this lc ->
  updateSelf_transforms fuel s this = Ok s1 ->
  self_frame CoreNode.parentHasRenderTexture this lc s s1
  /\ (hasFlag (CoreNode.updateType nd)
        (Z.lor (Z.lor UpdateType.ScaleRotate UpdateType.Local)
           UpdateType.Global) = true ->
      exists nd1, nodes s1 !! this = Some nd1
                  /\ hasFlag (CoreNode.updateType nd1) UpdateType.Global = true).
Proof.
  intros Hn Hanc Hrun. unfold updateSelf_transforms in Hrun.
  pose proof (@strip_parentHasRenderTexture num) as Hks.
  assert (Hks' : forall x y : CoreNode.t num, strip x = strip y ->
            CoreNode.parentHasRenderTexture x = CoreNode.parentHasRenderTexture y)
    by (intros x y E; by apply Hks).
  apply rbind_Ok in Hrun as (sA & HA & HB).
  (* the ScaleRotate step *)
  assert (HfA : self_frame CoreNode.parentHasRenderTexture this lc s sA
                /\ (hasFlag (CoreNode.updateType nd) UpdateType.ScaleRotate = true ->
                    exists ndA, nodes sA !! this = Some ndA
                      /\ hasFlag (CoreNode.updateType ndA) UpdateType.Local = true)).
  { apply whenFlag_inv in HA as (nd0 & Hn0 & [[Hf Hstep] | [Hf ->]]);
      assert (nd0 = nd) as -> by congruence.
    - apply rbind_Ok in Hstep as (sa & Ha & Hset).
      assert (H1 : self_frame CoreNode.parentHasRenderTexture this lc s sa).
      { eapply self_frame_modifyNode with (f := updateScaleRotateTransform);
          [by intros x | exact Ha]. }
      destruct (self_frame_this _ _ _ _ _ _ H1 Hn) as (nda & Hnda & _).
      split.
      + eapply self_frame_trans; [exact H1|].
        eapply (self_frame_setUpdateType _ Hks' _ _ _ _ _ _ _ lc Hset).
        * by eapply self_frame_ancestors.
        * intros m Hm. apply elem_of_cons in Hm as [-> | Hm]; eauto.
      + intros _. by eapply hasFlag_after_setUpdateType.
    - split; [apply self_frame_refl|]. congruence. }
  destruct HfA as [HfA HsrA].
  destruct (self_frame_this _ _ _ _ _ _ HfA Hn) as (ndA & HnA & _ & _ & _ & HleA).
  assert (HancA : ancestors (nodes sA) this lc)
    by (by eapply self_frame_ancestors).
  (* the Local step *)
  apply whenFlag_inv in HB as (nd0 & Hn0 & [[Hf Hstep] | [Hf ->]]);
    assert (nd0 = ndA) as -> by congruence.
  - apply rbind_Ok in Hstep as (sb & Hb & Hset).
    unfold updateLocalTransform in Hb.
    apply rbind_Ok in Hb as (nb & Hnb & Hb).
    apply getNode_Ok in Hnb. assert (nb = ndA) as -> by congruence.
    apply rbind_Ok in Hb as (nb' & Hc & Hb).
    apply computeLocalTransform_inv in Hc as [lt ->].
    assert (H1 : self_frame CoreNode.parentHasRenderTexture this lc sA sb).
    { eapply self_frame_put_setUpdateType
        with (nd := ndA) (nd' := CoreNode.set_localTransform (Some lt) ndA)
             (lc := lc);
        [exact Hks' | exact HnA | done | done | done | exact HancA
        | done | exact Hb]. }
    destruct (self_frame_this _ _ _ _ _ _ H1 HnA) as (ndb & Hndb & _).
    assert (H2 : self_frame CoreNode.parentHasRenderTexture this lc sb s1).
    { eapply (self_frame_setUpdateType _ Hks' _ _ _ _ _ _ _ lc Hset).
      - by eapply self_frame_ancestors.
      - intros m Hm. apply elem_of_cons in Hm as [-> | Hm]; eauto. }
    split.
    + eapply self_frame_trans; [exact HfA|].
      eapply self_frame_trans; [exact H1 | exact H2].
    + intros _. by eapply hasFlag_after_setUpdateType.
  - split; [done|]. intros Hany. unfold GlobalTriggers in Hany.
    rewrite !hasFlag_lor_flag in Hany.
    exists ndA. split; [done|].
    apply orb_prop in Hany as [Hany | Hg].
    + apply orb_prop in Hany as [Hsr | Hl].
      * destruct (HsrA Hsr) as (x & Hx & Hlx).
        assert (x = ndA) as -> by congruence. congruence.
      * pose proof (hasFlag_mask_le _ _ _ HleA Hl). congruence.
    + by eapply hasFlag_mask_le.
Qed.

(** *** Children and their chains *)

Lemma kid_kids h (p c : nat) :
  kid h p c <-> exists cs, kids h !! p = Some cs /\ c ∈ cs.
Proof.
  unfold kid, kids. rewrite lookup_fmap. split.
  - intros (pn & -> & Hc). simpl. eauto.
  - intros (cs & Hcs & Hc). destruct (h !! p) as [pn|]; [|discriminate].
    simpl in Hcs. injection Hcs as <-. eauto.
Qed.

Lemma kids_perm_eq h h' : kids h' = kids h -> kids_perm h h'.
Proof. intros E p. by rewrite E. Qed.

Lemma kids_perm_trans h1 h2 h3 :
  kids_perm h1 h2 -> kids_perm h2 h3 -> kids_perm h1 h3.
Proof. intros K1 K2 p. by etrans; [apply K2 | apply K1]. Qed.

Lemma kids_perm_kid h h' (p c : nat) :
  kids_perm h h' -> kid h' p c <-> kid h p c.
Proof.
  intros K. rewrite !kid_kids. specialize (K p).
  destruct K as [cs' cs Hperm|].
  - split; intros (x & [= <-] & Hc); eexists; (split; [done|]).
    + by rewrite <- Hperm.
    + by rewrite Hperm.
  - split; by intros (x & ? & _).
Qed.

Lemma kids_lookup_inv h (p : nat) (cs : list nat) :
  kids h !! p = Some cs ->
  exists pn, h !! p = Some pn /\ CoreNode.children pn = cs.
Proof.
  unfold kids. rewrite lookup_fmap. destruct (h !! p) as [pn|]; [|done].
  intros [= <-]. eauto.
Qed.

Lemma kids_perm_NoDup h h' : kids_perm h h' -> kids_NoDup h -> kids_NoDup h'.
Proof.
  intros K Hnd p pn' Hp. specialize (K p).
  rewrite (kids_lookup _ _ _ Hp) in K. inversion K as [x cs Hperm Hx Hcs|].
  symmetry in Hcs. apply kids_lookup_inv in Hcs as (pn & Hpn & <-).
  rewrite Hperm. by eapply Hnd.
Qed.

Lemma tree_consistent_kids_NoDup h : tree_consistent h -> kids_NoDup h.
Proof. by intros (_ & _ & H). Qed.

Lemma children_point_back_ext h h' :
  parents h' = parents h ->
  (forall p c, kid h' p c -> kid h p c) ->
  children_point_back h -> children_point_back h'.
Proof.
  intros HP HK Hcpb p c Hk. apply HK in Hk.
  destruct (Hcpb p c Hk) as (cn & Hcn & Hpar).
  apply parents_lookup in Hcn. rewrite <- HP, Hpar in Hcn.
  by apply parents_lookup_inv in Hcn.
Qed.

Lemma self_frame_children_point_back {A : Type}
    (keep : CoreNode.t num -> A) (this : nat) (fp : list nat) s s' :
  self_frame keep this fp s s' ->
  children_point_back (nodes s) -> children_point_back (nodes s').
Proof.
  intros (P & K & _). apply children_point_back_ext; [done|].
  intros p c. rewrite !kid_kids. by rewrite K.
Qed.

(** The chain of a child is its parent followed by the chain of the
    parent. *)
Lemma child_ancestors h (this c : nat) (lc : list nat) :
  children_point_back h -> ancestors h this lc -> kid h this c ->
  ancestors h c (this :: lc).
Proof.
  intros Hcpb Hanc Hk. destruct (Hcpb this c Hk) as (cn & Hcn & Hpar).
  by eapply ancestors_step.
Qed.

Lemma forEach_setUpdateType_frame {A : Type} (keep : CoreNode.t num -> A)
    (this : nat) (lc fp : list nat) (fuel : nat) (X : Z) (cs : list nat) :
  (forall x y, strip x = strip y -> keep x = keep y) ->
  lc ⊆ fp -> cs ⊆ fp ->
  forall s s',
    (forall c, c ∈ cs -> ancestors (nodes s) c (this :: lc)) ->
    forEach_setUpdateType fuel s cs X = Ok s' ->
    self_frame keep this fp s s'.
Proof.
  intros Hks Hlc. induction cs as [|c cs IH]; intros Hcs s s' Hanc Hrun;
    simpl in Hrun.
  - injection Hrun as <-. apply self_frame_refl.
  - apply rbind_Ok in Hrun as (s1 & H1 & Hrun).
    assert (F1 : self_frame keep this fp s s1).
    { eapply (self_frame_setUpdateType keep Hks _ _ _ _ _ _ _ (this :: lc) H1).
      - apply Hanc. by left.
      - intros m Hm. apply elem_of_cons in Hm as [-> | Hm].
        + right. apply Hcs. by left.
        + apply elem_of_cons in Hm as [-> | Hm]; [by left|].
          right. by apply Hlc. }
    eapply self_frame_trans; [exact F1|].
    apply IH; [|intros c' Hc'|done].
    + intros x Hx. apply Hcs. by right.
    + eapply self_frame_ancestors; [exact F1|]. apply Hanc. by right.
Qed.

(** *** The render-texture steps *)

Lemma hasRttAncestor_true (fuel : nat) s (p : option nat) (found : bool) :
  hasRttAncestor fuel s p true = Ok found -> found = true.
Proof.
  revert p. induction fuel as [|fuel IH]; intros p; simpl.
  - destruct p; [discriminate | congruence].
  - destruct p as [pid|]; [|congruence].
    intros Hrun. apply rbind_Ok in Hrun as (pn & _ & Hrun). by eapply IH.
Qed.

Lemma hasRttAncestor_parent (fuel : nat) s (p : nat) pn (found : bool) :
  hasRttAncestor fuel s (Some p) false = Ok found ->
  nodes s !! p = Some pn -> Props.rtt (CoreNode.props pn) = true ->
  found = true.
Proof.
  destruct fuel as [|fuel]; [discriminate|]. simpl.
  intros Hrun Hp Hrtt. rewrite (getNode_lookup _ _ _ Hp) in Hrun.
  simpl in Hrun. rewrite Hrtt in Hrun. by eapply hasRttAncestor_true.
Qed.

Lemma updateSelf_rtt_spec (fuel : nat) s (this : nat) s1 nd (lc : list nat) :
  children_point_back (nodes s) ->
  nodes s !! this = Some nd ->
  ancestors (nodes s) this lc ->
  updateSelf_rtt fuel s this (Props.parent (CoreNode.props nd)) = Ok s1 ->
  self_frame (fun _ => tt) this (lc ++ CoreNode.children nd) s s1
  /\ exists nd1,
       nodes s1 !! this = Some nd1
       /\ (CoreNode.parentHasRenderTexture nd = true ->
           CoreNode.parentHasRenderTexture nd1 = true)
       /\ (forall p pn,
             Props.parent (CoreNode.props nd) = Some p ->
             nodes s !! p = Some pn ->
             Props.rtt (CoreNode.props pn) = true ->
             hasFlag (CoreNode.updateType nd) UpdateType.ParentRenderTexture
             = true ->
             CoreNode.parentHasRenderTexture nd1 = true).
Proof.
  intros Hcpb Hn Hanc Hrun. unfold updateSelf_rtt in Hrun.
  set (fp := lc ++ CoreNode.children nd).
  apply rbind_Ok in Hrun as (sW & HW & Hrun).
  (* the walk over the ancestors *)
  assert (HfW : self_frame (fun _ => tt) this fp s sW
          /\ exists ndW, nodes sW !! this = Some ndW
               /\ (CoreNode.parentHasRenderTexture nd = true ->
                   CoreNode.parentHasRenderTexture ndW = true)
               /\ (forall p pn,
                     Props.parent (CoreNode.props nd) = Some p ->
                     nodes s !! p = Some pn ->
                     Props.rtt (CoreNode.props pn) = true ->
                     hasFlag (CoreNode.updateType nd)
                       UpdateType.ParentRenderTexture = true ->
                     CoreNode.parentHasRenderTexture ndW = true)).
  { apply whenFlag_inv in HW as (nd0 & Hn0 & [[Hf Hstep] | [Hf ->]]);
      assert (nd0 = nd) as -> by congruence.
    - apply rbind_Ok in Hstep as (found & Hfound & Hstep).
      destruct found.
      + split.
        * eapply self_frame_modifyNode
            with (f := CoreNode.set_parentHasRenderTexture true);
            [by intros x | exact Hstep].
        * unfold modifyNode in Hstep.
          rewrite (getNode_lookup _ _ _ Hn) in Hstep. simpl in Hstep.
          injection Hstep as <-. eexists. unfold putNode. simpl.
          rewrite lookup_insert_eq. split; [done|]. by split.
      + injection Hstep as <-. split; [apply self_frame_refl|].
        exists nd. split; [done|]. split; [done|].
        intros p pn Hp Hpn Hrtt _. rewrite Hp in Hfound.
        by pose proof (hasRttAncestor_parent _ _ _ _ _ Hfound Hpn Hrtt).
    - split; [apply self_frame_refl|]. exists nd. split; [done|].
      split; [done|]. intros. congruence. }
  destruct HfW as (HfW & ndW & HnW & HkeepW & HwalkW).
  apply rbind_Ok in Hrun as (n & Hgn & Hrun). apply getNode_Ok in Hgn.
  assert (n = ndW) as -> by congruence.
  destruct (self_frame_this _ _ _ _ _ _ HfW Hn) as (x & Hx & _ & HchW & _).
  assert (x = ndW) as -> by congruence.
  destruct (_ && _).
  - (* the children are marked for a full update *)
    assert (HfR : self_frame CoreNode.parentHasRenderTexture this fp sW s1).
    { eapply forEach_setUpdateType_frame with (lc := lc);
        [| | |intros c Hc|exact Hrun].
      - intros x y E. by apply strip_parentHasRenderTexture.
      - unfold fp. set_solver.
      - rewrite HchW. unfold fp. set_solver.
      - apply child_ancestors.
        + by eapply self_frame_children_point_back.
        + by eapply self_frame_ancestors.
        + by exists ndW. }
    split.
    + eapply self_frame_trans; [exact HfW|].
      eapply self_frame_weaken; [| |exact HfR]; done.
    + destruct (self_frame_this _ _ _ _ _ _ HfR HnW) as (nd1 & Hn1 & _ & _ & Hk & _).
      exists nd1. split; [done|]. rewrite Hk. by split.
  - injection Hrun as <-. split; [done|]. exists ndW. by split.
Qed.

(** *** The [Global] step *)

Lemma updateSelf_global_spec (fuel : nat) s (this : nat) (cut : Z) s1
    (cut' : Z) nd (lc : list nat) :
  nodes s !! this = Some nd ->
  ancestors (nodes s) this lc ->
  updateSelf_global fuel s this (Props.parent (CoreNode.props nd)) cut
  = Ok (s1, cut') ->
  self_frame CoreNode.parentHasRenderTexture this lc s s1
  /\ (hasFlag (CoreNode.updateType nd) UpdateType.Global = true ->
      exists lt nd1 pn,
        nodes s1 !! this = Some nd1
        /\ keepPost nd1
           = (Some lt, Some (composeGlobalTransform pn nd lt),
              CoreNode.parentHasRenderTexture nd)
        /\ match Props.parent (CoreNode.props nd) with
           | Some p => pn = nodes s !! p /\ is_Some pn
           | None => pn = None
           end).
Proof.
  intros Hn Hanc Hrun. unfold updateSelf_global in Hrun.
  rewrite (getNode_lookup _ _ _ Hn) in Hrun. simpl in Hrun.
  destruct (hasFlag (CoreNode.updateType nd) UpdateType.Global).
  - apply rbind_Ok in Hrun as (pn & Hpn & Hrun).
    apply rbind_Ok in Hrun as (n' & Hg & Hrun).
    apply rbind_Ok in Hrun as (s' & Hset & Hrun). injection Hrun as -> <-.
    apply updateGlobal_inv in Hg as (lt & Hlt & Hlt' & Hgt' & Hsh & Hu & Hphrt).
    assert (Hfr : self_frame CoreNode.parentHasRenderTexture this lc s s1).
    { eapply self_frame_put_setUpdateType with (nd := nd) (nd' := n') (lc := lc);
        [|exact Hn|done|done|done|exact Hanc|done|exact Hset].
      intros x y E. by apply strip_parentHasRenderTexture. }
    split; [done|]. intros _.
    apply setUpdateType_frame in Hset as [Hstrip _].
    assert (Hn1 : exists nd1, nodes s1 !! this = Some nd1
                              /\ strip nd1 = strip n').
    { eapply strip_lookup_Some; [symmetry; exact Hstrip|].
      unfold putNode. simpl. by rewrite lookup_insert_eq. }
    destruct Hn1 as (nd1 & Hn1 & E1).
    exists lt, nd1, pn. split; [done|]. split.
    + rewrite (keepPost_strip _ _ E1). unfold keepPost. congruence.
    + destruct (Props.parent (CoreNode.props nd)) as [p|].
      * apply rbind_Ok in Hpn as (pn0 & Hpn0 & Hpn).
        injection Hpn as <-. apply getNode_Ok in Hpn0. rewrite Hpn0. eauto.
      * by injection Hpn as <-.
  - injection Hrun as <- <-. split; [apply self_frame_refl | done].
Qed.

(** *** The steps from [Clipping] to [CalculatedZIndex] *)

Lemma updateRenderState_frame (fp : list nat) s (this : nat)
    (r : Rect.t num) s' :
  updateRenderState stage s this r = Ok s' ->
  self_frame keepPost this fp s s'.
Proof.
  unfold updateRenderState. intros Hrun.
  apply rbind_Ok in Hrun as (nd & Hn & Hrun). apply getNode_Ok in Hn.
  apply rbind_Ok in Hrun as ([rs n'] & Hc & Hrun).
  apply checkRenderBounds_inv in Hc as (Hsh & Hk & Hu).
  assert (H1 : self_frame keepPost this fp s (putNode s this n')).
  { apply (self_frame_putNode _ _ _ _ nd); try done.
    rewrite Hu. apply mask_le_refl. }
  destruct (renderState_eqb rs (CoreNode.renderState n')).
  - by injection Hrun as <-.
  - destruct (CoreNodeRenderStateMap rs) as [ev|]; [|discriminate].
    injection Hrun as <-.
    eapply self_frame_trans; [exact H1|].
    eapply self_frame_trans; [|apply self_frame_emit].
    apply (self_frame_putNode _ _ _ _ n'); try done.
    + unfold putNode. simpl. by rewrite lookup_insert_eq.
    + apply mask_le_refl.
Qed.

Lemma updateIsRenderable_frame (fp : list nat) s (this : nat) s' :
  updateIsRenderable stage s this = Ok s' ->
  self_frame keepPost this fp s s'.
Proof.
  unfold updateIsRenderable. intros Hrun.
  apply rbind_Ok in Hrun as (nd & Hn & Hrun). apply getNode_Ok in Hn.
  destruct (negb _); [|injection Hrun as <-; apply self_frame_refl].
  injection Hrun as <-. unfold onChangeIsRenderable. simpl.
  assert (H1 : forall b, self_frame keepPost this fp s
                 (putNode s this (CoreNode.set_isRenderable b nd))).
  { intros b. apply (self_frame_putNode _ _ _ _ nd); try done.
    apply mask_le_refl. }
  destruct (Props.texture (CoreNode.props nd)).
  - eapply self_frame_trans; [apply H1 | apply self_frame_emit].
  - apply H1.
Qed.

Lemma updateSelf_post_spec (fuel : nat) s (this : nat)
    (r : Rect.t num) (cut : Z) s1 (cut' : Z) nd (lc : list nat) :
  nodes s !! this = Some nd ->
  ancestors (nodes s) this lc ->
  updateSelf_post stage fuel s this (Props.parent (CoreNode.props nd)) r cut
  = Ok (s1, cut') ->
  self_frame keepPost this lc s s1.
Proof.
  intros Hn Hanc Hrun. unfold updateSelf_post in Hrun.
  pose proof keepPost_strip as Hks.
  (* Clipping *)
  apply rbind_Ok in Hrun as (n & Hgn & Hrun). apply getNode_Ok in Hgn.
  assert (n = nd) as -> by congruence.
  apply rbind_Ok in Hrun as ([sA cutA] & HA & Hrun). simpl in Hrun.
  assert (FA : self_frame keepPost this lc s sA).
  { destruct (hasFlag (CoreNode.updateType nd) UpdateType.Clipping).
    - apply rbind_Ok in HA as (n' & Hc & HA).
      apply rbind_Ok in HA as (s' & Hset & HA). injection HA as -> _.
      apply calculateClippingRect_inv in Hc as (Hsh & Hk & Hu).
      eapply self_frame_put_setUpdateType with (nd := nd) (nd' := n') (lc := lc);
        [exact Hks|exact Hn|done|done|done|exact Hanc|done|exact Hset].
    - injection HA as <- _. apply self_frame_refl. }
  destruct (self_frame_this _ _ _ _ _ _ FA Hn) as (ndA & HnA & HpA & _).
  assert (HancA : ancestors (nodes sA) this lc)
    by (by eapply self_frame_ancestors).
  (* WorldAlpha *)
  apply rbind_Ok in Hrun as (n & Hgn' & Hrun). apply getNode_Ok in Hgn'.
  assert (n = ndA) as -> by congruence.
  apply rbind_Ok in Hrun as ([sB cutB] & HB & Hrun). simpl in Hrun.
  assert (FB : self_frame keepPost this lc sA sB).
  { destruct (hasFlag (CoreNode.updateType ndA) UpdateType.WorldAlpha).
    - apply rbind_Ok in HB as (wa & _ & HB).
      apply rbind_Ok in HB as (s' & Hset & HB). injection HB as -> _.
      eapply self_frame_put_setUpdateType
        with (nd := ndA) (nd' := CoreNode.set_worldAlpha wa ndA) (lc := lc);
        [exact Hks|exact HnA|done|done|done|exact HancA|done|exact Hset].
    - injection HB as <- _. apply self_frame_refl. }
  (* PremultipliedColors *)
  apply rbind_Ok in Hrun as (sC & HC & Hrun).
  assert (FC : self_frame keepPost this lc sB sC).
  { apply whenFlag_inv in HC as (n0 & _ & [[_ Hstep] | [_ ->]]);
      [|apply self_frame_refl].
    eapply self_frame_modifyNode with (f := updatePremultipliedColors);
      [|exact Hstep].
    intros x. destruct (updatePremultipliedColors_core x) as (?&?&?). eauto. }
  assert (FAC : self_frame keepPost this lc s sC).
  { eapply self_frame_trans; [exact FA|].
    eapply self_frame_trans; [exact FB | exact FC]. }
  (* RenderState *)
  apply rbind_Ok in Hrun as (sD & HD & Hrun).
  assert (FD : self_frame keepPost this lc sC sD).
  { apply whenFlag_inv in HD as (n0 & _ & [[_ Hstep] | [_ ->]]);
      [|apply self_frame_refl].
    apply rbind_Ok in Hstep as (s' & Hrs & Hset).
    assert (F1 : self_frame keepPost this lc sC s')
      by (by eapply updateRenderState_frame).
    eapply self_frame_trans; [exact F1|].
    eapply (self_frame_setUpdateType keepPost Hks _ _ _ _ _ _ _ lc Hset).
    - eapply self_frame_ancestors; [exact F1|].
      by eapply self_frame_ancestors.
    - intros m Hm. apply elem_of_cons in Hm as [-> | Hm]; eauto. }
  (* IsRenderable *)
  apply rbind_Ok in Hrun as (sE & HE & Hrun).
  assert (FE : self_frame keepPost this lc sD sE).
  { apply whenFlag_inv in HE as (n0 & _ & [[_ Hstep] | [_ ->]]);
      [|apply self_frame_refl].
    by eapply updateIsRenderable_frame. }
  assert (FAE : self_frame keepPost this lc s sE).
  { eapply self_frame_trans; [exact FAC|].
    eapply self_frame_trans; [exact FD | exact FE]. }
  (* CalculatedZIndex *)
  apply rbind_Ok in Hrun as (nE & HnE & Hrun). apply getNode_Ok in HnE.
  apply rbind_Ok in Hrun as (sF & HF & Hrun). injection Hrun as <- _.
  eapply self_frame_trans; [exact FAE|].
  assert (HancE : ancestors (nodes sE) this lc)
    by (by eapply self_frame_ancestors).
  destruct (Props.parent (CoreNode.props nd)) as [p|] eqn:Hp;
    [|injection HF as <-; apply self_frame_refl].
  destruct (hasFlag (CoreNode.updateType nE) UpdateType.CalculatedZIndex);
    [|injection HF as <-; apply self_frame_refl].
  apply rbind_Ok in HF as (pn & Hpn & HF).
  assert (F1 : self_frame keepPost this lc sE
                 (putNode sE this (calculateZIndex (Some pn) nE))).
  { apply (self_frame_putNode _ _ _ _ nE); try done. apply mask_le_refl. }
  eapply self_frame_trans; [exact F1|].
  inversion Hanc as [? ? Hn0 Hp0 | ? p0 ? lc' Hn0 Hp0 Hlc']; subst;
    assert (nd0 = nd) as -> by congruence; [congruence|].
  assert (p0 = p) as -> by congruence.
  eapply (self_frame_setUpdateType keepPost Hks _ _ _ _ _ _ _ lc' HF).
  - eapply self_frame_ancestors; [exact F1|].
    eapply self_frame_ancestors; [exact FAE | exact Hlc'].
  - intros m Hm. by right.
Qed.

(** *** All the steps on the node *)

(** The composed transform is the one of the specification as soon as
    the render-target flag is set under a render-target parent. *)
Lemma composeGlobalTransform_spec (parent : option (CoreNode.t num)) nd
    (lt g : Matrix3d.t num) :
  (forall pn, parent = Some pn -> Props.rtt (CoreNode.props pn) = true ->
     CoreNode.parentHasRenderTexture nd = true) ->
  spec_global_transform parent lt = Some g ->
  composeGlobalTransform parent nd lt = g.
Proof.
  intros Hflag. unfold spec_global_transform, composeGlobalTransform.
  destruct parent as [pn|].
  - destruct (Props.rtt (CoreNode.props pn)) eqn:Hrtt.
    + rewrite (Hflag pn eq_refl Hrtt). simpl. congruence.
    + rewrite andb_false_r.
      destruct (CoreNode.globalTransform pn); [|discriminate].
      unfold Matrix3d_copy. congruence.
  - rewrite andb_false_r. unfold Matrix3d_copy. congruence.
Qed.

Lemma updateSelf_spec (fuel : nat) s (this : nat) (r : Rect.t num) s1
    (cut : Z) nd (lc : list nat) :
  children_point_back (nodes s) ->
  nodes s !! this = Some nd ->
  ancestors (nodes s) this lc ->
  updateSelf stage fuel s this r = Ok (s1, cut) ->
  self_frame (fun _ => tt) this (lc ++ CoreNode.children nd) s s1
  /\ (hasFlag (CoreNode.updateType nd) GlobalTriggers = true ->
      rtt_flag_current s nd ->
      exists nd1 lt,
        nodes s1 !! this = Some nd1
        /\ CoreNode.localTransform nd1 = Some lt
        /\ forall g, spec_global_transform (parentNode s nd) lt = Some g ->
                     CoreNode.globalTransform nd1 = Some g).
Proof.
  intros Hcpb Hn Hanc Hrun. unfold updateSelf in Hrun.
  set (fp := lc ++ CoreNode.children nd).
  assert (Hk1 : forall x y : CoreNode.t num,
            CoreNode.parentHasRenderTexture x = CoreNode.parentHasRenderTexture y ->
            (fun _ : CoreNode.t num => tt) x = (fun _ : CoreNode.t num => tt) y)
    by done.
  assert (Hk2 : forall x y : CoreNode.t num,
            keepPost x = keepPost y ->
            (fun _ : CoreNode.t num => tt) x = (fun _ : CoreNode.t num => tt) y)
    by done.
  assert (Hlcfp : lc ⊆ fp) by (unfold fp; set_solver).
  (* ScaleRotate, Local *)
  apply rbind_Ok in Hrun as (sT & HT & Hrun).
  destruct (updateSelf_transforms_spec _ _ _ _ _ _ Hn Hanc HT) as [FT HgT].
  destruct (self_frame_this _ _ _ _ _ _ FT Hn)
    as (ndT & HnT & HpT & HcT & HkT & HleT).
  apply rbind_Ok in Hrun as (n & Hgn & Hrun). apply getNode_Ok in Hgn.
  assert (n = ndT) as -> by congruence. simpl in Hrun.
  (* the render-texture steps *)
  apply rbind_Ok in Hrun as (sR & HR & Hrun).
  assert (HcpbT : children_point_back (nodes sT))
    by (by eapply self_frame_children_point_back).
  assert (HancT : ancestors (nodes sT) this lc)
    by (by eapply self_frame_ancestors).
  destruct (updateSelf_rtt_spec _ _ _ _ _ _ HcpbT HnT HancT HR)
    as (FR & ndR & HnR & HkeepR & HwalkR).
  rewrite HcT in FR. fold fp in FR.
  destruct (self_frame_this _ _ _ _ _ _ FR HnT)
    as (x & Hx & HpR & HcR & _ & HleR).
  assert (x = ndR) as -> by congruence.
  assert (HancR : ancestors (nodes sR) this lc)
    by (by eapply self_frame_ancestors).
  (* Global *)
  apply rbind_Ok in Hrun as ([sG cutG] & HG & Hrun). simpl in Hrun.
  rewrite <- HpR in HG, Hrun.
  destruct (updateSelf_global_spec _ _ _ _ _ _ _ _ HnR HancR HG) as [FG HoutG].
  destruct (self_frame_this _ _ _ _ _ _ FG HnR)
    as (ndG & HnG & HpG & _).
  assert (HancG : ancestors (nodes sG) this lc)
    by (by eapply self_frame_ancestors).
  (* Clipping ... CalculatedZIndex *)
  rewrite <- HpG in Hrun.
  pose proof (updateSelf_post_spec _ _ _ _ _ _ _ _ _ HnG HancG Hrun) as FP.
  assert (F0R : self_frame (fun _ => tt) this fp s sR).
  { eapply self_frame_trans; [|exact FR].
    eapply self_frame_weaken; [exact Hk1 | exact Hlcfp | exact FT]. }
  split.
  { eapply self_frame_trans; [exact F0R|].
    eapply self_frame_trans.
    - eapply self_frame_weaken; [exact Hk1 | exact Hlcfp | exact FG].
    - eapply self_frame_weaken; [exact Hk2 | exact Hlcfp | exact FP]. }
  intros Htrig Hcur.
  destruct (HgT Htrig) as (x & Hx' & HgflagT).
  assert (x = ndT) as -> by congruence.
  pose proof (hasFlag_mask_le _ _ _ HleR HgflagT) as HgflagR.
  destruct (HoutG HgflagR) as (lt & x & pn & Hx'' & Hkeep & Hpn).
  assert (x = ndG) as -> by congruence.
  destruct (self_frame_this _ _ _ _ _ _ FP HnG) as (nd1 & Hn1 & _ & _ & Hk1' & _).
  rewrite Hkeep in Hk1'. unfold keepPost in Hk1'.
  injection Hk1' as Hlt1 Hgt1 _.
  exists nd1, lt. split; [done|]. split; [done|].
  intros g Hspec. rewrite Hgt1. f_equal.
  (* the parent, as the [Global] step read it *)
  unfold parentNode in Hspec.
  assert (HpR0 : Props.parent (CoreNode.props ndR)
                 = Props.parent (CoreNode.props nd)) by congruence.
  rewrite HpR0 in Hpn.
  destruct (Props.parent (CoreNode.props nd)) as [p|] eqn:Hp.
  - destruct Hpn as [-> [pnR HpnR]].
    assert (Hne : p <> this).
    { intros ->. apply (ancestors_not_self _ _ _ Hanc).
      inversion Hanc; subst; simplify_eq. by left. }
    destruct (nodes s !! p) as [pn0|] eqn:Hpn0.
    + destruct (self_frame_other _ _ _ _ _ _ _ F0R Hne Hpn0)
        as (y & Hy & Ey).
      assert (y = pnR) as -> by congruence.
      rewrite HpnR.
      assert (Hrtt : Props.rtt (CoreNode.props pnR) = Props.rtt (CoreNode.props pn0)).
      { pose proof (shape_strip _ _ Ey) as Sh. unfold shape in Sh.
        injection Sh as Sp _. by rewrite Sp. }
      assert (Hgtp : CoreNode.globalTransform pnR = CoreNode.globalTransform pn0).
      { pose proof (keepPost_strip _ _ Ey) as Kp. unfold keepPost in Kp.
        by injection Kp as _ Kg _. }
      apply composeGlobalTransform_spec.
      * intros pn1 [= <-] Hr. rewrite Hrtt in Hr.
        destruct (Hcur pn0) as [Hfl | Hfl]; [by unfold parentNode; rewrite Hp | done | |].
        -- apply HkeepR. by rewrite HkT.
        -- destruct (self_frame_other _ _ _ _ _ _ _ FT Hne Hpn0) as (z & Hz & Ez).
           apply (HwalkR p z); [congruence | done | |].
           ++ pose proof (shape_strip _ _ Ez) as Sh. unfold shape in Sh.
              injection Sh as Sp _. by rewrite Sp.
           ++ by eapply hasFlag_mask_le.
      * unfold spec_global_transform in *. rewrite Hrtt, Hgtp. exact Hspec.
    + exfalso.
      destruct F0R as (P & _). apply parents_lookup in HpnR.
      rewrite P in HpnR. unfold parents in HpnR.
      by rewrite lookup_fmap, Hpn0 in HpnR.
  - subst pn. by apply composeGlobalTransform_spec.
Qed.

(** *** Subtrees *)

Lemma ancestors_suffix_incl h (a b : nat) (l : list nat) :
  ancestors h a l -> b ∈ l ->
  exists l', ancestors h b l' /\ l' ⊆ l
             /\ (List.length l' < List.length l)%nat.
Proof.
  intros Hanc. induction Hanc as [n nd Hn Hp | n p nd l Hn Hp Hl IH];
    intros Hin.
  - by apply elem_of_nil in Hin.
  - apply elem_of_cons in Hin as [-> | Hin].
    + exists l. split; [done|]. split; [intros x Hx; by right | simpl; lia].
    + destruct (IH Hin) as (l' & Hl' & Hsub & Hlen).
      exists l'. split; [done|].
      split; [intros x Hx; right; by apply Hsub | simpl; lia].
Qed.

Lemma below_self h (m : nat) (l : list nat) : ancestors h m l -> below h m m.
Proof. intros Hanc. exists l. split; [done | by left]. Qed.

Lemma below_parents h h' (c m : nat) :
  parents h = parents h' -> below h c m -> below h' c m.
Proof.
  intros E (l & Hl & Hin). exists l. split; [|done].
  by eapply ancestors_parents.
Qed.

(** The subtree of a child lies in the subtree of its parent. *)
Lemma below_child h (this c m : nat) (lc : list nat) :
  ancestors h c (this :: lc) -> below h c m -> below h this m.
Proof.
  intros Hc (l & Hl & Hin). exists l. split; [done|].
  apply elem_of_cons in Hin as [-> | Hin].
  - rewrite (ancestors_functional _ _ _ _ Hl Hc). right. by left.
  - destruct (ancestors_suffix_incl _ _ _ _ Hl Hin) as (l' & Hl' & Hsub & _).
    rewrite (ancestors_functional _ _ _ _ Hl' Hc) in Hsub.
    right. apply Hsub. by left.
Qed.

(** An ancestor of a node is not in its subtree. *)
Lemma ancestor_not_below h (this m : nat) (lc : list nat) :
  ancestors h this lc -> m ∈ lc -> ~ below h this m.
Proof.
  intros Hanc Hm (l & Hl & Hin).
  destruct (ancestors_suffix_incl _ _ _ _ Hanc Hm) as (l' & Hl' & _ & Hlen).
  rewrite (ancestors_functional _ _ _ _ Hl' Hl) in Hlen.
  apply elem_of_cons in Hin as [-> | Hin].
  - by apply (ancestors_not_self _ _ _ Hanc).
  - destruct (ancestors_suffix_incl _ _ _ _ Hl Hin) as (l2 & Hl2 & _ & Hlen2).
    rewrite (ancestors_functional _ _ _ _ Hl2 Hanc) in Hlen2. lia.
Qed.

(** *** Footprint of a pass *)

Lemma pass_frame_refl (this : nat) (lc : list nat) s :
  pass_frame this lc s s.
Proof. split; [done|]. split; [by apply kids_perm_eq | done]. Qed.

Lemma pass_frame_trans (this : nat) (lc : list nat) s1 s2 s3 :
  pass_frame this lc s1 s2 -> pass_frame this lc s2 s3 ->
  pass_frame this lc s1 s3.
Proof.
  intros (P1 & K1 & S1 & U1) (P2 & K2 & S2 & U2).
  assert (Hb : forall m, ~ below (nodes s1) this m -> ~ below (nodes s2) this m).
  { intros m Hnb Hb. apply Hnb. by eapply below_parents. }
  split; [congruence|]. split; [by eapply kids_perm_trans|].
  split.
  - intros m Hm. rewrite S2 by (by apply Hb). by apply S1.
  - intros m Hm Hlc. rewrite U2 by (by try apply Hb). by apply U1.
Qed.

Lemma self_frame_pass_frame {A : Type} (keep : CoreNode.t num -> A)
    (this : nat) (lc cs : list nat) s s' :
  ancestors (nodes s) this lc ->
  (forall c, c ∈ cs -> below (nodes s) this c) ->
  self_frame keep this (lc ++ cs) s s' ->
  pass_frame this lc s s'.
Proof.
  intros Hanc Hcs (P & K & S & U & T).
  assert (Hne : forall m, ~ below (nodes s) this m -> m <> this).
  { intros m Hnb ->. apply Hnb. by eapply below_self. }
  split; [done|]. split; [by apply kids_perm_eq|].
  split.
  - intros m Hm. apply S. by apply Hne.
  - intros m Hm Hlc. apply U; [by apply Hne|].
    intros Hin. apply elem_of_app in Hin as [Hin | Hin]; [done|].
    by apply Hm, Hcs.
Qed.

(** The pass of a child, seen from its parent. *)
Lemma pass_frame_child (this c : nat) (lc : list nat) s s' :
  ancestors (nodes s) this lc ->
  ancestors (nodes s) c (this :: lc) ->
  pass_frame c (this :: lc) s s' ->
  pass_frame this lc s s'
  /\ strip <$> nodes s' !! this = strip <$> nodes s !! this.
Proof.
  intros Hanc Hc (P & K & S & U).
  assert (Hnb : forall m, ~ below (nodes s) this m -> ~ below (nodes s) c m).
  { intros m Hm Hb. apply Hm. by eapply below_child. }
  split.
  - split; [done|]. split; [done|]. split.
    + intros m Hm. by apply S, Hnb.
    + intros m Hm Hlc. apply U; [by apply Hnb|].
      apply not_elem_of_cons. split; [|done].
      intros ->. apply Hm. by eapply below_self.
  - apply S. eapply ancestor_not_below; [exact Hc | by left].
Qed.

Lemma pass_frame_children_point_back (this : nat) (lc : list nat) s s' :
  pass_frame this lc s s' ->
  children_point_back (nodes s) -> children_point_back (nodes s').
Proof.
  intros (P & K & _). apply children_point_back_ext; [done|].
  intros p c. by rewrite (kids_perm_kid _ _ _ _ K).
Qed.

Lemma pass_frame_kids_NoDup (this : nat) (lc : list nat) s s' :
  pass_frame this lc s s' -> kids_NoDup (nodes s) -> kids_NoDup (nodes s').
Proof. intros (_ & K & _). by apply kids_perm_NoDup. Qed.

Lemma pass_frame_ancestors (this : nat) (lc : list nat) s s' (a : nat)
    (l : list nat) :
  pass_frame this lc s s' ->
  ancestors (nodes s) a l -> ancestors (nodes s') a l.
Proof.
  intros (P & _) Hanc. eapply ancestors_parents; [|exact Hanc]. by symmetry.
Qed.

(** *** Sorting the children *)

Lemma insertByZ_perm (c : nat * num) (l : list (nat * num)) :
  insertByZ c l ≡ₚ c :: l.
Proof.
  induction l as [|d l IH]; simpl; [done|].
  destruct (ngt _ _); [|done].
  rewrite IH. apply Permutation_swap.
Qed.

Lemma sortByZ_perm (l : list (nat * num)) : sortByZ l ≡ₚ l.
Proof.
  unfold sortByZ. induction l as [|c l IH]; simpl; [done|].
  by rewrite insertByZ_perm, IH.
Qed.

Lemma childKeys_fst s (cs : list nat) (ks : list (nat * num)) :
  childKeys s cs = Ok ks -> map fst ks = cs.
Proof.
  revert ks. induction cs as [|c cs IH]; intros ks; simpl.
  - by intros [= <-].
  - intros Hrun. apply rbind_Ok in Hrun as (cn & _ & Hrun).
    apply rbind_Ok in Hrun as (ks' & Hks & Hrun). injection Hrun as <-.
    simpl. by rewrite (IH ks').
Qed.

(** [sortChildren] permutes the children list of the node. *)
Lemma sortChildren_inv s (this : nat) s' :
  sortChildren s this = Ok s' ->
  exists nd cs', nodes s !! this = Some nd
    /\ s' = putNode s this (CoreNode.set_children cs' nd)
    /\ cs' ≡ₚ CoreNode.children nd.
Proof.
  unfold sortChildren. intros Hrun.
  apply rbind_Ok in Hrun as (nd & Hn & Hrun). apply getNode_Ok in Hn.
  apply rbind_Ok in Hrun as (ks & Hks & Hrun). injection Hrun as <-.
  exists nd. eexists. split; [done|]. split; [done|].
  rewrite sortByZ_perm. by rewrite (childKeys_fst _ _ _ Hks).
Qed.

Lemma pass_frame_putNode_this (this : nat) (lc : list nat) s nd nd' :
  nodes s !! this = Some nd ->
  ancestors (nodes s) this lc ->
  CoreNode.props nd' = CoreNode.props nd ->
  CoreNode.children nd' ≡ₚ CoreNode.children nd ->
  pass_frame this lc s (putNode s this nd').
Proof.
  intros Hn Hanc Hp Hc.
  assert (Hne : forall m, ~ below (nodes s) this m -> m <> this).
  { intros m Hnb ->. apply Hnb. by eapply below_self. }
  split; [|split; [|split]].
  - rewrite parents_putNode, Hp. apply insert_id. by apply parents_lookup.
  - intros p. unfold kids, putNode. simpl. rewrite !lookup_fmap.
    destruct (decide (this = p)) as [<-|Hd].
    + rewrite lookup_insert_eq, Hn. simpl. by constructor.
    + by rewrite lookup_insert_ne.
  - intros m Hm. unfold putNode. simpl.
    rewrite lookup_insert_ne; [done|]. by apply not_eq_sym, Hne.
  - intros m Hm _. unfold putNode. simpl.
    rewrite lookup_insert_ne; [done|]. by apply not_eq_sym, Hne.
Qed.

(** *** The visit of the children *)

Lemma forEach_update_frame
    (upd : State num -> nat -> Rect.t num -> result (State num))
    (fuel : nat) (this : nat) (lc : list nat) (cut : Z) :
  (forall s c r s',
      children_point_back (nodes s) ->
      ancestors (nodes s) c (this :: lc) ->
      upd s c r = Ok s' -> pass_frame c (this :: lc) s s') ->
  forall (count k : nat) s s',
    children_point_back (nodes s) ->
    ancestors (nodes s) this lc ->
    forEach_update upd fuel this cut count k s = Ok s' ->
    pass_frame this lc s s'
    /\ strip <$> nodes s' !! this = strip <$> nodes s !! this.
Proof.
  intros Hupd. induction count as [|count IH]; intros k s s' Hcpb Hanc Hrun;
    simpl in Hrun.
  - injection Hrun as <-. split; [apply pass_frame_refl | done].
  - apply rbind_Ok in Hrun as (n & Hn & Hrun). apply getNode_Ok in Hn.
    destruct (CoreNode.children n !! k) as [child|] eqn:Hk;
      [|by apply IH in Hrun].
    assert (Hkid : kid (nodes s) this child).
    { exists n. split; [done|]. by eapply list_elem_of_lookup_2. }
    pose proof (child_ancestors _ _ _ _ Hcpb Hanc Hkid) as Hc.
    apply rbind_Ok in Hrun as (sa & Hset & Hrun).
    (* [child.setUpdateType(childUpdateType)] *)
    assert (Fa : pass_frame this lc s sa
                 /\ strip <$> nodes sa !! this = strip <$> nodes s !! this).
    { pose proof Hset as Hfr. apply setUpdateType_frame in Hfr as [Hfr _].
      split.
      - split; [by apply strip_parents|].
        split; [by apply kids_perm_eq, strip_kids|].
        split; [intros m _; by rewrite <- !lookup_fmap, Hfr|].
        intros m Hm Hlc.
        eapply setUpdateType_footprint; [exact Hset | exact Hc|].
        intros Hin. apply elem_of_cons in Hin as [-> | Hin].
        + apply Hm. by eapply below_child, below_self.
        + apply elem_of_cons in Hin as [-> | Hin]; [|done].
          apply Hm. by eapply below_self.
      - by rewrite <- !lookup_fmap, Hfr. }
    destruct Fa as [Fa Sa].
    assert (Hcpba : children_point_back (nodes sa))
      by (by eapply pass_frame_children_point_back).
    assert (Hanca : ancestors (nodes sa) this lc)
      by (by eapply pass_frame_ancestors).
    apply rbind_Ok in Hrun as (cn & Hcn & Hrun).
    destruct (CoreNode.updateType cn =? 0)%Z.
    + destruct (IH _ _ _ Hcpba Hanca Hrun) as [Fb Sb].
      split; [by eapply pass_frame_trans | congruence].
    + apply rbind_Ok in Hrun as (n' & Hn' & Hrun).
      apply rbind_Ok in Hrun as (sb & Hb & Hrun).
      apply Hupd in Hb; [|done|by eapply pass_frame_ancestors].
      destruct (pass_frame_child this child lc sa sb) as [Fb Sb];
        [done | by eapply pass_frame_ancestors | done |].
      assert (Hcpbb : children_point_back (nodes sb))
        by (by eapply pass_frame_children_point_back).
      assert (Hancb : ancestors (nodes sb) this lc)
        by (by eapply pass_frame_ancestors).
      destruct (IH _ _ _ Hcpbb Hancb Hrun) as [Fc Sc].
      split; [|congruence].
      eapply pass_frame_trans; [exact Fa|].
      eapply pass_frame_trans; [exact Fb | exact Fc].
Qed.

(** *** The whole pass *)

(** [update] after the steps on the node itself: the children, the sort
    and the reset keep the transforms of the node. *)
Lemma update_tail (fuel : nat) (delta : num) s (this : nat)
    (r : Rect.t num) s' (lc : list nat) :
  (forall s c r s' lc',
      children_point_back (nodes s) -> ancestors (nodes s) c lc' ->
      update stage fuel s c delta r = Ok s' -> pass_frame c lc' s s') ->
  children_point_back (nodes s) ->
  ancestors (nodes s) this lc ->
  update stage (S fuel) s this delta r = Ok s' ->
  exists s1 cut,
    updateSelf stage fuel s this r = Ok (s1, cut)
    /\ pass_frame this lc s1 s'
    /\ forall nd1, nodes s1 !! this = Some nd1 ->
         exists nd', nodes s' !! this = Some nd'
           /\ keepPost nd' = keepPost nd1
           /\ CoreNode.props nd' = CoreNode.props nd1
           /\ CoreNode.updateType nd' = UpdateType.None.
Proof.
  intros IH Hcpb Hanc Hrun. simpl in Hrun.
  assert (exists nd, nodes s !! this = Some nd) as [nd Hn]
    by (inversion Hanc; eauto).
  apply rbind_Ok in Hrun as ([s1 cut] & Hself & Hrun). simpl in Hrun.
  exists s1, cut. split; [done|].
  destruct (updateSelf_spec _ _ _ _ _ _ _ _ Hcpb Hn Hanc Hself) as [F1 _].
  assert (Hcpb1 : children_point_back (nodes s1))
    by (by eapply self_frame_children_point_back).
  assert (Hanc1 : ancestors (nodes s1) this lc)
    by (by eapply self_frame_ancestors).
  apply rbind_Ok in Hrun as (n1' & Hn1 & Hrun). apply getNode_Ok in Hn1.
  apply rbind_Ok in Hrun as (s2 & H2 & Hrun).
  (* the children *)
  assert (F2 : pass_frame this lc s1 s2
               /\ strip <$> nodes s2 !! this = strip <$> nodes s1 !! this).
  { destruct (_ && _).
    - eapply forEach_update_frame; [|done|done|exact H2].
      intros sx c rx sx' Hcx Hax Hux. exact (IH _ _ _ _ _ Hcx Hax Hux).
    - injection H2 as <-. split; [apply pass_frame_refl | done]. }
  destruct F2 as [F2 S2].
  assert (Hanc2 : ancestors (nodes s2) this lc)
    by (by eapply pass_frame_ancestors).
  apply rbind_Ok in Hrun as (n2' & Hn2 & Hrun). apply getNode_Ok in Hn2.
  assert (E2 : strip n2' = strip n1').
  { rewrite Hn2, Hn1 in S2. simpl in S2. by apply (inj Some) in S2. }
  apply rbind_Ok in Hrun as (s3 & H3 & Hrun).
  (* the sort *)
  assert (F3 : pass_frame this lc s2 s3
               /\ exists n3', nodes s3 !! this = Some n3'
                    /\ keepPost n3' = keepPost n2'
                    /\ CoreNode.props n3' = CoreNode.props n2').
  { destruct (hasFlag (CoreNode.updateType n2')
                UpdateType.ZIndexSortedChildren).
    - apply sortChildren_inv in H3 as (x & cs' & Hx & -> & Hperm).
      assert (x = n2') as -> by congruence. split.
      + by apply (pass_frame_putNode_this _ _ _ n2').
      + eexists. unfold putNode. simpl. rewrite lookup_insert_eq. done.
    - injection H3 as <-. split; [apply pass_frame_refl | eauto]. }
  destruct F3 as (F3 & n3' & Hn3 & Hk3 & Hp3).
  assert (Hanc3 : ancestors (nodes s3) this lc)
    by (by eapply pass_frame_ancestors).
  (* the reset *)
  unfold modifyNode in Hrun. rewrite (getNode_lookup _ _ _ Hn3) in Hrun.
  simpl in Hrun. injection Hrun as <-.
  split.
  - eapply pass_frame_trans; [exact F2|].
    eapply pass_frame_trans; [exact F3|].
    by apply (pass_frame_putNode_this _ _ _ n3').
  - intros nd1 Hnd1. assert (nd1 = n1') as -> by congruence.
    eexists. unfold putNode. simpl. rewrite lookup_insert_eq.
    split; [done|]. split; [|split; [|done]].
    + change (keepPost n3' = keepPost n1').
      rewrite Hk3. by apply keepPost_strip.
    + change (CoreNode.props n3' = CoreNode.props n1'). rewrite Hp3.
      pose proof (shape_strip _ _ E2) as Sh. unfold shape in Sh.
      by injection Sh as Sp _.
Qed.

(** The footprint of [update]: the subtree of the node, and the flags of
    its ancestors. *)
Lemma update_frame (delta : num) (fuel : nat) :
  forall s (this : nat) (r : Rect.t num) s' (lc : list nat),
    children_point_back (nodes s) ->
    ancestors (nodes s) this lc ->
    update stage fuel s this delta r = Ok s' ->
    pass_frame this lc s s'.
Proof.
  induction fuel as [|fuel IH]; intros s this r s' lc Hcpb Hanc Hrun;
    [discriminate|].
  assert (exists nd, nodes s !! this = Some nd) as [nd Hn]
    by (inversion Hanc; eauto).
  destruct (update_tail fuel delta s this r s' lc IH Hcpb Hanc Hrun)
    as (s1 & cut & Hself & F & _).
  destruct (updateSelf_spec _ _ _ _ _ _ _ _ Hcpb Hn Hanc Hself) as [F1 _].
  eapply pass_frame_trans; [|exact F].
  eapply self_frame_pass_frame; [done| |exact F1].
  intros c Hc. exists (this :: lc). split; [|right; by left].
  apply child_ancestors; [done | done |]. by exists nd.
Qed.

(** *** The nodes visited by a pass *)

(** [update_log] computes the state of [update]. *)
Lemma forEach_update_log_state
    (updlog : State num -> nat -> Rect.t num -> result (State num * list nat))
    (upd : State num -> nat -> Rect.t num -> result (State num))
    (fuel : nat) (this : nat) (cut : Z) :
  (forall s c r, (let! '(s', _) := updlog s c r in Ok s') = upd s c r) ->
  forall (count k : nat) s,
    (let! '(s', _) := forEach_update_log updlog fuel this cut count k s in
     Ok s')
    = forEach_update upd fuel this cut count k s.
Proof.
  intros Hupd. induction count as [|count IH]; intros k s; simpl; [done|].
  destruct (getNode s this) as [n| |]; simpl; try done.
  destruct (CoreNode.children n !! k) as [child|]; [|apply IH].
  destruct (setUpdateType fuel s child cut) as [sa| |]; simpl; try done.
  destruct (getNode sa child) as [cn| |]; simpl; try done.
  destruct (CoreNode.updateType cn =? 0)%Z; [apply IH|].
  destruct (getNode sa this) as [n'| |]; simpl; try done.
  rewrite <- Hupd.
  destruct (updlog sa child (CoreNode.clippingRect n')) as [[sb vs]| |];
    simpl; try done.
  rewrite <- IH.
  by destruct (forEach_update_log updlog fuel this cut count (S k) sb)
    as [[sc vs']| |].
Qed.

Lemma update_log_state (delta : num) (fuel : nat) :
  forall s (this : nat) (r : Rect.t num),
    (let! '(s', _) := update_log stage fuel s this delta r in Ok s')
    = update stage fuel s this delta r.
Proof.
  induction fuel as [|fuel IH]; intros s this r; simpl; [done|].
  destruct (updateSelf stage fuel s this r) as [[s1 cut]| |]; simpl; try done.
  destruct (getNode s1 this) as [n1| |]; simpl; try done.
  match goal with
  | |- context [rbind (rbind ?m _) _] =>
      assert (Hloop : (let! '(s', _) := m in Ok s')
                      = (if hasFlag (CoreNode.updateType n1) UpdateType.Children
                            && negb (Nat.eqb (List.length (CoreNode.children n1)) 0)
                            && negb (Props.rtt (CoreNode.props n1))
                         then
                           forEach_update
                             (fun s child r => update stage fuel s child delta r)
                             fuel this cut
                             (List.length (CoreNode.children n1)) O s1
                         else Ok s1));
      [|rewrite <- Hloop; destruct m as [[s2 vs]| |]; simpl; try done]
  end.
  { destruct (_ && _); [|done].
    apply forEach_update_log_state. intros sx c rx. apply IH. }
  destruct (getNode s2 this) as [n2| |]; simpl; try done.
  destruct (if hasFlag (CoreNode.updateType n2) UpdateType.ZIndexSortedChildren
            then sortChildren s2 this else Ok s2) as [s3| |]; simpl; try done.
  by destruct (modifyNode s3 this (CoreNode.set_updateType 0%Z)) as [s4| |].
Qed.

Lemma update_log_Ok (delta : num) (fuel : nat) s (this : nat)
    (r : Rect.t num) s' (vs : list nat) :
  update_log stage fuel s this delta r = Ok (s', vs) ->
  update stage fuel s this delta r = Ok s'.
Proof. intros E. by rewrite <- update_log_state, E. Qed.

Lemma update_Ok_log (delta : num) (fuel : nat) s (this : nat)
    (r : Rect.t num) s' :
  update stage fuel s this delta r = Ok s' ->
  exists vs, update_log stage fuel s this delta r = Ok (s', vs).
Proof.
  rewrite <- update_log_state.
  destruct (update_log stage fuel s this delta r) as [[s2 vs]| |];
    simpl; intros E; try discriminate.
  injection E as <-. by exists vs.
Qed.

(** Two nodes with the same chain of ancestors have disjoint subtrees. *)
Lemma chain_unique h (m : nat) (l : list nat) (c c' : nat) (l0 : list nat) :
  ancestors h m l -> c ∈ m :: l -> c' ∈ m :: l ->
  ancestors h c l0 -> ancestors h c' l0 -> c = c'.
Proof.
  intros Hanc. revert c c'.
  assert (Hlt : forall a b la, ancestors h a la -> b ∈ la ->
                  ancestors h a l0 -> ancestors h b l0 -> False).
  { intros a b la Ha Hb Ha0 Hb0.
    destruct (ancestors_suffix_incl _ _ _ _ Ha Hb) as (l' & Hl' & _ & Hlen).
    rewrite (ancestors_functional _ _ _ _ Hl' Hb0) in Hlen.
    rewrite (ancestors_functional _ _ _ _ Ha Ha0) in Hlen. lia. }
  induction Hanc as [n nd Hn Hp | n p nd l Hn Hp Hl IH]; intros c c' Hc Hc' H0 H0'.
  - apply list_elem_of_singleton in Hc, Hc'. congruence.
  - assert (Hn' : ancestors h n (p :: l)) by (by eapply ancestors_step).
    apply elem_of_cons in Hc as [-> | Hc], Hc' as [-> | Hc']; [done| | |by apply IH].
    + destruct (Hlt n c' (p :: l) Hn' Hc' H0 H0').
    + destruct (Hlt n c (p :: l) Hn' Hc H0' H0).
Qed.

Lemma below_disjoint h (c c' m : nat) (l0 : list nat) :
  ancestors h c l0 -> ancestors h c' l0 ->
  below h c m -> below h c' m -> c = c'.
Proof.
  intros H0 H0' (l & Hl & Hc) (l' & Hl' & Hc').
  rewrite (ancestors_functional _ _ _ _ Hl' Hl) in Hc'.
  exact (chain_unique h m l c c' l0 Hl Hc Hc' H0 H0').
Qed.

Lemma elem_of_drop_S (k : nat) (cs : list nat) (c : nat) :
  c ∈ drop (S k) cs -> c ∈ drop k cs.
Proof.
  rewrite !list_elem_of_lookup. intros [i Hi]. exists (S i).
  rewrite lookup_drop in Hi |- *. by replace (k + S i)%nat with (S k + i)%nat by lia.
Qed.

Lemma elem_of_drop (k : nat) (cs : list nat) (c : nat) :
  c ∈ drop k cs -> c ∈ cs.
Proof.
  rewrite !list_elem_of_lookup. intros [i Hi]. exists (k + i)%nat.
  by rewrite lookup_drop in Hi.
Qed.

Lemma NoDup_lookup_drop (k : nat) (cs : list nat) (c : nat) :
  NoDup cs -> cs !! k = Some c -> c ∉ drop (S k) cs.
Proof.
  intros Hnd Hk. rewrite <- (take_drop_middle _ _ _ Hk) in Hnd.
  apply NoDup_app in Hnd as (_ & _ & Hnd). by apply NoDup_cons in Hnd as [? _].
Qed.

(** The visit of the children: the nodes visited are left with no flag
    pending, they lie below the children from index [k] on, and the
    subtrees of the earlier children are not touched. *)
Lemma forEach_update_log_clean
    (updlog : State num -> nat -> Rect.t num -> result (State num * list nat))
    (fuel : nat) (this : nat) (lc : list nat) (cut : Z) (cs : list nat) :
  (forall s c r s' vs,
      children_point_back (nodes s) ->
      ancestors (nodes s) c (this :: lc) ->
      updlog s c r = Ok (s', vs) -> pass_frame c (this :: lc) s s') ->
  (forall s c r s' vs,
      children_point_back (nodes s) -> kids_NoDup (nodes s) ->
      ancestors (nodes s) c (this :: lc) ->
      updlog s c r = Ok (s', vs) ->
      forall m, m ∈ vs ->
        updateTypeOf s' m = Some UpdateType.None /\ below (nodes s) c m) ->
  forall (count k : nat) s s' vs,
    children_point_back (nodes s) -> kids_NoDup (nodes s) ->
    ancestors (nodes s) this lc ->
    kids (nodes s) !! this = Some cs ->
    forEach_update_log updlog fuel this cut count k s = Ok (s', vs) ->
    (forall m, m ∈ vs ->
       updateTypeOf s' m = Some UpdateType.None
       /\ exists c, c ∈ drop k cs /\ below (nodes s) c m)
    /\ (forall m, m ∉ this :: lc ->
          (forall c, c ∈ drop k cs -> ~ below (nodes s) c m) ->
          nodes s' !! m = nodes s !! m).
Proof.
  intros Hfr Hcl.
  induction count as [|count IH]; intros k s s' vs Hcpb Hnd Hanc Hcs Hrun;
    simpl in Hrun.
  - injection Hrun as <- <-. split; [|done].
    intros m Hm. by apply elem_of_nil in Hm.
  - apply rbind_Ok in Hrun as (n & Hn & Hrun). apply getNode_Ok in Hn.
    assert (CoreNode.children n = cs) as Hcsn.
    { rewrite (kids_lookup _ _ _ Hn) in Hcs. by injection Hcs. }
    rewrite Hcsn in Hrun.
    destruct (cs !! k) as [child|] eqn:Hk.
    2:{ destruct (IH _ _ _ _ Hcpb Hnd Hanc Hcs Hrun) as [Hv Hu]. split.
        - intros m Hm. destruct (Hv m Hm) as (Hz & c & Hc & Hb).
          split; [done|]. exists c. split; [by apply elem_of_drop_S | done].
        - intros m Hm Hnb. apply Hu; [done|].
          intros c Hc. by apply Hnb, elem_of_drop_S. }
    assert (Hin : child ∈ drop k cs).
    { rewrite (drop_S _ _ _ Hk). by left. }
    assert (Hkid : kid (nodes s) this child).
    { exists n. split; [done|]. rewrite Hcsn. by eapply list_elem_of_lookup_2. }
    pose proof (child_ancestors _ _ _ _ Hcpb Hanc Hkid) as Hc.
    apply rbind_Ok in Hrun as (sa & Hset & Hrun).
    (* [child.setUpdateType(childUpdateType)] *)
    pose proof Hset as Hsa. apply setUpdateType_frame in Hsa as [Hsa _].
    pose proof (strip_parents _ _ Hsa) as Pa.
    pose proof (strip_kids _ _ Hsa) as Ka.
    pose proof (setUpdateType_footprint _ _ _ _ _ _ Hset Hc) as Ua.
    assert (Hcpba : children_point_back (nodes sa)).
    { eapply children_point_back_ext; [exact Pa| |exact Hcpb].
      intros p c. rewrite !kid_kids. by rewrite Ka. }
    assert (Hnda : kids_NoDup (nodes sa)).
    { eapply kids_perm_NoDup; [|exact Hnd]. by apply kids_perm_eq. }
    assert (Hanca : forall a l, ancestors (nodes s) a l -> ancestors (nodes sa) a l).
    { intros a l. by apply ancestors_parents. }
    assert (Hcsa : kids (nodes sa) !! this = Some cs) by (by rewrite Ka).
    assert (Hbel : forall c m, below (nodes sa) c m -> below (nodes s) c m).
    { intros c m. by apply below_parents. }
    assert (Hchild : forall m, (forall c, c ∈ drop k cs -> ~ below (nodes s) c m) ->
                       m <> child).
    { intros m Hnb ->. apply (Hnb child Hin). by eapply below_self. }
    apply rbind_Ok in Hrun as (cn & Hcn & Hrun).
    destruct (CoreNode.updateType cn =? 0)%Z.
    + destruct (IH _ _ _ _ Hcpba Hnda (Hanca _ _ Hanc) Hcsa Hrun) as [Hv Hu].
      split.
      * intros m Hm. destruct (Hv m Hm) as (Hz & c & Hcd & Hb).
        split; [done|]. exists c. split; [by apply elem_of_drop_S | by apply Hbel].
      * intros m Hm Hnb. rewrite Hu; [|done|].
        -- apply Ua. apply not_elem_of_cons. split; [by apply Hchild | done].
        -- intros c Hcd Hb. by apply (Hnb c), Hbel; [apply elem_of_drop_S|].
    + apply rbind_Ok in Hrun as (n' & Hn' & Hrun).
      apply rbind_Ok in Hrun as ([sb vs1] & Hb & Hrun). simpl in Hrun.
      apply rbind_Ok in Hrun as ([sc vs2] & Hrest & Hrun). simpl in Hrun.
      injection Hrun as <- <-.
      pose proof (Hfr _ _ _ _ _ Hcpba (Hanca _ _ Hc) Hb) as Fb.
      pose proof (Hcl _ _ _ _ _ Hcpba Hnda (Hanca _ _ Hc) Hb) as Hv1.
      destruct (pass_frame_child this child lc sa sb) as [Fb' Sb];
        [by apply Hanca | by apply Hanca | done |].
      assert (Hcpbb : children_point_back (nodes sb))
        by (by eapply pass_frame_children_point_back).
      assert (Hndb : kids_NoDup (nodes sb))
        by (by eapply pass_frame_kids_NoDup).
      assert (Hancb : ancestors (nodes sb) this lc)
        by (eapply pass_frame_ancestors; [exact Fb | by apply Hanca]).
      assert (Hcsb : kids (nodes sb) !! this = Some cs).
      { apply kids_lookup_inv in Hcsa as (na & Hna & <-).
        rewrite Hna in Sb. destruct (nodes sb !! this) as [nb|] eqn:Hnb;
          [|discriminate].
        simpl in Sb. apply (inj Some) in Sb.
        rewrite (kids_lookup _ _ _ Hnb). f_equal.
        pose proof (shape_strip _ _ Sb) as Sh. unfold shape in Sh.
        by injection Sh as _ Sc. }
      assert (Pb : parents (nodes sb) = parents (nodes sa)) by (by destruct Fb).
      assert (Hbelb : forall c m, below (nodes sb) c m -> below (nodes sa) c m).
      { intros c m. by apply below_parents. }
      destruct (IH _ _ _ _ Hcpbb Hndb Hancb Hcsb Hrest) as [Hv Hu].
      split.
      * intros m Hm. apply elem_of_app in Hm as [Hm | Hm].
        -- destruct (Hv1 m Hm) as [Hz Hbm]. split.
           ++ unfold updateTypeOf in *. rewrite Hu; [done| |].
              ** intros Hlc. revert Hbm.
                 eapply ancestor_not_below; [by apply Hanca | done].
              ** intros c Hcd Hbc. apply Hbelb in Hbc.
                 assert (c = child) as ->.
                 { eapply below_disjoint; [| |exact Hbc|exact Hbm].
                   - apply Hanca.
                     apply (child_ancestors _ this c lc Hcpb Hanc).
                     exists n. split; [done|]. rewrite Hcsn.
                     by apply elem_of_drop in Hcd.
                   - by apply Hanca. }
                 revert Hcd. apply NoDup_lookup_drop; [|done].
                 rewrite <- Hcsn. by eapply Hnd.
           ++ exists child. split; [done | by apply Hbel].
        -- destruct (Hv m Hm) as (Hz & c & Hcd & Hbc).
           split; [done|]. exists c.
           split; [by apply elem_of_drop_S | by apply Hbel, Hbelb].
      * intros m Hm Hnb. rewrite Hu; [|done|].
        -- destruct Fb as (_ & _ & _ & Ub). rewrite Ub; [|  |done].
           ++ apply Ua. apply not_elem_of_cons. split; [by apply Hchild | done].
           ++ intros Hbc. by apply (Hnb child), Hbel.
        -- intros c Hcd Hbc. by apply (Hnb c), Hbel, Hbelb; [apply elem_of_drop_S|].
Qed.

(** Every node visited by a pass lies in the subtree of the node and is
    left with no flag pending. *)
Lemma update_log_clean (delta : num) (fuel : nat) :
  forall s (this : nat) (r : Rect.t num) s' (vs lc : list nat),
    children_point_back (nodes s) -> kids_NoDup (nodes s) ->
    ancestors (nodes s) this lc ->
    update_log stage fuel s this delta r = Ok (s', vs) ->
    forall m, m ∈ vs ->
      updateTypeOf s' m = Some UpdateType.None /\ below (nodes s) this m.
Proof.
  induction fuel as [|fuel IH]; intros s this r s' vs lc Hcpb Hnd Hanc Hrun;
    [discriminate|].
  assert (exists nd, nodes s !! this = Some nd) as [nd Hn]
    by (inversion Hanc; eauto).
  simpl in Hrun.
  apply rbind_Ok in Hrun as ([s1 cut] & Hself & Hrun). simpl in Hrun.
  destruct (updateSelf_spec _ _ _ _ _ _ _ _ Hcpb Hn Hanc Hself) as [F1 _].
  assert (Hcpb1 : children_point_back (nodes s1))
    by (by eapply self_frame_children_point_back).
  assert (Hanc1 : ancestors (nodes s1) this lc)
    by (by eapply self_frame_ancestors).
  assert (Hnd1 : kids_NoDup (nodes s1)).
  { eapply kids_perm_NoDup; [|exact Hnd]. apply kids_perm_eq. by destruct F1 as (_ & K & _). }
  assert (P1 : parents (nodes s1) = parents (nodes s)) by (by destruct F1).
  apply rbind_Ok in Hrun as (n1 & Hn1 & Hrun). apply getNode_Ok in Hn1.
  apply rbind_Ok in Hrun as ([s2 vs2] & H2 & Hrun). simpl in Hrun.
  apply rbind_Ok in Hrun as (n2 & Hn2 & Hrun). apply getNode_Ok in Hn2.
  apply rbind_Ok in Hrun as (s3 & H3 & Hrun).
  apply rbind_Ok in Hrun as (s4 & H4 & Hrun). injection Hrun as <- <-.
  assert (E3 : forall m, m <> this -> nodes s3 !! m = nodes s2 !! m).
  { intros m Hm.
    destruct (hasFlag (CoreNode.updateType n2) UpdateType.ZIndexSortedChildren).
    - apply sortChildren_inv in H3 as (x & cs' & _ & -> & _).
      unfold putNode. simpl. by rewrite lookup_insert_ne.
    - by injection H3 as <-. }
  unfold modifyNode in H4. apply rbind_Ok in H4 as (n3 & Hn3 & H4).
  injection H4 as <-.
  intros m Hm. apply elem_of_cons in Hm as [-> | Hm].
  - split; [|by eapply below_self].
    unfold updateTypeOf, putNode. simpl. by rewrite lookup_insert_eq.
  - destruct (hasFlag (CoreNode.updateType n1) UpdateType.Children
              && negb (Nat.eqb (List.length (CoreNode.children n1)) 0)
              && negb (Props.rtt (CoreNode.props n1)));
      [|injection H2 as <- <-; by apply elem_of_nil in Hm].
    destruct (forEach_update_log_clean _ fuel this lc cut
                (CoreNode.children n1)
                (fun sx c rx sx' vx Hcx Hax Hux =>
                   update_frame delta fuel sx c rx sx' (this :: lc) Hcx Hax
                     (update_log_Ok delta fuel sx c rx sx' vx Hux))
                (fun sx c rx sx' vx Hcx Hnx Hax Hux =>
                   IH sx c rx sx' vx (this :: lc) Hcx Hnx Hax Hux)
                _ _ _ _ _ Hcpb1 Hnd1 Hanc1 (kids_lookup _ _ _ Hn1) H2)
      as [Hv _].
    destruct (Hv m Hm) as (Hz & c & Hc & Hb). rewrite drop_0 in Hc.
    assert (Hca : ancestors (nodes s1) c (this :: lc)).
    { apply (child_ancestors _ this c lc Hcpb1 Hanc1). by exists n1. }
    assert (Hne : m <> this).
    { intros ->. revert Hb. eapply ancestor_not_below; [exact Hca | by left]. }
    split.
    + unfold updateTypeOf, putNode in *. simpl.
      by rewrite lookup_insert_ne, E3.
    + eapply below_parents; [exact P1|]. by eapply below_child.
Qed.

Lemma tree_consistent_children_point_back h :
  tree_consistent h -> children_point_back h.
Proof. intros (H1 & _) p c (pn & Hp & Hc). by eapply H1. Qed.


(** *** The render-target flag is kept current *)

(** The setters that place a node below a render target leave it with
    every flag pending, [ParentRenderTexture] among them: the parent
    setter flags the node, and turning [rtt] on flags the children. *)
Lemma mask_le_lor_r (u X : Z) : mask_le X (Z.lor u X).
Proof. exists u. apply Z.lor_comm. Qed.

Lemma all_pending_rtt_flag_current s nd :
  mask_le UpdateType.All (CoreNode.updateType nd) -> rtt_flag_current s nd.
Proof.
  intros Hle pn _ _. right.
  eapply hasFlag_mask_le; [exact Hle | vm_compute; reflexivity].
Qed.

Lemma setUpdateType_pending (fuel : nat) s (this : nat) (X : Z) s' :
  setUpdateType fuel s this X = Ok s' ->
  exists nd', nodes s' !! this = Some nd'
              /\ mask_le X (CoreNode.updateType nd').
Proof.
  intros Hrun.
  assert (exists nd, nodes s !! this = Some nd) as [nd Hn].
  { destruct fuel as [|fuel]; [discriminate|]. simpl in Hrun.
    apply rbind_Ok in Hrun as (nd & Hn & _). apply getNode_Ok in Hn. eauto. }
  apply setUpdateType_grows in Hrun as [_ Hset].
  destruct (Hset nd Hn) as (nd' & Hn' & Hle). exists nd'. split; [done|].
  eapply mask_le_trans; [apply mask_le_lor_r | exact Hle].
Qed.

Lemma flags_grow_pending s s' (m : nat) nd (X : Z) :
  flags_grow s s' -> nodes s !! m = Some nd ->
  mask_le X (CoreNode.updateType nd) ->
  exists nd', nodes s' !! m = Some nd' /\ strip nd' = strip nd
              /\ mask_le X (CoreNode.updateType nd').
Proof.
  intros Hgr Hm Hle. destruct (Hgr m nd Hm) as (nd' & Hm' & E & Hle').
  exists nd'. split; [done|]. split; [done|]. by eapply mask_le_trans.
Qed.

Lemma forEach_setUpdateType_grows (fuel : nat) (X : Z) (cs : list nat) :
  forall s s', forEach_setUpdateType fuel s cs X = Ok s' -> flags_grow s s'.
Proof.
  induction cs as [|c cs IH]; intros s s' Hrun; simpl in Hrun.
  - injection Hrun as <-. apply flags_grow_refl.
  - apply rbind_Ok in Hrun as (s1 & H1 & Hrun).
    apply setUpdateType_grows in H1 as [H1 _].
    eapply flags_grow_trans; [exact H1 | by apply IH].
Qed.

Lemma forEach_setUpdateType_pending (fuel : nat) (X : Z) (cs : list nat) :
  forall s s', forEach_setUpdateType fuel s cs X = Ok s' ->
    forall c, c ∈ cs ->
      exists cn', nodes s' !! c = Some cn'
                  /\ mask_le X (CoreNode.updateType cn').
Proof.
  induction cs as [|c0 cs IH]; intros s s' Hrun c Hc; simpl in Hrun.
  - by apply elem_of_nil in Hc.
  - apply rbind_Ok in Hrun as (s1 & H1 & Hrun).
    apply elem_of_cons in Hc as [-> | Hc]; [|by eapply IH].
    apply setUpdateType_pending in H1 as (nd1 & Hn1 & Hle1).
    apply forEach_setUpdateType_grows in Hrun.
    destruct (flags_grow_pending _ _ _ _ _ Hrun Hn1 Hle1) as (cn' & ? & _ & ?).
    eauto.
Qed.

Lemma rtt_enable_children_pending (fuel : nat) s (this : nat) s' :
  rtt_enable stage fuel s this = Ok s' ->
  exists nd', nodes s' !! this = Some nd'
    /\ Props.rtt (CoreNode.props nd') = true
    /\ forall c, c ∈ CoreNode.children nd' ->
         exists cn', nodes s' !! c = Some cn'
                     /\ mask_le UpdateType.All (CoreNode.updateType cn').
Proof.
  unfold rtt_enable. intros Hrun.
  apply rbind_Ok in Hrun as (n & _ & Hrun).
  apply rbind_Ok in Hrun as (sa & _ & Hrun).
  apply rbind_Ok in Hrun as (na & _ & Hrun).
  destruct (Props.textureOptions (CoreNode.props na)) as [opts|];
    [|discriminate].
  apply rbind_Ok in Hrun as (sb & Hb & Hrun).
  apply rbind_Ok in Hrun as (nb & Hnb & Hrun). apply getNode_Ok in Hnb.
  apply rbind_Ok in Hrun as (sc & Hc & Hrun).
  assert (Hnodes : nodes s' = nodes sc).
  { injection Hrun as <-. by destruct (Stage.renderer stage). }
  rewrite Hnodes. clear Hrun Hnodes.
  apply setUpdateType_frame in Hb as [Hb _].
  apply (fmap_lookup_eq _ _ _ this) in Hb. rewrite Hnb in Hb.
  unfold putNode in Hb. simpl in Hb. rewrite lookup_insert_eq in Hb.
  simpl in Hb. apply (inj Some) in Hb.
  pose proof (forEach_setUpdateType_grows _ _ _ _ _ Hc) as Hgr.
  destruct (Hgr this nb Hnb) as (nd' & Hn' & E & _).
  pose proof (shape_strip _ _ E) as Sh. unfold shape in Sh.
  injection Sh as Sp Sc.
  pose proof (shape_strip _ _ Hb) as Shb. unfold shape in Shb.
  injection Shb as Spb _.
  exists nd'. split; [done|]. split; [by rewrite Sp, Spb|].
  intros c Hin. rewrite Sc in Hin.
  by eapply forEach_setUpdateType_pending.
Qed.

(** Turning [rtt] on leaves every child of the node with all flags
    pending. *)
Lemma set_rtt_on_children_pending (fuel : nat) s (this : nat) s' :
  set_rtt stage fuel s this true = Ok s' ->
  exists nd', nodes s' !! this = Some nd'
    /\ Props.rtt (CoreNode.props nd') = true
    /\ forall c, c ∈ CoreNode.children nd' ->
         exists cn', nodes s' !! c = Some cn'
                     /\ rtt_flag_current s' cn'.
Proof.
  unfold set_rtt. intros Hrun.
  apply rbind_Ok in Hrun as (n & _ & Hrun).
  assert (exists s0, rtt_enable stage fuel s0 this = Ok s') as [s0 Hen].
  { destruct (Props.rtt (CoreNode.props n)); simpl in Hrun; eauto. }
  destruct (rtt_enable_children_pending _ _ _ _ Hen) as (nd' & Hn' & Hr & Hch).
  exists nd'. split; [done|]. split; [done|].
  intros c Hc. destruct (Hch c Hc) as (cn' & Hcn' & Hle).
  exists cn'. split; [done | by apply all_pending_rtt_flag_current].
Qed.

(** Giving a node a new parent leaves it with all flags pending. *)
Lemma set_parent_node_pending (fuel : nat) s (this np : nat) s' nd :
  nodes s !! this = Some nd ->
  Props.parent (CoreNode.props nd) <> Some np ->
  set_parent fuel s this (Some np) = Ok s' ->
  exists nd', nodes s' !! this = Some nd' /\ rtt_flag_current s' nd'.
Proof.
  intros Hn Hne Hrun. unfold set_parent in Hrun.
  rewrite (getNode_lookup _ _ _ Hn) in Hrun. simpl in Hrun.
  apply same_ref_false in Hne. rewrite Hne in Hrun.
  apply rbind_Ok in Hrun as (s1 & _ & Hrun).
  apply rbind_Ok in Hrun as (s2 & Hatt & Hrun).
  unfold set_parent_attach in Hatt.
  apply rbind_Ok in Hatt as (nn & _ & Hatt).
  apply rbind_Ok in Hatt as (sa & Ha & Hatt).
  apply rbind_Ok in Hatt as (sb & Hb & Hatt).
  apply rbind_Ok in Hatt as (nn' & _ & Hatt).
  apply setUpdateType_pending in Ha as (na & Hna & Hla).
  apply setUpdateType_grows in Hb as [Hb _].
  destruct (flags_grow_pending _ _ _ _ _ Hb Hna Hla) as (nb & Hnb & _ & Hlb).
  assert (exists n2, nodes s2 !! this = Some n2
                     /\ mask_le UpdateType.All (CoreNode.updateType n2))
    as (n2 & Hn2 & Hl2).
  { destruct (_ || _).
    - apply setRTTUpdates_grows in Hatt.
      destruct (flags_grow_pending _ _ _ _ _ Hatt Hnb Hlb) as (n2 & ? & _ & ?).
      eauto.
    - injection Hatt as <-. eauto. }
  unfold modifyNode in Hrun. rewrite (getNode_lookup _ _ _ Hn2) in Hrun.
  simpl in Hrun. injection Hrun as <-.
  eexists. unfold putNode. simpl. rewrite lookup_insert_eq.
  split; [done|]. by apply all_pending_rtt_flag_current.
Qed.


(** C4: [update] is idempotent.  A completed call leaves the mask of the
    node at [None], and a second call made at once, whatever its
    arguments, returns the very same state: transforms, render coords,
    render bound, clipping rect, world alpha, premultiplied colours,
    calculated z-index, render state, renderability and the order of the
    children of every node are as they were, and nothing is emitted.
    The same holds of every node that the pass visited ([update_log]
    lists them, the node itself among them) when the children lists and
    the parent references of the tree agree and the node has a finite
    chain of ancestors. *)
Theorem update_idempotent (fuel : nat) (delta : num) s (this : nat)
    (r : Rect.t num) s' :
  update stage fuel s this delta r = Ok s' ->
  updateTypeOf s' this = Some UpdateType.None
  /\ (forall (fuel' : nat) (delta' : num) (r' : Rect.t num),
        (0 < fuel')%nat ->
        update stage fuel' s' this delta' r' = Ok s')
  /\ exists visited : list nat,
       update_log stage fuel s this delta r = Ok (s', visited)
       /\ this ∈ visited
       /\ forall lc : list nat,
            tree_consistent (nodes s) -> ancestors (nodes s) this lc ->
            forall m, m ∈ visited ->
              updateTypeOf s' m = Some UpdateType.None
              /\ forall (fuel' : nat) (delta' : num) (r' : Rect.t num),
                   (0 < fuel')%nat ->
                   update stage fuel' s' m delta' r' = Ok s'.
Proof.
  intros Hrun. destruct (update_resets _ _ _ _ _ _ Hrun) as (nd' & Hn' & Hu).
  split; [unfold updateTypeOf; by rewrite Hn', <- Hu|].
  split.
  { intros fuel' delta' r' Hpos. destruct fuel' as [|fuel']; [lia|].
    by eapply update_clean_noop. }
  destruct (update_Ok_log _ _ _ _ _ _ Hrun) as (visited & Hlog).
  exists visited. split; [done|]. split.
  { destruct fuel as [|fuel]; [discriminate|]. simpl in Hlog.
    apply rbind_Ok in Hlog as ([s1 cut] & _ & Hlog). simpl in Hlog.
    apply rbind_Ok in Hlog as (n1 & _ & Hlog).
    apply rbind_Ok in Hlog as ([s2 vs2] & _ & Hlog). simpl in Hlog.
    apply rbind_Ok in Hlog as (n2 & _ & Hlog).
    apply rbind_Ok in Hlog as (s3 & _ & Hlog).
    apply rbind_Ok in Hlog as (s4 & _ & Hlog). injection Hlog as _ <-.
    by left. }
  intros lc Htree Hanc m Hm.
  destruct (update_log_clean delta fuel s this r s' visited lc
              (tree_consistent_children_point_back _ Htree)
              (tree_consistent_kids_NoDup _ Htree) Hanc Hlog m Hm)
    as [Hz _].
  split; [done|].
  intros fuel' delta' r' Hpos. destruct fuel' as [|fuel']; [lia|].
  unfold updateTypeOf in Hz.
  destruct (nodes s' !! m) as [ndm|] eqn:Hndm; [|discriminate].
  simpl in Hz. injection Hz as Hz. by eapply update_clean_noop.
Qed.

End UpdatePass.

Section UpdatePassEvaluation.
Import ZInterp Scenes.

Lemma moved_scene_consistent : tree_consistent (nodes moved_scene).
Proof. apply tree_consistentb_sound. vm_compute. reflexivity. Defined.

Lemma moved_scene_ancestors : ancestors (nodes moved_scene) 2%nat [1%nat].
Proof.
  refine (ancestors_step _ 2%nat 1%nat
            (default (mkNode 0 0 0 0 None []) (nodes moved_scene !! 2%nat))
            [] _ _ _); [vm_compute; reflexivity | vm_compute; reflexivity |].
  refine (ancestors_root _ 1%nat
            (default (mkNode 0 0 0 0 None []) (nodes moved_scene !! 1%nat))
            _ _); vm_compute; reflexivity.
Defined.

Lemma moved_scene_updates :
  update stage0 10 moved_scene 2%nat 0 no_clip = Ok moved_scene_updated.
Proof. vm_compute. reflexivity. Defined.


(** The transforms after the passes: node 2 moved to x = 150 below the
    root, and node 3, visited in the same pass, follows it. *)
Example moved_scene_transforms :
  globalTransformOf updated_scene 2%nat = Some (Some (Matrix3d.mk 1 0 100 0 1 100))
  /\ globalTransformOf moved_scene_updated 2%nat
     = Some (Some (Matrix3d.mk 1 0 150 0 1 100))
  /\ globalTransformOf moved_scene_updated 3%nat
     = Some (Some (Matrix3d.mk 1 0 200 0 1 150)).
Proof. repeat split; vm_compute; reflexivity. Qed.

(** Inside a render target the global transform restarts at the
    identity: node 3 is at (50, 50), not at (150, 150). *)
Example fresh_rtt_scene_transforms :
  (let! s1 := update stage0 10 fresh_rtt_scene 1%nat 0 no_clip in
   let! s2 := update stage0 10 s1 3%nat 0 no_clip in
   Ok (globalTransformOf s2 2%nat, globalTransformOf s2 3%nat))
  = Ok (Some (Some (Matrix3d.mk 1 0 100 0 1 100)),
        Some (Some (Matrix3d.mk 1 0 50 0 1 50))).
Proof. vm_compute. reflexivity. Qed.

Lemma moved_scene_visits :
  update_log stage0 10 moved_scene 2%nat 0 no_clip
  = Ok (moved_scene_updated, [2%nat; 3%nat]).
Proof. vm_compute. reflexivity. Defined.

Lemma update_idempotent_witness :
  updateTypeOf moved_scene_updated 2%nat = Some UpdateType.None
  /\ update stage0 1 moved_scene_updated 2%nat 7 no_clip
     = Ok moved_scene_updated
  /\ updateTypeOf moved_scene_updated 3%nat = Some UpdateType.None
  /\ update stage0 1 moved_scene_updated 3%nat 7 no_clip
     = Ok moved_scene_updated.
Proof.
  destruct (update_idempotent stage0 10 0 moved_scene 2%nat no_clip
              moved_scene_updated moved_scene_updates)
    as (H1 & H2 & visited & Hlog & _ & Hvisited).
  split; [exact H1|]. split; [apply H2; lia|].
  assert (Hv : visited = [2%nat; 3%nat]).
  { rewrite moved_scene_visits in Hlog. congruence. }
  destruct (Hvisited [1%nat] moved_scene_consistent moved_scene_ancestors
              3%nat) as [H3 H4].
  { rewrite Hv. right. left. }
  split; [exact H3|]. apply H4. lia.
Defined.

End UpdatePassEvaluation.

(* ===================================================================== *)
(** * Properties                                                           *)
(* ===================================================================== *)

(* ===================================================================== *)
(** * Further properties                                                   *)
(* ===================================================================== *)

(** ** The index buffer, entry by entry *)

Section IndexBufferContents.
Import RendererUtils.

Lemma u16_store_lookup_ne (k v : Z) (l : list Z) (p : nat) :
  (k <> Z.of_nat p)%Z -> u16_store k v l !! p = l !! p.
Proof.
  intros Hne. unfold u16_store.
  destruct (Z.ltb_spec k 0); [done|].
  apply list_lookup_insert_ne. lia.
Qed.

Lemma u16_store_lookup_eq (k v : Z) (l : list Z) (p : nat) :
  k = Z.of_nat p -> (p < List.length l)%nat ->
  u16_store k v l !! p = Some (v mod 65536)%Z.
Proof.
  intros -> Hlt. unfold u16_store.
  destruct (Z.ltb_spec (Z.of_nat p) 0); [lia|].
  rewrite Nat2Z.id. by apply list_lookup_insert_eq.
Qed.

Lemma fill_quad_length (i j : Z) (l : list Z) :
  List.length (fill_quad i j l) = List.length l.
Proof. unfold fill_quad. by rewrite !u16_store_length. Qed.

Lemma fill_quad_below (i j : Z) (l : list Z) (p : nat) :
  (Z.of_nat p < i)%Z -> fill_quad i j l !! p = l !! p.
Proof.
  intros Hlt. unfold fill_quad. rewrite !u16_store_lookup_ne by lia. done.
Qed.

(** One iteration writes the two triangles of a quad, modulo 2^16. *)
Lemma fill_quad_at (t : nat) (j : Z) (l : list Z) (r : nat) :
  (6 * t + 5 < List.length l)%nat ->
  (r < 6)%nat ->
  fill_quad (6 * Z.of_nat t) j l !! (6 * t + r)%nat
  = (fun v => v mod 65536)%Z
      <$> [j; j + 1; j + 2; j + 2; j + 1; j + 3]%Z !! r.
Proof.
  intros Hlen Hr. unfold fill_quad.
  destruct r as [|[|[|[|[|[|r]]]]]]; [..|lia]; simpl;
    repeat (rewrite u16_store_lookup_ne by lia);
    (rewrite u16_store_lookup_eq;
       [done | lia | rewrite ?u16_store_length; lia]).
Qed.

(** The loop from quad [t] on: the quads [q >= t] with [6q < maxQuads]
    are written, and nothing else changes. *)
Lemma fill_loop_quads (fuel : nat) (maxQuads : Z) :
  forall (t : nat) (indices indices' : list Z),
    fill_loop fuel maxQuads (6 * Z.of_nat t) (4 * Z.of_nat t) indices
      = Ok indices' ->
    (maxQuads + 4 < Z.of_nat (List.length indices))%Z ->
    List.length indices' = List.length indices
    /\ (forall q r : nat, (t <= q)%nat -> (6 * Z.of_nat q < maxQuads)%Z ->
          (r < 6)%nat ->
          indices' !! (6 * q + r)%nat
          = (fun v => v mod 65536)%Z <$> quad_triangles q !! r)
    /\ (forall p : nat,
          (p < 6 * t)%nat
          \/ (exists q : nat, (6 * q <= p)%nat /\ (maxQuads <= 6 * Z.of_nat q)%Z) ->
          indices' !! p = indices !! p).
Proof.
  induction fuel as [|fuel IH]; intros t indices indices' Hrun Hlen;
    simpl in Hrun.
  - destruct (Z.ltb_spec (6 * Z.of_nat t) maxQuads); [discriminate|].
    injection Hrun as <-. split; [done|]. split; [|done].
    intros q r Hq Hlt. lia.
  - destruct (Z.ltb_spec (6 * Z.of_nat t) maxQuads) as [Hlt|Hge].
    2:{ injection Hrun as <-. split; [done|]. split; [|done].
        intros q r Hq Hlt. lia. }
    replace (6 * Z.of_nat t + 6)%Z with (6 * Z.of_nat (S t))%Z in Hrun by lia.
    replace (4 * Z.of_nat t + 4)%Z with (4 * Z.of_nat (S t))%Z in Hrun by lia.
    apply IH in Hrun as (Hl & Hq & Hp); [|rewrite fill_quad_length; lia].
    rewrite fill_quad_length in Hl.
    split; [done|]. split.
    + intros q r Hle Hqlt Hr.
      destruct (decide (q = t)) as [->|Hne]; [|apply Hq; [lia | done..]].
      rewrite Hp by (left; lia).
      apply fill_quad_at; [lia | done].
    + intros p [Hlow | (q & Hq1 & Hq2)].
      * rewrite Hp by (left; lia). apply fill_quad_below. lia.
      * rewrite Hp by (right; eauto). apply fill_quad_other. lia.
Qed.

Lemma take_drop_lookup (l pat : list Z) (n k : nat) :
  List.length pat = k ->
  (forall r, (r < k)%nat -> l !! (n + r)%nat = pat !! r) ->
  take k (drop n l) = pat.
Proof.
  intros Hlen Hl. apply list_eq. intros r.
  destruct (decide (r < k)%nat) as [Hr|Hr].
  - rewrite lookup_take_lt, lookup_drop by done. by apply Hl.
  - rewrite lookup_take_ge by lia. symmetry. apply lookup_ge_None. lia.
Qed.

(** X1: for a size whose quotient by 80 is not negative,
    [createIndexBuffer] returns an array of [6 * maxQuads] entries in
    which the quads [q] with [6q < maxQuads] hold the two triangles
    [(4q, 4q+1, 4q+2)] and [(4q+2, 4q+1, 4q+3)], stored modulo 2^16, and
    every other quad holds six zeros. *)
Theorem createIndexBuffer_contents (gl : WebGLContext) (size : Z) :
  (0 <= maxQuadsOf size)%Z ->
  exists indices,
    createIndexBuffer (Some gl) size = Ok indices
    /\ List.length indices = Z.to_nat (6 * maxQuadsOf size)
    /\ forall q : nat, (Z.of_nat q < maxQuadsOf size)%Z ->
         quad_indices indices q
         = if (6 * Z.of_nat q <? maxQuadsOf size)%Z
           then (fun v => v mod 65536)%Z <$> quad_triangles q
           else replicate 6 0%Z.
Proof.
  intros Hpos.
  destruct (createIndexBuffer_returns gl size) as [Hneg | [indices Hrun]];
    [lia|].
  exists indices. split; [done|].
  unfold createIndexBuffer in Hrun.
  destruct (Z.ltb_spec (maxQuadsOf size) 0) as [Hneg|_]; [lia|].
  destruct (decide (maxQuadsOf size = 0)) as [Hz|Hnz].
  { rewrite Hz in *. simpl in Hrun. injection Hrun as <-.
    split; [done|]. intros q Hq. lia. }
  destruct (fill_loop_quads _ _ 0%nat _ _ Hrun) as (Hl & Hq & Hp);
    [rewrite length_replicate; lia|].
  rewrite length_replicate in Hl.
  split; [rewrite Hl; f_equal; lia|].
  intros q Hlt. unfold quad_indices.
  destruct (Z.ltb_spec (6 * Z.of_nat q) (maxQuadsOf size)) as [Hw|Hw].
  - apply take_drop_lookup; [done|].
    intros r Hr. rewrite list_lookup_fmap. apply Hq; [lia | done..].
  - apply take_drop_lookup; [done|].
    intros r Hr. rewrite Hp by (right; exists q; lia).
    rewrite lookup_replicate_2 by lia.
    symmetry. by apply lookup_replicate_2.
Qed.

Lemma createIndexBuffer_contents_witness :
  exists indices,
    createIndexBuffer (Some {| MAX_VERTEX_TEXTURE_IMAGE_UNITS := 8 |}) 640
      = Ok indices
    /\ List.length indices = 48%nat
    /\ quad_indices indices 1 = [4; 5; 6; 6; 5; 7]%Z
    /\ quad_indices indices 2 = [0; 0; 0; 0; 0; 0]%Z.
Proof.
  destruct (createIndexBuffer_contents
              {| MAX_VERTEX_TEXTURE_IMAGE_UNITS := 8 |} 640)
    as (indices & Hrun & Hlen & Hq); [vm_compute; discriminate|].
  exists indices. split; [exact Hrun|]. split; [exact Hlen|].
  split; [apply (Hq 1%nat) | apply (Hq 2%nat)]; reflexivity.
Defined.

End IndexBufferContents.

(** ** Texture slots, for any sequence of additions *)

Section RenderOpSlots.
Import RendererUtils WebGlCoreRenderOp.

Lemma findIndex_inv (t0 : WebGlCoreCtxTexture) (ts : list WebGlCoreCtxTexture)
    (i : nat) :
  findIndex t0 ts = Some i ->
  ts !! i = Some t0 /\ forall j, (j < i)%nat -> ts !! j <> Some t0.
Proof.
  revert i. induction ts as [|a ts IH]; intros i; simpl; [done|].
  destruct (Nat.eqb_spec a t0) as [->|Hne].
  - intros [= <-]. split; [done | lia].
  - destruct (findIndex t0 ts) as [k|]; [|done]. simpl. intros [= <-].
    destruct (IH k eq_refl) as [Hk Hlt]. split; [done|].
    intros [|j] Hj; simpl; [congruence | apply Hlt; lia].
Qed.

Lemma findIndex_None_inv (t0 : WebGlCoreCtxTexture)
    (ts : list WebGlCoreCtxTexture) :
  findIndex t0 ts = None -> t0 ∉ ts.
Proof.
  induction ts as [|a ts IH]; simpl; [intros _; apply not_elem_of_nil|].
  destruct (Nat.eqb_spec a t0) as [->|Hne]; [done|].
  destruct (findIndex t0 ts); [done|]. intros _.
  apply not_elem_of_cons. split; [congruence | by apply IH].
Qed.

Lemma findIndex_snoc (t0 : WebGlCoreCtxTexture)
    (ts : list WebGlCoreCtxTexture) :
  findIndex t0 ts = None -> findIndex t0 (ts ++ [t0]) = Some (List.length ts).
Proof.
  induction ts as [|a ts IH]; simpl.
  - by rewrite Nat.eqb_refl.
  - destruct (Nat.eqb_spec a t0); [done|].
    destruct (findIndex t0 ts); [done|]. intros _. by rewrite IH.
Qed.

(** X2: the answer of [addTexture].  Either it is the sentinel
    [0xffffffff], the op is as before, the texture is not in it and the
    list is full; or it is the first slot of the op afterwards that holds
    the texture.  The textures already in the op keep their slots, and a
    second [addTexture] of the same texture gives the same answer and
    changes nothing. *)
Theorem addTexture_answer (op : t) (texture : WebGlCoreCtxTexture) :
  let r := addTexture op texture in
  addTexture (snd r) texture = r
  /\ textures op `prefix_of` textures (snd r)
  /\ ((fst r = CANNOT_BATCH /\ snd r = op /\ (texture ∉ textures op)
       /\ (maxTextures op <= Z.of_nat (List.length (textures op)))%Z)
      \/ (textures (snd r) !! Z.to_nat (fst r) = Some texture
          /\ (0 <= fst r)%Z
          /\ forall j, (j < Z.to_nat (fst r))%nat ->
               textures (snd r) !! j <> Some texture)).
Proof.
  unfold addTexture.
  destruct (findIndex texture (textures op)) as [i|] eqn:Hfind; simpl.
  - rewrite Hfind. split; [done|]. split; [done|]. right.
    destruct (findIndex_inv _ _ _ Hfind) as [Hi Hlt].
    rewrite Nat2Z.id. split; [done|]. split; [lia | done].
  - destruct (Z.geb_spec (Z.of_nat (List.length (textures op)))
                (maxTextures op)) as [Hfull|Hroom]; simpl.
    + rewrite Hfind.
      destruct (Z.geb_spec (Z.of_nat (List.length (textures op)))
                  (maxTextures op)); [|lia].
      split; [done|]. split; [done|]. left.
      split; [done|]. split; [done|].
      split; [by apply findIndex_None_inv | lia].
    + rewrite (findIndex_snoc _ _ Hfind). split; [done|].
      split; [by apply prefix_app_r|]. right.
      rewrite Nat2Z.id.
      assert (Hlast : (textures op ++ [texture]) !! List.length (textures op)
                      = Some texture)
        by (by rewrite lookup_app_r, Nat.sub_diag by lia).
      split; [done|]. split; [lia|].
      intros j Hj. rewrite lookup_app_l by done.
      intros Hin. apply list_elem_of_lookup_2 in Hin.
      by apply (findIndex_None_inv _ _ Hfind).
Qed.

Lemma addTexture_keeps (op : t) (texture : WebGlCoreCtxTexture) :
  NoDup (textures op) ->
  (Z.of_nat (List.length (textures op)) <= maxTextures op)%Z ->
  NoDup (textures (snd (addTexture op texture)))
  /\ (Z.of_nat (List.length (textures (snd (addTexture op texture))))
      <= maxTextures op)%Z
  /\ maxTextures (snd (addTexture op texture)) = maxTextures op
  /\ textures op `prefix_of` textures (snd (addTexture op texture))
  /\ (forall x, x ∈ textures (snd (addTexture op texture)) ->
        x ∈ textures op \/ x = texture)
  /\ (fst (addTexture op texture) = CANNOT_BATCH
      \/ textures (snd (addTexture op texture))
           !! Z.to_nat (fst (addTexture op texture)) = Some texture).
Proof.
  intros Hnd Hcap. unfold addTexture.
  destruct (findIndex texture (textures op)) as [i|] eqn:Hfind; simpl.
  - repeat (split; [done || by left|]). right. rewrite Nat2Z.id.
    by apply findIndex_inv.
  - destruct (Z.geb_spec (Z.of_nat (List.length (textures op)))
                (maxTextures op)) as [Hfull|Hroom]; simpl.
    + repeat (split; [done || by left|]). by left.
    + split.
      { apply NoDup_app. split; [done|]. split; [|apply NoDup_singleton].
        intros x Hx Hx'. apply list_elem_of_singleton in Hx' as ->.
        by apply (findIndex_None_inv _ _ Hfind). }
      split; [rewrite length_app; simpl; lia|]. split; [done|].
      split; [by apply prefix_app_r|]. split.
      { intros x Hx. apply elem_of_app in Hx as [Hx|Hx]; [by left|].
        apply list_elem_of_singleton in Hx. by right. }
      right. rewrite Nat2Z.id.
      by rewrite lookup_app_r, Nat.sub_diag by lia.
Qed.

(** X3: whatever textures are added, with repetitions or not, an op
    whose list is duplicate-free and within [maxTextures] stays so; the
    limit does not change, the textures already present keep their
    slots, nothing but the added textures enters the list, and every
    answer is the sentinel or a slot that holds the texture asked for. *)
Theorem addTextures_invariant (ts : list WebGlCoreCtxTexture) :
  forall op : t,
    NoDup (textures op) ->
    (Z.of_nat (List.length (textures op)) <= maxTextures op)%Z ->
    let r := addTextures op ts in
    NoDup (textures (snd r))
    /\ (Z.of_nat (List.length (textures (snd r))) <= maxTextures op)%Z
    /\ maxTextures (snd r) = maxTextures op
    /\ textures op `prefix_of` textures (snd r)
    /\ (forall x, x ∈ textures (snd r) -> x ∈ textures op \/ x ∈ ts)
    /\ Forall2
         (fun idx tx =>
            idx = CANNOT_BATCH
            \/ textures (snd r) !! Z.to_nat idx = Some tx)
         (fst r) ts.
Proof.
  induction ts as [|tx ts IH]; intros op Hnd Hcap; simpl.
  - repeat (split; [done || by left|]). constructor.
  - destruct (addTexture_keeps op tx Hnd Hcap)
      as (Hnd1 & Hcap1 & Hmax1 & Hpre1 & Hin1 & Hans1).
    destruct (addTexture op tx) as [idx op1] eqn:Hadd. simpl in *.
    rewrite <- Hmax1 in Hcap1.
    specialize (IH op1 Hnd1 Hcap1). simpl in IH.
    destruct (addTextures op1 ts) as [idxs op2] eqn:Hrest. simpl in *.
    destruct IH as (Hnd2 & Hcap2 & Hmax2 & Hpre2 & Hin2 & Hans2).
    split; [done|]. split; [lia|]. split; [congruence|].
    split; [by etrans|]. split.
    { intros x Hx. destruct (Hin2 x Hx) as [Hx1|Hx1]; [|right; by right].
      destruct (Hin1 x Hx1) as [?| ->]; [by left | right; by left]. }
    constructor; [|done].
    destruct Hans1 as [?|Hslot]; [by left|]. right.
    destruct Hpre2 as [k ->]. by apply lookup_app_l_Some.
Qed.

Lemma addTextures_invariant_witness :
  let gl := {| MAX_VERTEX_TEXTURE_IMAGE_UNITS := 2 |} in
  let r := addTextures (new gl true) [10; 20; 10; 30; 20]%nat in
  NoDup (textures (snd r))
  /\ (Z.of_nat (List.length (textures (snd r))) <= 2)%Z
  /\ fst r = [0; 1; 0; CANNOT_BATCH; 1]%Z.
Proof.
  intros gl r.
  destruct (addTextures_invariant [10; 20; 10; 30; 20]%nat (new gl true))
    as (Hnd & Hcap & _); [apply NoDup_nil_2 | simpl; lia |].
  split; [exact Hnd|]. split; [exact Hcap | reflexivity].
Defined.

End RenderOpSlots.

(** ** The property setters *)

Section Setters.
Context {num : Type} `{L : Lib num}.
Local Open Scope js_scope.
Implicit Types s : State num.
Implicit Types nd : CoreNode.t num.
Implicit Types h : gmap nat (CoreNode.t num).

Lemma chain_of_sound (fuel : nat) h (n : nat) (l : list nat) :
  chain_of fuel h n = Some l -> ancestors h n l.
Proof.
  revert n l. induction fuel as [|fuel IH]; intros n l; simpl; [done|].
  destruct (h !! n) as [nd|] eqn:Hn; [|done].
  destruct (Props.parent (CoreNode.props nd)) as [p|] eqn:Hp.
  - destruct (chain_of fuel h p) as [l'|] eqn:Hl; [|done].
    simpl. intros [= <-]. eapply ancestors_step; eauto.
  - intros [= <-]. by eapply ancestors_root.
Qed.

Lemma assigned_parents (this : nat) (p' : Props.t num) (X : Z) s s' nd :
  assigned this p' X s s' ->
  nodes s !! this = Some nd ->
  Props.parent p' = Props.parent (CoreNode.props nd) ->
  parents (nodes s') = parents (nodes s).
Proof.
  intros (_ & Hoth & nd0 & nd' & Hn0 & Hn' & Hs & _) Hn Hp.
  assert (nd0 = nd) as -> by congruence.
  apply map_eq. intros m. unfold parents. rewrite !lookup_fmap.
  destruct (decide (m = this)) as [->|Hne].
  - rewrite Hn, Hn'. simpl. f_equal.
    rewrite (strip_parent _ _ Hs). simpl. done.
  - specialize (Hoth m Hne).
    destruct (nodes s' !! m) as [a|], (nodes s !! m) as [b|];
      simpl in *; try done.
    apply (inj Some) in Hoth. f_equal. by apply strip_parent.
Qed.

Lemma assigned_ancestors (this : nat) (p' : Props.t num) (X : Z) s s' nd
    (a : nat) (l : list nat) :
  assigned this p' X s s' ->
  nodes s !! this = Some nd ->
  Props.parent p' = Props.parent (CoreNode.props nd) ->
  ancestors (nodes s) a l -> ancestors (nodes s') a l.
Proof.
  intros Ha Hn Hp. apply ancestors_parents. symmetry.
  by eapply assigned_parents.
Qed.

(** A store of the props followed by [setUpdateType]. *)
Lemma put_setUpdateType_assigned (fuel : nat) s (this : nat) nd
    (p' : Props.t num) (X : Z) (l : list nat) :
  nodes s !! this = Some nd ->
  Props.parent p' = Props.parent (CoreNode.props nd) ->
  ancestors (nodes s) this l ->
  (List.length l + 2 <= fuel)%nat ->
  exists s',
    setUpdateType fuel (putNode s this (CoreNode.set_props p' nd)) this X
      = Ok s'
    /\ assigned this p' X s s'.
Proof.
  intros Hn Hp Hanc Hfuel.
  set (s0 := putNode s this (CoreNode.set_props p' nd)).
  assert (Hanc0 : ancestors (nodes s0) this l).
  { eapply ancestors_parents; [|exact Hanc]. unfold s0.
    rewrite parents_putNode. simpl. rewrite Hp. symmetry.
    apply insert_id. by apply parents_lookup. }
  destruct (setUpdateType_chain l fuel s0 this X Hanc0 Hfuel)
    as (s' & Hrun & Hfr & Htr & Hut & _).
  exists s'. split; [exact Hrun|].
  split; [by rewrite Htr|]. split.
  - intros m Hne. rewrite (fmap_lookup_eq _ _ _ m Hfr). unfold s0, putNode.
    simpl. by rewrite lookup_insert_ne.
  - assert (Hn0 : nodes s0 !! this = Some (CoreNode.set_props p' nd))
      by (unfold s0, putNode; simpl; by rewrite lookup_insert_eq).
    destruct (strip_lookup_Some _ _ this _ (eq_sym Hfr) Hn0)
      as (nd' & Hn' & Hs).
    exists nd, nd'. split; [done|]. split; [done|]. split; [done|].
    unfold updateTypeOf in Hut. rewrite Hn', Hn0 in Hut. simpl in Hut.
    by injection Hut.
Qed.

Lemma set_stored_assigned {A : Type} (set : A -> Props.t num -> Props.t num)
    (X : Z) (fuel : nat) s (this : nat) (value : A) nd (l : list nat) :
  Props.parent (set value (CoreNode.props nd))
    = Props.parent (CoreNode.props nd) ->
  nodes s !! this = Some nd ->
  ancestors (nodes s) this l ->
  (List.length l + 2 <= fuel)%nat ->
  exists s',
    set_stored set X fuel s this value = Ok s'
    /\ assigned this (set value (CoreNode.props nd)) X s s'.
Proof.
  intros Hp Hn Hanc Hfuel. unfold set_stored.
  rewrite (getNode_lookup _ _ _ Hn). simpl.
  by eapply put_setUpdateType_assigned.
Qed.

(** Two assignments in a row. *)
Lemma assigned_trans (this : nat) (p1 p2 : Props.t num) (X Y : Z) s s1 s2 :
  assigned this p1 X s s1 -> assigned this p2 Y s1 s2 ->
  assigned this p2 (Z.lor X Y) s s2.
Proof.
  intros (T1 & O1 & nd & nd1 & Hn & Hn1 & S1 & U1)
         (T2 & O2 & nd1' & nd2 & Hn1' & Hn2 & S2 & U2).
  assert (nd1' = nd1) as -> by congruence.
  split; [congruence|]. split.
  - intros m Hne. rewrite O2, O1 by done. done.
  - exists nd, nd2. split; [done|]. split; [done|]. split.
    + rewrite S2.
      change (strip (CoreNode.set_props p2 nd1))
        with (CoreNode.set_props p2 (strip nd1)).
      rewrite S1. reflexivity.
    + rewrite U2, U1. by rewrite Z.lor_assoc.
Qed.

Lemma assigned_this (this : nat) (p' : Props.t num) (X : Z) s s' nd :
  assigned this p' X s s' ->
  nodes s !! this = Some nd ->
  exists nd', nodes s' !! this = Some nd'
    /\ CoreNode.props nd' = p'
    /\ CoreNode.children nd' = CoreNode.children nd
    /\ strip nd' = strip (CoreNode.set_props p' nd)
    /\ CoreNode.updateType nd' = Z.lor (CoreNode.updateType nd) X.
Proof.
  intros (_ & _ & nd0 & nd' & Hn0 & Hn' & Hs & Hu) Hn.
  assert (nd0 = nd) as -> by congruence.
  exists nd'. split; [done|].
  pose proof (shape_strip _ _ Hs) as Sh. unfold shape in Sh. simpl in Sh.
  injection Sh as Sp Sc. done.
Qed.

Lemma set_props_id nd : CoreNode.set_props (CoreNode.props nd) nd = nd.
Proof. by destruct nd. Qed.

Lemma assigned_refl (this : nat) s nd :
  nodes s !! this = Some nd ->
  assigned this (CoreNode.props nd) 0 s s.
Proof.
  intros Hn. split; [done|]. split; [done|].
  exists nd, nd. rewrite set_props_id, Z.lor_0_r. done.
Qed.

Lemma reached_start (this : nat) (l : list nat) (fuel : nat) s nd :
  nodes s !! this = Some nd ->
  ancestors (nodes s) this l ->
  (List.length l + 2 <= fuel)%nat ->
  reached this l fuel s nd (CoreNode.props nd) 0 s.
Proof. intros Hn Hanc Hfuel. repeat split; try done. by apply assigned_refl. Qed.

Lemma reached_getNode (this : nat) (l : list nat) (fuel : nat) s0 nd0
    (p : Props.t num) (X0 : Z) s :
  reached this l fuel s0 nd0 p X0 s ->
  exists n, getNode s this = Ok n /\ nodes s !! this = Some n
            /\ CoreNode.props n = p
            /\ CoreNode.children n = CoreNode.children nd0
            /\ ancestors (nodes s) this l.
Proof.
  intros (Hn0 & Hanc & _ & Hp & Ha).
  destruct (assigned_this _ _ _ _ _ _ Ha Hn0) as (n & Hn & Hpn & Hc & _).
  exists n. split; [by apply getNode_lookup|]. split; [done|].
  split; [done|]. split; [done|]. by eapply assigned_ancestors.
Qed.

Lemma reached_stored {A : Type} (set : A -> Props.t num -> Props.t num)
    (X : Z) (value : A) (this : nat) (l : list nat) (fuel : nat) s0 nd0
    (p : Props.t num) (X0 : Z) s :
  reached this l fuel s0 nd0 p X0 s ->
  Props.parent (set value p) = Props.parent p ->
  exists s',
    set_stored set X fuel s this value = Ok s'
    /\ reached this l fuel s0 nd0 (set value p) (Z.lor X0 X) s'.
Proof.
  intros Hr Hpar.
  destruct (reached_getNode _ _ _ _ _ _ _ _ Hr) as (n & _ & Hn & Hpn & _ & Hanc).
  destruct Hr as (Hn0 & Hanc0 & Hfuel & Hp & Ha).
  destruct (set_stored_assigned set X fuel s this value n l)
    as (s' & Hrun & Ha'); [by rewrite Hpn | done | done | done |].
  exists s'. split; [done|]. rewrite Hpn in Ha'.
  split; [done|]. split; [done|]. split; [done|]. split; [congruence|].
  by eapply assigned_trans.
Qed.

Lemma reached_guarded (get : Props.t num -> num)
    (set : num -> Props.t num -> Props.t num) (X : Z) (value : num)
    (this : nat) (l : list nat) (fuel : nat) s0 nd0 (p : Props.t num)
    (X0 : Z) s :
  reached this l fuel s0 nd0 p X0 s ->
  Props.parent (set value p) = Props.parent p ->
  exists s',
    set_guarded get set X fuel s this value = Ok s'
    /\ if get p === value then s' = s
       else reached this l fuel s0 nd0 (set value p) (Z.lor X0 X) s'.
Proof.
  intros Hr Hpar.
  destruct (reached_getNode _ _ _ _ _ _ _ _ Hr) as (n & Hg & _ & Hpn & _).
  unfold set_guarded. rewrite Hg. simpl. rewrite Hpn.
  destruct (get p === value); simpl; [by exists s|].
  by apply reached_stored.
Qed.

Lemma reached_assigned (this : nat) (l : list nat) (fuel : nat) s0 nd0
    (p : Props.t num) (X0 X : Z) s :
  reached this l fuel s0 nd0 p X0 s -> X0 = X -> assigned this p X s0 s.
Proof. by intros (_ & _ & _ & _ & Ha) <-. Qed.

Lemma set_guarded_outcome (get : Props.t num -> num)
    (set : num -> Props.t num -> Props.t num) (X : Z) (fuel : nat) s
    (this : nat) (value : num) nd (l : list nat) :
  (forall p, Props.parent (set value p) = Props.parent p) ->
  nodes s !! this = Some nd ->
  ancestors (nodes s) this l ->
  (List.length l + 2 <= fuel)%nat ->
  guarded_outcome (set_guarded get set X fuel s this value) get set X this
    value nd s.
Proof.
  intros Hpar Hn Hanc Hfuel.
  destruct (reached_guarded get set X value _ _ _ _ _ _ _ _
              (reached_start this l fuel s nd Hn Hanc Hfuel) (Hpar _))
    as (s' & Hrun & Hout).
  exists s'. split; [done|].
  destruct (get (CoreNode.props nd) === value); [done|].
  by eapply reached_assigned.
Qed.

Lemma set_x_guarded (fuel : nat) s (this : nat) (value : num) :
  set_x fuel s this value
  = set_guarded Props.x Props.set_x UpdateType.Local fuel s this value.
Proof.
  unfold set_x, set_guarded, set_stored.
  destruct (getNode s this) as [n| |] eqn:Hn; simpl; [|done..].
  by destruct (negb _).
Qed.

(** X4: the guarded setters [x], [y], [scaleX], [scaleY], [mountX],
    [mountY], [pivotX], [pivotY] and [rotation], called on a node with a
    finite chain of ancestors, return.  When the prop is strictly equal
    to the value the state is left as it is: no flag is set.  Otherwise
    the prop holds the value afterwards, the flag of the setter ([Local],
    or [ScaleRotate] for the scales and the rotation) is pending on the
    node, nothing is emitted, and nothing else changes but pending flags
    and [hasRTTupdates]. *)
Theorem guarded_setters_outcome (fuel : nat) s (this : nat) (value : num) nd
    (l : list nat) :
  nodes s !! this = Some nd ->
  ancestors (nodes s) this l ->
  (List.length l + 2 <= fuel)%nat ->
  guarded_outcome (set_x fuel s this value)
    Props.x Props.set_x UpdateType.Local this value nd s
  /\ guarded_outcome (set_y fuel s this value)
       Props.y Props.set_y UpdateType.Local this value nd s
  /\ guarded_outcome (set_scaleX fuel s this value)
       Props.scaleX Props.set_scaleX UpdateType.ScaleRotate this value nd s
  /\ guarded_outcome (set_scaleY fuel s this value)
       Props.scaleY Props.set_scaleY UpdateType.ScaleRotate this value nd s
  /\ guarded_outcome (set_mountX fuel s this value)
       Props.mountX Props.set_mountX UpdateType.Local this value nd s
  /\ guarded_outcome (set_mountY fuel s this value)
       Props.mountY Props.set_mountY UpdateType.Local this value nd s
  /\ guarded_outcome (set_pivotX fuel s this value)
       Props.pivotX Props.set_pivotX UpdateType.Local this value nd s
  /\ guarded_outcome (set_pivotY fuel s this value)
       Props.pivotY Props.set_pivotY UpdateType.Local this value nd s
  /\ guarded_outcome (set_rotation fuel s this value)
       Props.rotation Props.set_rotation UpdateType.ScaleRotate this value
       nd s.
Proof.
  intros Hn Hanc Hfuel. rewrite set_x_guarded.
  repeat split; by apply (set_guarded_outcome _ _ _ _ _ _ _ _ l).
Qed.

(** X5: the setters without a guard.  [alpha], [clipping] and the four
    corner colours store the value and set their flags on every call,
    also when the prop holds the value already; they emit nothing and
    change nothing else but pending flags and [hasRTTupdates].
    [autosize] and [textureOptions] store the value and set no flag:
    the node differs in that prop only. *)
Theorem unguarded_setters_outcome (fuel : nat) s (this : nat) (value : num)
    (flag : bool) (opts : option TextureOptions.t) nd (l : list nat) :
  nodes s !! this = Some nd ->
  ancestors (nodes s) this l ->
  (List.length l + 2 <= fuel)%nat ->
  stored_outcome (set_alpha fuel s this value) Props.set_alpha
    (Z.lor UpdateType.PremultipliedColors UpdateType.WorldAlpha) this value
    nd s
  /\ stored_outcome (set_clipping fuel s this flag) Props.set_clipping
       UpdateType.Clipping this flag nd s
  /\ stored_outcome (set_colorTl fuel s this value) Props.set_colorTl
       UpdateType.PremultipliedColors this value nd s
  /\ stored_outcome (set_colorTr fuel s this value) Props.set_colorTr
       UpdateType.PremultipliedColors this value nd s
  /\ stored_outcome (set_colorBl fuel s this value) Props.set_colorBl
       UpdateType.PremultipliedColors this value nd s
  /\ stored_outcome (set_colorBr fuel s this value) Props.set_colorBr
       UpdateType.PremultipliedColors this value nd s
  /\ set_autosize s this flag
     = Ok (putNode s this
             (CoreNode.set_props (Props.set_autosize flag (CoreNode.props nd))
                nd))
  /\ set_textureOptions s this opts
     = Ok (putNode s this
             (CoreNode.set_props
                (Props.set_textureOptions opts (CoreNode.props nd)) nd)).
Proof.
  intros Hn Hanc Hfuel.
  repeat (split; [by apply (set_stored_assigned _ _ _ _ _ _ _ l)|]).
  unfold set_autosize, set_textureOptions, modifyNode.
  by rewrite (getNode_lookup _ _ _ Hn).
Qed.

(** X5: [set shader(value)] on a node with a finite chain of ancestors
    returns.  The controller the node has already changes nothing.
    Another controller is stored; [IsRenderable] becomes pending when
    the new controller is the default one of the stage, and for any other
    controller no flag is set on any node: only the prop changes. *)
Theorem set_shader_outcome (stage : Stage.t num) (fuel : nat) s (this : nat)
    (value : nat) nd (l : list nat) :
  nodes s !! this = Some nd ->
  ancestors (nodes s) this l ->
  (List.length l + 2 <= fuel)%nat ->
  exists s',
    set_shader stage fuel s this value = Ok s'
    /\ if Nat.eqb (Props.shader (CoreNode.props nd)) value then s' = s
       else if Nat.eqb value (Stage.defShaderCtr stage)
       then assigned this (Props.set_shader value (CoreNode.props nd))
              UpdateType.IsRenderable s s'
       else s' = putNode s this
                   (CoreNode.set_props
                      (Props.set_shader value (CoreNode.props nd)) nd)
            /\ forall m, updateTypeOf s' m = updateTypeOf s m.
Proof.
  intros Hn Hanc Hfuel. unfold set_shader.
  rewrite (getNode_lookup _ _ _ Hn). simpl.
  destruct (Nat.eqb (Props.shader (CoreNode.props nd)) value);
    [by exists s|].
  destruct (Nat.eqb value (Stage.defShaderCtr stage)).
  - by apply (put_setUpdateType_assigned _ _ _ _ _ _ l).
  - eexists. split; [done|]. split; [done|].
    intros m. unfold updateTypeOf, putNode. simpl.
    destruct (decide (m = this)) as [->|Hne].
    + by rewrite lookup_insert_eq, Hn.
    + by rewrite lookup_insert_ne.
Qed.

(** X5: the setters that write two props.  [mount] (and [pivot]) leave
    the state alone when both [mountX] and [mountY] are strictly equal
    to the value, and otherwise store the value in [mountX], [mountY]
    and [mount] and set [Local]; [scale] assigns [scaleX] and then
    [scaleY], each under its own guard, with [ScaleRotate]. *)
Theorem paired_setters_outcome (fuel : nat) s (this : nat) (value : num) nd
    (l : list nat) :
  nodes s !! this = Some nd ->
  ancestors (nodes s) this l ->
  (List.length l + 2 <= fuel)%nat ->
  let p := CoreNode.props nd in
  (exists s',
     set_mount fuel s this value = Ok s'
     /\ if (Props.mountX p === value) && (Props.mountY p === value)
        then s' = s
        else assigned this
               (Props.set_mount value
                  (Props.set_mountY value (Props.set_mountX value p)))
               UpdateType.Local s s')
  /\ (exists s',
        set_pivot fuel s this value = Ok s'
        /\ if (Props.pivotX p === value) && (Props.pivotY p === value)
           then s' = s
           else assigned this
                  (Props.set_pivot value
                     (Props.set_pivotY value (Props.set_pivotX value p)))
                  UpdateType.Local s s')
  /\ (exists s',
        set_scale fuel s this value = Ok s'
        /\ match Props.scaleX p === value, Props.scaleY p === value with
           | true, true => s' = s
           | true, false =>
               assigned this (Props.set_scaleY value p)
                 UpdateType.ScaleRotate s s'
           | false, true =>
               assigned this (Props.set_scaleX value p)
                 UpdateType.ScaleRotate s s'
           | false, false =>
               assigned this
                 (Props.set_scaleY value (Props.set_scaleX value p))
                 UpdateType.ScaleRotate s s'
           end).
Proof.
  intros Hn Hanc Hfuel p.
  pose proof (reached_start this l fuel s nd Hn Hanc Hfuel) as Hr.
  pose proof (getNode_lookup _ _ _ Hn) as Hg.
  split; [|split].
  - unfold set_mount. rewrite Hg. simpl. fold p.
    destruct (Props.mountX p === value), (Props.mountY p === value); simpl;
      try (by exists s);
      (destruct (reached_stored
                   (fun v q =>
                      Props.set_mount v
                        (Props.set_mountY v (Props.set_mountX v q)))
                   UpdateType.Local value _ _ _ _ _ _ _ _ Hr eq_refl)
         as (s' & Hrun & Hr');
       exists s'; split; [done|]; by eapply reached_assigned).
  - unfold set_pivot. rewrite Hg. simpl. fold p.
    destruct (Props.pivotX p === value), (Props.pivotY p === value); simpl;
      try (by exists s);
      (destruct (reached_stored
                   (fun v q =>
                      Props.set_pivot v
                        (Props.set_pivotY v (Props.set_pivotX v q)))
                   UpdateType.Local value _ _ _ _ _ _ _ _ Hr eq_refl)
         as (s' & Hrun & Hr');
       exists s'; split; [done|]; by eapply reached_assigned).
  - unfold set_scale, set_scaleX, set_scaleY.
    destruct (reached_guarded Props.scaleX Props.set_scaleX
                UpdateType.ScaleRotate value _ _ _ _ _ _ _ _ Hr eq_refl)
      as (s1 & Hrun1 & Hout1).
    rewrite Hrun1. simpl. fold p in Hout1.
    destruct (Props.scaleX p === value) eqn:Ex.
    + subst s1.
      destruct (reached_guarded Props.scaleY Props.set_scaleY
                  UpdateType.ScaleRotate value _ _ _ _ _ _ _ _ Hr eq_refl)
        as (s2 & Hrun2 & Hout2).
      exists s2. split; [done|]. fold p in Hout2.
      destruct (Props.scaleY p === value); [done|].
      by eapply reached_assigned.
    + destruct (reached_guarded Props.scaleY Props.set_scaleY
                  UpdateType.ScaleRotate value _ _ _ _ _ _ _ _ Hout1 eq_refl)
        as (s2 & Hrun2 & Hout2).
      exists s2. split; [done|]. simpl in Hout2.
      destruct (Props.scaleY p === value).
      * subst s2. by eapply reached_assigned.
      * by eapply reached_assigned.
Qed.

Lemma reached_mask (this : nat) (l : list nat) (fuel : nat) s0 nd0
    (p : Props.t num) (X0 X : Z) s :
  reached this l fuel s0 nd0 p X0 s -> X0 = X ->
  reached this l fuel s0 nd0 p X s.
Proof. by intros Hr <-. Qed.

Lemma set_colorTop_reached (value : num) (this : nat) (l : list nat)
    (fuel : nat) s0 nd0 (p : Props.t num) (X0 : Z) s :
  reached this l fuel s0 nd0 p X0 s ->
  exists s',
    set_colorTop fuel s this value = Ok s'
    /\ reached this l fuel s0 nd0
         (Props.set_colorTop value
            (if (Props.colorTl p === value) && (Props.colorTr p === value)
             then p
             else Props.set_colorTr value (Props.set_colorTl value p)))
         (Z.lor X0 UpdateType.PremultipliedColors) s'.
Proof.
  intros Hr.
  destruct (reached_getNode _ _ _ _ _ _ _ _ Hr) as (n & Hg & _ & Hpn & _).
  unfold set_colorTop. rewrite Hg. simpl. rewrite Hpn.
  destruct (Props.colorTl p === value), (Props.colorTr p === value); simpl;
    try (by apply reached_stored);
    (unfold set_colorTl, set_colorTr;
     destruct (reached_stored Props.set_colorTl
                 UpdateType.PremultipliedColors value _ _ _ _ _ _ _ _ Hr
                 eq_refl) as (s1 & H1 & Hr1);
     rewrite H1; simpl;
     destruct (reached_stored Props.set_colorTr
                 UpdateType.PremultipliedColors value _ _ _ _ _ _ _ _ Hr1
                 eq_refl) as (s2 & H2 & Hr2);
     rewrite H2; simpl;
     destruct (reached_stored Props.set_colorTop
                 UpdateType.PremultipliedColors value _ _ _ _ _ _ _ _ Hr2
                 eq_refl) as (s3 & H3 & Hr3);
     exists s3; split; [done|];
     eapply reached_mask; [exact Hr3|];
     by rewrite <- !Z.lor_assoc, !Z.lor_diag).
Qed.

Lemma set_colorBottom_reached (value : num) (this : nat) (l : list nat)
    (fuel : nat) s0 nd0 (p : Props.t num) (X0 : Z) s :
  reached this l fuel s0 nd0 p X0 s ->
  exists s',
    set_colorBottom fuel s this value = Ok s'
    /\ reached this l fuel s0 nd0
         (Props.set_colorBottom value
            (if (Props.colorBl p === value) && (Props.colorBr p === value)
             then p
             else Props.set_colorBr value (Props.set_colorBl value p)))
         (Z.lor X0 UpdateType.PremultipliedColors) s'.
Proof.
  intros Hr.
  destruct (reached_getNode _ _ _ _ _ _ _ _ Hr) as (n & Hg & _ & Hpn & _).
  unfold set_colorBottom. rewrite Hg. simpl. rewrite Hpn.
  destruct (Props.colorBl p === value), (Props.colorBr p === value); simpl;
    try (by apply reached_stored);
    (unfold set_colorBl, set_colorBr;
     destruct (reached_stored Props.set_colorBl
                 UpdateType.PremultipliedColors value _ _ _ _ _ _ _ _ Hr
                 eq_refl) as (s1 & H1 & Hr1);
     rewrite H1; simpl;
     destruct (reached_stored Props.set_colorBr
                 UpdateType.PremultipliedColors value _ _ _ _ _ _ _ _ Hr1
                 eq_refl) as (s2 & H2 & Hr2);
     rewrite H2; simpl;
     destruct (reached_stored Props.set_colorBottom
                 UpdateType.PremultipliedColors value _ _ _ _ _ _ _ _ Hr2
                 eq_refl) as (s3 & H3 & Hr3);
     exists s3; split; [done|];
     eapply reached_mask; [exact Hr3|];
     by rewrite <- !Z.lor_assoc, !Z.lor_diag).
Qed.

Lemma set_colorLeft_reached (value : num) (this : nat) (l : list nat)
    (fuel : nat) s0 nd0 (p : Props.t num) (X0 : Z) s :
  reached this l fuel s0 nd0 p X0 s ->
  exists s',
    set_colorLeft fuel s this value = Ok s'
    /\ reached this l fuel s0 nd0
         (Props.set_colorLeft value
            (if (Props.colorTl p === value) && (Props.colorBl p === value)
             then p
             else Props.set_colorBl value (Props.set_colorTl value p)))
         (Z.lor X0 UpdateType.PremultipliedColors) s'.
Proof.
  intros Hr.
  destruct (reached_getNode _ _ _ _ _ _ _ _ Hr) as (n & Hg & _ & Hpn & _).
  unfold set_colorLeft. rewrite Hg. simpl. rewrite Hpn.
  destruct (Props.colorTl p === value), (Props.colorBl p === value); simpl;
    try (by apply reached_stored);
    (unfold set_colorTl, set_colorBl;
     destruct (reached_stored Props.set_colorTl
                 UpdateType.PremultipliedColors value _ _ _ _ _ _ _ _ Hr
                 eq_refl) as (s1 & H1 & Hr1);
     rewrite H1; simpl;
     destruct (reached_stored Props.set_colorBl
                 UpdateType.PremultipliedColors value _ _ _ _ _ _ _ _ Hr1
                 eq_refl) as (s2 & H2 & Hr2);
     rewrite H2; simpl;
     destruct (reached_stored Props.set_colorLeft
                 UpdateType.PremultipliedColors value _ _ _ _ _ _ _ _ Hr2
                 eq_refl) as (s3 & H3 & Hr3);
     exists s3; split; [done|];
     eapply reached_mask; [exact Hr3|];
     by rewrite <- !Z.lor_assoc, !Z.lor_diag).
Qed.

Lemma set_colorRight_reached (value : num) (this : nat) (l : list nat)
    (fuel : nat) s0 nd0 (p : Props.t num) (X0 : Z) s :
  reached this l fuel s0 nd0 p X0 s ->
  exists s',
    set_colorRight fuel s this value = Ok s'
    /\ reached this l fuel s0 nd0
         (Props.set_colorRight value
            (if (Props.colorTr p === value) && (Props.colorBr p === value)
             then p
             else Props.set_colorBr value (Props.set_colorTr value p)))
         (Z.lor X0 UpdateType.PremultipliedColors) s'.
Proof.
  intros Hr.
  destruct (reached_getNode _ _ _ _ _ _ _ _ Hr) as (n & Hg & _ & Hpn & _).
  unfold set_colorRight. rewrite Hg. simpl. rewrite Hpn.
  destruct (Props.colorTr p === value), (Props.colorBr p === value); simpl;
    try (by apply reached_stored);
    (unfold set_colorTr, set_colorBr;
     destruct (reached_stored Props.set_colorTr
                 UpdateType.PremultipliedColors value _ _ _ _ _ _ _ _ Hr
                 eq_refl) as (s1 & H1 & Hr1);
     rewrite H1; simpl;
     destruct (reached_stored Props.set_colorBr
                 UpdateType.PremultipliedColors value _ _ _ _ _ _ _ _ Hr1
                 eq_refl) as (s2 & H2 & Hr2);
     rewrite H2; simpl;
     destruct (reached_stored Props.set_colorRight
                 UpdateType.PremultipliedColors value _ _ _ _ _ _ _ _ Hr2
                 eq_refl) as (s3 & H3 & Hr3);
     exists s3; split; [done|];
     eapply reached_mask; [exact Hr3|];
     by rewrite <- !Z.lor_assoc, !Z.lor_diag).
Qed.

(** X6: the edge colour setters.  [colorTop] stores the value in
    [colorTop]; it also stores it in the corners [colorTl] and [colorTr]
    unless both are strictly equal to it already.  The other corners and
    the other edge props are not written, and [PremultipliedColors] is
    pending afterwards.  Likewise [colorBottom] with [colorBl] and
    [colorBr], [colorLeft] with [colorTl] and [colorBl], [colorRight]
    with [colorTr] and [colorBr]. *)
Theorem edge_color_setters_outcome (fuel : nat) s (this : nat) (value : num)
    nd (l : list nat) :
  nodes s !! this = Some nd ->
  ancestors (nodes s) this l ->
  (List.length l + 2 <= fuel)%nat ->
  let p := CoreNode.props nd in
  (exists s',
     set_colorTop fuel s this value = Ok s'
     /\ assigned this
          (Props.set_colorTop value
             (if (Props.colorTl p === value) && (Props.colorTr p === value)
              then p
              else Props.set_colorTr value (Props.set_colorTl value p)))
          UpdateType.PremultipliedColors s s')
  /\ (exists s',
        set_colorBottom fuel s this value = Ok s'
        /\ assigned this
             (Props.set_colorBottom value
                (if (Props.colorBl p === value) && (Props.colorBr p === value)
                 then p
                 else Props.set_colorBr value (Props.set_colorBl value p)))
             UpdateType.PremultipliedColors s s')
  /\ (exists s',
        set_colorLeft fuel s this value = Ok s'
        /\ assigned this
             (Props.set_colorLeft value
                (if (Props.colorTl p === value) && (Props.colorBl p === value)
                 then p
                 else Props.set_colorBl value (Props.set_colorTl value p)))
             UpdateType.PremultipliedColors s s')
  /\ (exists s',
        set_colorRight fuel s this value = Ok s'
        /\ assigned this
             (Props.set_colorRight value
                (if (Props.colorTr p === value) && (Props.colorBr p === value)
                 then p
                 else Props.set_colorBr value (Props.set_colorTr value p)))
             UpdateType.PremultipliedColors s s').
Proof.
  intros Hn Hanc Hfuel p.
  pose proof (reached_start this l fuel s nd Hn Hanc Hfuel) as Hr.
  split; [|split; [|split]].
  - destruct (set_colorTop_reached value _ _ _ _ _ _ _ _ Hr) as (s' & H1 & H2).
    exists s'. split; [done|]. by eapply reached_assigned.
  - destruct (set_colorBottom_reached value _ _ _ _ _ _ _ _ Hr)
      as (s' & H1 & H2).
    exists s'. split; [done|]. by eapply reached_assigned.
  - destruct (set_colorLeft_reached value _ _ _ _ _ _ _ _ Hr) as (s' & H1 & H2).
    exists s'. split; [done|]. by eapply reached_assigned.
  - destruct (set_colorRight_reached value _ _ _ _ _ _ _ _ Hr)
      as (s' & H1 & H2).
    exists s'. split; [done|]. by eapply reached_assigned.
Qed.

Lemma settled_trans (value a b c : num) :
  settled value a b -> settled value b c -> settled value a c.
Proof.
  intros [-> | [-> Ha]] [-> | [-> Hb]]; unfold settled; auto.
Qed.

Lemma colorTop_corners (value : num) (p p1 : Props.t num) :
  p1 = Props.set_colorTop value
         (if (Props.colorTl p === value) && (Props.colorTr p === value)
          then p
          else Props.set_colorTr value (Props.set_colorTl value p)) ->
  settled value (Props.colorTl p) (Props.colorTl p1)
  /\ settled value (Props.colorTr p) (Props.colorTr p1)
  /\ Props.colorBl p1 = Props.colorBl p
  /\ Props.colorBr p1 = Props.colorBr p.
Proof.
  intros ->. unfold settled.
  destruct (Props.colorTl p === value) eqn:Ea,
           (Props.colorTr p === value) eqn:Eb; simpl; auto.
Qed.

Lemma colorBottom_corners (value : num) (p p1 : Props.t num) :
  p1 = Props.set_colorBottom value
         (if (Props.colorBl p === value) && (Props.colorBr p === value)
          then p
          else Props.set_colorBr value (Props.set_colorBl value p)) ->
  settled value (Props.colorBl p) (Props.colorBl p1)
  /\ settled value (Props.colorBr p) (Props.colorBr p1)
  /\ Props.colorTl p1 = Props.colorTl p
  /\ Props.colorTr p1 = Props.colorTr p.
Proof.
  intros ->. unfold settled.
  destruct (Props.colorBl p === value) eqn:Ea,
           (Props.colorBr p === value) eqn:Eb; simpl; auto.
Qed.

Lemma colorLeft_corners (value : num) (p p1 : Props.t num) :
  p1 = Props.set_colorLeft value
         (if (Props.colorTl p === value) && (Props.colorBl p === value)
          then p
          else Props.set_colorBl value (Props.set_colorTl value p)) ->
  settled value (Props.colorTl p) (Props.colorTl p1)
  /\ settled value (Props.colorBl p) (Props.colorBl p1)
  /\ Props.colorTr p1 = Props.colorTr p
  /\ Props.colorBr p1 = Props.colorBr p.
Proof.
  intros ->. unfold settled.
  destruct (Props.colorTl p === value) eqn:Ea,
           (Props.colorBl p === value) eqn:Eb; simpl; auto.
Qed.

Lemma colorRight_corners (value : num) (p p1 : Props.t num) :
  p1 = Props.set_colorRight value
         (if (Props.colorTr p === value) && (Props.colorBr p === value)
          then p
          else Props.set_colorBr value (Props.set_colorTr value p)) ->
  settled value (Props.colorTr p) (Props.colorTr p1)
  /\ settled value (Props.colorBr p) (Props.colorBr p1)
  /\ Props.colorTl p1 = Props.colorTl p
  /\ Props.colorBl p1 = Props.colorBl p.
Proof.
  intros ->. unfold settled.
  destruct (Props.colorTr p === value) eqn:Ea,
           (Props.colorBr p === value) eqn:Eb; simpl; auto.
Qed.

(** X7: [set color(value)] on a node with a finite chain of ancestors
    returns; afterwards [color] and the four edge colours are the value,
    each of the four corner colours is the value or is as before and
    strictly equal to the value, every other prop is as before,
    [PremultipliedColors] is pending on the node and nothing is
    emitted. *)
Theorem set_color_channels (fuel : nat) s (this : nat) (value : num) nd
    (l : list nat) :
  nodes s !! this = Some nd ->
  ancestors (nodes s) this l ->
  (List.length l + 2 <= fuel)%nat ->
  let p := CoreNode.props nd in
  exists s' tl tr bl br,
    set_color fuel s this value = Ok s'
    /\ assigned this (recolor value tl tr bl br p)
         UpdateType.PremultipliedColors s s'
    /\ settled value (Props.colorTl p) tl
    /\ settled value (Props.colorTr p) tr
    /\ settled value (Props.colorBl p) bl
    /\ settled value (Props.colorBr p) br.
Proof.
  intros Hn Hanc Hfuel p.
  pose proof (reached_start this l fuel s nd Hn Hanc Hfuel) as Hr.
  fold p in Hr. unfold set_color.
  destruct (set_colorTop_reached value _ _ _ _ _ _ _ _ Hr) as (s1 & H1 & Hr1).
  rewrite H1. simpl.
  set (p1 := Props.set_colorTop value _) in Hr1.
  destruct (set_colorBottom_reached value _ _ _ _ _ _ _ _ Hr1)
    as (s2 & H2 & Hr2).
  rewrite H2. simpl.
  set (p2 := Props.set_colorBottom value _) in Hr2.
  destruct (set_colorLeft_reached value _ _ _ _ _ _ _ _ Hr2)
    as (s3 & H3 & Hr3).
  rewrite H3. simpl.
  set (p3 := Props.set_colorLeft value _) in Hr3.
  destruct (set_colorRight_reached value _ _ _ _ _ _ _ _ Hr3)
    as (s4 & H4 & Hr4).
  rewrite H4. simpl.
  set (p4 := Props.set_colorRight value _) in Hr4.
  destruct (reached_stored Props.set_color UpdateType.PremultipliedColors
              value _ _ _ _ _ _ _ _ Hr4 eq_refl) as (s5 & H5 & Hr5).
  exists s5, (Props.colorTl p4), (Props.colorTr p4), (Props.colorBl p4),
    (Props.colorBr p4).
  split; [done|]. split.
  { replace (recolor value (Props.colorTl p4) (Props.colorTr p4)
               (Props.colorBl p4) (Props.colorBr p4) p)
      with (Props.set_color value p4).
    - eapply reached_assigned; [exact Hr5 | done].
    - unfold recolor, p4, p3, p2, p1. generalize p. clear.
      intros p. destruct p. simpl.
      repeat match goal with |- context [if ?c then _ else _] =>
               destruct c end; reflexivity. }
  destruct (colorTop_corners value p p1 eq_refl) as (Htl1 & Htr1 & Hbl1 & Hbr1).
  destruct (colorBottom_corners value p1 p2 eq_refl)
    as (Hbl2 & Hbr2 & Htl2 & Htr2).
  destruct (colorLeft_corners value p2 p3 eq_refl)
    as (Htl3 & Hbl3 & Htr3 & Hbr3).
  destruct (colorRight_corners value p3 p4 eq_refl)
    as (Htr4 & Hbr4 & Htl4 & Hbl4).
  split; [|split; [|split]].
  - rewrite Htl4. eapply settled_trans; [exact Htl1|]. by rewrite <- Htl2.
  - eapply settled_trans; [exact Htr1|]. rewrite <- Htr2, <- Htr3. done.
  - rewrite Hbl4. eapply settled_trans; [|exact Hbl3].
    by rewrite <- Hbl1.
  - eapply settled_trans; [|exact Hbr4]. rewrite Hbr3, <- Hbr1. done.
Qed.

(** *** Flags handed to the children *)

Lemma forEach_setUpdateType_returns (fuel : nat) (X : Z) (lc : list nat)
    (cs : list nat) :
  forall s,
    (forall c, c ∈ cs -> ancestors (nodes s) c lc) ->
    (List.length lc + 2 <= fuel)%nat ->
    exists s',
      forEach_setUpdateType fuel s cs X = Ok s'
      /\ strip <$> nodes s' = strip <$> nodes s
      /\ trace s' = trace s.
Proof.
  induction cs as [|c cs IH]; intros s Hcs Hfuel; simpl; [by exists s|].
  destruct (setUpdateType_chain lc fuel s c X) as (s1 & H1 & Hfr1 & Htr1 & _);
    [apply Hcs; by left | done |].
  rewrite H1. simpl.
  destruct (IH s1) as (s' & Hrun & Hfr & Htr); [|done|].
  { intros c' Hc'. eapply ancestors_strip; [symmetry; exact Hfr1|].
    apply Hcs. by right. }
  exists s'. split; [done|]. split; congruence.
Qed.

Lemma set_zOrder_outcome (set : num -> Props.t num -> Props.t num)
    (fuel : nat) s (this : nat) (value : num) nd (l : list nat) :
  (forall p, Props.parent (set value p) = Props.parent p) ->
  children_point_back (nodes s) ->
  nodes s !! this = Some nd ->
  ancestors (nodes s) this l ->
  (List.length l + 3 <= fuel)%nat ->
  zOrder_outcome (set_zOrder set fuel s this value) set this value nd s.
Proof.
  intros Hpar Hcpb Hn Hanc Hfuel.
  assert (Hfuel2 : (List.length l + 2 <= fuel)%nat) by lia.
  pose proof (reached_start this l fuel s nd Hn Hanc Hfuel2) as Hr.
  destruct (reached_stored set
              (Z.lor UpdateType.CalculatedZIndex UpdateType.Children) value
              _ _ _ _ _ _ _ _ Hr (Hpar _)) as (s1 & H1 & Hr1).
  destruct (reached_getNode _ _ _ _ _ _ _ _ Hr1)
    as (n1 & Hg1 & Hn1 & Hp1 & Hc1 & Hanc1).
  unfold set_zOrder. rewrite H1. simpl. rewrite Hg1. simpl. rewrite Hc1.
  destruct Hr1 as (_ & _ & _ & Hpp & Ha1).
  destruct (forEach_setUpdateType_returns fuel UpdateType.CalculatedZIndex
              (this :: l) (CoreNode.children nd) s1)
    as (s2 & H2 & Hfr2 & Htr2); [|simpl; lia|].
  { intros c Hc. eapply assigned_ancestors; [exact Ha1 | exact Hn | done |].
    apply child_ancestors; [done | done |]. by exists nd. }
  exists s2. split; [done|].
  destruct Ha1 as (Htr1 & Hoth1 & nd0 & nd1 & Hn0 & Hn1' & Hs1 & Hu1).
  assert (nd0 = nd) as -> by congruence.
  assert (nd1 = n1) as -> by congruence.
  split; [congruence|]. split.
  { intros m Hne. rewrite (fmap_lookup_eq _ _ _ m Hfr2). by apply Hoth1. }
  split.
  - destruct (forEach_setUpdateType_grows _ _ _ _ _ H2 this n1 Hn1)
      as (nd2 & Hn2 & Hs2 & Hle2).
    exists nd2. split; [done|]. split; [congruence|].
    rewrite Hu1, Z.lor_0_l in Hle2. done.
  - intros c Hc.
    destruct (forEach_setUpdateType_pending _ _ _ _ _ H2 c Hc)
      as (cn' & Hcn' & Hle).
    exists cn'. split; [done|].
    eapply hasFlag_mask_le; [exact Hle | reflexivity].
Qed.

(** X8: [set zIndex(value)] and [set zIndexLocked(value)], called on a
    node of a tree whose children name their owner, with a finite chain
    of ancestors, return; the prop holds the value, [CalculatedZIndex]
    and [Children] are pending on the node, [CalculatedZIndex] is
    pending on every child, nothing is emitted and no other prop or
    cached value of any node changes. *)
Theorem zOrder_setters_outcome (fuel : nat) s (this : nat) (value : num) nd
    (l : list nat) :
  children_point_back (nodes s) ->
  nodes s !! this = Some nd ->
  ancestors (nodes s) this l ->
  (List.length l + 3 <= fuel)%nat ->
  zOrder_outcome (set_zIndex fuel s this value) Props.set_zIndex this value
    nd s
  /\ zOrder_outcome (set_zIndexLocked fuel s this value)
       Props.set_zIndexLocked this value nd s.
Proof.
  intros Hcpb Hn Hanc Hfuel.
  split; by apply (set_zOrder_outcome _ _ _ _ _ _ l).
Qed.

End Setters.

(** ** Textures and render targets *)

Section Textures.
Context {num : Type} `{L : Lib num}.
Local Open Scope js_scope.
Implicit Types s : State num.
Implicit Types nd : CoreNode.t num.
Implicit Types h : gmap nat (CoreNode.t num).


Lemma set_texture_changes (fuel : nat) s (this : nat)
    (value : option (Texture.t num)) nd (l : list nat) :
  nodes s !! this = Some nd ->
  ancestors (nodes s) this l ->
  (List.length l + 2 <= fuel)%nat ->
  texture_same (Props.texture (CoreNode.props nd)) value = false ->
  exists s',
    set_texture fuel s this value = Ok s'
    /\ assigned this (Props.set_texture value (CoreNode.props nd))
         UpdateType.IsRenderable
         (logged s
            (released this (Props.texture (CoreNode.props nd))
             ++ acquired this (CoreNode.isRenderable nd) value))
         s'.
Proof.
  intros Hn Hanc Hfuel Hdiff.
  set (es := released this (Props.texture (CoreNode.props nd))
             ++ acquired this (CoreNode.isRenderable nd) value).
  destruct (put_setUpdateType_assigned fuel (logged s es) this nd
              (Props.set_texture value (CoreNode.props nd))
              UpdateType.IsRenderable l) as (s' & Hrun & Ha); try done.
  exists s'. split; [|done]. rewrite <- Hrun.
  unfold set_texture, unloadTexture, loadTexture, modifyNode, getNode,
    emitEffect, putNode. simpl. rewrite Hn. simpl. rewrite Hdiff.
  unfold es, released, acquired, logged, putNode.
  destruct (Props.texture (CoreNode.props nd)) as [o|] eqn:Ho;
    destruct value as [v|]; simpl;
    rewrite ?Hn, ?Ho, ?lookup_insert_eq; simpl;
    rewrite ?lookup_insert_eq; simpl;
    rewrite ?insert_insert_eq, <- ?app_assoc; simpl; try done.
Qed.

Lemma set_texture_cases (fuel : nat) s (this : nat)
    (value : option (Texture.t num)) nd (l : list nat) :
  nodes s !! this = Some nd ->
  ancestors (nodes s) this l ->
  (List.length l + 2 <= fuel)%nat ->
  exists s',
    set_texture fuel s this value = Ok s'
    /\ if texture_same (Props.texture (CoreNode.props nd)) value
       then s' = s
       else
         assigned this (Props.set_texture value (CoreNode.props nd))
           UpdateType.IsRenderable
           (logged s
              (released this (Props.texture (CoreNode.props nd))
               ++ acquired this (CoreNode.isRenderable nd) value))
           s'.
Proof.
  intros Hn Hanc Hfuel.
  destruct (texture_same (Props.texture (CoreNode.props nd)) value) eqn:Hs.
  - exists s. split; [|done]. unfold set_texture.
    rewrite (getNode_lookup _ _ _ Hn). simpl. by rewrite Hs.
  - by apply (set_texture_changes _ _ _ _ _ l).
Qed.

(** X9: [set texture(value)] on a node with a finite chain of
    ancestors returns.  Assigning the texture the node has already (the
    same reference, or null again) changes nothing and calls nothing.
    Otherwise the old texture, if any, is released (ownership given up,
    the three handlers unsubscribed) before the new one, if any, is told
    its owner and queued for loading; the prop holds the new value,
    [IsRenderable] is pending on the node, and nothing else changes but
    pending flags and [hasRTTupdates]. *)
Theorem set_texture_outcome (fuel : nat) s (this : nat)
    (value : option (Texture.t num)) nd (l : list nat) :
  nodes s !! this = Some nd ->
  ancestors (nodes s) this l ->
  (List.length l + 2 <= fuel)%nat ->
  exists s',
    set_texture fuel s this value = Ok s'
    /\ if texture_same (Props.texture (CoreNode.props nd)) value
       then s' = s
       else
         assigned this (Props.set_texture value (CoreNode.props nd))
           UpdateType.IsRenderable
           (logged s
              (released this (Props.texture (CoreNode.props nd))
               ++ acquired this (CoreNode.isRenderable nd) value))
           s'.
Proof. apply set_texture_cases. Qed.

(** *** Chains of assignments that log calls *)

Lemma assigned_logged (this : nat) (p : Props.t num) (X : Z) s s'
    (es : list Effect) :
  assigned this p X s s' -> assigned this p X (logged s es) (logged s' es).
Proof.
  intros (T & O & E). split; [|split]; [simpl; by rewrite T | done | done].
Qed.

Lemma reached_logged (this : nat) (l : list nat) (fuel : nat) s0 nd0
    (p : Props.t num) (X0 : Z) s (es : list Effect) :
  reached this l fuel s0 nd0 p X0 s ->
  reached this l fuel (logged s0 es) nd0 p X0 (logged s es).
Proof.
  intros (Hn0 & Hanc & Hfuel & Hp & Ha).
  repeat (split; [done|]). by apply assigned_logged.
Qed.




(** *** Resizing a render target *)





(** *** Turning a render target on *)







End Textures.


Section RenderTargets.
Context {num : Type} `{L : Lib num}.
Variable stage : Stage.t num.
Local Open Scope js_scope.
Implicit Types s : State num.
Implicit Types nd : CoreNode.t num.



End RenderTargets.

(** ** Walks over the ancestors *)

Section AncestorWalks.
Context {num : Type} `{L : Lib num}.
Local Open Scope js_scope.
Implicit Types s : State num.
Implicit Types nd : CoreNode.t num.
Implicit Types h : gmap nat (CoreNode.t num).

(** X12: [setRTTUpdates] on a node with a finite chain of ancestors
    returns as soon as the fuel exceeds the length of the chain; it sets
    [hasRTTupdates] on the node and on every ancestor up to the root,
    and changes nothing else: no other field, no other node, nothing
    emitted. *)
Theorem setRTTUpdates_marks_chain (fuel : nat) (X : Z) (l : list nat) :
  forall s (this : nat),
    ancestors (nodes s) this l ->
    (List.length l < fuel)%nat ->
    exists s',
      setRTTUpdates fuel s this X = Ok s'
      /\ trace s' = trace s
      /\ forall m,
           nodes s' !! m
           = if bool_decide (m ∈ this :: l)
             then CoreNode.set_hasRTTupdates true <$> nodes s !! m
             else nodes s !! m.
Proof.
  revert fuel. induction l as [|p l IH]; intros fuel s this Hanc Hfuel;
    (destruct fuel as [|fuel]; [simpl in Hfuel; lia|]);
    inversion Hanc as [n nd Hn Hp | n p' nd l' Hn Hp Hl]; subst; simpl;
    rewrite (getNode_lookup _ _ _ Hn); simpl; rewrite Hp.
  - eexists. split; [done|]. split; [done|]. intros m. unfold putNode. simpl.
    destruct (decide (m = this)) as [->|Hne].
    + rewrite lookup_insert_eq, bool_decide_eq_true_2 by (by left).
      by rewrite Hn.
    + rewrite lookup_insert_ne by done.
      rewrite bool_decide_eq_false_2; [done|].
      intros Hin. apply list_elem_of_singleton in Hin. done.
  - set (s1 := putNode s this (CoreNode.set_hasRTTupdates true nd)).
    destruct (IH fuel s1 p) as (s' & Hrun & Htr & Hnodes);
      [|simpl in Hfuel; lia|].
    { eapply ancestors_strip; [|exact Hl]. symmetry.
      by eapply fmap_putNode_same. }
    exists s'. split; [done|]. split; [done|]. intros m. rewrite Hnodes.
    unfold s1, putNode. simpl.
    assert (Hnot : this ∉ p :: l) by (by apply (ancestors_not_self _ _ _ Hanc)).
    destruct (decide (m = this)) as [->|Hne].
    + rewrite bool_decide_eq_false_2 by done.
      rewrite lookup_insert_eq, bool_decide_eq_true_2 by (by left).
      by rewrite Hn.
    + rewrite lookup_insert_ne by done.
      destruct (decide (m ∈ p :: l)) as [Hin|Hin].
      * rewrite !bool_decide_eq_true_2; [done | by right | done].
      * rewrite !bool_decide_eq_false_2; [done | | done].
        intros Hin'. apply elem_of_cons in Hin' as [?|?]; done.
Qed.

(** *** The nearest render target *)

Lemma parentRenderTexture_from_chain (l : list nat) :
  forall (fuel : nat) s (p : nat),
    ancestors (nodes s) p l ->
    (List.length l < fuel)%nat ->
    exists r,
      parentRenderTexture_from fuel s (Some p) = Ok r
      /\ match r with
         | Some a =>
             exists (i : nat) an,
               (p :: l) !! i = Some a /\ nodes s !! a = Some an
               /\ Props.rtt (CoreNode.props an) = true
               /\ forall (j : nat) b bn, (j < i)%nat ->
                    (p :: l) !! j = Some b -> nodes s !! b = Some bn ->
                    Props.rtt (CoreNode.props bn) = false
         | None =>
             forall b bn, b ∈ p :: l -> nodes s !! b = Some bn ->
               Props.rtt (CoreNode.props bn) = false
         end.
Proof.
  induction l as [|q l IH]; intros fuel s p Hanc Hfuel;
    (destruct fuel as [|fuel]; [simpl in Hfuel; lia|]);
    inversion Hanc as [n nd Hn Hp | n p' nd l' Hn Hp Hl]; subst; simpl;
    rewrite (getNode_lookup _ _ _ Hn); simpl;
    destruct (Props.rtt (CoreNode.props nd)) eqn:Hrtt.
  - exists (Some p). split; [done|]. exists 0%nat, nd.
    repeat split; try done. intros j b bn Hj. lia.
  - rewrite Hp. destruct fuel; simpl;
      (exists None; split; [done|]; intros b bn Hb Hbn;
       apply list_elem_of_singleton in Hb as ->; congruence).
  - exists (Some p). split; [done|]. exists 0%nat, nd.
    repeat split; try done. intros j b bn Hj. lia.
  - rewrite Hp.
    destruct (IH fuel s q Hl) as (r & Hrun & Hr); [simpl in Hfuel; lia|].
    exists r. split; [done|]. destruct r as [a|].
    + destruct Hr as (i & an & Hi & Han & Hra & Hbefore).
      exists (S i), an. repeat split; try done.
      intros [|j] b bn Hj Hb Hbn; simpl in Hb.
      * injection Hb as <-. congruence.
      * eapply Hbefore; [|exact Hb|exact Hbn]. lia.
    + intros b bn Hb Hbn. apply elem_of_cons in Hb as [->|Hb];
        [congruence | by eapply Hr].
Qed.

(** X13: on a node with a finite chain of ancestors,
    [parentRenderTexture] returns the nearest ancestor that is a render
    target: it is a render target, no ancestor closer to the node is
    one; the getter returns null exactly when no ancestor is a render
    target. *)
Theorem parentRenderTexture_nearest (fuel : nat) s (this : nat)
    (l : list nat) :
  ancestors (nodes s) this l ->
  (List.length l <= fuel)%nat ->
  exists r,
    parentRenderTexture fuel s this = Ok r
    /\ match r with
       | Some a =>
           exists (i : nat) an,
             l !! i = Some a /\ nodes s !! a = Some an
             /\ Props.rtt (CoreNode.props an) = true
             /\ forall (j : nat) b bn, (j < i)%nat ->
                  l !! j = Some b -> nodes s !! b = Some bn ->
                  Props.rtt (CoreNode.props bn) = false
       | None =>
           forall b bn, b ∈ l -> nodes s !! b = Some bn ->
             Props.rtt (CoreNode.props bn) = false
       end.
Proof.
  intros Hanc Hfuel. unfold parentRenderTexture.
  inversion Hanc as [n nd Hn Hp | n p nd l' Hn Hp Hl]; subst;
    rewrite (getNode_lookup _ _ _ Hn); simpl; rewrite Hp.
  - exists None. split; [by destruct fuel|].
    intros b bn Hb. by apply elem_of_nil in Hb.
  - apply parentRenderTexture_from_chain; [done | simpl in Hfuel; lia].
Qed.

Lemma hasRttAncestor_chain (l : list nat) :
  forall (fuel : nat) s (p : nat) (found : bool),
    ancestors (nodes s) p l ->
    (List.length l < fuel)%nat ->
    exists b,
      hasRttAncestor fuel s (Some p) found = Ok b
      /\ (b = true <->
          found = true
          \/ exists a an, a ∈ p :: l /\ nodes s !! a = Some an
               /\ Props.rtt (CoreNode.props an) = true).
Proof.
  induction l as [|q l IH]; intros fuel s p found Hanc Hfuel;
    (destruct fuel as [|fuel]; [simpl in Hfuel; lia|]);
    inversion Hanc as [n nd Hn Hp | n p' nd l' Hn Hp Hl]; subst; simpl;
    rewrite (getNode_lookup _ _ _ Hn); simpl; rewrite Hp.
  - exists (found || Props.rtt (CoreNode.props nd)).
    split; [by destruct fuel|]. rewrite orb_true_iff. split.
    + intros [?|Hr]; [by left|]. right. exists p, nd.
      split; [by left | done].
    + intros [?|(a & an & Ha & Han & Hr)]; [by left|]. right.
      apply list_elem_of_singleton in Ha as ->. congruence.
  - destruct (IH fuel s q (found || Props.rtt (CoreNode.props nd)) Hl)
      as (b & Hrun & Hb); [simpl in Hfuel; lia|].
    exists b. split; [done|]. rewrite Hb, orb_true_iff. split.
    + intros [[?|Hr]|(a & an & Ha & Han & Hr)].
      * by left.
      * right. exists p, nd. split; [by left | done].
      * right. exists a, an. split; [by right | done].
    + intros [?|(a & an & Ha & Han & Hr)]; [left; by left|].
      apply elem_of_cons in Ha as [->|Ha].
      * left. right. congruence.
      * right. eauto.
Qed.

(** X14: the walk over the ancestors that [update] performs under
    [ParentRenderTexture] agrees with the getter [parentRenderTexture]:
    on a node with a finite chain of ancestors both return, and the walk
    finds a render target exactly when the getter is not null. *)
Theorem hasRttAncestor_agrees (fuel : nat) s (this : nat) nd (l : list nat) :
  nodes s !! this = Some nd ->
  ancestors (nodes s) this l ->
  (List.length l <= fuel)%nat ->
  exists r,
    parentRenderTexture fuel s this = Ok r
    /\ hasRttAncestor fuel s (Props.parent (CoreNode.props nd)) false
       = Ok (match r with Some _ => true | None => false end).
Proof.
  intros Hn Hanc Hfuel. unfold parentRenderTexture.
  rewrite (getNode_lookup _ _ _ Hn). simpl.
  inversion Hanc as [n nd' Hn' Hp | n p nd' l' Hn' Hp Hl]; subst;
    assert (nd' = nd) as -> by congruence; rewrite Hp.
  - exists None. by destruct fuel.
  - destruct (parentRenderTexture_from_chain l' fuel s p Hl)
      as (r & Hrun & Hr); [simpl in Hfuel; lia|].
    exists r. split; [done|].
    destruct (hasRttAncestor_chain l' fuel s p false Hl)
      as (b & Hwalk & Hb); [simpl in Hfuel; lia|].
    rewrite Hwalk. f_equal. destruct r as [a|].
    + apply Hb. right. destruct Hr as (i & an & Hi & Han & Hra & _).
      exists a, an. split; [by eapply list_elem_of_lookup_2 | done].
    + destruct b; [|done]. exfalso.
      destruct (proj1 Hb eq_refl) as [?|(a & an & Ha & Han & Hra)]; [done|].
      by rewrite (Hr a an Ha Han) in Hra.
Qed.

(** *** Framebuffer dimensions and absolute position *)

(** X15: on a node with a finite chain of ancestors,
    [framebufferDimensions] returns the width and the height of the
    first node, starting from the node itself and climbing, that is
    not flagged as inside a render target, or is a render target, or
    has no parent; every node passed on the way is flagged, is no render
    target and has a parent. *)
Theorem framebufferDimensions_source (l : list nat) :
  forall (fuel : nat) s (this : nat),
    ancestors (nodes s) this l ->
    (List.length l < fuel)%nat ->
    exists d (i : nat) (a : nat) an,
      framebufferDimensions fuel s this = Ok d
      /\ (this :: l) !! i = Some a /\ nodes s !! a = Some an
      /\ d = Dimensions.mk (Props.width (CoreNode.props an))
               (Props.height (CoreNode.props an))
      /\ (CoreNode.parentHasRenderTexture an
          && negb (Props.rtt (CoreNode.props an)) = false
          \/ Props.parent (CoreNode.props an) = None)
      /\ forall (j : nat) b bn, (j < i)%nat ->
           (this :: l) !! j = Some b -> nodes s !! b = Some bn ->
           CoreNode.parentHasRenderTexture bn = true
           /\ Props.rtt (CoreNode.props bn) = false
           /\ Props.parent (CoreNode.props bn) <> None.
Proof.
  induction l as [|q l IH]; intros fuel s this Hanc Hfuel;
    (destruct fuel as [|fuel]; [simpl in Hfuel; lia|]);
    inversion Hanc as [n nd Hn Hp | n p' nd l' Hn Hp Hl]; subst; simpl;
    rewrite (getNode_lookup _ _ _ Hn); simpl; rewrite Hp.
  - eexists _, 0%nat, this, nd. split; [done|].
    split; [done|]. split; [done|]. split; [done|]. split; [by right|].
    intros j b bn Hj. lia.
  - destruct (CoreNode.parentHasRenderTexture nd
              && negb (Props.rtt (CoreNode.props nd))) eqn:Hc.
    + destruct (IH fuel s q Hl) as (d & i & a & an & Hrun & Hi & Han & Hd & Hstop & Hpass);
        [simpl in Hfuel; lia|].
      exists d, (S i), a, an. split; [done|].
      split; [done|]. split; [done|]. split; [done|]. split; [done|].
      intros [|j] b bn Hj Hb Hbn; simpl in Hb.
      * injection Hb as <-. assert (bn = nd) as -> by congruence.
        apply andb_true_iff in Hc as [Hc1 Hc2].
        apply negb_true_iff in Hc2. split; [done|]. split; [done|].
        by rewrite Hp.
      * eapply Hpass; [|exact Hb|exact Hbn]. lia.
    + eexists _, 0%nat, this, nd. split; [done|].
      split; [done|]. split; [done|]. split; [done|]. split; [by left|].
      intros j b bn Hj. lia.
Qed.

(** X16: on a node with a finite chain of ancestors, [absY] returns the
    sum of the [y] props of the node and of its ancestors, added from
    the root down, the root being added to 0. *)
Theorem absY_sums_chain (l : list nat) :
  forall (fuel : nat) s (this : nat),
    ancestors (nodes s) this l ->
    (List.length l < fuel)%nat ->
    exists nds,
      Forall2 (fun a an => nodes s !! a = Some an) (this :: l) nds
      /\ absY fuel s this
         = Ok (foldr (fun an acc => Props.y (CoreNode.props an) + acc) n0 nds).
Proof.
  induction l as [|q l IH]; intros fuel s this Hanc Hfuel;
    (destruct fuel as [|fuel]; [simpl in Hfuel; lia|]);
    inversion Hanc as [n nd Hn Hp | n p' nd l' Hn Hp Hl]; subst; simpl;
    rewrite (getNode_lookup _ _ _ Hn); simpl; rewrite Hp.
  - exists [nd]. split; [by repeat constructor | done].
  - destruct (IH fuel s q Hl) as (nds & Hnds & Hrun); [simpl in Hfuel; lia|].
    exists (nd :: nds). split; [by constructor|].
    rewrite Hrun. done.
Qed.

End AncestorWalks.

Section AncestorWalksEvaluation.
Import ZInterp Scenes.

Lemma setRTTUpdates_marks_chain_witness :
  exists s',
    setRTTUpdates 4 chain_scene 3%nat UpdateType.Local = Ok s'
    /\ (CoreNode.hasRTTupdates <$> nodes s' !! 1%nat) = Some true
    /\ nodes s' !! 4%nat = nodes chain_scene !! 4%nat.
Proof.
  destruct (setRTTUpdates_marks_chain 4 UpdateType.Local
              [2%nat; 1%nat] chain_scene 3%nat)
    as (s' & Hrun & _ & Hnodes).
  - apply (chain_of_sound 5). vm_compute. reflexivity.
  - simpl. lia.
  - exists s'. split; [exact Hrun|]. rewrite !Hnodes. split; reflexivity.
Defined.

End AncestorWalksEvaluation.

(** ** The update pass: footprint and steps *)

Section UpdateFootprint.
Context {num : Type} `{L : Lib num}.
Variable stage : Stage.t num.
Local Open Scope js_scope.
Implicit Types s : State num.
Implicit Types nd : CoreNode.t num.
Implicit Types h : gmap nat (CoreNode.t num).

Lemma links_consistent_perm (P : gmap nat (option nat))
    (K K' : gmap nat (list nat)) :
  (forall p, option_Forall2 Permutation (K' !! p) (K !! p)) ->
  links_consistent P K -> links_consistent P K'.
Proof.
  intros HK (H1 & H2 & H3). split; [|split].
  - intros p c cs' Hcs' Hc. specialize (HK p). rewrite Hcs' in HK.
    inversion HK as [x cs Hperm Hx Hcs|]. subst.
    apply (H1 p c cs); [done|]. by rewrite <- Hperm.
  - intros p c Hpc. destruct (H2 p c Hpc) as (cs & Hcs & Hc).
    specialize (HK p). rewrite Hcs in HK.
    inversion HK as [cs' x Hperm Hcs' Hx|]. subst.
    exists cs'. split; [done|]. by rewrite Hperm.
  - intros p cs' Hcs'. specialize (HK p). rewrite Hcs' in HK.
    inversion HK as [x cs Hperm Hx Hcs|]. subst.
    rewrite Hperm. by apply (H3 p).
Qed.

(** X17: the footprint of a completed [update] on a node with a finite
    chain of ancestors, in a tree whose children lists and parent
    references agree.  The tree is still consistent afterwards: no
    parent reference changes and every children list holds the same
    nodes, reordered at most.  A node outside the subtree of the node
    changes in its pending flags and [hasRTTupdates] at most, and a node
    that is neither in the subtree nor an ancestor does not change at
    all. *)
Theorem update_keeps_tree (fuel : nat) (delta : num) s (this : nat)
    (r : Rect.t num) s' (lc : list nat) :
  tree_consistent (nodes s) ->
  ancestors (nodes s) this lc ->
  update stage fuel s this delta r = Ok s' ->
  tree_consistent (nodes s')
  /\ parents (nodes s') = parents (nodes s)
  /\ kids_perm (nodes s) (nodes s')
  /\ (forall m, ~ below (nodes s) this m ->
        strip <$> nodes s' !! m = strip <$> nodes s !! m)
  /\ (forall m, ~ below (nodes s) this m -> m ∉ lc ->
        nodes s' !! m = nodes s !! m).
Proof.
  intros Htree Hanc Hrun.
  destruct (update_frame stage delta fuel s this r s' lc
              (tree_consistent_children_point_back _ Htree) Hanc Hrun)
    as (P & K & S & U).
  split; [|done].
  apply tree_consistent_links. rewrite P.
  eapply links_consistent_perm; [exact K|]. by apply tree_consistent_links.
Qed.

(** X18: [update] does not enter the children of a render target.  When
    a pass on a render target completes, the node itself is the only
    node visited, and the other nodes change in their pending flags and
    [hasRTTupdates] at most. *)
Theorem update_stops_at_render_target (fuel : nat) (delta : num) s
    (this : nat) (r : Rect.t num) s' (visited : list nat) nd
    (lc : list nat) :
  children_point_back (nodes s) ->
  nodes s !! this = Some nd ->
  ancestors (nodes s) this lc ->
  Props.rtt (CoreNode.props nd) = true ->
  update_log stage fuel s this delta r = Ok (s', visited) ->
  visited = [this]
  /\ forall m, m <> this ->
       strip <$> nodes s' !! m = strip <$> nodes s !! m.
Proof.
  intros Hcpb Hn Hanc Hrtt Hrun.
  destruct fuel as [|fuel]; [discriminate|]. simpl in Hrun.
  apply rbind_Ok in Hrun as ([s1 cut] & Hself & Hrun). simpl in Hrun.
  destruct (updateSelf_spec stage _ _ _ _ _ _ _ _ Hcpb Hn Hanc Hself)
    as [F1 _].
  destruct (self_frame_this _ _ _ _ _ _ F1 Hn) as (n1 & Hn1 & Hp1 & _).
  rewrite (getNode_lookup _ _ _ Hn1) in Hrun. simpl in Hrun.
  rewrite Hp1, Hrtt, andb_false_r in Hrun. simpl in Hrun.
  rewrite (getNode_lookup _ _ _ Hn1) in Hrun. simpl in Hrun.
  apply rbind_Ok in Hrun as (s3 & H3 & Hrun).
  apply rbind_Ok in Hrun as (s4 & H4 & Hrun). injection Hrun as <- <-.
  split; [done|]. intros m Hne.
  destruct F1 as (_ & _ & S1 & _). rewrite <- (S1 m Hne). f_equal.
  unfold modifyNode in H4. apply rbind_Ok in H4 as (n3 & _ & H4).
  injection H4 as <-. unfold putNode. simpl.
  rewrite lookup_insert_ne by done.
  destruct (hasFlag (CoreNode.updateType n1) UpdateType.ZIndexSortedChildren).
  - apply sortChildren_inv in H3 as (x & cs' & _ & -> & _).
    unfold putNode. simpl. by rewrite lookup_insert_ne.
  - by injection H3 as <-.
Qed.

End UpdateFootprint.

(** ** Sorting the children *)

Section SortChildren.
Context {num : Type} `{L : Lib num}.
Local Open Scope js_scope.
Implicit Types s : State num.
Implicit Types nd : CoreNode.t num.


Section Comparator.
Variable ok : nat * num -> Prop.
Hypothesis asym : forall a b : num,
  ngt (a - b) n0 = true -> ngt (b - a) n0 = false.




End Comparator.


End SortChildren.

(** ** The update pass: what it leaves on the node *)

Section PassSteps.
Context {num : Type} `{L : Lib num}.
Variable stage : Stage.t num.
Local Open Scope js_scope.
Implicit Types s : State num.
Implicit Types nd : CoreNode.t num.
Implicit Types h : gmap nat (CoreNode.t num).

(** *** The steps on the node, one by one *)

Lemma modifyNode_steps (this : nat) s (f : CoreNode.t num -> CoreNode.t num)
    s' :
  modifyNode s this f = Ok s' -> self_steps this s s'.
Proof.
  unfold modifyNode. intros Hrun.
  apply rbind_Ok in Hrun as (n & _ & Hrun). injection Hrun as <-.
  apply self_steps_put.
Qed.

Lemma whenFlag_steps (this : nat) s (flag : Z)
    (step : State num -> result (State num)) s' :
  (forall s2, step s = Ok s2 -> self_steps this s s2) ->
  whenFlag s this flag step = Ok s' -> self_steps this s s'.
Proof.
  intros Hstep Hrun.
  apply whenFlag_inv in Hrun as (n & _ & [[_ Hrun] | [_ ->]]);
    [by apply Hstep | apply self_steps_refl].
Qed.

Lemma put_flag_steps (this : nat) (fuel : nat) s n (a : nat) (X : Z) s' :
  setUpdateType fuel (putNode s this n) a X = Ok s' -> self_steps this s s'.
Proof.
  intros Hrun. eapply self_steps_trans; [apply self_steps_put|].
  by eapply self_steps_flag.
Qed.

Lemma forEach_setUpdateType_steps (this : nat) (fuel : nat) (X : Z)
    (cs : list nat) :
  forall s s', forEach_setUpdateType fuel s cs X = Ok s' ->
    self_steps this s s'.
Proof.
  induction cs as [|c cs IH]; intros s s' Hrun; simpl in Hrun.
  - injection Hrun as <-. apply self_steps_refl.
  - apply rbind_Ok in Hrun as (s1 & H1 & Hrun).
    eapply self_steps_trans; [by eapply self_steps_flag | by apply IH].
Qed.

Lemma updateSelf_transforms_steps (fuel : nat) s (this : nat) s' :
  updateSelf_transforms fuel s this = Ok s' -> self_steps this s s'.
Proof.
  unfold updateSelf_transforms. intros Hrun.
  apply rbind_Ok in Hrun as (s1 & H1 & Hrun).
  eapply self_steps_trans; (eapply whenFlag_steps; [|eassumption]).
  - intros s2 H2. apply rbind_Ok in H2 as (s3 & H3 & H2).
    eapply self_steps_trans;
      [by eapply modifyNode_steps | by eapply self_steps_flag].
  - intros s2 H2. apply rbind_Ok in H2 as (s3 & H3 & H2).
    eapply self_steps_trans; [|by eapply self_steps_flag].
    unfold updateLocalTransform in H3.
    apply rbind_Ok in H3 as (n & _ & H3).
    apply rbind_Ok in H3 as (n' & _ & H3). by eapply put_flag_steps.
Qed.

Lemma updateSelf_rtt_steps (fuel : nat) s (this : nat) (parent : option nat)
    s' :
  updateSelf_rtt fuel s this parent = Ok s' -> self_steps this s s'.
Proof.
  unfold updateSelf_rtt. intros Hrun.
  apply rbind_Ok in Hrun as (s1 & H1 & Hrun).
  apply rbind_Ok in Hrun as (n & _ & Hrun).
  eapply self_steps_trans.
  - eapply whenFlag_steps; [|exact H1].
    intros s2 H2. apply rbind_Ok in H2 as ([] & _ & H2).
    + by eapply modifyNode_steps.
    + injection H2 as <-. apply self_steps_refl.
  - destruct (_ && _).
    + by eapply forEach_setUpdateType_steps.
    + injection Hrun as <-. apply self_steps_refl.
Qed.

Lemma updateSelf_global_steps (fuel : nat) s (this : nat)
    (parent : option nat) (cut : Z) s' (cut' : Z) :
  updateSelf_global fuel s this parent cut = Ok (s', cut') ->
  self_steps this s s'.
Proof.
  unfold updateSelf_global. intros Hrun.
  apply rbind_Ok in Hrun as (n & _ & Hrun).
  destruct (hasFlag _ _).
  - apply rbind_Ok in Hrun as (pn & _ & Hrun).
    apply rbind_Ok in Hrun as (n' & _ & Hrun).
    apply rbind_Ok in Hrun as (s1 & H1 & Hrun). injection Hrun as <- _.
    by eapply put_flag_steps.
  - injection Hrun as <- _. apply self_steps_refl.
Qed.

Lemma updateRenderState_steps s (this : nat) (r : Rect.t num) s' :
  updateRenderState stage s this r = Ok s' -> self_steps this s s'.
Proof.
  unfold updateRenderState. intros Hrun.
  apply rbind_Ok in Hrun as (n & _ & Hrun).
  apply rbind_Ok in Hrun as ([rs n'] & _ & Hrun).
  destruct (renderState_eqb _ _).
  - injection Hrun as <-. apply self_steps_put.
  - destruct (CoreNodeRenderStateMap rs); [|discriminate].
    injection Hrun as <-.
    eapply self_steps_trans; [apply self_steps_put|].
    eapply self_steps_trans; [apply self_steps_put | apply self_steps_emit].
Qed.

Lemma updateIsRenderable_steps s (this : nat) s' :
  updateIsRenderable stage s this = Ok s' -> self_steps this s s'.
Proof.
  unfold updateIsRenderable, onChangeIsRenderable. intros Hrun.
  apply rbind_Ok in Hrun as (n & _ & Hrun).
  destruct (negb _); [|injection Hrun as <-; apply self_steps_refl].
  injection Hrun as <-.
  destruct (Props.texture _).
  - eapply self_steps_trans; [apply self_steps_put | apply self_steps_emit].
  - apply self_steps_put.
Qed.

Lemma updateSelf_post_steps (fuel : nat) s (this : nat)
    (parent : option nat) (r : Rect.t num) (cut : Z) s' (cut' : Z) :
  updateSelf_post stage fuel s this parent r cut = Ok (s', cut') ->
  self_steps this s s'.
Proof.
  unfold updateSelf_post. intros Hrun.
  apply rbind_Ok in Hrun as (n & _ & Hrun).
  apply rbind_Ok in Hrun as ([sA cutA] & HA & Hrun). simpl in Hrun.
  apply rbind_Ok in Hrun as (nA & _ & Hrun).
  apply rbind_Ok in Hrun as ([sB cutB] & HB & Hrun). simpl in Hrun.
  apply rbind_Ok in Hrun as (sC & HC & Hrun).
  apply rbind_Ok in Hrun as (sD & HD & Hrun).
  apply rbind_Ok in Hrun as (sE & HE & Hrun).
  apply rbind_Ok in Hrun as (nE & _ & Hrun).
  apply rbind_Ok in Hrun as (sF & HF & Hrun). injection Hrun as <- _.
  eapply self_steps_trans.
  { destruct (hasFlag (CoreNode.updateType n) UpdateType.Clipping).
    - apply rbind_Ok in HA as (n' & _ & HA).
      apply rbind_Ok in HA as (s1 & H1 & HA). injection HA as <- _.
      by eapply put_flag_steps.
    - injection HA as <- _. apply self_steps_refl. }
  eapply self_steps_trans.
  { destruct (hasFlag (CoreNode.updateType nA) UpdateType.WorldAlpha).
    - apply rbind_Ok in HB as (wa & _ & HB).
      apply rbind_Ok in HB as (s1 & H1 & HB). injection HB as <- _.
      by eapply put_flag_steps.
    - injection HB as <- _. apply self_steps_refl. }
  eapply self_steps_trans.
  { eapply whenFlag_steps; [|exact HC]. intros s2 H2.
    exact (modifyNode_steps _ _ _ _ H2). }
  eapply self_steps_trans.
  { eapply whenFlag_steps; [|exact HD]. intros s2 H2.
    apply rbind_Ok in H2 as (s3 & H3 & H2).
    eapply self_steps_trans;
      [by eapply updateRenderState_steps | by eapply self_steps_flag]. }
  eapply self_steps_trans.
  { eapply whenFlag_steps; [|exact HE]. intros s2 H2.
    exact (updateIsRenderable_steps _ _ _ H2). }
  destruct parent as [p|]; [|injection HF as <-; apply self_steps_refl].
  destruct (hasFlag (CoreNode.updateType nE) UpdateType.CalculatedZIndex);
    [|injection HF as <-; apply self_steps_refl].
  apply rbind_Ok in HF as (pn & _ & HF). by eapply put_flag_steps.
Qed.

Lemma updateSelf_steps (fuel : nat) s (this : nat) (r : Rect.t num) s'
    (cut : Z) :
  updateSelf stage fuel s this r = Ok (s', cut) -> self_steps this s s'.
Proof.
  unfold updateSelf. intros Hrun.
  apply rbind_Ok in Hrun as (sT & HT & Hrun).
  apply rbind_Ok in Hrun as (n & _ & Hrun). simpl in Hrun.
  apply rbind_Ok in Hrun as (sR & HR & Hrun).
  apply rbind_Ok in Hrun as ([sG cutG] & HG & Hrun). simpl in Hrun.
  eapply self_steps_trans; [by eapply updateSelf_transforms_steps|].
  eapply self_steps_trans; [by eapply updateSelf_rtt_steps|].
  eapply self_steps_trans;
    [by eapply updateSelf_global_steps | by eapply updateSelf_post_steps].
Qed.

(** The masks of the other nodes grow along the steps. *)
Lemma self_steps_grow (this : nat) s s' :
  self_steps this s s' -> masks_grow (fun m => m <> this) s s'.
Proof.
  induction 1 as [s | s1 s2 s3 _ IH1 _ IH2 | s n | s e | fuel s a X s' Hrun];
    intros m md Hne Hm.
  - exists md. split; [done | apply mask_le_refl].
  - destruct (IH1 m md Hne Hm) as (md2 & Hm2 & Hle2).
    destruct (IH2 m md2 Hne Hm2) as (md3 & Hm3 & Hle3).
    exists md3. split; [done | by eapply mask_le_trans].
  - exists md. unfold putNode. simpl. rewrite lookup_insert_ne by done.
    split; [done | apply mask_le_refl].
  - exists md. split; [done | apply mask_le_refl].
  - apply setUpdateType_grows in Hrun as [Hgr _].
    destruct (Hgr m md Hm) as (md' & Hm' & _ & Hle). eauto.
Qed.

(** *** The cached values after the steps on the node *)

Lemma worldAlpha_strip (x y : CoreNode.t num) :
  strip x = strip y -> CoreNode.worldAlpha x = CoreNode.worldAlpha y.
Proof.
  intros E.
  change (CoreNode.worldAlpha (strip x) = CoreNode.worldAlpha (strip y)).
  by rewrite E.
Qed.

Lemma keepVisible_strip (x y : CoreNode.t num) :
  strip x = strip y -> keepVisible stage x = keepVisible stage y.
Proof.
  intros E.
  change (keepVisible stage (strip x) = keepVisible stage (strip y)).
  by rewrite E.
Qed.

Lemma checkRenderBounds_worldAlpha s (r : Rect.t num) nd
    (rs : CoreNodeRenderState) nd' :
  checkRenderBounds stage s r nd = Ok (rs, nd') ->
  CoreNode.worldAlpha nd' = CoreNode.worldAlpha nd.
Proof.
  unfold checkRenderBounds.
  destruct (CoreNode.renderBound nd) as [rb|]; [|discriminate].
  intros Hrun. apply rbind_Ok in Hrun as (w & _ & Hrun).
  apply rbind_Ok in Hrun as (h0 & _ & Hrun).
  destruct (boundInsideBound _ _); [by injection Hrun as _ <-|].
  destruct (Stage.boundsMargin stage) as [[[m0 m1] m2] m3].
  destruct (boundInsideBound _ _); by injection Hrun as _ <-.
Qed.

Lemma updateRenderState_frame_alpha (fp : list nat) s (this : nat)
    (r : Rect.t num) s' :
  updateRenderState stage s this r = Ok s' ->
  self_frame CoreNode.worldAlpha this fp s s'.
Proof.
  unfold updateRenderState. intros Hrun.
  apply rbind_Ok in Hrun as (nd & Hn & Hrun). apply getNode_Ok in Hn.
  apply rbind_Ok in Hrun as ([rs n'] & Hc & Hrun).
  pose proof (checkRenderBounds_worldAlpha _ _ _ _ _ Hc) as Hw.
  apply checkRenderBounds_inv in Hc as (Hsh & _ & Hu).
  assert (H1 : self_frame CoreNode.worldAlpha this fp s (putNode s this n')).
  { apply (self_frame_putNode _ _ _ _ nd); try done.
    rewrite Hu. apply mask_le_refl. }
  destruct (renderState_eqb rs (CoreNode.renderState n')).
  - by injection Hrun as <-.
  - destruct (CoreNodeRenderStateMap rs) as [ev|]; [|discriminate].
    injection Hrun as <-.
    eapply self_frame_trans; [exact H1|].
    eapply self_frame_trans; [|apply self_frame_emit].
    apply (self_frame_putNode _ _ _ _ n'); try done.
    + unfold putNode. simpl. by rewrite lookup_insert_eq.
    + apply mask_le_refl.
Qed.

Lemma updateIsRenderable_outcome (fp : list nat) s (this : nat) s' nd :
  nodes s !! this = Some nd ->
  updateIsRenderable stage s this = Ok s' ->
  self_frame CoreNode.worldAlpha this fp s s'
  /\ exists nd', nodes s' !! this = Some nd'
       /\ CoreNode.isRenderable nd' = renderable_now stage nd'.
Proof.
  intros Hn. unfold updateIsRenderable.
  rewrite (getNode_lookup _ _ _ Hn). simpl.
  assert (H1 : forall b, self_frame CoreNode.worldAlpha this fp s
                 (putNode s this (CoreNode.set_isRenderable b nd))).
  { intros b. apply (self_frame_putNode _ _ _ _ nd); try done.
    apply mask_le_refl. }
  destruct (Bool.eqb _ _) eqn:Heq; simpl; intros Hrun; injection Hrun as <-.
  - split; [apply self_frame_refl|]. exists nd. split; [done|].
    apply Bool.eqb_prop. exact Heq.
  - unfold onChangeIsRenderable. simpl.
    destruct (Props.texture (CoreNode.props nd)).
    + split; [eapply self_frame_trans; [apply H1 | apply self_frame_emit]|].
      eexists. simpl. rewrite lookup_insert_eq. split; reflexivity.
    + split; [apply H1|].
      eexists. simpl. rewrite lookup_insert_eq. split; reflexivity.
Qed.

Lemma hasFlag_triggers (u : Z) :
  hasFlag u RenderableTriggers = true ->
  hasFlag u UpdateType.WorldAlpha = true
  \/ hasFlag u UpdateType.RenderState = true
  \/ hasFlag u UpdateType.IsRenderable = true.
Proof.
  unfold RenderableTriggers. rewrite !hasFlag_lor_flag, !orb_true_iff. tauto.
Qed.

Lemma updateSelf_post_cached (fuel : nat) s (this : nat)
    (r : Rect.t num) (cut : Z) s1 (cut' : Z) nd (lc : list nat) :
  nodes s !! this = Some nd ->
  ancestors (nodes s) this lc ->
  updateSelf_post stage fuel s this (Props.parent (CoreNode.props nd)) r cut
  = Ok (s1, cut') ->
  exists nd1,
    nodes s1 !! this = Some nd1
    /\ (hasFlag (CoreNode.updateType nd) UpdateType.WorldAlpha = true ->
        worldAlpha_now s nd = Some (CoreNode.worldAlpha nd1))
    /\ (hasFlag (CoreNode.updateType nd) RenderableTriggers = true ->
        CoreNode.isRenderable nd1 = renderable_now stage nd1)
    /\ (forall p, Props.parent (CoreNode.props nd) = Some p ->
          hasFlag (CoreNode.updateType nd) UpdateType.CalculatedZIndex = true ->
          exists pn1,
            nodes s1 !! p = Some pn1
            /\ hasFlag (CoreNode.updateType pn1)
                 UpdateType.ZIndexSortedChildren = true).
Proof.
  intros Hn Hanc Hrun. unfold updateSelf_post in Hrun.
  assert (Htt : forall x y : CoreNode.t num, strip x = strip y ->
                  (fun _ : CoreNode.t num => tt) x
                  = (fun _ : CoreNode.t num => tt) y) by done.
  (* Clipping *)
  apply rbind_Ok in Hrun as (n & Hgn & Hrun). apply getNode_Ok in Hgn.
  assert (n = nd) as -> by congruence.
  apply rbind_Ok in Hrun as ([sA cutA] & HA & Hrun). simpl in Hrun.
  assert (FA : self_frame (fun _ : CoreNode.t num => tt) this lc s sA).
  { destruct (hasFlag (CoreNode.updateType nd) UpdateType.Clipping).
    - apply rbind_Ok in HA as (n' & Hc & HA).
      apply rbind_Ok in HA as (s' & Hset & HA). injection HA as -> _.
      apply calculateClippingRect_inv in Hc as (Hsh & Hk & Hu).
      eapply self_frame_put_setUpdateType with (nd := nd) (nd' := n') (lc := lc);
        [exact Htt|exact Hn|done|done|done|exact Hanc|done|exact Hset].
    - injection HA as <- _. apply self_frame_refl. }
  destruct (self_frame_this _ _ _ _ _ _ FA Hn) as (ndA & HnA & HpA & _ & _ & MA).
  assert (HancA : ancestors (nodes sA) this lc)
    by (by eapply self_frame_ancestors).
  (* WorldAlpha *)
  apply rbind_Ok in Hrun as (n & Hgn' & Hrun). apply getNode_Ok in Hgn'.
  assert (n = ndA) as -> by congruence.
  apply rbind_Ok in Hrun as ([sB cutB] & HB & Hrun). simpl in Hrun.
  assert (FB : self_frame (fun _ : CoreNode.t num => tt) this lc sA sB
               /\ exists ndB,
                    nodes sB !! this = Some ndB
                    /\ (hasFlag (CoreNode.updateType ndA) UpdateType.WorldAlpha
                        = true ->
                        worldAlpha_now s nd = Some (CoreNode.worldAlpha ndB)
                        /\ hasFlag (CoreNode.updateType ndB)
                             UpdateType.IsRenderable = true)).
  { destruct (hasFlag (CoreNode.updateType ndA) UpdateType.WorldAlpha).
    - apply rbind_Ok in HB as (wa & Hwa & HB).
      apply rbind_Ok in HB as (s' & Hset & HB). injection HB as -> _.
      split.
      + eapply self_frame_put_setUpdateType
          with (nd := ndA) (nd' := CoreNode.set_worldAlpha wa ndA) (lc := lc);
          [exact Htt|exact HnA|done|done|done|exact HancA|done|exact Hset].
      + destruct (setUpdateType_pending _ _ _ _ _ Hset) as (ndB & HnB & HleB).
        exists ndB. split; [done|]. intros _. split.
        * assert (Hw : CoreNode.worldAlpha ndB = wa).
          { apply setUpdateType_frame in Hset as [Hfr _].
            pose proof (fmap_lookup_eq _ _ _ this Hfr) as E.
            unfold putNode in E. simpl in E.
            rewrite lookup_insert_eq, HnB in E. simpl in E.
            apply (inj Some) in E. by rewrite (worldAlpha_strip _ _ E). }
          rewrite Hw. unfold worldAlpha_now. rewrite <- HpA.
          rewrite HpA at 1.
          destruct (Props.parent (CoreNode.props nd)) as [p|] eqn:Hp.
          -- apply rbind_Ok in Hwa as (pn & Hpn & Hwa). injection Hwa as <-.
             apply getNode_Ok in Hpn.
             assert (Hne : p <> this).
             { intros ->. apply (ancestors_not_self _ _ _ Hanc).
               inversion Hanc; subst; simplify_eq. by left. }
             destruct FA as (_ & _ & S & _). specialize (S p Hne).
             rewrite Hpn in S.
             destruct (nodes s !! p) as [pn0|]; [|discriminate].
             simpl in S. apply (inj Some) in S. simpl.
             by rewrite (worldAlpha_strip _ _ S).
          -- by injection Hwa as <-.
        * eapply hasFlag_mask_le; [exact HleB | vm_compute; reflexivity].
    - injection HB as <- _. split; [apply self_frame_refl|].
      exists ndA. split; [done|]. discriminate. }
  destruct FB as (FB & ndB & HnB & HoutB).
  destruct (self_frame_this _ _ _ _ _ _ FB HnA) as (x & Hx & HpB & _ & _ & MB).
  assert (x = ndB) as -> by congruence.
  assert (HancB : ancestors (nodes sB) this lc)
    by (by eapply self_frame_ancestors).
  (* PremultipliedColors *)
  apply rbind_Ok in Hrun as (sC & HC & Hrun).
  assert (FC : self_frame CoreNode.worldAlpha this lc sB sC).
  { apply whenFlag_inv in HC as (nx & _ & [[_ Hstep] | [_ ->]]);
      [|apply self_frame_refl].
    eapply self_frame_modifyNode with (f := updatePremultipliedColors);
      [|exact Hstep].
    intros y. destruct (updatePremultipliedColors_core y) as (?&?&?).
    split; [done|]. split; [|done].
    unfold updatePremultipliedColors. by destruct (_ && _). }
  destruct (self_frame_this _ _ _ _ _ _ FC HnB) as (ndC & HnC & HpC & _ & HwC & MC).
  assert (HancC : ancestors (nodes sC) this lc)
    by (by eapply self_frame_ancestors).
  (* RenderState *)
  apply rbind_Ok in Hrun as (sD & HD & Hrun).
  assert (FD : self_frame CoreNode.worldAlpha this lc sC sD
               /\ (hasFlag (CoreNode.updateType ndC) UpdateType.RenderState
                   = true ->
                   exists ndD, nodes sD !! this = Some ndD
                     /\ hasFlag (CoreNode.updateType ndD)
                          UpdateType.IsRenderable = true)).
  { apply whenFlag_inv in HD as (nx & Hnx & [[Hfl Hstep] | [Hfl ->]]).
    - apply rbind_Ok in Hstep as (s' & Hrs & Hset). split.
      + assert (F1 : self_frame CoreNode.worldAlpha this lc sC s')
          by (by eapply updateRenderState_frame_alpha).
        eapply self_frame_trans; [exact F1|].
        eapply (self_frame_setUpdateType CoreNode.worldAlpha worldAlpha_strip
                  _ _ _ _ _ _ _ lc Hset).
        * by eapply self_frame_ancestors.
        * intros m Hm. apply elem_of_cons in Hm as [-> | Hm]; eauto.
      + intros _.
        destruct (setUpdateType_pending _ _ _ _ _ Hset) as (ndD & HnD & HleD).
        exists ndD. split; [done|].
        eapply hasFlag_mask_le; [exact HleD | vm_compute; reflexivity].
    - split; [apply self_frame_refl|]. intros Hfl'.
      assert (nx = ndC) as -> by congruence. congruence. }
  destruct FD as (FD & HoutD).
  destruct (self_frame_this _ _ _ _ _ _ FD HnC) as (ndD & HnD & HpD & _ & HwD & MD).
  assert (HancD : ancestors (nodes sD) this lc)
    by (by eapply self_frame_ancestors).
  (* IsRenderable *)
  apply rbind_Ok in Hrun as (sE & HE & Hrun).
  assert (FE : self_frame CoreNode.worldAlpha this lc sD sE
               /\ (hasFlag (CoreNode.updateType ndD) UpdateType.IsRenderable
                   = true ->
                   exists ndE, nodes sE !! this = Some ndE
                     /\ CoreNode.isRenderable ndE = renderable_now stage ndE)).
  { apply whenFlag_inv in HE as (nx & Hnx & [[Hfl Hstep] | [Hfl ->]]).
    - destruct (updateIsRenderable_outcome lc _ _ _ _ HnD Hstep) as [F1 Hout].
      split; [exact F1 | by intros _].
    - split; [apply self_frame_refl|]. intros Hfl'.
      assert (nx = ndD) as -> by congruence. congruence. }
  destruct FE as (FE & HoutE).
  destruct (self_frame_this _ _ _ _ _ _ FE HnD) as (ndE & HnE & HpE & _ & HwE & ME).
  assert (HancE : ancestors (nodes sE) this lc)
    by (by eapply self_frame_ancestors).
  (* CalculatedZIndex *)
  apply rbind_Ok in Hrun as (n & Hgn'' & Hrun). apply getNode_Ok in Hgn''.
  assert (n = ndE) as -> by congruence.
  apply rbind_Ok in Hrun as (sF & HF & Hrun). injection Hrun as <- _.
  assert (FF : self_frame (keepVisible stage) this lc sE sF
               /\ forall p, Props.parent (CoreNode.props nd) = Some p ->
                    hasFlag (CoreNode.updateType ndE)
                      UpdateType.CalculatedZIndex = true ->
                    exists pn1,
                      nodes sF !! p = Some pn1
                      /\ hasFlag (CoreNode.updateType pn1)
                           UpdateType.ZIndexSortedChildren = true).
  { destruct (Props.parent (CoreNode.props nd)) as [p|] eqn:Hp;
      [|injection HF as <-; split; [apply self_frame_refl | done]].
    destruct (hasFlag (CoreNode.updateType ndE) UpdateType.CalculatedZIndex);
      [|injection HF as <-; split; [apply self_frame_refl | done]].
    apply rbind_Ok in HF as (pn & Hpn & HF). apply getNode_Ok in Hpn.
    assert (Hne : p <> this).
    { intros ->. apply (ancestors_not_self _ _ _ Hanc).
      inversion Hanc; subst; simplify_eq. by left. }
    split.
    - assert (F1 : self_frame (keepVisible stage) this lc sE
                     (putNode sE this (calculateZIndex (Some pn) ndE))).
      { apply (self_frame_putNode _ _ _ _ ndE); try done. apply mask_le_refl. }
      eapply self_frame_trans; [exact F1|].
      inversion HancE as [? ? Hn0 Hp0 | ? p0 ? lc' Hn0 Hp0 Hlc']; subst;
        assert (nd0 = ndE) as -> by congruence; [congruence|].
      assert (p0 = p) as -> by congruence.
      eapply (self_frame_setUpdateType (keepVisible stage) keepVisible_strip
                _ _ _ _ _ _ _ lc' HF).
      + eapply self_frame_ancestors; [exact F1 | exact Hlc'].
      + intros m Hm. by right.
    - intros p' [= <-] _.
      eapply (hasFlag_after_setUpdateType _ _ _ _ _ pn); [done | exact HF|].
      unfold putNode. simpl. by rewrite lookup_insert_ne. }
  destruct FF as (FF & HoutF).
  destruct (self_frame_this _ _ _ _ _ _ FF HnE) as (nd1 & Hn1 & _ & _ & Hk1 & _).
  unfold keepVisible in Hk1. injection Hk1 as Hw1 Hi1 Hr1.
  exists nd1. split; [done|].
  assert (Mnd_A : mask_le (CoreNode.updateType nd) (CoreNode.updateType ndA))
    by done.
  assert (Mnd_C : mask_le (CoreNode.updateType nd) (CoreNode.updateType ndC)).
  { eapply mask_le_trans; [exact MA|]. by eapply mask_le_trans. }
  assert (Mnd_D : mask_le (CoreNode.updateType nd) (CoreNode.updateType ndD))
    by (by eapply mask_le_trans).
  assert (Mnd_E : mask_le (CoreNode.updateType nd) (CoreNode.updateType ndE))
    by (by eapply mask_le_trans).
  split; [|split].
  - intros Hfl. destruct (HoutB (hasFlag_mask_le _ _ _ MA Hfl)) as [-> _].
    f_equal. congruence.
  - intros Hfl.
    assert (Hir : hasFlag (CoreNode.updateType ndD) UpdateType.IsRenderable
                  = true).
    { destruct (hasFlag_triggers _ Hfl) as [Hwa | [Hrs | Hir]].
      - destruct (HoutB (hasFlag_mask_le _ _ _ MA Hwa)) as [_ HirB].
        eapply hasFlag_mask_le; [|exact HirB]. by eapply mask_le_trans.
      - destruct (HoutD (hasFlag_mask_le _ _ _ Mnd_C Hrs)) as (x & Hx' & HirD).
        by assert (x = ndD) as -> by congruence.
      - by eapply hasFlag_mask_le. }
    destruct (HoutE Hir) as (x & Hx' & Hren).
    assert (x = ndE) as -> by congruence. congruence.
  - intros p Hp Hfl. apply (HoutF p Hp). by eapply hasFlag_mask_le.
Qed.

Lemma worldAlpha_now_strip s s' nd nd' :
  CoreNode.props nd' = CoreNode.props nd ->
  (forall p, Props.parent (CoreNode.props nd) = Some p ->
     strip <$> nodes s' !! p = strip <$> nodes s !! p) ->
  worldAlpha_now s' nd' = worldAlpha_now s nd.
Proof.
  intros Hp Hs. unfold worldAlpha_now. rewrite Hp.
  destruct (Props.parent (CoreNode.props nd)) as [p|]; [|done].
  specialize (Hs p eq_refl).
  destruct (nodes s' !! p) as [a|], (nodes s !! p) as [b|];
    simpl in *; try done.
  apply (inj Some) in Hs. by rewrite (worldAlpha_strip _ _ Hs).
Qed.

Lemma parent_not_self h (this p : nat) nd (lc : list nat) :
  ancestors h this lc -> h !! this = Some nd ->
  Props.parent (CoreNode.props nd) = Some p -> p <> this /\ p ∈ lc.
Proof.
  intros Hanc Hn Hp.
  assert (Hin : p ∈ lc) by (inversion Hanc; subst; simplify_eq; by left).
  split; [|done]. intros ->. by apply (ancestors_not_self _ _ _ Hanc).
Qed.

(** The steps on the node: what they leave in the caches. *)
Lemma updateSelf_cached (fuel : nat) s (this : nat) (r : Rect.t num) s1
    (cut : Z) nd (lc : list nat) :
  children_point_back (nodes s) ->
  nodes s !! this = Some nd ->
  ancestors (nodes s) this lc ->
  updateSelf stage fuel s this r = Ok (s1, cut) ->
  exists nd1,
    nodes s1 !! this = Some nd1
    /\ (hasFlag (CoreNode.updateType nd) UpdateType.WorldAlpha = true ->
        worldAlpha_now s nd = Some (CoreNode.worldAlpha nd1))
    /\ (hasFlag (CoreNode.updateType nd) RenderableTriggers = true ->
        CoreNode.isRenderable nd1 = renderable_now stage nd1)
    /\ (forall p, Props.parent (CoreNode.props nd) = Some p ->
          hasFlag (CoreNode.updateType nd) UpdateType.CalculatedZIndex = true ->
          exists pn1,
            nodes s1 !! p = Some pn1
            /\ hasFlag (CoreNode.updateType pn1)
                 UpdateType.ZIndexSortedChildren = true).
Proof.
  intros Hcpb Hn Hanc Hrun. unfold updateSelf in Hrun.
  set (fp := lc ++ CoreNode.children nd).
  assert (Hk1 : forall x y : CoreNode.t num,
            CoreNode.parentHasRenderTexture x = CoreNode.parentHasRenderTexture y ->
            (fun _ : CoreNode.t num => tt) x = (fun _ : CoreNode.t num => tt) y)
    by done.
  assert (Hlcfp : lc ⊆ fp) by (unfold fp; set_solver).
  (* ScaleRotate, Local *)
  apply rbind_Ok in Hrun as (sT & HT & Hrun).
  destruct (updateSelf_transforms_spec _ _ _ _ _ _ Hn Hanc HT) as [FT _].
  destruct (self_frame_this _ _ _ _ _ _ FT Hn)
    as (ndT & HnT & HpT & HcT & _ & HleT).
  apply rbind_Ok in Hrun as (n & Hgn & Hrun). apply getNode_Ok in Hgn.
  assert (n = ndT) as -> by congruence. simpl in Hrun.
  (* the render-texture steps *)
  apply rbind_Ok in Hrun as (sR & HR & Hrun).
  assert (HcpbT : children_point_back (nodes sT))
    by (by eapply self_frame_children_point_back).
  assert (HancT : ancestors (nodes sT) this lc)
    by (by eapply self_frame_ancestors).
  destruct (updateSelf_rtt_spec _ _ _ _ _ _ HcpbT HnT HancT HR)
    as (FR & ndR & HnR & _).
  rewrite HcT in FR. fold fp in FR.
  destruct (self_frame_this _ _ _ _ _ _ FR HnT)
    as (x & Hx & HpR & _ & _ & HleR).
  assert (x = ndR) as -> by congruence.
  assert (HancR : ancestors (nodes sR) this lc)
    by (by eapply self_frame_ancestors).
  (* Global *)
  apply rbind_Ok in Hrun as ([sG cutG] & HG & Hrun). simpl in Hrun.
  rewrite <- HpR in HG, Hrun.
  destruct (updateSelf_global_spec _ _ _ _ _ _ _ _ HnR HancR HG) as [FG _].
  destruct (self_frame_this _ _ _ _ _ _ FG HnR)
    as (ndG & HnG & HpG & _ & _ & HleG).
  assert (HancG : ancestors (nodes sG) this lc)
    by (by eapply self_frame_ancestors).
  (* Clipping ... CalculatedZIndex *)
  rewrite <- HpG in Hrun.
  destruct (updateSelf_post_cached _ _ _ _ _ _ _ _ _ HnG HancG Hrun)
    as (nd1 & Hn1 & Hwa & Hren & Hz).
  assert (F0G : self_frame (fun _ : CoreNode.t num => tt) this fp s sG).
  { eapply self_frame_trans;
      [eapply self_frame_weaken; [exact Hk1 | exact Hlcfp | exact FT]|].
    eapply self_frame_trans; [exact FR|].
    eapply self_frame_weaken; [exact Hk1 | exact Hlcfp | exact FG]. }
  assert (HleG0 : mask_le (CoreNode.updateType nd) (CoreNode.updateType ndG)).
  { eapply mask_le_trans; [exact HleT|]. by eapply mask_le_trans. }
  assert (HpG0 : CoreNode.props ndG = CoreNode.props nd) by congruence.
  exists nd1. split; [done|]. split; [|split].
  - intros Hfl. rewrite <- (Hwa (hasFlag_mask_le _ _ _ HleG0 Hfl)).
    symmetry. apply worldAlpha_now_strip; [done|].
    intros p Hp. destruct F0G as (_ & _ & S & _). apply S.
    by apply (parent_not_self _ _ _ _ _ Hanc Hn Hp).
  - intros Hfl. apply Hren. by eapply hasFlag_mask_le.
  - intros p Hp Hfl. apply (Hz p); [congruence|]. by eapply hasFlag_mask_le.
Qed.

(** *** The pass, piece by piece *)

Lemma update_anatomy (fuel : nat) (delta : num) s (this : nat)
    (r : Rect.t num) s' :
  update stage (S fuel) s this delta r = Ok s' ->
  exists s1 cut n1 s2 n2 s3 n3,
    updateSelf stage fuel s this r = Ok (s1, cut)
    /\ nodes s1 !! this = Some n1
    /\ (if hasFlag (CoreNode.updateType n1) UpdateType.Children
           && negb (Nat.eqb (List.length (CoreNode.children n1)) 0)
           && negb (Props.rtt (CoreNode.props n1))
        then
          forEach_update (fun s child r => update stage fuel s child delta r)
            fuel this cut (List.length (CoreNode.children n1)) O s1
        else Ok s1) = Ok s2
    /\ nodes s2 !! this = Some n2
    /\ (if hasFlag (CoreNode.updateType n2) UpdateType.ZIndexSortedChildren
        then sortChildren s2 this
        else Ok s2) = Ok s3
    /\ nodes s3 !! this = Some n3
    /\ s' = putNode s3 this (CoreNode.set_updateType 0 n3).
Proof.
  intros Hrun. simpl in Hrun.
  apply rbind_Ok in Hrun as ([s1 cut] & Hself & Hrun). simpl in Hrun.
  apply rbind_Ok in Hrun as (n1 & Hn1 & Hrun). apply getNode_Ok in Hn1.
  apply rbind_Ok in Hrun as (s2 & H2 & Hrun).
  apply rbind_Ok in Hrun as (n2 & Hn2 & Hrun). apply getNode_Ok in Hn2.
  apply rbind_Ok in Hrun as (s3 & H3 & Hrun).
  unfold modifyNode in Hrun.
  apply rbind_Ok in Hrun as (n3 & Hn3 & Hrun). apply getNode_Ok in Hn3.
  injection Hrun as <-.
  exists s1, cut, n1, s2, n2, s3, n3. done.
Qed.

(** The node after the pass: the caches are those that the steps on the
    node left, the children are reordered at most. *)
Lemma update_tail_node (fuel : nat) (delta : num) s (this : nat)
    (r : Rect.t num) s' (lc : list nat) :
  children_point_back (nodes s) ->
  ancestors (nodes s) this lc ->
  update stage (S fuel) s this delta r = Ok s' ->
  exists s1 cut n1 nd',
    updateSelf stage fuel s this r = Ok (s1, cut)
    /\ nodes s1 !! this = Some n1
    /\ pass_frame this lc s1 s'
    /\ nodes s' !! this = Some nd'
    /\ strip nd' = strip (CoreNode.set_children (CoreNode.children nd') n1)
    /\ CoreNode.children nd' ≡ₚ CoreNode.children n1.
Proof.
  intros Hcpb Hanc Hrun.
  destruct (update_tail stage fuel delta s this r s' lc
              (update_frame stage delta fuel) Hcpb Hanc Hrun)
    as (s1' & cut' & Hself' & F & _).
  destruct (update_anatomy _ _ _ _ _ _ Hrun)
    as (s1 & cut & n1 & s2 & n2 & s3 & n3 & Hself & Hn1 & H2 & Hn2 & H3
        & Hn3 & ->).
  assert (s1' = s1) as -> by congruence.
  assert (exists nd, nodes s !! this = Some nd) as [nd Hn]
    by (inversion Hanc; eauto).
  destruct (updateSelf_spec stage _ _ _ _ _ _ _ _ Hcpb Hn Hanc Hself) as [F1 _].
  assert (Hcpb1 : children_point_back (nodes s1))
    by (by eapply self_frame_children_point_back).
  assert (Hanc1 : ancestors (nodes s1) this lc)
    by (by eapply self_frame_ancestors).
  assert (S2 : strip <$> nodes s2 !! this = strip <$> nodes s1 !! this).
  { destruct (_ && _).
    - refine (proj2 (forEach_update_frame _ fuel this lc cut _ _ _ _ _
                       Hcpb1 Hanc1 H2)).
      intros sx c rx sx' Hcx Hax Hux.
      exact (update_frame stage delta fuel _ _ _ _ _ Hcx Hax Hux).
    - by injection H2 as <-. }
  assert (E2 : strip n2 = strip n1).
  { rewrite Hn2, Hn1 in S2. simpl in S2. by apply (inj Some) in S2. }
  assert (E3 : exists cs, n3 = CoreNode.set_children cs n2
                          /\ cs ≡ₚ CoreNode.children n2).
  { destruct (hasFlag (CoreNode.updateType n2)
                UpdateType.ZIndexSortedChildren).
    - apply sortChildren_inv in H3 as (x & cs' & Hx & -> & Hperm).
      assert (x = n2) as -> by congruence.
      exists cs'. split; [|done].
      unfold putNode in Hn3. simpl in Hn3.
      rewrite lookup_insert_eq in Hn3. congruence.
    - injection H3 as <-. exists (CoreNode.children n2).
      split; [|done]. assert (n3 = n2) as -> by congruence. by destruct n2. }
  destruct E3 as (cs & -> & Hperm).
  exists s1, cut, n1. eexists. split; [done|]. split; [done|].
  split; [done|]. split.
  { unfold putNode. simpl. by rewrite lookup_insert_eq. }
  pose proof (shape_strip _ _ E2) as Sh. unfold shape in Sh.
  injection Sh as _ Sc.
  split; [|simpl; by rewrite Hperm, Sc].
  simpl.
  change (CoreNode.set_children cs (strip n2)
          = CoreNode.set_children cs (strip n1)).
  by rewrite E2.
Qed.

(** *** World alpha and renderability after the pass *)

Lemma update_tail_caches (fuel : nat) (delta : num) s (this : nat)
    (r : Rect.t num) s' nd (lc : list nat) :
  children_point_back (nodes s) ->
  ancestors (nodes s) this lc ->
  nodes s !! this = Some nd ->
  update stage (S fuel) s this delta r = Ok s' ->
  exists s1 cut n1 nd',
    updateSelf stage fuel s this r = Ok (s1, cut)
    /\ nodes s1 !! this = Some n1
    /\ nodes s' !! this = Some nd'
    /\ keepVisible stage nd' = keepVisible stage n1
    /\ CoreNode.props nd' = CoreNode.props nd
    /\ forall m, m ∈ lc ->
         strip <$> nodes s' !! m = strip <$> nodes s !! m.
Proof.
  intros Hcpb Hanc Hn Hrun.
  destruct (update_tail_node _ _ _ _ _ _ _ Hcpb Hanc Hrun)
    as (s1 & cut & n1 & nd' & Hself & Hn1 & F & Hn' & Hs & _).
  destruct (updateSelf_spec stage _ _ _ _ _ _ _ _ Hcpb Hn Hanc Hself) as [F1 _].
  destruct (self_frame_this _ _ _ _ _ _ F1 Hn) as (x & Hx & Hp1 & _).
  assert (x = n1) as -> by congruence.
  exists s1, cut, n1, nd'. split; [done|]. split; [done|]. split; [done|].
  split; [|split].
  - by rewrite (keepVisible_strip _ _ Hs).
  - pose proof (shape_strip _ _ Hs) as Sh. unfold shape in Sh. simpl in Sh.
    injection Sh as Sp. congruence.
  - intros m Hm.
    assert (Hanc1 : ancestors (nodes s1) this lc)
      by (by eapply self_frame_ancestors).
    destruct F as (_ & _ & S & _).
    rewrite (S m (ancestor_not_below _ _ _ _ Hanc1 Hm)).
    destruct F1 as (_ & _ & S1 & _). apply S1.
    intros ->. by apply (ancestors_not_self _ _ _ Hanc).
Qed.

(** X20.  The world alpha after a pass.  When [update] completes on a
    node on which [WorldAlpha] was pending, in a tree whose children
    name their owner, the world alpha of the node is its [alpha] times
    the world alpha that its parent has in the final state, and its
    [alpha] itself when it has no parent. *)
Theorem update_refreshes_worldAlpha (fuel : nat) (delta : num) s
    (this : nat) (r : Rect.t num) s' nd (lc : list nat) :
  children_point_back (nodes s) ->
  ancestors (nodes s) this lc ->
  nodes s !! this = Some nd ->
  hasFlag (CoreNode.updateType nd) UpdateType.WorldAlpha = true ->
  update stage fuel s this delta r = Ok s' ->
  exists nd',
    nodes s' !! this = Some nd'
    /\ CoreNode.props nd' = CoreNode.props nd
    /\ worldAlpha_now s' nd' = Some (CoreNode.worldAlpha nd').
Proof.
  intros Hcpb Hanc Hn Hfl Hrun.
  destruct fuel as [|fuel]; [discriminate|].
  destruct (update_tail_caches _ _ _ _ _ _ _ _ Hcpb Hanc Hn Hrun)
    as (s1 & cut & n1 & nd' & Hself & Hn1 & Hn' & Hk & Hp & Hlc).
  destruct (updateSelf_cached _ _ _ _ _ _ _ _ Hcpb Hn Hanc Hself)
    as (x & Hx & Hwa & _).
  assert (x = n1) as -> by congruence.
  exists nd'. split; [done|]. split; [done|].
  unfold keepVisible in Hk. injection Hk as Hw _ _.
  rewrite Hw, <- (Hwa Hfl).
  apply worldAlpha_now_strip; [done|].
  intros p Hpar. apply Hlc.
  by apply (parent_not_self _ _ _ _ _ Hanc Hn Hpar).
Qed.

(** X21.  Renderability after a pass.  When [update] completes on a node
    on which [WorldAlpha], [RenderState] or [IsRenderable] was pending,
    [isRenderable] agrees with the final world alpha, props and render
    state of the node: it is false when the world alpha is strictly 0 or
    [checkRenderProps] fails, and otherwise tells whether the render
    state is above [OutOfBounds]. *)
Theorem update_refreshes_isRenderable (fuel : nat) (delta : num) s
    (this : nat) (r : Rect.t num) s' nd (lc : list nat) :
  children_point_back (nodes s) ->
  ancestors (nodes s) this lc ->
  nodes s !! this = Some nd ->
  hasFlag (CoreNode.updateType nd) RenderableTriggers = true ->
  update stage fuel s this delta r = Ok s' ->
  exists nd',
    nodes s' !! this = Some nd'
    /\ CoreNode.props nd' = CoreNode.props nd
    /\ CoreNode.isRenderable nd' = renderable_now stage nd'.
Proof.
  intros Hcpb Hanc Hn Hfl Hrun.
  destruct fuel as [|fuel]; [discriminate|].
  destruct (update_tail_caches _ _ _ _ _ _ _ _ Hcpb Hanc Hn Hrun)
    as (s1 & cut & n1 & nd' & Hself & Hn1 & Hn' & Hk & Hp & _).
  destruct (updateSelf_cached _ _ _ _ _ _ _ _ Hcpb Hn Hanc Hself)
    as (x & Hx & _ & Hren & _).
  assert (x = n1) as -> by congruence.
  exists nd'. split; [done|]. split; [done|].
  unfold keepVisible in Hk. injection Hk as _ Hi Hr.
  rewrite Hi, Hr. by apply Hren.
Qed.

(** *** Masks outside the subtree *)

Lemma masks_grow_refl (P : nat -> Prop) s : masks_grow P s s.
Proof. intros m md _ Hm. exists md. split; [done | apply mask_le_refl]. Qed.

Lemma masks_grow_trans (P Q : nat -> Prop) s1 s2 s3 :
  masks_grow P s1 s2 -> masks_grow Q s2 s3 -> (forall m, P m -> Q m) ->
  masks_grow P s1 s3.
Proof.
  intros H12 H23 HPQ m md HP Hm.
  destruct (H12 m md HP Hm) as (md2 & Hm2 & Hle2).
  destruct (H23 m md2 (HPQ m HP) Hm2) as (md3 & Hm3 & Hle3).
  exists md3. split; [done | by eapply mask_le_trans].
Qed.

Lemma masks_grow_weaken (P Q : nat -> Prop) s s' :
  masks_grow Q s s' -> (forall m, P m -> Q m) -> masks_grow P s s'.
Proof. intros H HPQ m md HP Hm. by apply H; [apply HPQ|]. Qed.

Lemma masks_grow_flags (P : nat -> Prop) s s' :
  flags_grow s s' -> masks_grow P s s'.
Proof.
  intros Hgr m md _ Hm. destruct (Hgr m md Hm) as (md' & Hm' & _ & Hle).
  eauto.
Qed.

Lemma masks_grow_putNode (P : nat -> Prop) s (this : nat) n :
  (forall m, P m -> m <> this) -> masks_grow P s (putNode s this n).
Proof.
  intros HP m md Hm Hl. exists md. unfold putNode. simpl.
  rewrite lookup_insert_ne by (apply not_eq_sym; by apply HP).
  split; [done | apply mask_le_refl].
Qed.

Lemma not_below_parents h h' (c m : nat) :
  parents h' = parents h -> ~ below h c m -> ~ below h' c m.
Proof. intros E Hnb Hb. apply Hnb. by eapply below_parents. Qed.

(** [child.setUpdateType(childUpdateType)], seen from the parent. *)
Lemma setUpdateType_child_frame (fuel : nat) s (this child : nat)
    (lc : list nat) (cut : Z) sa :
  children_point_back (nodes s) ->
  ancestors (nodes s) this lc ->
  kid (nodes s) this child ->
  setUpdateType fuel s child cut = Ok sa ->
  pass_frame this lc s sa
  /\ strip <$> nodes sa = strip <$> nodes s
  /\ flags_grow s sa.
Proof.
  intros Hcpb Hanc Hkid Hset.
  pose proof (child_ancestors _ _ _ _ Hcpb Hanc Hkid) as Hc.
  pose proof Hset as Hfr. apply setUpdateType_frame in Hfr as [Hfr _].
  split; [|split; [done | by apply setUpdateType_grows in Hset as [? _]]].
  split; [by apply strip_parents|].
  split; [by apply kids_perm_eq, strip_kids|].
  split; [intros m _; by rewrite <- !lookup_fmap, Hfr|].
  intros m Hm Hlc.
  eapply setUpdateType_footprint; [exact Hset | exact Hc|].
  intros Hin. apply elem_of_cons in Hin as [-> | Hin].
  - apply Hm. by eapply below_child, below_self.
  - apply elem_of_cons in Hin as [-> | Hin]; [|done].
    apply Hm. by eapply below_self.
Qed.

(** The visit of the children leaves the masks of the node itself and
    of the nodes outside its subtree grown. *)
Lemma forEach_update_grows
    (upd : State num -> nat -> Rect.t num -> result (State num))
    (fuel : nat) (this : nat) (lc : list nat) (cut : Z) :
  (forall s c r s',
      children_point_back (nodes s) ->
      ancestors (nodes s) c (this :: lc) ->
      upd s c r = Ok s' ->
      pass_frame c (this :: lc) s s'
      /\ masks_grow (fun m => ~ below (nodes s) c m) s s') ->
  forall (count k : nat) s s',
    children_point_back (nodes s) ->
    ancestors (nodes s) this lc ->
    forEach_update upd fuel this cut count k s = Ok s' ->
    masks_grow (fun m => m = this \/ ~ below (nodes s) this m) s s'.
Proof.
  intros Hupd. induction count as [|count IH]; intros k s s' Hcpb Hanc Hrun;
    simpl in Hrun.
  - injection Hrun as <-. apply masks_grow_refl.
  - apply rbind_Ok in Hrun as (n & Hn & Hrun). apply getNode_Ok in Hn.
    destruct (CoreNode.children n !! k) as [child|] eqn:Hk;
      [|by apply IH in Hrun].
    assert (Hkid : kid (nodes s) this child).
    { exists n. split; [done|]. by eapply list_elem_of_lookup_2. }
    pose proof (child_ancestors _ _ _ _ Hcpb Hanc Hkid) as Hc.
    apply rbind_Ok in Hrun as (sa & Hset & Hrun).
    destruct (setUpdateType_child_frame _ _ _ _ _ _ _ Hcpb Hanc Hkid Hset)
      as (Fa & Sa & Ga).
    assert (Hcpba : children_point_back (nodes sa))
      by (by eapply pass_frame_children_point_back).
    assert (Hanca : ancestors (nodes sa) this lc)
      by (by eapply pass_frame_ancestors).
    assert (Pa : parents (nodes sa) = parents (nodes s)) by (by destruct Fa).
    apply rbind_Ok in Hrun as (cn & Hcn & Hrun).
    destruct (CoreNode.updateType cn =? 0)%Z.
    + eapply (masks_grow_trans _ _ _ sa);
        [by apply masks_grow_flags | by eapply IH|].
      intros m [-> | Hm]; [by left | right].
      by apply (not_below_parents (nodes s)).
    + apply rbind_Ok in Hrun as (n' & Hn' & Hrun).
      apply rbind_Ok in Hrun as (sb & Hb & Hrun).
      assert (Hca : ancestors (nodes sa) child (this :: lc))
        by (by eapply pass_frame_ancestors).
      destruct (Hupd _ _ _ _ Hcpba Hca Hb) as [Fb Gb].
      destruct (pass_frame_child this child lc sa sb Hanca Hca Fb)
        as [Fb' _].
      assert (Hcpbb : children_point_back (nodes sb))
        by (by eapply pass_frame_children_point_back).
      assert (Hancb : ancestors (nodes sb) this lc)
        by (by eapply pass_frame_ancestors).
      assert (Pb : parents (nodes sb) = parents (nodes sa))
        by (by destruct Fb).
      assert (G2 : masks_grow
                     (fun m => m = this \/ ~ below (nodes s) this m) sa sb).
      { eapply masks_grow_weaken; [exact Gb|]. intros m [-> | Hm].
        - eapply ancestor_not_below; [exact Hca | by left].
        - intros Hb'. apply Hm. eapply below_parents; [exact Pa|].
          by eapply below_child. }
      assert (G3 : masks_grow
                     (fun m => m = this \/ ~ below (nodes s) this m) sb s').
      { eapply masks_grow_weaken; [by eapply IH|].
        intros m [-> | Hm]; [by left | right].
        apply (not_below_parents (nodes sa)); [done|].
        by apply (not_below_parents (nodes s)). }
      set (P := fun m => m = this \/ ~ below (nodes s) this m) in *.
      apply (masks_grow_trans P P _ sa);
        [by apply masks_grow_flags | | done].
      by apply (masks_grow_trans P P _ sb).
Qed.

(** The part of [update] that follows the steps on the node. *)
Lemma update_rest_grows (fuel : nat) (delta : num) (this : nat)
    (lc : list nat) (cut : Z) s1 n1 s2 n2 s3 n3 :
  (forall s c r s' lc',
      children_point_back (nodes s) -> ancestors (nodes s) c lc' ->
      update stage fuel s c delta r = Ok s' ->
      masks_grow (fun m => ~ below (nodes s) c m) s s') ->
  children_point_back (nodes s1) ->
  ancestors (nodes s1) this lc ->
  nodes s1 !! this = Some n1 ->
  (if hasFlag (CoreNode.updateType n1) UpdateType.Children
      && negb (Nat.eqb (List.length (CoreNode.children n1)) 0)
      && negb (Props.rtt (CoreNode.props n1))
   then
     forEach_update (fun s child r => update stage fuel s child delta r)
       fuel this cut (List.length (CoreNode.children n1)) O s1
   else Ok s1) = Ok s2 ->
  nodes s2 !! this = Some n2 ->
  (if hasFlag (CoreNode.updateType n2) UpdateType.ZIndexSortedChildren
   then sortChildren s2 this
   else Ok s2) = Ok s3 ->
  masks_grow (fun m => m = this \/ ~ below (nodes s1) this m) s1 s2
  /\ masks_grow (fun m => ~ below (nodes s1) this m) s1
       (putNode s3 this n3).
Proof.
  intros IH Hcpb1 Hanc1 Hn1 H2 Hn2 H3.
  assert (G2 : masks_grow (fun m => m = this \/ ~ below (nodes s1) this m)
                 s1 s2).
  { destruct (_ && _).
    - eapply forEach_update_grows; [|done|done|exact H2].
      intros sx c rx sx' Hcx Hax Hux. split.
      + exact (update_frame stage delta fuel _ _ _ _ _ Hcx Hax Hux).
      + exact (IH _ _ _ _ _ Hcx Hax Hux).
    - injection H2 as <-. apply masks_grow_refl. }
  split; [done|].
  assert (Hne : forall m, ~ below (nodes s1) this m -> m <> this).
  { intros m Hnb ->. apply Hnb. by eapply below_self. }
  set (P := fun m => ~ below (nodes s1) this m).
  apply (masks_grow_trans P P _ s2);
    [eapply masks_grow_weaken; [exact G2 | by right] | | done].
  apply (masks_grow_trans P P _ s3); [| by apply masks_grow_putNode | done].
  destruct (hasFlag (CoreNode.updateType n2) UpdateType.ZIndexSortedChildren).
  - apply sortChildren_inv in H3 as (x & cs' & _ & -> & _).
    by apply masks_grow_putNode.
  - injection H3 as <-. apply masks_grow_refl.
Qed.

(** A pass leaves the masks of the nodes outside the subtree grown. *)
Lemma update_grows (delta : num) (fuel : nat) :
  forall s (this : nat) (r : Rect.t num) s' (lc : list nat),
    children_point_back (nodes s) ->
    ancestors (nodes s) this lc ->
    update stage fuel s this delta r = Ok s' ->
    masks_grow (fun m => ~ below (nodes s) this m) s s'.
Proof.
  induction fuel as [|fuel IH]; intros s this r s' lc Hcpb Hanc Hrun;
    [discriminate|].
  assert (exists nd, nodes s !! this = Some nd) as [nd Hn]
    by (inversion Hanc; eauto).
  destruct (update_anatomy _ _ _ _ _ _ Hrun)
    as (s1 & cut & n1 & s2 & n2 & s3 & n3 & Hself & Hn1 & H2 & Hn2 & H3
        & Hn3 & ->).
  destruct (updateSelf_spec stage _ _ _ _ _ _ _ _ Hcpb Hn Hanc Hself) as [F1 _].
  assert (Hcpb1 : children_point_back (nodes s1))
    by (by eapply self_frame_children_point_back).
  assert (Hanc1 : ancestors (nodes s1) this lc)
    by (by eapply self_frame_ancestors).
  assert (P1 : parents (nodes s1) = parents (nodes s)) by (by destruct F1).
  destruct (update_rest_grows fuel delta this lc cut s1 n1 s2 n2 s3
              (CoreNode.set_updateType 0 n3) IH Hcpb1 Hanc1 Hn1 H2 Hn2 H3)
    as [_ G].
  set (P := fun m => ~ below (nodes s) this m).
  apply (masks_grow_trans P (fun m => ~ below (nodes s1) this m) _ s1);
    [|exact G|].
  - eapply masks_grow_weaken;
      [exact (self_steps_grow _ _ _ (updateSelf_steps _ _ _ _ _ _ Hself))|].
    intros m Hnb ->. apply Hnb. by eapply below_self.
  - intros m Hm. by apply (not_below_parents (nodes s)).
Qed.

(** A pass on a node whose calculated z-index was pending flags the
    parent for a sort. *)
Lemma update_flags_parent (fuel : nat) (delta : num) s (c p : nat)
    (r : Rect.t num) s' cn (lc : list nat) :
  children_point_back (nodes s) ->
  ancestors (nodes s) c (p :: lc) ->
  nodes s !! c = Some cn ->
  hasFlag (CoreNode.updateType cn) UpdateType.CalculatedZIndex = true ->
  update stage fuel s c delta r = Ok s' ->
  exists pn', nodes s' !! p = Some pn'
    /\ hasFlag (CoreNode.updateType pn') UpdateType.ZIndexSortedChildren
       = true.
Proof.
  intros Hcpb Hanc Hn Hfl Hrun.
  destruct fuel as [|fuel]; [discriminate|].
  destruct (update_anatomy _ _ _ _ _ _ Hrun)
    as (s1 & cut & n1 & s2 & n2 & s3 & n3 & Hself & Hn1 & H2 & Hn2 & H3
        & Hn3 & ->).
  destruct (updateSelf_spec stage _ _ _ _ _ _ _ _ Hcpb Hn Hanc Hself) as [F1 _].
  assert (Hcpb1 : children_point_back (nodes s1))
    by (by eapply self_frame_children_point_back).
  assert (Hanc1 : ancestors (nodes s1) c (p :: lc))
    by (by eapply self_frame_ancestors).
  destruct (updateSelf_cached _ _ _ _ _ _ _ _ Hcpb Hn Hanc Hself)
    as (x & _ & _ & _ & Hz).
  assert (Hpar : Props.parent (CoreNode.props cn) = Some p)
    by (inversion Hanc; subst; simplify_eq; done).
  destruct (Hz p Hpar Hfl) as (pn1 & Hpn1 & Hfl1).
  destruct (update_rest_grows fuel delta c (p :: lc) cut s1 n1 s2 n2 s3
              (CoreNode.set_updateType 0 n3) (update_grows delta fuel)
              Hcpb1 Hanc1 Hn1 H2 Hn2 H3) as [_ G].
  destruct (G p pn1) as (pn' & Hpn' & Hle); [|done|].
  { eapply ancestor_not_below; [exact Hanc1 | by left]. }
  exists pn'. split; [done|]. by eapply hasFlag_mask_le.
Qed.

Lemma strip_children (x y : CoreNode.t num) :
  strip x = strip y -> CoreNode.children x = CoreNode.children y.
Proof.
  intros E. pose proof (shape_strip _ _ E) as Sh. unfold shape in Sh.
  by injection Sh.
Qed.

Lemma hasFlag_nonzero (u flag : Z) :
  hasFlag u flag = true -> (u =? 0)%Z = false.
Proof.
  intros Hfl. destruct (Z.eqb_spec u 0) as [->|]; [|done].
  by rewrite hasFlag_0 in Hfl.
Qed.

(** The visit of the children: a child whose calculated z-index is
    pending when its turn comes leaves the node flagged for a sort. *)
Lemma forEach_update_flags (fuel : nat) (delta : num) (this : nat)
    (lc : list nat) (cut : Z) :
  forall (count k : nat) s s' n,
    children_point_back (nodes s) ->
    kids_NoDup (nodes s) ->
    ancestors (nodes s) this lc ->
    nodes s !! this = Some n ->
    forEach_update (fun s c r => update stage fuel s c delta r) fuel this
      cut count k s = Ok s' ->
    forall (i : nat) c cn,
      (k <= i < k + count)%nat ->
      CoreNode.children n !! i = Some c ->
      nodes s !! c = Some cn ->
      hasFlag (CoreNode.updateType cn) UpdateType.CalculatedZIndex = true ->
      exists n', nodes s' !! this = Some n'
        /\ hasFlag (CoreNode.updateType n') UpdateType.ZIndexSortedChildren
           = true.
Proof.
  induction count as [|count IH];
    intros k s s' n Hcpb Hnd Hanc Hn Hrun i c cn Hi Hci Hcn Hfl; [lia|].
  simpl in Hrun. rewrite (getNode_lookup _ _ _ Hn) in Hrun. simpl in Hrun.
  destruct (CoreNode.children n !! k) as [child|] eqn:Hk.
  2:{ apply lookup_lt_Some in Hci. apply lookup_ge_None in Hk. lia. }
  assert (Hkid : kid (nodes s) this child).
  { exists n. split; [done|]. by eapply list_elem_of_lookup_2. }
  assert (Hkidc : kid (nodes s) this c).
  { exists n. split; [done|]. by eapply list_elem_of_lookup_2. }
  apply rbind_Ok in Hrun as (sa & Hset & Hrun).
  destruct (setUpdateType_child_frame _ _ _ _ _ _ _ Hcpb Hanc Hkid Hset)
    as (Fa & Sa & Ga).
  assert (Hcpba : children_point_back (nodes sa))
    by (by eapply pass_frame_children_point_back).
  assert (Hnda : kids_NoDup (nodes sa))
    by (by eapply pass_frame_kids_NoDup).
  assert (Hanca : ancestors (nodes sa) this lc)
    by (by eapply pass_frame_ancestors).
  assert (Hca : ancestors (nodes sa) child (this :: lc)).
  { eapply pass_frame_ancestors; [exact Fa|]. by apply child_ancestors. }
  assert (Hcc : ancestors (nodes sa) c (this :: lc)).
  { eapply pass_frame_ancestors; [exact Fa|]. by apply child_ancestors. }
  destruct (Ga this n Hn) as (na & Hna & Ena & _).
  destruct (Ga c cn Hcn) as (cna & Hcna & _ & Mca).
  assert (Hcia : CoreNode.children na !! i = Some c)
    by (by rewrite (strip_children _ _ Ena)).
  assert (Hfla : hasFlag (CoreNode.updateType cna)
                   UpdateType.CalculatedZIndex = true)
    by (by eapply hasFlag_mask_le).
  apply rbind_Ok in Hrun as (cn0 & Hcn0 & Hrun). apply getNode_Ok in Hcn0.
  destruct (decide (i = k)) as [->|Hik].
  - (* the turn of the child *)
    assert (child = c) as -> by congruence.
    assert (cn0 = cna) as -> by congruence.
    rewrite (hasFlag_nonzero _ _ Hfla) in Hrun.
    apply rbind_Ok in Hrun as (n' & Hn' & Hrun).
    apply rbind_Ok in Hrun as (sb & Hb & Hrun).
    destruct (update_flags_parent _ _ _ _ _ _ _ _ _ Hcpba Hca Hcna Hfla Hb)
      as (pn' & Hpn' & Hflp).
    pose proof (update_frame stage delta fuel _ _ _ _ _ Hcpba Hca Hb) as Fb.
    destruct (pass_frame_child this c lc sa sb Hanca Hca Fb) as [Fb' _].
    assert (Hcpbb : children_point_back (nodes sb))
      by (by eapply pass_frame_children_point_back).
    assert (Hancb : ancestors (nodes sb) this lc)
      by (by eapply pass_frame_ancestors).
    assert (G : masks_grow
                  (fun m => m = this \/ ~ below (nodes sb) this m) sb s').
    { eapply forEach_update_grows; [|done|done|exact Hrun].
      intros sx c' rx sx' Hcx Hax Hux. split.
      - exact (update_frame stage delta fuel _ _ _ _ _ Hcx Hax Hux).
      - exact (update_grows delta fuel _ _ _ _ _ Hcx Hax Hux). }
    destruct (G this pn') as (n2 & Hn2 & Hle); [by left | done |].
    exists n2. split; [done|]. by eapply hasFlag_mask_le.
  - (* another child is visited first *)
    assert (Hne : child <> c).
    { intros ->. apply Hik.
      eapply NoDup_lookup; [by apply (Hnd this n) | exact Hci | exact Hk]. }
    destruct (CoreNode.updateType cn0 =? 0)%Z.
    + apply (IH (S k) sa s' na Hcpba Hnda Hanca Hna Hrun i c cna);
        [lia | done | done | done].
    + apply rbind_Ok in Hrun as (n' & Hn' & Hrun).
      apply rbind_Ok in Hrun as (sb & Hb & Hrun).
      pose proof (update_frame stage delta fuel _ _ _ _ _ Hcpba Hca Hb) as Fb.
      pose proof (update_grows delta fuel _ _ _ _ _ Hcpba Hca Hb) as Gb.
      destruct (pass_frame_child this child lc sa sb Hanca Hca Fb)
        as [Fb' Sb].
      assert (Hcpbb : children_point_back (nodes sb))
        by (by eapply pass_frame_children_point_back).
      assert (Hndb : kids_NoDup (nodes sb))
        by (by eapply pass_frame_kids_NoDup).
      assert (Hancb : ancestors (nodes sb) this lc)
        by (by eapply pass_frame_ancestors).
      rewrite Hna in Sb.
      destruct (nodes sb !! this) as [nb|] eqn:Hnb; [|discriminate].
      simpl in Sb. apply (inj Some) in Sb.
      destruct (Gb c cna) as (cnb & Hcnb & Mcb); [|done|].
      { intros Hbelow. apply Hne.
        eapply (below_disjoint (nodes sa) child c c (this :: lc)); try done.
        by eapply below_self. }
      apply (IH (S k) sb s' nb Hcpbb Hndb Hancb Hnb Hrun i c cnb);
        [lia | | done |].
      * by rewrite (strip_children _ _ Sb).
      * by eapply hasFlag_mask_le.
Qed.

End PassSteps.
(** ** The accessors and the pass on concrete scenes *)

Section AccessorEvaluation.
Import ZInterp Scenes.

Lemma tree_scene_chain_4 : ancestors (nodes tree_scene) 4%nat [2; 1]%nat.
Proof. apply (chain_of_sound 5). vm_compute. reflexivity. Defined.

Lemma tree_scene_chain_2 : ancestors (nodes tree_scene) 2%nat [1%nat].
Proof. apply (chain_of_sound 5). vm_compute. reflexivity. Defined.

Lemma rtt_scene_chain_4 : ancestors (nodes rtt_scene) 4%nat [3; 2; 1]%nat.
Proof. apply (chain_of_sound 5). vm_compute. reflexivity. Defined.

Lemma rtt_scene_chain_2 : ancestors (nodes rtt_scene) 2%nat [1%nat].
Proof. apply (chain_of_sound 5). vm_compute. reflexivity. Defined.

Lemma guarded_setters_outcome_witness :
  set_y 4 tree_scene 4%nat 50 = Ok tree_scene
  /\ exists s',
       set_rotation 4 tree_scene 4%nat 3 = Ok s'
       /\ assigned 4%nat
            (Props.set_rotation 3 (mkProps 50 50 100 100 (Some 2%nat)))
            UpdateType.ScaleRotate tree_scene s'.
Proof.
  destruct (guarded_setters_outcome 4 tree_scene 4%nat 50
              (CoreNode.set_updateType 0 (mkNode 50 50 100 100 (Some 2%nat) []))
              [2; 1]%nat eq_refl tree_scene_chain_4)
    as (_ & (s1 & H1 & E1) & _); [simpl; lia|].
  destruct (guarded_setters_outcome 4 tree_scene 4%nat 3
              (CoreNode.set_updateType 0 (mkNode 50 50 100 100 (Some 2%nat) []))
              [2; 1]%nat eq_refl tree_scene_chain_4)
    as (_ & _ & _ & _ & _ & _ & _ & _ & (s2 & H2 & E2)); [simpl; lia|].
  split.
  - rewrite H1. f_equal. exact E1.
  - exists s2. split; [exact H2 | exact E2].
Defined.

Lemma paired_setters_outcome_witness :
  set_mount 4 tree_scene 4%nat 0 = Ok tree_scene
  /\ exists s',
       set_pivot 4 tree_scene 4%nat 1 = Ok s'
       /\ assigned 4%nat
            (Props.set_pivot 1
               (Props.set_pivotY 1
                  (Props.set_pivotX 1 (mkProps 50 50 100 100 (Some 2%nat)))))
            UpdateType.Local tree_scene s'.
Proof.
  destruct (paired_setters_outcome 4 tree_scene 4%nat 0
              (CoreNode.set_updateType 0 (mkNode 50 50 100 100 (Some 2%nat) []))
              [2; 1]%nat eq_refl tree_scene_chain_4)
    as ((s1 & H1 & E1) & _); [simpl; lia|].
  destruct (paired_setters_outcome 4 tree_scene 4%nat 1
              (CoreNode.set_updateType 0 (mkNode 50 50 100 100 (Some 2%nat) []))
              [2; 1]%nat eq_refl tree_scene_chain_4)
    as (_ & (s2 & H2 & E2) & _); [simpl; lia|].
  split.
  - rewrite H1. f_equal. exact E1.
  - exists s2. split; [exact H2 | exact E2].
Defined.

Lemma set_color_channels_witness :
  exists s' tl tr bl br,
    set_color 4 tree_scene 4%nat 255 = Ok s'
    /\ assigned 4%nat
         (recolor 255 tl tr bl br (mkProps 50 50 100 100 (Some 2%nat)))
         UpdateType.PremultipliedColors tree_scene s'
    /\ settled 255 0 tl /\ settled 255 0 tr
    /\ settled 255 0 bl /\ settled 255 0 br.
Proof.
  apply (set_color_channels 4 tree_scene 4%nat 255
           (CoreNode.set_updateType 0 (mkNode 50 50 100 100 (Some 2%nat) []))
           [2; 1]%nat eq_refl tree_scene_chain_4).
  simpl. lia.
Defined.

Lemma edge_color_setters_outcome_witness :
  exists s',
    set_colorTop 4 tree_scene 4%nat 255 = Ok s'
    /\ assigned 4%nat
         (Props.set_colorTop 255
            (Props.set_colorTr 255
               (Props.set_colorTl 255 (mkProps 50 50 100 100 (Some 2%nat)))))
         UpdateType.PremultipliedColors tree_scene s'.
Proof.
  destruct (edge_color_setters_outcome 4 tree_scene 4%nat 255
              (CoreNode.set_updateType 0 (mkNode 50 50 100 100 (Some 2%nat) []))
              [2; 1]%nat eq_refl tree_scene_chain_4)
    as ((s1 & H1 & E1) & _); [simpl; lia|].
  exists s1. split; [exact H1 | exact E1].
Defined.

Lemma zOrder_setters_outcome_witness :
  exists s' cn',
    set_zIndex 4 tree_scene 2%nat 5 = Ok s'
    /\ trace s' = []
    /\ nodes s' !! 4%nat = Some cn'
    /\ hasFlag (CoreNode.updateType cn') UpdateType.CalculatedZIndex = true.
Proof.
  destruct (zOrder_setters_outcome 4 tree_scene 2%nat 5
              (CoreNode.set_updateType 0
                 (mkNode 100 100 300 300 (Some 1%nat) [4%nat]))
              [1%nat]
              (tree_consistent_children_point_back _ tree_scene_consistent)
              eq_refl tree_scene_chain_2)
    as ((s1 & H1 & T1 & _ & _ & C1) & _); [simpl; lia|].
  destruct (C1 4%nat) as (cn' & Hcn' & Hflag); [by left|].
  exists s1, cn'. split; [exact H1|]. split; [exact T1|].
  split; [exact Hcn' | exact Hflag].
Defined.


Lemma set_texture_outcome_witness :
  exists s',
    set_texture 3 rtt_scene 2%nat None = Ok s'
    /\ assigned 2%nat (Props.set_texture None (CoreNode.props rtt_owner))
         UpdateType.IsRenderable
         (logged rtt_scene
            [SetRenderableOwner 77%nat 2%nat false;
             TextureOff 77%nat 2%nat "loaded";
             TextureOff 77%nat 2%nat "failed";
             TextureOff 77%nat 2%nat "freed";
             SetRenderableOwner 77%nat 2%nat false])
         s'.
Proof.
  destruct (set_texture_outcome 3 rtt_scene 2%nat None rtt_owner [1%nat]
              eq_refl rtt_scene_chain_2)
    as (s1 & H1 & E1); [simpl; lia|].
  exists s1. split; [exact H1 | exact E1].
Defined.



Lemma parentRenderTexture_nearest_witness :
  exists an,
    parentRenderTexture 3 rtt_scene 4%nat = Ok (Some 2%nat)
    /\ nodes rtt_scene !! 2%nat = Some an
    /\ Props.rtt (CoreNode.props an) = true.
Proof.
  destruct (parentRenderTexture_nearest 3 rtt_scene 4%nat [3; 2; 1]%nat
              rtt_scene_chain_4)
    as (r & Hrun & Hr); [simpl; lia|].
  assert (E : r = Some 2%nat).
  { assert (H : parentRenderTexture 3 rtt_scene 4%nat = Ok (Some 2%nat))
      by (vm_compute; reflexivity).
    rewrite H in Hrun. by injection Hrun as <-. }
  subst r. destruct Hr as (i & an & _ & Han & Hrtt & _).
  exists an. split; [exact Hrun|]. split; [exact Han | exact Hrtt].
Defined.

Lemma hasRttAncestor_agrees_witness :
  exists r,
    parentRenderTexture 3 rtt_scene 4%nat = Ok r
    /\ hasRttAncestor 3 rtt_scene (Some 3%nat) false
       = Ok (match r with Some _ => true | None => false end).
Proof.
  apply (hasRttAncestor_agrees 3 rtt_scene 4%nat
           (inside_rtt (mkNode 0 0 50 50 (Some 3%nat) []))
           [3; 2; 1]%nat eq_refl rtt_scene_chain_4).
  simpl. lia.
Defined.

Lemma framebufferDimensions_source_witness :
  exists d (i a : nat) an,
    framebufferDimensions 4 rtt_scene 4%nat = Ok d
    /\ [4; 3; 2; 1]%nat !! i = Some a /\ nodes rtt_scene !! a = Some an
    /\ d = Dimensions.mk (Props.width (CoreNode.props an))
             (Props.height (CoreNode.props an)).
Proof.
  destruct (framebufferDimensions_source [3; 2; 1]%nat 4 rtt_scene 4%nat
              rtt_scene_chain_4)
    as (d & i & a & an & Hrun & Hi & Han & Hd & _); [simpl; lia|].
  exists d, i, a, an. split; [exact Hrun|]. split; [exact Hi|].
  split; [exact Han | exact Hd].
Defined.

Lemma absY_sums_chain_witness :
  exists nds,
    Forall2 (fun a an => nodes tree_scene !! a = Some an) [4; 2; 1]%nat nds
    /\ absY 3 tree_scene 4%nat
       = Ok (foldr (fun an acc => Props.y (CoreNode.props an) + acc) 0 nds).
Proof.
  destruct (absY_sums_chain [2; 1]%nat 3 tree_scene 4%nat tree_scene_chain_4)
    as (nds & Hnds & Hrun); [simpl; lia|].
  exists nds. split; [exact Hnds | exact Hrun].
Defined.

Lemma update_keeps_tree_witness :
  tree_consistent (nodes moved_scene_updated)
  /\ parents (nodes moved_scene_updated) = parents (nodes moved_scene)
  /\ nodes moved_scene_updated !! 1%nat = nodes moved_scene !! 1%nat.
Proof.
  destruct (update_keeps_tree stage0 10 0 moved_scene 2%nat no_clip
              moved_scene_updated [1%nat] moved_scene_consistent
              moved_scene_ancestors moved_scene_updates)
    as (Htree & Hparents & _ & Hstrip & _).
  split; [exact Htree|]. split; [exact Hparents|].
  vm_compute. reflexivity.
Defined.

Lemma fresh_rtt_scene_chain_2 :
  ancestors (nodes fresh_rtt_scene) 2%nat [1%nat].
Proof. apply (chain_of_sound 5). vm_compute. reflexivity. Defined.

Lemma fresh_rtt_scene_consistent : tree_consistent (nodes fresh_rtt_scene).
Proof. apply tree_consistentb_sound. vm_compute. reflexivity. Defined.

Lemma update_stops_at_render_target_witness :
  exists s',
    update_log stage0 10 fresh_rtt_scene 2%nat 0 no_clip = Ok (s', [2%nat])
    /\ forall m, m <> 2%nat ->
         strip <$> nodes s' !! m = strip <$> nodes fresh_rtt_scene !! m.
Proof.
  exists (final_state (update stage0 10 fresh_rtt_scene 2%nat 0 no_clip)
            fresh_rtt_scene).
  assert (Hrun : update_log stage0 10 fresh_rtt_scene 2%nat 0 no_clip
                 = Ok (final_state
                         (update stage0 10 fresh_rtt_scene 2%nat 0 no_clip)
                         fresh_rtt_scene, [2%nat]))
    by (vm_compute; reflexivity).
  split; [exact Hrun|].
  apply (update_stops_at_render_target stage0 10 0 fresh_rtt_scene 2%nat
           no_clip _ [2%nat]
           (set_props_rtt true (mkNode 100 100 300 300 (Some 1%nat) [3%nat]))
           [1%nat]
           (tree_consistent_children_point_back _ fresh_rtt_scene_consistent)
           eq_refl fresh_rtt_scene_chain_2 eq_refl Hrun).
Defined.


End AccessorEvaluation.
